(** * nipsi: non-interactive private set intersection

    A shallow embedding of the schemes of [nipsi/twoclient.py] and
    [nipsi/multiclient.py], and the properties their specification states.

    Python [bytes] are lists of [byte]; Python sets of byte strings are
    [gset]s and dictionaries keyed by byte strings are [gmap]s (stdpp); the
    elements of the scalar field ZR of the curve are [Zmod q] (Standard
    Library), for the group order [q].  The libraries the code calls (the AES
    block cipher, AES-GCM, SHA-256, MurmurHash3, the elliptic-curve group of
    charm) are interfaces: a class per library, with the laws the library
    documents, and one small instance of each on which the definitions can be
    run. *)

From Stdlib Require Import ZArith List Lia Zmod Field Permutation.
From Stdlib Require Import Strings.Byte.
From stdpp Require Import gmap list.
Import ListNotations.
Open Scope Z_scope.

(** * Part I: the model *)

(** ** Byte strings *)

Abbreviation bytes := (list byte).

#[global] Instance byte_eq_dec : EqDecision byte.
Proof.
  intros a b. destruct (Byte.eqb a b) eqn:E.
  - left. now apply Byte.byte_dec_bl.
  - right. intros ->. now rewrite (Byte.byte_dec_lb eq_refl) in E.
Defined.

#[global] Instance byte_countable : Countable byte :=
  inj_countable Byte.to_N Byte.of_N Byte.of_to_N.

Definition byte_of_Z (z : Z) : byte :=
  match Byte.of_N (Z.to_N (z mod 256)) with
  | Some b => b
  | None => x00
  end.

Definition byte_to_Z (b : byte) : Z := Z.of_N (Byte.to_N b).

Definition byte_xor (a b : byte) : byte :=
  byte_of_Z (Z.lxor (byte_to_Z a) (byte_to_Z b)).

(** [a ^ b] on two byte strings, as far as the shorter one goes. *)
Fixpoint xor_bytes (a b : bytes) : bytes :=
  match a, b with
  | x :: a', y :: b' => byte_xor x y :: xor_bytes a' b'
  | _, _ => []
  end.

(** [int.from_bytes(bs, 'big')] *)
Definition int_from_bytes (bs : bytes) : Z :=
  fold_left (fun acc b => acc * 256 + byte_to_Z b) bs 0.

(** [i.to_bytes(len, 'big')], for [0 <= i < 256 ^ len]. *)
Fixpoint int_to_bytes (len : nat) (i : Z) : bytes :=
  match len with
  | O => []
  | S len' => int_to_bytes len' (i / 256) ++ [byte_of_Z i]
  end.

(** [i.bit_length()] *)
Definition bit_length (i : Z) : nat :=
  match i with
  | Z0 => O
  | Zpos p | Zneg p => Pos.to_nat (Pos.size p)
  end.

(** ** Results of code that may raise *)

Inductive exn : Type :=
  | InvalidTag          (* cryptography.exceptions.InvalidTag *)
  | DeserializeError    (* charm fails to deserialize *)
  | IndexError
  | KeyError
  | AttributeError
  | RecursionError
  | AssertionError
  | OverflowError
  | ZeroDivisionError
  | ValueError.

Inductive result (A : Type) : Type :=
  | Ok (a : A)
  | Raise (e : exn).
Arguments Ok {A} a.
Arguments Raise {A} e.

#[global] Instance exn_eq_dec : EqDecision exn.
Proof. solve_decision. Defined.

#[global] Instance result_eq_dec {A} `{EqDecision A} : EqDecision (result A).
Proof. solve_decision. Defined.

#[global] Instance result_ret : MRet result := fun A a => Ok a.
#[global] Instance result_bind : MBind result := fun A B f r =>
  match r with
  | Ok a => f a
  | Raise e => Raise e
  end.

(** ** The AES block cipher, and CBC mode over it

    [Cipher(algorithms.AES(key), modes.CBC(iv))]: the block cipher itself is
    the library's; the mode is written out. *)

Class BlockCipher := {
  (** one 16-byte block under a key *)
  E : bytes -> bytes -> bytes;
  E_length : forall key block, length (E key block) = 16%nat
}.

Section CBC.
Context {BC : BlockCipher}.

(** [encryptor.update(pt) + encryptor.finalize()] on block-aligned input:
    each block is xor-ed with the previous ciphertext block (the iv for
    the first one) and encrypted.  [n] is the number of blocks. *)
Fixpoint cbc_blocks (n : nat) (key prev pt : bytes) : bytes :=
  match n with
  | O => []
  | S n' =>
      let c := E key (xor_bytes (take 16 pt) prev) in
      c ++ cbc_blocks n' key c (drop 16 pt)
  end.

Definition cbc_encrypt (key iv pt : bytes) : bytes :=
  cbc_blocks (length pt / 16) key iv pt.

(** [_prf(cipher, pt)] of both modules (and the first half of [_phi] and
    [_psi]), with [cipher = Cipher(AES(key), CBC(iv))]:
<<
    padding_len = 16 - (len(pt) % 16)
    pt = pt + b'\0' * padding_len
>> *)
Definition padding_len (pt : bytes) : nat := 16 - (length pt mod 16).

Definition pad (pt : bytes) : bytes := pt ++ repeat x00 (padding_len pt).

Definition _prf (key iv pt : bytes) : bytes := cbc_encrypt key iv (pad pt).
End CBC.

(** [Cipher(algorithms.AES(key), modes.CBC(iv), backend=default_backend())]:
    [algorithms.AES] takes a key of 128, 192 or 256 bits and the mode an iv
    of one block, 16 bytes; the library raises [ValueError] otherwise.  The
    cipher object is the pair of the key and the iv, which [_prf] takes. *)
Definition aes_key_size (key : bytes) : bool :=
  (length key =? 16)%nat || (length key =? 24)%nat || (length key =? 32)%nat.

Definition Cipher (key iv : bytes) : result (bytes * bytes) :=
  if aes_key_size key && (length iv =? 16)%nat then Ok (key, iv)
  else Raise ValueError.

(** ** The elliptic-curve group of charm ([ECGroup(prime256v1)])

    A group of prime order [order] written multiplicatively, with its scalar
    field ZR, the integers modulo [order].  [ECGroup.random] reads its
    entropy from a tape, see [rng] below. *)

Class ECGroup := {
  order : Z;                                   (* group.order() *)
  order_prime : Z.prime order;
  point : Type;                                (* the elements of G *)
  point_eq_dec :: EqDecision point;
  one : point;
  mul : point -> point -> point;               (* P * Q *)
  pow : point -> Zmod order -> point;          (* P ** s *)
  hash_to_point : bytes -> point;              (* group.hash(bs, G) *)
  sample_point : Z -> point;                   (* group.random(G) *)
  serialize : point -> bytes;                  (* on an element of G *)
  deserialize : bytes -> option point;
  serialize_ZR : Zmod order -> bytes;          (* on an element of ZR *)
  deserialize_ZR : bytes -> option (Zmod order);
  mul_assoc : forall a b c, mul a (mul b c) = mul (mul a b) c;
  mul_comm : forall a b, mul a b = mul b a;
  mul_one_l : forall a, mul one a = a;
  pow_zero : forall a, pow a Zmod.zero = one;
  pow_one : forall a, pow a Zmod.one = a;
  pow_add : forall a s t, mul (pow a s) (pow a t) = pow a (Zmod.add s t);
  deserialize_serialize : forall a, deserialize (serialize a) = Some a;
  deserialize_serialize_ZR :
    forall s, deserialize_ZR (serialize_ZR s) = Some s
}.

Abbreviation ZR := (Zmod order).

#[global] Instance Zmod_eq_dec (m : Z) : EqDecision (Zmod m).
Proof.
  intros a b. destruct (Z.eq_dec (Zmod.to_Z a) (Zmod.to_Z b)) as [e|n].
  - left. now apply Zmod.unsigned_inj.
  - right. intros ->. now apply n.
Defined.

(** [group.init(ZR, i)], and an [int] where the code mixes it with ZR. *)
Definition init_ZR `{ECGroup} (i : Z) : ZR := Zmod.of_Z order i.

(** [sum(xs)] in ZR. *)
Definition zr_sum `{ECGroup} (xs : list ZR) : ZR :=
  fold_left Zmod.add xs Zmod.zero.

(** ** Randomness

    [os.urandom] and [ECGroup.random] read a tape of integers, one per
    call. *)

Record rng := { tape : nat -> Z; pos : nat }.

Definition draw (r : rng) : Z * rng :=
  (tape r (pos r), {| tape := tape r; pos := S (pos r) |}).

(** The [n] bytes of [os.urandom(n)] *)
Definition urandom (n : nat) (r : rng) : bytes * rng :=
  let (z, r') := draw r in (int_to_bytes n z, r').

(** [os.urandom(n)], on an [int]: [ValueError] for a negative [n]. *)
Definition os_urandom (n : Z) (r : rng) : result (bytes * rng) :=
  if n <? 0 then Raise ValueError else Ok (urandom (Z.to_nat n) r).

(** [group.random(ZR)] *)
Definition random_ZR `{ECGroup} (r : rng) : ZR * rng :=
  let (z, r') := draw r in (init_ZR z, r').

(** [group.random(G)] *)
Definition random_G `{ECGroup} (r : rng) : point * rng :=
  let (z, r') := draw r in (sample_point z, r').

(** [[group.random(ZR) for _ in range(n)]] *)
Fixpoint random_ZRs `{ECGroup} (n : nat) (r : rng) : list ZR * rng :=
  match n with
  | O => ([], r)
  | S n' =>
      let (x, r1) := random_ZR r in
      let (xs, r2) := random_ZRs n' r1 in
      (x :: xs, r2)
  end.

(** ** The iteration order of a Python set

    A [set] of byte strings is a [gset bytes]; a loop over it meets its
    elements in an order the language leaves open, here any enumeration. *)

Class IterOrder := {
  iter : gset bytes -> list bytes;
  iter_perm : forall X, iter X ≡ₚ elements X
}.

(** * multiclient.py: [Cardinality] *)

Module MultiClientCardinality.
Section Scheme.
Context `{ECGroup} `{IterOrder}.

(** The attributes of a scheme object: [self.g] of [__init__], and
    [self.client_count] once [setup] has run. *)
Record scheme := { g : point; client_count : option Z }.

Definition init (r : rng) : scheme * rng :=
  let (g0, r') := random_G r in ({| g := g0; client_count := None |}, r').

(** [setup(self, secpar, client_count)]:
<<
    usks = [self.group.random(ZR) for _ in range(client_count-1)]
    usks.append(-sum(usks))
>> *)
Definition setup (self : scheme) (secpar count : Z) (r : rng)
    : scheme * list ZR * rng :=
  let self' := {| g := g self; client_count := Some count |} in
  let (usks, r') := random_ZRs (Z.to_nat (count - 1)) r in
  (self', usks ++ [Zmod.opp (zr_sum usks)], r').

(** [encrypt(self, usk, gid, pt_set)]; [pt_set] in the order the loop
    meets it. *)
Definition encrypt_one (usk : ZR) (gid pt : bytes) : bytes :=
  serialize (pow (hash_to_point (gid ++ pt)) usk).

Definition encrypt (self : scheme) (usk : ZR) (gid : bytes)
    (pt_set : list bytes) : gset bytes :=
  list_to_set (map (encrypt_one usk gid) pt_set).

(** The leaf loop of [intersection_count]: the first [ct_str] of the set
    with [product * ct == one] is removed and counted, and the loop
    breaks. *)
Fixpoint leaf_loop (product : point) (cands : list bytes)
    (ct_set : gset bytes) : result (nat * gset bytes) :=
  match cands with
  | [] => Ok (O, ct_set)
  | ct_str :: cands' =>
      match deserialize ct_str with
      | None => Raise DeserializeError
      | Some ct =>
          if decide (mul product ct = one)
          then Ok (1%nat, ct_set ∖ {[ct_str]})
          else leaf_loop product cands' ct_set
      end
  end.

(** The loop of an inner node, over a copy of the set: each candidate is
    multiplied into the product and the search goes on in the sets before,
    which come back with what was matched removed. *)
Fixpoint node_loop
    (rec : list (gset bytes) -> point -> result (nat * list (gset bytes)))
    (product : point) (cands : list bytes)
    (count : nat) (ct_sets : list (gset bytes)) (ct_set : gset bytes)
    : result (nat * list (gset bytes) * gset bytes) :=
  match cands with
  | [] => Ok (count, ct_sets, ct_set)
  | ct_str :: cands' =>
      match deserialize ct_str with
      | None => Raise DeserializeError
      | Some ct =>
          '(found, ct_sets') ← rec ct_sets (mul product ct);
          if decide (found = 1%nat)
          then node_loop rec product cands' (S count) ct_sets'
                 (ct_set ∖ {[ct_str]})
          else node_loop rec product cands' count ct_sets' ct_set
      end
  end.

(** [intersection_count(ct_sets, product)]; it calls itself on a list one
    shorter, [depth] bounds the nesting. *)
Fixpoint intersection_count (depth : nat) (ct_sets : list (gset bytes))
    (product : point) : result (nat * list (gset bytes)) :=
  match last ct_sets with
  | None => Raise IndexError
  | Some ct_set =>
      let ct_sets := removelast ct_sets in
      match depth with
      | O => Raise RecursionError
      | S depth' =>
          if decide (ct_sets = []) then
            '(count, ct_set) ← leaf_loop product (iter ct_set) ct_set;
            mret (count, ct_sets ++ [ct_set])
          else
            '(count, ct_sets, ct_set) ←
              node_loop (intersection_count depth') product (iter ct_set)
                O ct_sets ct_set;
            mret (count, ct_sets ++ [ct_set])
      end
  end.

(** [eval(self, ct_sets)] *)
Definition eval (self : scheme) (ct_sets : list (gset bytes)) : result nat :=
  let one := pow (g self) Zmod.zero in
  '(cardinality, _) ← intersection_count (length ct_sets) ct_sets one;
  mret cardinality.

End Scheme.
End MultiClientCardinality.

(** * multiclient.py: [BloomFilter] *)

(** MurmurHash3 ([mmh3.hash], a signed 32-bit integer, and
    [mmh3.hash128]). *)
Class Murmur := {
  mmh3_hash : bytes -> Z;
  mmh3_hash128 : bytes -> Z
}.

(** [xs[i]] on a Python sequence: a negative index counts from the end. *)
Definition py_index {A} (xs : list A) (i : Z) : result A :=
  let j := if i <? 0 then i + Z.of_nat (length xs) else i in
  if j <? 0 then Raise IndexError
  else match xs !! Z.to_nat j with
       | Some x => Ok x
       | None => Raise IndexError
       end.

(** [xs[i] = v] *)
Definition py_store {A} (xs : list A) (i : Z) (v : A) : result (list A) :=
  let j := if i <? 0 then i + Z.of_nat (length xs) else i in
  if j <? 0 then Raise IndexError
  else if (Z.to_nat j <? length xs)%nat then Ok (<[Z.to_nat j := v]> xs)
  else Raise IndexError.

(** [i.to_bytes(len, 'big')] *)
Definition to_bytes (len : nat) (i : Z) : result bytes :=
  if (0 <=? i) && (i <? 256 ^ Z.of_nat len) then Ok (int_to_bytes len i)
  else Raise OverflowError.

Module BitString.

Definition bit_weights : list Z :=
  [
   0; 1; 1; 2; 1; 2; 2; 3; 1; 2; 2; 3; 2; 3; 3; 4;
   1; 2; 2; 3; 2; 3; 3; 4; 2; 3; 3; 4; 3; 4; 4; 5;
   1; 2; 2; 3; 2; 3; 3; 4; 2; 3; 3; 4; 3; 4; 4; 5;
   2; 3; 3; 4; 3; 4; 4; 5; 3; 4; 4; 5; 4; 5; 5; 6;
   1; 2; 2; 3; 2; 3; 3; 4; 2; 3; 3; 4; 3; 4; 4; 5;
   2; 3; 3; 4; 3; 4; 4; 5; 3; 4; 4; 5; 4; 5; 5; 6;
   2; 3; 3; 4; 3; 4; 4; 5; 3; 4; 4; 5; 4; 5; 5; 6;
   3; 4; 4; 5; 4; 5; 5; 6; 4; 5; 5; 6; 5; 6; 6; 7;
   1; 2; 2; 3; 2; 3; 3; 4; 2; 3; 3; 4; 3; 4; 4; 5;
   2; 3; 3; 4; 3; 4; 4; 5; 3; 4; 4; 5; 4; 5; 5; 6;
   2; 3; 3; 4; 3; 4; 4; 5; 3; 4; 4; 5; 4; 5; 5; 6;
   3; 4; 4; 5; 4; 5; 5; 6; 4; 5; 5; 6; 5; 6; 6; 7;
   2; 3; 3; 4; 3; 4; 4; 5; 3; 4; 4; 5; 4; 5; 5; 6;
   3; 4; 4; 5; 4; 5; 5; 6; 4; 5; 5; 6; 5; 6; 6; 7;
   3; 4; 4; 5; 4; 5; 5; 6; 4; 5; 5; 6; 5; 6; 6; 7;
   4; 5; 5; 6; 5; 6; 6; 7; 5; 6; 6; 7; 6; 7; 7; 8
  ].

(** [self.l] and the bytearray [self._bs], a byte an integer below 256. *)
Record t := { l : Z; _bs : list Z }.

(** [BitString(l)] *)
Definition new (l0 : Z) : t :=
  {| l := l0; _bs := repeat 0 (Z.to_nat ((l0 + 7) / 8)) |}.

(** [self[key]] *)
Definition getitem (self : t) (key : Z) : result Z :=
  let byte_index := key / 8 in
  byte ← py_index (_bs self) byte_index;
  let shift := key mod 8 in
  let bit_index := Z.shiftl 1 shift in
  mret (Z.shiftr (Z.land byte bit_index) shift).

(** [self[key] = value]: the bit is set whatever [value] is. *)
Definition setitem (self : t) (key value : Z) : result t :=
  if negb ((value =? 0) || (value =? 1)) then Raise AssertionError else
  let byte_index := key / 8 in
  byte ← py_index (_bs self) byte_index;
  let shift := key mod 8 in
  let bit_index := Z.shiftl 1 shift in
  old ← py_index (_bs self) byte_index;
  bs' ← py_store (_bs self) byte_index (Z.lor old bit_index);
  mret {| l := l self; _bs := bs' |}.

(** The loop of [__and__] and [__or__], over [range(self.l // 8)]. *)
Fixpoint bytewise (op : Z -> Z -> Z) (a b : list Z) (idx : list nat)
    (acc : list Z) : result (list Z) :=
  match idx with
  | [] => Ok acc
  | i :: idx' =>
      x ← py_index a (Z.of_nat i);
      y ← py_index b (Z.of_nat i);
      acc' ← py_store acc (Z.of_nat i) (op x y);
      bytewise op a b idx' acc'
  end.

Definition combine (op : Z -> Z -> Z) (self other : t) : result t :=
  if negb (l self =? l other) then Raise AssertionError else
  let bs := new (l self) in
  bs' ← bytewise op (_bs self) (_bs other)
          (seq 0 (Z.to_nat (l self / 8))) (_bs bs);
  mret {| l := l bs; _bs := bs' |}.

(** [self & other] *)
Definition and_ (self other : t) : result t := combine Z.land self other.

(** [self | other] *)
Definition or_ (self other : t) : result t := combine Z.lor self other.

(** [weight(self)] *)
Definition weight (self : t) : result Z :=
  ws ← mapM (fun byte => py_index bit_weights byte) (_bs self);
  mret (fold_left Z.add ws 0).

End BitString.

Module BloomFilter.
Section WithHash.
Context `{Murmur}.

(** [self.m], [self.k], [self.bs] and the hash functions [self._h]. *)
Record t := {
  m : Z;
  k : Z;
  bs : BitString.t;
  _h : list (bytes -> result Z)
}.

(** [BloomFilter(m, k)]:
<<
    H = mmh3.hash128 if m.bit_length() > 32 else mmh3.hash
    self._h = [(lambda x: (lambda y: H(x + y) % m))
                 (i.to_bytes(k.bit_length(), 'big')) for i in range(k)]
>> *)
Definition new (m0 k0 : Z) : t :=
  let H := if (32 <? bit_length m0)%nat then mmh3_hash128 else mmh3_hash in
  {| m := m0;
     k := k0;
     bs := BitString.new m0;
     _h := map (fun i =>
                  let x := int_to_bytes (bit_length k0) (Z.of_nat i) in
                  fun y => if m0 =? 0 then Raise ZeroDivisionError
                           else Ok (H (x ++ y) mod m0))
               (seq 0 (Z.to_nat k0)) |}.

(** [item in self]: [all(self.bs[h(item)] for h in self._h)] *)
Fixpoint contains_loop (b : BitString.t) (hs : list (bytes -> result Z))
    (item : bytes) : result bool :=
  match hs with
  | [] => Ok true
  | h :: hs' =>
      i ← h item;
      bit ← BitString.getitem b i;
      if bit =? 0 then Ok false else contains_loop b hs' item
  end.

Definition contains (self : t) (item : bytes) : result bool :=
  contains_loop (bs self) (_h self) item.

(** [self.empty()] *)
Definition empty (self : t) : t :=
  let bf := new (m self) (k self) in
  {| m := m bf; k := k bf; bs := bs bf; _h := _h self |}.

(** [self.add(elem)] *)
Fixpoint add_loop (b : BitString.t) (hs : list (bytes -> result Z))
    (elem : bytes) : result BitString.t :=
  match hs with
  | [] => Ok b
  | h :: hs' =>
      i ← h elem;
      b' ← BitString.setitem b i 1;
      add_loop b' hs' elem
  end.

Definition add (self : t) (elem : bytes) : result t :=
  b ← add_loop (bs self) (_h self) elem;
  mret {| m := m self; k := k self; bs := b; _h := _h self |}.

(** [for elem in elems: self.add(elem)], the loop with which the callers
    fill a filter. *)
Fixpoint add_all (self : t) (elems : list bytes) : result t :=
  match elems with
  | [] => Ok self
  | elem :: elems' =>
      self' ← add self elem;
      add_all self' elems'
  end.

(** [self.union(other)], also [self | other] *)
Definition union (self other : t) : result t :=
  let bf := empty self in
  b ← BitString.or_ (bs self) (bs other);
  mret {| m := m bf; k := k bf; bs := b; _h := _h bf |}.

(** [self.intersection(other)], also [self & other] *)
Definition intersection (self other : t) : result t :=
  let bf := empty self in
  b ← BitString.and_ (bs self) (bs other);
  mret {| m := m bf; k := k bf; bs := b; _h := _h bf |}.

(** [self.weight()] *)
Definition weight (self : t) : result Z := BitString.weight (bs self).

End WithHash.
End BloomFilter.

Definition py_range (a b : Z) : list Z :=
  map (fun j => a + Z.of_nat j) (seq 0 (Z.to_nat (b - a))).

(** An attribute that may not have been assigned yet. *)
Definition attr {A} (o : option A) : result A :=
  match o with
  | Some a => Ok a
  | None => Raise AttributeError
  end.

(** * multiclient.py: [CardinalityEfficient] *)

Module MultiClientCardinalityEfficient.
Section Scheme.
Context `{ECGroup} `{BlockCipher} `{Murmur}.

(** [self.g] of the inherited [__init__]; [self.client_count], which no
    method of the class assigns; [self.m] and [self.k] once [setup] has
    run. *)
Record scheme := {
  g : point;
  client_count : option Z;
  m : option Z;
  k : option Z
}.

Definition init (r : rng) : scheme * rng :=
  let (g0, r') := random_G r in
  ({| g := g0; client_count := None; m := None; k := None |}, r').

(** [f(x) = sum([c * x**i for i, c in enumerate(cs)])], [x] an [int]. *)
Definition f (cs : list ZR) (x : Z) : ZR :=
  zr_sum (imap (fun i c => Zmod.mul c (init_ZR (x ^ Z.of_nat i))) cs).

(** [cs = [0] + [self.group.random(ZR) for i in range(self.client_count)]] *)
Definition coefficients (n : Z) (r : rng) : list ZR * rng :=
  let (rs, r') := random_ZRs (Z.to_nat n) r in (Zmod.zero :: rs, r').

(** [setup(self, secpar, client_count, m, k)]; the parameter
    [client_count] is [count] here. *)
Definition setup (self : scheme) (secpar count m0 k0 : Z) (r : rng)
    : result (scheme * list (bytes * ZR * ZR) * rng) :=
  let self' := {| g := g self; client_count := client_count self;
                  m := Some m0; k := Some k0 |} in
  '(phi_key, r1) ← os_urandom (secpar / 8) r;
  n ← attr (client_count self');
  let (cs, r2) := coefficients n r1 in
  let usks := map (fun i => (phi_key, f cs i, f cs (n + i)))
                (py_range 1 (1 + n)) in
  mret (self', usks, r2).

(** The loop over the [m] bits of one element's filter:
<<
    ct = H(i.to_bytes(self.k.bit_length(), 'big') + gid, G) ** fni
    gr = self.group.random(G)
    if bf.bs[i] == 0: grho = self.group.random(G)
    else:             grho = gr ** t
    ct *= grho
    ct_element.append((ct, gr))
>> *)
Fixpoint element_loop (bf : BloomFilter.t) (k0 : Z) (gid : bytes) (fni : ZR)
    (t : Z) (idx : list Z) (r : rng) : result (list (point * point) * rng) :=
  match idx with
  | [] => Ok ([], r)
  | i :: idx' =>
      ib ← to_bytes (bit_length k0) i;
      let ct := pow (hash_to_point (ib ++ gid)) fni in
      let (gr, r1) := random_G r in
      bit ← BitString.getitem (BloomFilter.bs bf) i;
      let (grho, r2) :=
        if bit =? 0 then random_G r1 else (pow gr (init_ZR t), r1) in
      let ct := mul ct grho in
      '(rest, r3) ← element_loop bf k0 gid fni t idx' r2;
      mret ((ct, gr) :: rest, r3)
  end.

(** The loop over the plaintext set. *)
Fixpoint elements_loop (m0 k0 : Z) (phi_key gid : bytes) (fni : ZR)
    (pts : list bytes) (bf_set : BloomFilter.t) (r : rng)
    : result (BloomFilter.t * list (list (point * point)) * rng) :=
  match pts with
  | [] => Ok (bf_set, [], r)
  | pt :: pts' =>
      let ct := _prf phi_key gid pt in
      bf_set' ← BloomFilter.add bf_set ct;
      bf ← BloomFilter.add (BloomFilter.new m0 k0) ct;
      t ← BloomFilter.weight bf;
      '(ct_element, r1) ←
        element_loop bf k0 gid fni t (py_range 0 (BloomFilter.m bf)) r;
      '(bf_set'', rest, r2) ←
        elements_loop m0 k0 phi_key gid fni pts' bf_set' r1;
      mret (bf_set'', ct_element :: rest, r2)
  end.

(** The loop over the [m] bits of the filter of the whole set. *)
Fixpoint bf_set_loop (bf_set : BloomFilter.t) (k0 : Z) (gid : bytes)
    (fi : ZR) (idx : list Z) (r : rng) : result (list point * rng) :=
  match idx with
  | [] => Ok ([], r)
  | i :: idx' =>
      ib ← to_bytes (bit_length k0) i;
      let ct := pow (hash_to_point (ib ++ gid)) fi in
      bit ← BitString.getitem (BloomFilter.bs bf_set) i;
      let (ct', r1) :=
        if bit =? 0 then let (x, r1) := random_G r in (mul ct x, r1)
        else (ct, r) in
      '(rest, r2) ← bf_set_loop bf_set k0 gid fi idx' r1;
      mret (ct' :: rest, r2)
  end.

(** [encrypt(self, usk, gid, pt_set)] *)
Definition encrypt (self : scheme) (usk : bytes * ZR * ZR) (gid : bytes)
    (pt_set : list bytes) (r : rng)
    : result (list point * list (list (point * point)) * rng) :=
  let '(phi_key, fi, fni) := usk in
  m0 ← attr (m self);
  k0 ← attr (k self);
  let bf_set := BloomFilter.new m0 k0 in
  let iv := gid in
  '(phi_key, iv) ← Cipher phi_key iv;
  '(bf_set', ct_elements, r1) ←
    elements_loop m0 k0 phi_key iv fni pt_set bf_set r;
  '(ct_bf_set, r2) ←
    bf_set_loop bf_set' k0 gid fi (py_range 0 (BloomFilter.m bf_set')) r1;
  mret (ct_bf_set, ct_elements, r2).

(** The ciphertext of one client, the tuple [(ct_bf_set, ct_elements)]. *)
Definition ct_tuple : Type := list point * list (list (point * point)).

(** The search for the smallest set of [eval]:
<<
    smallest_set_index = 0
    smallest_set_size = len(ct_sets[0][1])
    for i in range(1, len(ct_sets)):
        if len(ct_sets[i][1]) < smallest_set_size:
            smallest_set_index = i
            smallest_set_size = len(ct_sets[i][1])
>> *)
Fixpoint smallest_loop (ct_sets : list ct_tuple) (idx : list Z)
    (smallest_set_index : Z) (smallest_set_size : nat) : result (Z * nat) :=
  match idx with
  | [] => Ok (smallest_set_index, smallest_set_size)
  | i :: idx' =>
      c ← py_index ct_sets i;
      if (length c.2 <? smallest_set_size)%nat
      then smallest_loop ct_sets idx' i (length c.2)
      else smallest_loop ct_sets idx' smallest_set_index smallest_set_size
  end.

(** [delta(S, i)], the Lagrange interpolation helper of [eval]. *)
Definition delta (S : list ZR) (i : ZR) : ZR :=
  fold_left (fun prod j =>
               if decide (i = j) then prod
               else Zmod.mul prod (Zmod.mul j (Zmod.inv (Zmod.sub j i))))
            S Zmod.one.

(** The loop over [enumerate(ct_sets)] for one bit [ell]:
<<
    ct_bf_set = ct_set[0]
    ct_i = self.group.init(ZR, i + 1)
    a *= ct_bf_set[ell] ** delta(S, ct_i)
>> *)
Fixpoint a_loop (S : list ZR) (ell : Z) (ct_sets : list ct_tuple) (i : Z)
    (a : point) : result point :=
  match ct_sets with
  | [] => Ok a
  | ct_set :: ct_sets' =>
      let ct_bf_set := ct_set.1 in
      let ct_i := init_ZR (i + 1) in
      c ← py_index ct_bf_set ell;
      a_loop S ell ct_sets' (i + 1) (mul a (pow c (delta S ct_i)))
  end.

(** [range(k, 0, -1)] *)
Definition py_range_down (k0 : Z) : list Z := rev (py_range 1 (k0 + 1)).

(** The search for the candidate [t], over [range(self.k, 0, -1)]:
<<
    rhs = ct_element[ell][1] ** (Delta * i)
    if lhs == rhs: t = i; identical_count = 1; break
>> *)
Fixpoint candidate_loop (gr lhs : point) (Delta : ZR) (cands : list Z)
    : option Z :=
  match cands with
  | [] => None
  | i :: cands' =>
      let rhs := pow gr (Zmod.mul Delta (init_ZR i)) in
      if decide (lhs = rhs) then Some i
      else candidate_loop gr lhs Delta cands'
  end.

(** The loop over the [m] bits of one [ct_element], with the state [t]
    and [identical_count]; [true] when the loop breaks after
    [cardinality += 1]. *)
Fixpoint bits_loop (self : scheme) (Delta : ZR) (a_list : list point)
    (ct_element : list (point * point)) (ells : list Z)
    (t : option Z) (identical_count : Z) : result bool :=
  match ells with
  | [] => Ok false
  | ell :: ells' =>
      e ← py_index ct_element ell;
      a ← py_index a_list ell;
      let lhs := mul (pow e.1 Delta) a in
      match t with
      | None =>
          k0 ← attr (k self);
          match candidate_loop e.2 lhs Delta (py_range_down k0) with
          | Some i => bits_loop self Delta a_list ct_element ells' (Some i) 1
          | None =>
              bits_loop self Delta a_list ct_element ells' None
                identical_count
          end
      | Some t0 =>
          let rhs := pow e.2 (Zmod.mul Delta (init_ZR t0)) in
          if decide (lhs = rhs) then
            let identical_count := identical_count + 1 in
            if t0 =? identical_count then Ok true
            else bits_loop self Delta a_list ct_element ells' t
                   identical_count
          else bits_loop self Delta a_list ct_element ells' t
                 identical_count
      end
  end.

(** The loop over [ct_elements]. *)
Fixpoint count_loop (self : scheme) (Delta : ZR) (a_list : list point)
    (m0 : Z) (ct_elements : list (list (point * point))) (cardinality : Z)
    : result Z :=
  match ct_elements with
  | [] => Ok cardinality
  | ct_element :: rest =>
      counted ← bits_loop self Delta a_list ct_element (py_range 0 m0)
                  None 0;
      count_loop self Delta a_list m0 rest
        (if counted : bool then cardinality + 1 else cardinality)
  end.

(** [eval(self, ct_sets)] *)
Definition eval (self : scheme) (ct_sets : list ct_tuple) : result Z :=
  first ← py_index ct_sets 0;
  '(smallest_set_index, _) ←
    smallest_loop ct_sets (py_range 1 (Z.of_nat (length ct_sets)))
      0 (length first.2);
  let gamma := smallest_set_index + 1 in
  n ← attr (client_count self);
  let S := map init_ZR (py_range 1 (1 + n)) ++ [init_ZR (n + gamma)] in
  let one := pow (g self) Zmod.zero in
  m0 ← attr (m self);
  a_list ← mapM (fun ell => a_loop S ell ct_sets 0 one) (py_range 0 m0);
  smallest ← py_index ct_sets smallest_set_index;
  let ct_elements := smallest.2 in
  let Delta := delta S (init_ZR (n + gamma)) in
  count_loop self Delta a_list m0 ct_elements 0.

End Scheme.
End MultiClientCardinalityEfficient.

(** * twoclient.py *)

(** SHA-256 ([hashlib.sha256(bs).digest()]) and AES-GCM
    ([AESGCM(key).encrypt(nonce, data, None)], and [decrypt], which raises
    [InvalidTag] when the tag does not verify). *)
Class Sha256 := {
  sha256 : bytes -> bytes;
  sha256_length : forall bs, length (sha256 bs) = 32%nat
}.

Class AESGCM := {
  gcm_encrypt : bytes -> bytes -> bytes -> bytes;     (* key, nonce, data *)
  gcm_decrypt : bytes -> bytes -> bytes -> option bytes;
  gcm_decrypt_encrypt : forall key nonce data,
    length key = 16%nat ->
    gcm_decrypt key nonce (gcm_encrypt key nonce data) = Some data
}.

Definition ae_decrypt `{AESGCM} (key nonce ct : bytes) : result bytes :=
  match gcm_decrypt key nonce ct with
  | Some pt => Ok pt
  | None => Raise InvalidTag
  end.

(** [d[k]] on a dictionary *)
Definition py_getitem {V} (d : gmap bytes V) (key : bytes) : result V :=
  match d !! key with
  | Some v => Ok v
  | None => Raise KeyError
  end.

(** [group.deserialize(bs)], where an element of G, or of ZR, is meant. *)
Definition deserialize_G `{ECGroup} (bs : bytes) : result point :=
  match deserialize bs with
  | Some a => Ok a
  | None => Raise DeserializeError
  end.

Definition deserialize_scalar `{ECGroup} (bs : bytes) : result ZR :=
  match deserialize_ZR bs with
  | Some a => Ok a
  | None => Raise DeserializeError
  end.

Module TwoClientCardinality.
Section Scheme.
Context `{BlockCipher}.

(** [setup(self, secpar)] *)
Definition setup (secpar : Z) (r : rng) : result ((bytes * bytes) * rng) :=
  '(key, r') ← os_urandom (secpar / 8) r;
  mret ((key, key), r').

(** [encrypt(self, usk, gid, pt_set)] *)
Definition encrypt (usk gid : bytes) (pt_set : list bytes)
    : result (gset bytes) :=
  let iv := gid in
  '(key, iv) ← Cipher usk iv;
  mret (list_to_set (map (_prf key iv) pt_set)).

(** [eval(self, ct_sets)] *)
Definition eval (ct_sets : list (gset bytes)) : result nat :=
  c0 ← py_index ct_sets 0;
  c1 ← py_index ct_sets 1;
  mret (size (c0 ∩ c1)).

End Scheme.
End TwoClientCardinality.

Module TwoClientIntersection.
Section Scheme.
Context `{ECGroup} `{BlockCipher} `{Sha256} `{AESGCM} `{IterOrder}.

(** [self.g] of [__init__]; [self.secpar] once [setup] has run. *)
Record scheme := { g : point; secpar : option Z }.

Definition init (r : rng) : scheme * rng :=
  let (g0, r') := random_G r in ({| g := g0; secpar := None |}, r').

(** [setup(self, secpar)] *)
Definition setup (self : scheme) (secpar0 : Z) (r : rng)
    : result (scheme * ((bytes * ZR) * (bytes * ZR)) * rng) :=
  let self' := {| g := g self; secpar := Some secpar0 |} in
  let (sigma, r1) := random_ZR r in
  '(msk, r2) ← os_urandom (secpar0 / 8) r1;
  mret (self', ((msk, sigma), (msk, Zmod.sub (init_ZR 1) sigma)), r2).

(** [_phi(self, cipher, pt)], [cipher = Cipher(AES(key), CBC(iv))] *)
Definition _phi (self : scheme) (key iv pt : bytes) : point :=
  let ct := _prf key iv pt in
  let exponent := int_from_bytes ct mod order in
  pow (g self) (init_ZR exponent).

(** [_H(self, g)] and [_H_bytes(self, g)], on the serialized element. *)
Definition _H (ser : bytes) : bytes := take 16 (sha256 ([x00] ++ ser)).

Definition _H_bytes (ser : bytes) : bytes := sha256 ([x01] ++ ser).

(** The body of the loop of [encrypt] *)
Definition encrypt_one (self : scheme) (usk : bytes * ZR) (gid pt : bytes)
    : bytes * (bytes * (bytes * bytes)) :=
  let '(msk, sigma) := usk in
  let k := _phi self msk gid pt in
  let ct1 := serialize (pow k sigma) in
  let ae_key := _H (serialize k) in
  let ae_nonce := take 12 (_H_bytes (serialize k)) in
  let ct2 := (ae_nonce, gcm_encrypt ae_key ae_nonce pt) in
  (ae_key, (ct1, ct2)).

(** The loop of [encrypt], with the cipher of [msk] and the iv [gid]. *)
Definition encrypt_loop (self : scheme) (usk : bytes * ZR) (gid : bytes)
    (pt_set : list bytes) : gmap bytes (bytes * (bytes * bytes)) :=
  foldl (fun ct_dict pt =>
           let '(ae_key, v) := encrypt_one self usk gid pt in
           <[ae_key := v]> ct_dict)
        ∅ pt_set.

(** [encrypt(self, usk, gid, pt_set)] *)
Definition encrypt (self : scheme) (usk : bytes * ZR) (gid : bytes)
    (pt_set : list bytes) : result (gmap bytes (bytes * (bytes * bytes))) :=
  let '(msk, sigma) := usk in
  let iv := gid in
  '(msk, iv) ← Cipher msk iv;
  mret (encrypt_loop self (msk, sigma) iv pt_set).

(** The loop of [eval] *)
Fixpoint eval_loop (d0 d1 : gmap bytes (bytes * (bytes * bytes)))
    (keys : list bytes) (pt_intersection : gset bytes)
    : result (gset bytes) :=
  match keys with
  | [] => Ok pt_intersection
  | k :: keys' =>
      v0 ← py_getitem d0 k;
      g1 ← deserialize_G v0.1;
      v1 ← py_getitem d1 k;
      g2 ← deserialize_G v1.1;
      let key := mul g1 g2 in
      let '(ae_nonce, ct) := v0.2 in
      let ae_key := _H (serialize key) in
      pt ← ae_decrypt ae_key ae_nonce ct;
      eval_loop d0 d1 keys' (pt_intersection ∪ {[pt]})
  end.

(** [eval(self, ct_sets)] *)
Definition eval (self : scheme)
    (ct_sets : list (gmap bytes (bytes * (bytes * bytes))))
    : result (gset bytes) :=
  d0 ← py_index ct_sets 0;
  d1 ← py_index ct_sets 1;
  let ct_intersection := dom d0 ∩ dom d1 in
  eval_loop d0 d1 (iter ct_intersection) ∅.

End Scheme.
End TwoClientIntersection.

Module TwoClientThreshold.

(** The ciphertext of one element: [(ct2, ct3, ct4)] under the key
    [ct1]. *)
Abbreviation ct_value := (bytes * (bytes * bytes) * (bytes * bytes))%type.

Section Scheme.
Context `{ECGroup} `{BlockCipher} `{Sha256} `{AESGCM} `{IterOrder}.

(** [self.g] of the inherited [__init__]; [self.secpar],
    [self.threshold] and [self.ff_order] once [setup] has run. *)
Record scheme := {
  g : point;
  secpar : option Z;
  threshold : option Z;
  ff_order : option Z
}.

Definition init (r : rng) : scheme * rng :=
  let (g0, r') := random_G r in
  ({| g := g0; secpar := None; threshold := None; ff_order := None |}, r').

(** The inherited [_phi], [_H]. *)
Definition _phi (self : scheme) (key iv pt : bytes) : point :=
  TwoClientIntersection._phi
    {| TwoClientIntersection.g := g self;
       TwoClientIntersection.secpar := secpar self |} key iv pt.

Definition _H : bytes -> bytes := TwoClientIntersection._H.

(** A user key [(sk1, sk2, sk3, sigma, rho)]; [rho] is an [int]. *)
Record usk := {
  sk1 : bytes; sk2 : bytes; sk3 : bytes; sigma : ZR; rho : Z
}.

(** [setup(self, secpar, threshold)]:
<<
    sigma = self.group.random(ZR)
    rho1 = int(self.group.random(ZR))
    rho2 = (1 - rho1) % self.ff_order
    sk1, sk2, sk3 = [os.urandom(secpar // 8) for _ in range(3)]
>> *)
Definition setup (self : scheme) (secpar0 threshold0 : Z) (r : rng)
    : result (scheme * (usk * usk) * rng) :=
  let ff := order - 1 in
  let self' := {| g := g self; secpar := Some secpar0;
                  threshold := Some threshold0; ff_order := Some ff |} in
  let (sigma0, r1) := random_ZR r in
  let (rho1z, r2) := random_ZR r1 in
  let rho1 := Zmod.to_Z rho1z in
  let rho2 := (1 - rho1) mod ff in
  '(k1, r3) ← os_urandom (secpar0 / 8) r2;
  '(k2, r4) ← os_urandom (secpar0 / 8) r3;
  '(k3, r5) ← os_urandom (secpar0 / 8) r4;
  mret (self',
        ({| sk1 := k1; sk2 := k2; sk3 := k3; sigma := sigma0; rho := rho1 |},
         {| sk1 := k1; sk2 := k2; sk3 := k3;
            sigma := Zmod.sub (init_ZR 1) sigma0; rho := rho2 |}),
        r5).

(** [_psi(self, cipher, pt)] *)
Definition _psi (key iv pt : bytes) : ZR :=
  init_ZR (int_from_bytes (_prf key iv pt)).

(** [f(x) = sum([c * x**i for i, c in enumerate(cs)])], [x] in ZR. *)
Definition f (cs : list ZR) (x : ZR) : ZR :=
  zr_sum (imap (fun i c => Zmod.mul c (Zmod.pow x (Z.of_nat i))) cs).

(** [cs = [self._psi(psi2, i.to_bytes(16, 'big'))
           for i in range(self.threshold)]] *)
Definition coefficients (key3 gid : bytes) (t : Z) : list ZR :=
  map (fun i => _psi key3 gid (int_to_bytes 16 i)) (py_range 0 t).

(** The loop of [encrypt]; every round draws a nonce.  [phi] and [psi1]
    are the ciphers of [sk1] and [sk2] of the key, with the iv [gid]. *)
Fixpoint encrypt_loop (self : scheme) (u : usk) (gid : bytes)
    (cs : list ZR) (ae1_key ae1_nonce : bytes) (pts : list bytes)
    (ct_dict : gmap bytes ct_value) (r : rng)
    : gmap bytes ct_value * rng :=
  match pts with
  | [] => (ct_dict, r)
  | pt :: pts' =>
      let k1 := _phi self (sk1 u) gid pt in
      let k2 := _psi (sk2 u) gid pt in
      let ct1 := serialize_ZR k2 in
      let ct2 := serialize_ZR (Zmod.pow (f cs k2) (rho u)) in
      let k1_sigma := serialize (pow k1 (sigma u)) in
      let ct3 := (ae1_nonce, gcm_encrypt ae1_key ae1_nonce k1_sigma) in
      let ae2_key := _H (serialize k1) in
      let (ae2_nonce, r1) := urandom 12 r in
      let ct4 := (ae2_nonce, gcm_encrypt ae2_key ae2_nonce pt) in
      encrypt_loop self u gid cs ae1_key ae1_nonce pts'
        (<[ct1 := (ct2, ct3, ct4)]> ct_dict) r1
  end.

(** [encrypt(self, usk, gid, pt_set)] *)
Definition encrypt (self : scheme) (u : usk) (gid : bytes)
    (pt_set : list bytes) (r : rng)
    : result (gmap bytes ct_value * rng) :=
  let iv := gid in
  phi ← Cipher (sk1 u) iv;
  psi1 ← Cipher (sk2 u) iv;
  '(key3, iv3) ← Cipher (sk3 u) iv;
  t ← attr (threshold self);
  let cs := coefficients key3 iv3 t in
  c0 ← py_index cs 0;
  let ae1_key := _H (serialize_ZR c0) in
  let (ae1_nonce, r1) := urandom 12 r in
  mret (encrypt_loop self u gid cs ae1_key ae1_nonce pt_set ∅ r1).

(** [delta(S, i)]:
<<
    prod = 1
    for j in S:
        if i == j: continue
        prod *= j * (j - i)**(-1)
>> *)
Definition delta (S : list ZR) (i : ZR) : ZR :=
  fold_left (fun prod j =>
               if decide (i = j) then prod
               else Zmod.mul prod (Zmod.mul j (Zmod.inv (Zmod.sub j i))))
            S Zmod.one.

(** The first loop of [eval], over [islice(ct_intersection, threshold)]:
    the points [(xs, ys)] to interpolate. *)
Fixpoint points_loop (d0 d1 : gmap bytes ct_value) (keys : list bytes)
    : result (list ZR * list ZR) :=
  match keys with
  | [] => Ok ([], [])
  | k :: keys' =>
      x ← deserialize_scalar k;
      v0 ← py_getitem d0 k;
      y0 ← deserialize_scalar v0.1.1;
      v1 ← py_getitem d1 k;
      y1 ← deserialize_scalar v1.1.1;
      '(xs, ys) ← points_loop d0 d1 keys';
      mret (x :: xs, Zmod.mul y0 y1 :: ys)
  end.

(** The second loop of [eval]: the plaintexts. *)
Fixpoint decrypt_loop (d0 d1 : gmap bytes ct_value) (ae1_key : bytes)
    (keys : list bytes) (pt_intersection : gset bytes)
    : result (gset bytes) :=
  match keys with
  | [] => Ok pt_intersection
  | k :: keys' =>
      v0 ← py_getitem d0 k;
      let '(_, (ct1_k1_nonce, ct1_k1_sigma), (ct1_ae_nonce, ct1_ae_ct)) :=
        v0 in
      v1 ← py_getitem d1 k;
      let '(_, (ct2_k1_nonce, ct2_k1_sigma), _) := v1 in
      pt1_k1_sigma ← ae_decrypt ae1_key ct1_k1_nonce ct1_k1_sigma;
      pt2_k1_sigma ← ae_decrypt ae1_key ct2_k1_nonce ct2_k1_sigma;
      a ← deserialize_G pt1_k1_sigma;
      b ← deserialize_G pt2_k1_sigma;
      let k1 := mul a b in
      let ae2_key := _H (serialize k1) in
      pt ← ae_decrypt ae2_key ct1_ae_nonce ct1_ae_ct;
      decrypt_loop d0 d1 ae1_key keys' (pt_intersection ∪ {[pt]})
  end.

(** "first, recover c0 = f(0)": the points are interpolated at 0,
    [c0 = sum([y * delta(xs, x) for x, y in zip(xs, ys)])], and
    [ae1_key = self._H(c0)]. *)
Definition recover_ae1_key (d0 d1 : gmap bytes ct_value) (keys : list bytes)
    : result bytes :=
  '(xs, ys) ← points_loop d0 d1 keys;
  let c0 := zr_sum (zip_with (fun x y => Zmod.mul y (delta xs x)) xs ys) in
  mret (_H (serialize_ZR c0)).

(** [islice(xs, stop)]: [ValueError] for a negative [stop]. *)
Definition islice {A} (xs : list A) (stop : Z) : result (list A) :=
  if stop <? 0 then Raise ValueError else Ok (take (Z.to_nat stop) xs).

(** [eval(self, ct_sets)] *)
Definition eval (self : scheme) (ct_sets : list (gmap bytes ct_value))
    : result (nat * gset bytes) :=
  d0 ← py_index ct_sets 0;
  d1 ← py_index ct_sets 1;
  let ct_intersection := dom d0 ∩ dom d1 in
  let cardinality := size ct_intersection in
  t ← attr (threshold self);
  if Z.of_nat cardinality >=? t then
    keys ← islice (iter ct_intersection) t;
    ae1_key ← recover_ae1_key d0 d1 keys;
    pt_intersection ←
      decrypt_loop d0 d1 ae1_key (iter ct_intersection) ∅;
    mret (cardinality, pt_intersection)
  else mret (cardinality, ∅).

End Scheme.
End TwoClientThreshold.

(** * Part II: small instances of the libraries, to run the model on *)

(** *** A block cipher to run the definitions on: the block xor-ed with the
    first key byte, cut or filled to 16 bytes. *)
Definition toy_E (key block : bytes) : bytes :=
  take 16 (map (byte_xor (hd x00 key)) block ++ repeat x00 16).

Lemma toy_E_length key block : length (toy_E key block) = 16%nat.
Proof.
  unfold toy_E. rewrite length_take, length_app, repeat_length. lia.
Qed.

Definition ToyCipher : BlockCipher :=
  {| E := toy_E; E_length := toy_E_length |}.


Definition gid1 : bytes := int_to_bytes 16 1.

Definition key0 : bytes := repeat x2a 16.

Definition pt16 : bytes := repeat x61 16.

(** ** A group to run the definitions on: the integers modulo 65537
    under addition, in which [P ** s] is the product [P * s]. *)

(** No number from [d] on, [n] of them, divides [p]. *)
Fixpoint trial (n : nat) (d p : Z) : bool :=
  match n with
  | O => true
  | S n' => negb (p mod d =? 0) && trial n' (d + 1) p
  end.

Lemma trial_spec (n : nat) (d p k : Z) :
  trial n d p = true -> d <= k < d + Z.of_nat n -> p mod k <> 0.
Proof.
  revert d. induction n as [|n IH]; intros d Ht Hk; [lia|].
  cbn [trial] in Ht. apply andb_prop in Ht as [Hd Ht].
  destruct (Z.eq_dec k d) as [->|Hne].
  - apply negb_true_iff in Hd. now apply Z.eqb_neq in Hd.
  - apply (IH (d + 1)); [done|lia].
Qed.

Lemma prime_by_trial (p : Z) :
  1 < p -> trial (Z.to_nat (p - 2)) 2 p = true -> Z.prime p.
Proof.
  intros Hp Hall. split; [exact Hp|]. intros n Hn Hdiv.
  apply (trial_spec _ _ _ n Hall); [lia|]. now apply Z.mod0_divide.
Qed.

Definition toy_order : Z := 65537.

Lemma toy_order_prime : Z.prime toy_order.
Proof. apply prime_by_trial; [reflexivity | vm_compute; reflexivity]. Qed.

Lemma byte_to_of_Z (z : Z) : byte_to_Z (byte_of_Z z) = z mod 256.
Proof.
  unfold byte_to_Z, byte_of_Z.
  pose proof (Z.mod_pos_bound z 256 eq_refl) as Hb.
  pose proof (Byte.to_of_N_option_map (Z.to_N (z mod 256))) as Hm.
  destruct (Byte.of_N (Z.to_N (z mod 256))) as [b|] eqn:Hb'.
  - apply Byte.to_of_N in Hb'. rewrite Hb'. lia.
  - simpl in Hm. destruct (N.leb_spec (Z.to_N (z mod 256)) 255); [done|lia].
Qed.

Lemma int_from_bytes_snoc (bs : bytes) (b : byte) :
  int_from_bytes (bs ++ [b]) = int_from_bytes bs * 256 + byte_to_Z b.
Proof. unfold int_from_bytes. now rewrite fold_left_app. Qed.

Lemma int_from_to_bytes (n : nat) (z : Z) :
  int_from_bytes (int_to_bytes n z) = z mod 256 ^ Z.of_nat n.
Proof.
  revert z. induction n as [|n IH]; intros z.
  - simpl. now rewrite Z.mod_1_r.
  - cbn [int_to_bytes]. rewrite int_from_bytes_snoc, IH, byte_to_of_Z.
    rewrite Nat2Z.inj_succ, Z.pow_succ_r by lia.
    assert (0 < 256 ^ Z.of_nat n) by (apply Z.pow_pos_nonneg; lia).
    rewrite Z.rem_mul_r by lia. lia.
Qed.

Lemma int_to_bytes_length (n : nat) (z : Z) : length (int_to_bytes n z) = n.
Proof.
  revert z. induction n as [|n IH]; intros z; simpl; [done|].
  rewrite length_app, IH. simpl. lia.
Qed.

Definition toy_serialize (tag : byte) (a : Zmod toy_order) : bytes :=
  tag :: int_to_bytes 3 (Zmod.to_Z a).

Definition toy_deserialize (tag : byte) (bs : bytes) :
    option (Zmod toy_order) :=
  match bs with
  | t :: rest =>
      if decide (t = tag /\ length rest = 3%nat
                 /\ int_from_bytes rest < toy_order)
      then Some (Zmod.of_Z toy_order (int_from_bytes rest))
      else None
  | [] => None
  end.

Lemma toy_deserialize_serialize tag a :
  toy_deserialize tag (toy_serialize tag a) = Some a.
Proof.
  unfold toy_deserialize, toy_serialize.
  pose proof (Zmod.unsigned_pos_bound a eq_refl) as Hb.
  assert (Hz : int_from_bytes (int_to_bytes 3 (Zmod.to_Z a)) = Zmod.to_Z a).
  { rewrite int_from_to_bytes. apply Z.mod_small.
    pose proof (eq_refl : toy_order = 65537).
    change (256 ^ Z.of_nat 3) with 16777216. lia. }
  rewrite Hz, int_to_bytes_length, Zmod.of_Z_unsigned.
  rewrite decide_True; [done|]. repeat split; lia.
Qed.

Definition ToyGroup : ECGroup.
Proof.
  refine {|
  order := toy_order;
  order_prime := toy_order_prime;
  point := Zmod toy_order;
  point_eq_dec := fun a b =>
    match Z.eq_dec (Zmod.to_Z a) (Zmod.to_Z b) with
    | left e => left (Zmod.unsigned_inj _ a b e)
    | right n => right (fun e => n (f_equal Zmod.to_Z e))
    end;
  one := Zmod.zero;
  mul := Zmod.add;
  pow := Zmod.mul;
  hash_to_point := fun bs => Zmod.of_Z toy_order (int_from_bytes bs);
  sample_point := Zmod.of_Z toy_order;
  serialize := toy_serialize x01;
  deserialize := toy_deserialize x01;
  serialize_ZR := toy_serialize x00;
  deserialize_ZR := toy_deserialize x00
|}.
  - intros. apply Zmod.add_assoc.
  - intros. apply Zmod.add_comm.
  - intros. apply Zmod.add_0_l.
  - intros. apply Zmod.mul_0_r.
  - intros. apply Zmod.mul_1_r.
  - intros. symmetry. apply Zmod.mul_add_r.
  - intros. apply toy_deserialize_serialize.
  - intros. apply toy_deserialize_serialize.
Defined.

Definition toy_rng : rng := {| tape := fun i => 1000 + 37 * Z.of_nat i; pos := 0 |}.

(** The order in which [elements] lists a set. *)
Definition ElementsOrder : IterOrder :=
  {| iter := elements; iter_perm := fun X => reflexivity (elements X) |}.

(** A hash to run the definitions on. *)
Definition ToyMurmur : Murmur :=
  {| mmh3_hash := fun bs => int_from_bytes bs * 2654435761 mod 2 ^ 32 - 2 ^ 31;
     mmh3_hash128 := fun bs => int_from_bytes bs * 2654435761 mod 2 ^ 128 |}.

(** A second hash, in which every byte of the input counts. *)
Definition rolling (bs : bytes) : Z :=
  fold_left (fun a b => (31 * a + byte_to_Z b + 1) mod 2 ^ 32) bs 7.

Definition RollingMurmur : Murmur :=
  {| mmh3_hash := fun bs => rolling bs - 2 ^ 31;
     mmh3_hash128 := fun bs => rolling bs |}.

(** ** A hash and an authenticated encryption to run the definitions on *)

Definition toy_sha256 (bs : bytes) : bytes :=
  take 32 (map (byte_xor x5c) bs ++ repeat x36 32).

Lemma toy_sha256_length bs : length (toy_sha256 bs) = 32%nat.
Proof.
  unfold toy_sha256. rewrite length_take, length_app, repeat_length. lia.
Qed.

Definition ToySha256 : Sha256 :=
  {| sha256 := toy_sha256; sha256_length := toy_sha256_length |}.

(** The tag: a byte summing key, nonce and data. *)
Definition toy_tag (key nonce data : bytes) : byte :=
  byte_of_Z (fold_left (fun a b => 31 * a + byte_to_Z b)
               (key ++ nonce ++ data) 7).

Definition toy_gcm_encrypt (key nonce data : bytes) : bytes :=
  toy_tag key nonce data :: data.

Definition toy_gcm_decrypt (key nonce ct : bytes) : option bytes :=
  match ct with
  | tag :: data =>
      if decide (tag = toy_tag key nonce data) then Some data else None
  | [] => None
  end.

Lemma toy_gcm_decrypt_encrypt key nonce data :
  length key = 16%nat ->
  toy_gcm_decrypt key nonce (toy_gcm_encrypt key nonce data) = Some data.
Proof. intros _. unfold toy_gcm_decrypt, toy_gcm_encrypt. now rewrite decide_True. Qed.

Definition ToyGCM : AESGCM :=
  {| gcm_encrypt := toy_gcm_encrypt;
     gcm_decrypt := toy_gcm_decrypt;
     gcm_decrypt_encrypt := toy_gcm_decrypt_encrypt |}.

(** * Part III: properties *)

(** ** The PRF *)

Lemma cbc_blocks_length `{BlockCipher} n key prev pt :
  length (cbc_blocks n key prev pt) = (16 * n)%nat.
Proof.
  revert prev pt. induction n as [|n IH]; intros prev pt; simpl; [done|].
  rewrite length_app, E_length, IH. lia.
Qed.

Lemma padding_len_range `{BlockCipher} pt : (1 <= padding_len pt <= 16)%nat.
Proof.
  unfold padding_len.
  pose proof (Nat.mod_upper_bound (length pt) 16). lia.
Qed.

Lemma pad_length `{BlockCipher} pt :
  length (pad pt) = (16 * (length pt / 16 + 1))%nat.
Proof.
  unfold pad, padding_len. rewrite length_app, repeat_length.
  pose proof (Nat.div_mod_eq (length pt) 16).
  pose proof (Nat.mod_upper_bound (length pt) 16). lia.
Qed.

(** Two byte strings that differ by a trailing zero byte within one block
    have the same padded form, hence the same PRF value. *)
Lemma pad_snoc_zero `{BlockCipher} pt :
  (length pt mod 16 < 15)%nat -> pad (pt ++ [x00]) = pad pt.
Proof.
  intros Hlt. unfold pad, padding_len. rewrite length_app.
  change (length [x00]) with 1%nat.
  assert (Hm : ((length pt + 1) mod 16 = length pt mod 16 + 1)%nat).
  { pose proof (Nat.div_mod_eq (length pt) 16).
    symmetry. apply (Nat.mod_unique _ _ (length pt / 16)); lia. }
  rewrite Hm, <- app_assoc. f_equal.
  replace (16 - length pt mod 16)%nat with (S (16 - (length pt mod 16 + 1)))
    by lia.
  reflexivity.
Qed.

(** The least multiple of 16 that is at least [n]: [16 * ceil(n / 16)]. *)
Definition ceil16 (n : nat) : nat := (16 * ((n + 15) / 16))%nat.

(** C4 (as the code has it): [_prf] appends [16 - len(pt) % 16] zero bytes,
    between 1 and 16 of them, and returns a ciphertext as long as the padded
    input, [16 * (len(pt) // 16 + 1)] bytes: that is [16 * ceil(len(pt) / 16)]
    when [len(pt)] is not a multiple of 16, and [len(pt) + 16] when it is. *)
Theorem prf_length `{BlockCipher} (key iv pt : bytes) :
  pad pt = pt ++ repeat x00 (16 - length pt mod 16) /\
  length (_prf key iv pt) = length (pad pt) /\
  length (_prf key iv pt) = (16 * (length pt / 16 + 1))%nat /\
  ((length pt mod 16)%nat <> 0%nat ->
     length (_prf key iv pt) = ceil16 (length pt)) /\
  ((length pt mod 16)%nat = 0%nat ->
     length (_prf key iv pt) = (length pt + 16)%nat).
Proof.
  assert (HL : length (_prf key iv pt) = (16 * (length pt / 16 + 1))%nat).
  { unfold _prf, cbc_encrypt. rewrite cbc_blocks_length, pad_length.
    rewrite (Nat.mul_comm 16 (_ + 1)), Nat.div_mul by lia. lia. }
  pose proof (Nat.div_mod_eq (length pt) 16) as Hdm.
  pose proof (Nat.mod_upper_bound (length pt) 16) as Hub.
  repeat split.
  - rewrite HL, pad_length. reflexivity.
  - exact HL.
  - intros Hnz. rewrite HL. unfold ceil16. f_equal.
    apply (Nat.div_unique _ _ _ (length pt mod 16 - 1)); lia.
  - intros Hz. rewrite HL. lia.
Qed.

(** ** Ciphers and random bytes *)

Lemma Cipher_Ok (key iv : bytes) :
  aes_key_size key = true -> length iv = 16%nat -> Cipher key iv = Ok (key, iv).
Proof.
  intros Hk Hiv. unfold Cipher. now rewrite Hk, Hiv.
Qed.

Lemma Cipher_inv (key iv : bytes) (c : bytes * bytes) :
  Cipher key iv = Ok c ->
  c = (key, iv) /\ aes_key_size key = true /\ length iv = 16%nat.
Proof.
  unfold Cipher. destruct (aes_key_size key); [|done].
  destruct (Nat.eqb_spec (length iv) 16); [|done].
  now intros [= <-].
Qed.

Lemma Cipher_raise (key iv : bytes) :
  aes_key_size key = false \/ length iv <> 16%nat ->
  Cipher key iv = Raise ValueError.
Proof.
  unfold Cipher. intros [->|Hiv]; [done|].
  destruct (Nat.eqb_spec (length iv) 16); [done|].
  now rewrite andb_false_r.
Qed.

Lemma urandom_length (n : nat) (r : rng) : length (urandom n r).1 = n.
Proof. unfold urandom, draw. cbn. apply int_to_bytes_length. Qed.

Lemma os_urandom_Ok (n : Z) (r : rng) :
  0 <= n -> os_urandom n r = Ok (urandom (Z.to_nat n) r).
Proof.
  intros Hn. unfold os_urandom. destruct (Z.ltb_spec n 0); [lia|done].
Qed.

Lemma os_urandom_negative (n : Z) (r : rng) :
  n < 0 -> os_urandom n r = Raise ValueError.
Proof.
  intros Hn. unfold os_urandom. destruct (Z.ltb_spec n 0); [done|lia].
Qed.

(** A security parameter that gives an AES key: [secpar // 8] is 16, 24
    or 32. *)
Definition aes_secpar (secpar : Z) : Prop :=
  secpar / 8 = 16 \/ secpar / 8 = 24 \/ secpar / 8 = 32.

Lemma aes_secpar_nonneg (secpar : Z) : aes_secpar secpar -> 0 <= secpar / 8.
Proof. unfold aes_secpar. lia. Qed.

Lemma aes_key_size_urandom (secpar : Z) (r : rng) :
  aes_secpar secpar ->
  aes_key_size (urandom (Z.to_nat (secpar / 8)) r).1 = true.
Proof.
  intros Hs. unfold aes_key_size. rewrite urandom_length.
  destruct Hs as [-> | [-> | ->]]; reflexivity.
Qed.

(** ** Sums in ZR, random draws, iteration *)

Lemma random_ZRs_length `{ECGroup} n r : length (random_ZRs n r).1 = n.
Proof.
  revert r. induction n as [|n IH]; intros r; [done|].
  cbn [random_ZRs]. destruct (random_ZR r) as [x r1]. specialize (IH r1).
  destruct (random_ZRs n r1) as [xs r2]. simpl in *. lia.
Qed.

Lemma zr_sum_from `{ECGroup} (xs : list ZR) (a : ZR) :
  fold_left Zmod.add xs a = Zmod.add a (zr_sum xs).
Proof.
  unfold zr_sum. revert a. induction xs as [|x xs IH]; intros a; simpl.
  - now rewrite Zmod.add_0_r.
  - rewrite IH, (IH (Zmod.add Zmod.zero x)), Zmod.add_0_l.
    now rewrite Zmod.add_assoc.
Qed.

Lemma zr_sum_app `{ECGroup} (xs ys : list ZR) :
  zr_sum (xs ++ ys) = Zmod.add (zr_sum xs) (zr_sum ys).
Proof. unfold zr_sum at 1. rewrite fold_left_app. apply zr_sum_from. Qed.

Lemma zr_sum_cons `{ECGroup} (x : ZR) (xs : list ZR) :
  zr_sum (x :: xs) = Zmod.add x (zr_sum xs).
Proof.
  unfold zr_sum at 1. cbn [fold_left].
  now rewrite zr_sum_from, Zmod.add_0_l.
Qed.

Lemma elem_of_iter `{IterOrder} (X : gset bytes) (x : bytes) :
  x ∈ iter X <-> x ∈ X.
Proof. rewrite iter_perm. apply elem_of_elements. Qed.

Lemma NoDup_iter `{IterOrder} (X : gset bytes) : NoDup (iter X).
Proof. rewrite iter_perm. apply NoDup_elements. Qed.

(** ** Dictionaries filled by a loop *)
Section FillDict.
Context {V : Type} (kv : bytes -> bytes * V).

Definition fill (d : gmap bytes V) (l : list bytes) : gmap bytes V :=
  foldl (fun d pt => let '(key, v) := kv pt in <[key := v]> d) d l.

Lemma fill_snoc d l x :
  fill d (l ++ [x]) = <[(kv x).1 := (kv x).2]> (fill d l).
Proof. unfold fill. rewrite foldl_app. simpl. now destruct (kv x). Qed.

Lemma fill_lookup_inv l k v :
  fill ∅ l !! k = Some v -> exists pt, pt ∈ l /\ kv pt = (k, v).
Proof.
  induction l as [|x l IH] using rev_ind.
  - unfold fill. simpl. intros Hl. now rewrite lookup_empty in Hl.
  - rewrite fill_snoc. destruct (decide ((kv x).1 = k)) as [<-|Hne].
    + rewrite lookup_insert_eq. intros [= <-]. exists x. split.
      * apply elem_of_app. right. now apply list_elem_of_singleton.
      * now destruct (kv x).
    + rewrite lookup_insert_ne by done. intros Hl.
      destruct (IH Hl) as (pt & Hin & Hkv). exists pt. split; [|done].
      apply elem_of_app. now left.
Qed.

Lemma fill_lookup l pt :
  (forall x y, x ∈ l -> y ∈ l -> (kv x).1 = (kv y).1 -> x = y) ->
  pt ∈ l -> fill ∅ l !! (kv pt).1 = Some (kv pt).2.
Proof.
  induction l as [|x l IH] using rev_ind; intros Hinj Hin.
  - now apply elem_of_nil in Hin.
  - rewrite fill_snoc. destruct (decide ((kv x).1 = (kv pt).1)) as [Heq|Hne].
    + assert (x = pt) as ->.
      { apply Hinj; [| |done]; [|done]. apply elem_of_app. right.
        now apply list_elem_of_singleton. }
      now rewrite lookup_insert_eq.
    + rewrite lookup_insert_ne by done. apply IH.
      * intros a b Ha Hb. apply Hinj; apply elem_of_app; now left.
      * apply elem_of_app in Hin as [Hin|Hin]; [done|].
        apply list_elem_of_singleton in Hin. congruence.
Qed.

Lemma fill_dom l k :
  k ∈ dom (fill ∅ l) <-> exists pt, pt ∈ l /\ (kv pt).1 = k.
Proof.
  rewrite elem_of_dom. split.
  - intros [v Hv]. destruct (fill_lookup_inv _ _ _ Hv) as (pt & Hin & Hkv).
    exists pt. now rewrite Hkv.
  - intros (pt & Hin & <-). induction l as [|x l IH] using rev_ind.
    + now apply elem_of_nil in Hin.
    + rewrite fill_snoc. destruct (decide ((kv x).1 = (kv pt).1)) as [Heq|Hne].
      * rewrite Heq, lookup_insert_eq. eauto.
      * rewrite lookup_insert_ne by done. apply IH.
        apply elem_of_app in Hin as [Hin|Hin]; [done|].
        apply list_elem_of_singleton in Hin. congruence.
Qed.
End FillDict.


Lemma py_index_0 {A} (x : A) l : py_index (x :: l) 0 = Ok x.
Proof. reflexivity. Qed.

Lemma py_index_1 {A} (x y : A) l : py_index (x :: y :: l) 1 = Ok y.
Proof. reflexivity. Qed.

Lemma H_length `{Sha256} (ser : bytes) :
  length (TwoClientIntersection._H ser) = 16%nat.
Proof.
  unfold TwoClientIntersection._H. rewrite length_take, sha256_length. lia.
Qed.

Lemma pow_split `{ECGroup} (a : point) (sigma : ZR) :
  mul (pow a sigma) (pow a (Zmod.sub (init_ZR 1) sigma)) = a.
Proof.
  rewrite pow_add.
  replace (Zmod.add sigma (Zmod.sub (init_ZR 1) sigma)) with (@Zmod.one order).
  - apply pow_one.
  - unfold init_ZR. change (Zmod.of_Z order 1) with (@Zmod.one order).
    rewrite <- Zmod.add_opp_r, (Zmod.add_comm Zmod.one), Zmod.add_assoc.
    now rewrite Zmod.add_opp_same_r, Zmod.add_0_l.
Qed.

(** The two exponents [rho1] and [rho2 = (1 - rho1) % (order - 1)] of a
    share multiply back to the share (Fermat). *)
Lemma pow_rho_split `{ECGroup} (a : ZR) (rho1 : Z) :
  2 < order -> 0 <= rho1 ->
  Zmod.mul (Zmod.pow a rho1) (Zmod.pow a ((1 - rho1) mod (order - 1))) = a.
Proof.
  intros Hq Hr. set (rho2 := (1 - rho1) mod (order - 1)).
  assert (Hb : 0 <= rho2 < order - 1) by (apply Z.mod_pos_bound; lia).
  assert (Hne : order - 1 <> 0) by lia.
  pose proof (Z.div_mod (1 - rho1) (order - 1) Hne) as Hdm.
  fold rho2 in Hdm. set (d := (1 - rho1) / (order - 1)) in Hdm.
  assert (Hd : d <= 0) by nia.
  rewrite <- Zmod.pow_add_r_nonneg by lia.
  replace (rho1 + rho2) with (1 + (order - 1) * (- d))
    by (rewrite Z.mul_opp_r; lia).
  destruct (decide (a = Zmod.zero)) as [->|Hnz].
  - apply Zmod.pow_0_l. nia.
  - rewrite Zmod.pow_add_r_nonneg, Zmod.pow_mul_r_nonneg by nia.
    change (order - 1) with (Z.pred order).
    rewrite Zmod.fermat_nz by (done || apply order_prime).
    now rewrite Zmod.pow_1_r, Zmod.pow_1_l, Zmod.mul_1_r.
Qed.

Lemma size_image (key : bytes -> bytes) (X Y : gset bytes) :
  (forall y, y ∈ Y <-> exists x, x ∈ X /\ key x = y) ->
  (forall x x', x ∈ X -> x' ∈ X -> key x = key x' -> x = x') ->
  size Y = size X.
Proof.
  intros HY Hinj.
  assert (Y = list_to_set (key <$> elements X)) as ->.
  { apply set_eq. intros y.
    rewrite HY, elem_of_list_to_set, list_elem_of_fmap.
    split; intros (x & H1 & H2); exists x;
      rewrite ?elem_of_elements in *; auto. }
  rewrite size_list_to_set, length_fmap; [done|].
  apply NoDup_fmap_2_strong; [|apply NoDup_elements].
  intros x x' Hx Hx'. apply Hinj; now apply elem_of_elements.
Qed.

(** ** Interpolation at 0 in ZR *)
Section Lagrange.
Context `{ECGroup}.
Import TwoClientThreshold.

Add Field ZR_field : (Zmod.field_theory order order_prime).

(** [sum([F(x) * delta(xs, x) for x in xs])] *)
Definition interpolate0 (xs : list ZR) (F : ZR -> ZR) : ZR :=
  zr_sum (map (fun x => Zmod.mul (F x) (delta xs x)) xs).

Lemma zr_sum_map_add {A} (u v : A -> ZR) (l : list A) :
  zr_sum (map (fun x => Zmod.add (u x) (v x)) l)
  = Zmod.add (zr_sum (map u l)) (zr_sum (map v l)).
Proof.
  induction l as [|x l IH]; cbn [map].
  - unfold zr_sum. simpl. ring.
  - rewrite !zr_sum_cons, IH. ring.
Qed.

Lemma zr_sum_map_scale {A} (c : ZR) (u : A -> ZR) (l : list A) :
  zr_sum (map (fun x => Zmod.mul c (u x)) l) = Zmod.mul c (zr_sum (map u l)).
Proof.
  induction l as [|x l IH]; cbn [map].
  - unfold zr_sum. simpl. ring.
  - rewrite !zr_sum_cons, IH. ring.
Qed.

Lemma zr_sum_map_ext {A} (u v : A -> ZR) (l : list A) :
  (forall x, x ∈ l -> u x = v x) -> zr_sum (map u l) = zr_sum (map v l).
Proof.
  intros E. f_equal. apply map_ext_in. intros x Hx. apply E.
  now apply list_elem_of_In.
Qed.

Lemma delta_from (xs : list ZR) (i p : ZR) :
  fold_left (fun prod j =>
               if decide (i = j) then prod
               else Zmod.mul prod (Zmod.mul j (Zmod.inv (Zmod.sub j i))))
            xs p
  = Zmod.mul p (delta xs i).
Proof.
  unfold delta. revert p. induction xs as [|a xs IH]; intros p; cbn [fold_left].
  - ring.
  - rewrite IH, (IH (if decide (i = a) then _ else _)).
    destruct (decide (i = a)); ring.
Qed.

Lemma delta_cons (a : ZR) (xs : list ZR) (i : ZR) :
  delta (a :: xs) i
  = Zmod.mul (if decide (i = a) then Zmod.one
              else Zmod.mul a (Zmod.inv (Zmod.sub a i)))
             (delta xs i).
Proof.
  unfold delta at 1. cbn [fold_left]. rewrite delta_from.
  destruct (decide (i = a)); ring.
Qed.

Lemma interpolate0_cons (a : ZR) (xs : list ZR) (F : ZR -> ZR) :
  interpolate0 (a :: xs) F
  = Zmod.add (Zmod.mul (F a) (delta (a :: xs) a))
      (zr_sum (map (fun x => Zmod.mul (F x) (delta (a :: xs) x)) xs)).
Proof. unfold interpolate0. cbn [map]. now rewrite zr_sum_cons. Qed.

Lemma interpolate0_linear (xs : list ZR) (u v : ZR) (F G : ZR -> ZR) :
  interpolate0 xs (fun x => Zmod.add (Zmod.mul u (F x)) (Zmod.mul v (G x)))
  = Zmod.add (Zmod.mul u (interpolate0 xs F)) (Zmod.mul v (interpolate0 xs G)).
Proof.
  unfold interpolate0. rewrite <- !zr_sum_map_scale, <- zr_sum_map_add.
  apply zr_sum_map_ext. intros x _. ring.
Qed.

Lemma interpolate0_ext (xs : list ZR) (F G : ZR -> ZR) :
  (forall x, F x = G x) -> interpolate0 xs F = interpolate0 xs G.
Proof.
  intros E. unfold interpolate0. apply zr_sum_map_ext. intros x _.
  now rewrite E.
Qed.

Lemma sub_neq_0 (a b : ZR) : a <> b -> Zmod.sub a b <> Zmod.zero.
Proof.
  intros Hne E. apply Hne.
  transitivity (Zmod.add (Zmod.sub a b) b); [ring|]. rewrite E. ring.
Qed.

(** A factor [(x - a)] removes the node [a]. *)
Lemma interpolate0_factor (a : ZR) (xs : list ZR) (G : ZR -> ZR) :
  a ∉ xs ->
  interpolate0 (a :: xs) (fun x => Zmod.mul (Zmod.sub x a) (G x))
  = Zmod.mul (Zmod.opp a) (interpolate0 xs G).
Proof.
  intros Ha. rewrite interpolate0_cons.
  replace (Zmod.sub a a) with (@Zmod.zero order) by ring.
  rewrite !Zmod.mul_0_l, Zmod.add_0_l.
  unfold interpolate0. rewrite <- zr_sum_map_scale.
  apply zr_sum_map_ext. intros x Hx. rewrite delta_cons.
  destruct (decide (x = a)) as [->|Hne]; [done|].
  assert (Zmod.sub a x <> Zmod.zero) by (apply sub_neq_0; congruence).
  field. assumption.
Qed.

Lemma delta_swap (a b : ZR) (xs : list ZR) (i : ZR) :
  delta (a :: b :: xs) i = delta (b :: a :: xs) i.
Proof. rewrite !delta_cons. ring. Qed.

Lemma interpolate0_swap (a b : ZR) (xs : list ZR) (F : ZR -> ZR) :
  interpolate0 (a :: b :: xs) F = interpolate0 (b :: a :: xs) F.
Proof.
  unfold interpolate0. cbn [map]. rewrite !zr_sum_cons.
  rewrite (delta_swap a b xs a), (delta_swap a b xs b).
  rewrite (zr_sum_map_ext _ (fun x => Zmod.mul (F x) (delta (b :: a :: xs) x)));
    [ring|].
  intros x _. now rewrite delta_swap.
Qed.

(** The interpolation weights sum to 1. *)
Lemma interpolate0_one (n : nat) (xs : list ZR) :
  length xs = S n -> NoDup xs -> interpolate0 xs (fun _ => Zmod.one) = Zmod.one.
Proof.
  revert xs. induction n as [|n IH]; intros xs Hlen Hnd.
  - destruct xs as [|a [|]]; try discriminate.
    unfold interpolate0, delta. cbn [map fold_left].
    rewrite decide_True by done. unfold zr_sum. cbn [fold_left]. ring.
  - destruct xs as [|a [|b r]]; try discriminate.
    apply NoDup_cons in Hnd as [Ha Hnd].
    pose proof Hnd as Hnd'. apply NoDup_cons in Hnd' as [Hb Hr].
    assert (Hab : a <> b) by (intros ->; apply Ha; left).
    assert (Hnz : Zmod.sub b a <> Zmod.zero) by (apply sub_neq_0; congruence).
    set (c := Zmod.inv (Zmod.sub b a)).
    rewrite (interpolate0_ext _ _
      (fun x => Zmod.add
         (Zmod.mul Zmod.one (Zmod.mul (Zmod.sub x a) c))
         (Zmod.mul (Zmod.opp Zmod.one) (Zmod.mul (Zmod.sub x b) c)))).
    2:{ intros x. unfold c. field. assumption. }
    rewrite interpolate0_linear.
    rewrite (interpolate0_factor a (b :: r) (fun _ => c)) by done.
    rewrite (interpolate0_swap a b r).
    rewrite (interpolate0_factor b (a :: r) (fun _ => c)).
    2:{ intros Hin. apply elem_of_cons in Hin as [->|Hin]; [done|].
        now apply Hb. }
    rewrite (interpolate0_ext (b :: r) _
      (fun x => Zmod.add (Zmod.mul c Zmod.one) (Zmod.mul Zmod.zero Zmod.one)))
      by (intros; ring).
    rewrite (interpolate0_ext (a :: r) _
      (fun x => Zmod.add (Zmod.mul c Zmod.one) (Zmod.mul Zmod.zero Zmod.one)))
      by (intros; ring).
    rewrite !(interpolate0_linear _ c Zmod.zero (fun _ => Zmod.one)).
    rewrite (IH (b :: r)), (IH (a :: r)); simpl in *; try lia; try done.
    + unfold c. field. assumption.
    + apply NoDup_cons. split; [|done]. intros Hin. apply Ha. now right.
Qed.

(** The monomials: [x ** m] interpolates to 1 for [m = 0], else to 0. *)
Lemma interpolate0_monomial (m : nat) (xs : list ZR) :
  NoDup xs -> (m < length xs)%nat ->
  interpolate0 xs (fun x => Zmod.pow x (Z.of_nat m))
  = if decide (m = O) then Zmod.one else Zmod.zero.
Proof.
  revert xs. induction m as [|m IH]; intros xs Hnd Hlen.
  - rewrite decide_True by done.
    rewrite (interpolate0_ext _ _ (fun _ => Zmod.one))
      by (intros; apply Zmod.pow_0_r).
    destruct xs as [|a r]; [simpl in Hlen; lia|].
    now apply (interpolate0_one (length r)).
  - rewrite decide_False by done.
    destruct xs as [|a r]; [simpl in Hlen; lia|].
    apply NoDup_cons in Hnd as [Ha Hr].
    rewrite (interpolate0_ext _ _
      (fun x => Zmod.add
         (Zmod.mul Zmod.one
            (Zmod.mul (Zmod.sub x a) (Zmod.pow x (Z.of_nat m))))
         (Zmod.mul a (Zmod.pow x (Z.of_nat m))))).
    2:{ intros x. rewrite Nat2Z.inj_succ, Zmod.pow_succ_nonneg_r by lia.
        ring. }
    rewrite interpolate0_linear, interpolate0_factor by done.
    rewrite (IH r), (IH (a :: r)); simpl in *; try lia; try done.
    + ring.
    + now apply NoDup_cons.
Qed.

Lemma f_snoc (cs : list ZR) (c x : ZR) :
  f (cs ++ [c]) x
  = Zmod.add (f cs x) (Zmod.mul c (Zmod.pow x (Z.of_nat (length cs)))).
Proof.
  unfold f. rewrite imap_app, zr_sum_app. cbn [imap].
  rewrite Nat.add_0_r. f_equal. unfold zr_sum. cbn [fold_left]. ring.
Qed.

(** Interpolating the polynomial [f] with coefficients [cs] on at least
    [len(cs)] distinct points gives [f(0) = cs[0]]. *)
Lemma interpolate0_f (cs xs : list ZR) :
  NoDup xs -> (length cs <= length xs)%nat ->
  interpolate0 xs (f cs) = hd Zmod.zero cs.
Proof.
  intros Hnd. induction cs as [|c cs IH] using rev_ind; intros Hlen.
  - unfold interpolate0, f. cbn [imap].
    rewrite (zr_sum_map_ext _ (fun x => Zmod.mul Zmod.zero (delta xs x))).
    + rewrite zr_sum_map_scale. cbn [hd]. ring.
    + intros x _. unfold zr_sum. cbn [fold_left]. ring.
  - rewrite length_app in Hlen. simpl in Hlen.
    rewrite (interpolate0_ext _ _
      (fun x => Zmod.add (Zmod.mul Zmod.one (f cs x))
                  (Zmod.mul c (Zmod.pow x (Z.of_nat (length cs)))))).
    2:{ intros x. rewrite f_snoc. ring. }
    rewrite interpolate0_linear, IH, interpolate0_monomial by (done || lia).
    destruct cs as [|c0 cs]; cbn [hd app length].
    + rewrite decide_True by done. ring.
    + rewrite decide_False by done. ring.
Qed.

(** [c0] as [eval] computes it. *)
Lemma c0_interpolate0 (xs : list ZR) (F : ZR -> ZR) :
  zr_sum (zip_with (fun x y => Zmod.mul y (delta xs x)) xs (map F xs))
  = interpolate0 xs F.
Proof.
  unfold interpolate0. f_equal. generalize (delta xs). intros d.
  induction xs as [|a xs IH]; [done|]. cbn [map zip_with]. now rewrite IH.
Qed.

End Lagrange.


Module TwoClientIntersectionProofs.
Import TwoClientIntersection.
Section Proofs.
Context `{ECGroup} `{BlockCipher} `{Sha256} `{AESGCM} `{IterOrder}.

Lemma encrypt_fill self usk gid pt_set :
  encrypt_loop self usk gid pt_set = fill (encrypt_one self usk gid) ∅ pt_set.
Proof. reflexivity. Qed.

(** With a key and a gid that the cipher accepts, [encrypt] returns the
    dictionary of its loop. *)
Lemma encrypt_Ok self msk sigma gid pt_set :
  aes_key_size msk = true -> length gid = 16%nat ->
  encrypt self (msk, sigma) gid pt_set
  = Ok (encrypt_loop self (msk, sigma) gid pt_set).
Proof.
  intros Hk Hg. unfold encrypt. cbv zeta. now rewrite Cipher_Ok.
Qed.

(** The dictionary key of a plaintext: it does not depend on [sigma]. *)
Definition key_of (self : scheme) (msk gid pt : bytes) : bytes :=
  _H (serialize (_phi self msk gid pt)).

Lemma encrypt_one_key self msk sigma gid pt :
  (encrypt_one self (msk, sigma) gid pt).1 = key_of self msk gid pt.
Proof. reflexivity. Qed.

Lemma eval_loop_correct self msk sigma gid (S0 S1 : list bytes) keys acc :
  (forall x y, x ∈ S0 ++ S1 -> y ∈ S0 ++ S1 ->
     key_of self msk gid x = key_of self msk gid y -> x = y) ->
  (forall k, k ∈ keys ->
     exists pt, pt ∈ S0 /\ pt ∈ S1 /\ key_of self msk gid pt = k) ->
  exists res,
    eval_loop (encrypt_loop self (msk, sigma) gid S0)
      (encrypt_loop self (msk, Zmod.sub (init_ZR 1) sigma) gid S1) keys acc
      = Ok res /\
    forall x, x ∈ res <->
      x ∈ acc \/ (x ∈ S0 /\ x ∈ S1 /\ key_of self msk gid x ∈ keys).
Proof.
  intros Hinj. revert acc. induction keys as [|k keys IH]; intros acc Hkeys.
  - exists acc. split; [done|]. intros x. split; [auto|].
    intros [?|(_ & _ & Hk)]; [done|]. now apply elem_of_nil in Hk.
  - destruct (Hkeys k) as (pt & Hp0 & Hp1 & Hk); [left|].
    assert (Hinj0 : forall x y, x ∈ S0 -> y ∈ S0 ->
      (encrypt_one self (msk, sigma) gid x).1
        = (encrypt_one self (msk, sigma) gid y).1 -> x = y).
    { intros x y Hx Hy. rewrite !encrypt_one_key.
      apply Hinj; apply elem_of_app; now left. }
    assert (Hinj1 : forall x y, x ∈ S1 -> y ∈ S1 ->
      (encrypt_one self (msk, Zmod.sub (init_ZR 1) sigma) gid x).1
        = (encrypt_one self (msk, Zmod.sub (init_ZR 1) sigma) gid y).1 -> x = y).
    { intros x y Hx Hy. rewrite !encrypt_one_key.
      apply Hinj; apply elem_of_app; now right. }
    pose proof (fill_lookup _ S0 pt Hinj0 Hp0) as L0.
    pose proof (fill_lookup _ S1 pt Hinj1 Hp1) as L1.
    rewrite encrypt_one_key, Hk in L0, L1.
    cbn [eval_loop]. unfold py_getitem. rewrite !encrypt_fill, L0, L1.
    cbn [mbind result_bind encrypt_one fst snd].
    unfold deserialize_G. rewrite !deserialize_serialize.
    cbn [mbind result_bind]. rewrite pow_split.
    unfold ae_decrypt. rewrite gcm_decrypt_encrypt by apply H_length.
    cbn [mbind result_bind].
    destruct (IH (acc ∪ {[pt]})) as (res & Hres & Hspec).
    { intros k' Hk'. apply Hkeys. now right. }
    exists res. split; [exact Hres|]. intros x. rewrite Hspec.
    rewrite elem_of_union, elem_of_singleton, elem_of_cons. split.
    + intros [[?| ->]|(?&?&?)]; auto.
    + intros [?|(Hx0 & Hx1 & [Hxk|?])]; auto.
      left. right. apply Hinj; [apply elem_of_app; now left
                               |apply elem_of_app; now left|congruence].
Qed.

(** C3 (as the code has it): for a [secpar] that gives an AES key and a
    16-byte gid, when no two distinct plaintexts of the two sets share a
    dictionary key, the two encryptions under the two keys of one [setup]
    return, and [eval] on them returns the intersection of the two
    plaintext sets. *)
Theorem eval_returns_intersection (self self' : scheme) (secpar0 : Z)
    (gid : bytes) (S0 S1 : list bytes) (r r' : rng)
    (usk0 usk1 : bytes * ZR) :
  aes_secpar secpar0 ->
  length gid = 16%nat ->
  setup self secpar0 r = Ok (self', (usk0, usk1), r') ->
  (forall x y, x ∈ S0 ++ S1 -> y ∈ S0 ++ S1 ->
     key_of self' usk0.1 gid x = key_of self' usk0.1 gid y -> x = y) ->
  exists D0 D1,
    encrypt self' usk0 gid S0 = Ok D0 /\
    encrypt self' usk1 gid S1 = Ok D1 /\
    eval self' [D0; D1] = Ok (list_to_set S0 ∩ list_to_set S1).
Proof.
  intros Hsec Hgid. unfold setup. destruct (random_ZR r) as [sigma r1].
  rewrite os_urandom_Ok by now apply aes_secpar_nonneg.
  pose proof (aes_key_size_urandom secpar0 r1 Hsec) as Hkey.
  destruct (urandom (Z.to_nat (secpar0 / 8)) r1) as [msk r2].
  cbn [fst] in Hkey. cbn [mbind result_bind mret result_ret].
  intros [= <- <- <- <-]. cbn [fst]. intros Hinj.
  set (self' := {| g := g self; secpar := Some secpar0 |}) in *.
  rewrite !encrypt_Ok by done.
  set (D0 := encrypt_loop self' (msk, sigma) gid S0).
  set (D1 := encrypt_loop self' (msk, Zmod.sub (init_ZR 1) sigma) gid S1).
  exists D0, D1. split; [done|]. split; [done|].
  unfold eval. rewrite py_index_0, py_index_1. cbn [mbind result_bind].
  destruct (eval_loop_correct self' msk sigma gid S0 S1
              (iter (dom D0 ∩ dom D1)) ∅ Hinj) as (res & Hres & Hspec).
  { intros k Hk. apply elem_of_iter, elem_of_intersection in Hk as [Hk0 Hk1].
    apply fill_dom in Hk0 as (p0 & Hp0 & Hk0).
    apply fill_dom in Hk1 as (p1 & Hp1 & Hk1).
    rewrite encrypt_one_key in Hk0, Hk1.
    assert (p0 = p1) as ->.
    { apply Hinj; [apply elem_of_app; now left
                  |apply elem_of_app; now right|congruence]. }
    eauto. }
  fold D0 D1 in Hres. rewrite Hres. f_equal. apply set_eq. intros x.
  rewrite Hspec, elem_of_intersection, !elem_of_list_to_set, elem_of_iter.
  split.
  - intros [Hx|(?&?&?)]; [now apply elem_of_empty in Hx|done].
  - intros [Hx0 Hx1]. right. repeat split; [done..|].
    apply elem_of_intersection. split; apply fill_dom; exists x; eauto.
Qed.

End Proofs.
End TwoClientIntersectionProofs.


Module TwoClientThresholdErrors.
Import TwoClientThreshold.
Section Proofs.
Context `{ECGroup} `{BlockCipher} `{Sha256} `{AESGCM} `{IterOrder}.

(** What the second loop of [eval] does at the key [k], under the
    recovered key: the two [ct3] verify, the group elements in them
    deserialize, and [ct4] of client 0 verifies under the key of their
    product and gives the plaintext [pt]. *)
Definition recovers (d0 d1 : gmap bytes ct_value) (ae1_key k pt : bytes)
    : Prop :=
  exists v0 v1 p1 p2 a b,
    d0 !! k = Some v0 /\ d1 !! k = Some v1 /\
    gcm_decrypt ae1_key v0.1.2.1 v0.1.2.2 = Some p1 /\
    gcm_decrypt ae1_key v1.1.2.1 v1.1.2.2 = Some p2 /\
    deserialize p1 = Some a /\ deserialize p2 = Some b /\
    gcm_decrypt (_H (serialize (mul a b))) v0.2.1 v0.2.2 = Some pt.

(** An authenticated ciphertext under the key [k] does not verify:
    [ct3] of client 0 ([ae1.decrypt(ct1_k1_nonce, ct1_k1_sigma, None)]),
    [ct3] of client 1, or, once these two have given group elements,
    [ct4] of client 0 ([ae2.decrypt(ct1_ae_nonce, ct1_ae_ct, None)]). *)
Definition auth_fails (d0 d1 : gmap bytes ct_value) (ae1_key k : bytes)
    : Prop :=
  exists v0 v1,
    d0 !! k = Some v0 /\ d1 !! k = Some v1 /\
    (gcm_decrypt ae1_key v0.1.2.1 v0.1.2.2 = None \/
     gcm_decrypt ae1_key v1.1.2.1 v1.1.2.2 = None \/
     exists p1 p2 a b,
       gcm_decrypt ae1_key v0.1.2.1 v0.1.2.2 = Some p1 /\
       gcm_decrypt ae1_key v1.1.2.1 v1.1.2.2 = Some p2 /\
       deserialize p1 = Some a /\ deserialize p2 = Some b /\
       gcm_decrypt (_H (serialize (mul a b))) v0.2.1 v0.2.2 = None).

Lemma recovers_not_fails (d0 d1 : gmap bytes ct_value)
    (ae1_key k pt : bytes) :
  recovers d0 d1 ae1_key k pt -> auth_fails d0 d1 ae1_key k -> False.
Proof.
  intros (v0 & v1 & p1 & p2 & a & b & L0 & L1 & E1 & E2 & Da & Db & E4)
         (w0 & w1 & L0' & L1' & Hfail).
  rewrite L0 in L0'. rewrite L1 in L1'.
  injection L0' as <-. injection L1' as <-.
  destruct Hfail as [F|[F|(q1 & q2 & a' & b' & F1 & F2 & Fa & Fb & F4)]];
    [congruence..|].
  rewrite E1 in F1. rewrite E2 in F2.
  injection F1 as <-. injection F2 as <-.
  rewrite Da in Fa. rewrite Db in Fb.
  injection Fa as <-. injection Fb as <-. congruence.
Qed.

(** The loop at one key. *)
Lemma decrypt_loop_step (d0 d1 : gmap bytes ct_value) (ae1_key : bytes)
    (k : bytes) (keys : list bytes) (acc : gset bytes) (pt : bytes) :
  recovers d0 d1 ae1_key k pt ->
  decrypt_loop d0 d1 ae1_key (k :: keys) acc
  = decrypt_loop d0 d1 ae1_key keys (acc ∪ {[pt]}).
Proof.
  intros (v0 & v1 & p1 & p2 & a & b & L0 & L1 & E1 & E2 & Da & Db & E4).
  cbn [decrypt_loop]. unfold py_getitem. rewrite L0, L1.
  destruct v0 as [[c2 [n3 c3]] [n4 c4]]. destruct v1 as [[c2' [n3' c3']] v4'].
  cbn [fst snd] in *. cbn [mbind result_bind].
  unfold ae_decrypt, deserialize_G. rewrite E1, E2.
  cbn [mbind result_bind]. rewrite Da, Db. cbn [mbind result_bind].
  now rewrite E4.
Qed.

Lemma decrypt_loop_step_inv (d0 d1 : gmap bytes ct_value) (ae1_key : bytes)
    (k : bytes) (keys : list bytes) (acc res : gset bytes) :
  decrypt_loop d0 d1 ae1_key (k :: keys) acc = Ok res ->
  exists pt, recovers d0 d1 ae1_key k pt /\
             decrypt_loop d0 d1 ae1_key keys (acc ∪ {[pt]}) = Ok res.
Proof.
  cbn [decrypt_loop]. unfold py_getitem.
  destruct (d0 !! k) as [[[c2 [n3 c3]] [n4 c4]]|] eqn:L0; [|done].
  cbn [mbind result_bind].
  destruct (d1 !! k) as [[[c2' [n3' c3']] v4']|] eqn:L1; [|done].
  cbn [mbind result_bind]. unfold ae_decrypt, deserialize_G.
  destruct (gcm_decrypt ae1_key n3 c3) as [p1|] eqn:E1; [|done].
  cbn [mbind result_bind].
  destruct (gcm_decrypt ae1_key n3' c3') as [p2|] eqn:E2; [|done].
  cbn [mbind result_bind].
  destruct (deserialize p1) as [a|] eqn:Da; [|done].
  cbn [mbind result_bind].
  destruct (deserialize p2) as [b|] eqn:Db; [|done].
  cbn [mbind result_bind].
  destruct (gcm_decrypt (_H (serialize (mul a b))) n4 c4) as [pt|] eqn:E4;
    [|done].
  cbn [mbind result_bind]. intros Hrest. exists pt. split; [|done].
  exists (c2, (n3, c3), (n4, c4)), (c2', (n3', c3'), v4'), p1, p2, a, b.
  done.
Qed.

(** When the loop returns, every key has been recovered, and its
    plaintext is in the result. *)
Lemma decrypt_loop_Ok_inv (d0 d1 : gmap bytes ct_value) (ae1_key : bytes)
    (keys : list bytes) (acc res : gset bytes) :
  decrypt_loop d0 d1 ae1_key keys acc = Ok res ->
  acc ⊆ res /\
  forall k, k ∈ keys -> exists pt, recovers d0 d1 ae1_key k pt /\ pt ∈ res.
Proof.
  revert acc. induction keys as [|k keys IH]; intros acc Hrun.
  - injection Hrun as <-. split; [done|]. intros k Hk.
    now apply elem_of_nil in Hk.
  - apply decrypt_loop_step_inv in Hrun as (pt & Hpt & Hrun).
    destruct (IH _ Hrun) as [Hsub Hall]. split.
    + intros x Hx. apply Hsub, elem_of_union. now left.
    + intros k' Hk'. apply elem_of_cons in Hk' as [->|Hk']; [|now apply Hall].
      exists pt. split; [done|].
      apply Hsub, elem_of_union. right. now apply elem_of_singleton.
Qed.

(** The first key at which an authenticated ciphertext does not verify
    stops the loop with [InvalidTag]. *)
Lemma decrypt_loop_invalid_tag (d0 d1 : gmap bytes ct_value)
    (ae1_key : bytes) (keys1 : list bytes) (k : bytes) (keys2 : list bytes)
    (acc : gset bytes) :
  (forall k', k' ∈ keys1 -> exists pt, recovers d0 d1 ae1_key k' pt) ->
  auth_fails d0 d1 ae1_key k ->
  decrypt_loop d0 d1 ae1_key (keys1 ++ k :: keys2) acc = Raise InvalidTag.
Proof.
  intros Hbefore Hfail. revert acc.
  induction keys1 as [|k' keys1 IH]; intros acc.
  - destruct Hfail as (v0 & v1 & L0 & L1 & Hfail).
    cbn [app decrypt_loop]. unfold py_getitem. rewrite L0, L1.
    destruct v0 as [[c2 [n3 c3]] [n4 c4]].
    destruct v1 as [[c2' [n3' c3']] v4'].
    cbn [fst snd] in *. cbn [mbind result_bind].
    unfold ae_decrypt, deserialize_G.
    destruct Hfail as [F|[F|(p1 & p2 & a & b & F1 & F2 & Fa & Fb & F4)]].
    + now rewrite F.
    + rewrite F. now destruct (gcm_decrypt ae1_key n3 c3).
    + rewrite F1, F2. cbn [mbind result_bind]. rewrite Fa, Fb.
      cbn [mbind result_bind]. now rewrite F4.
  - destruct (Hbefore k') as [pt Hpt]; [left|].
    rewrite <- app_comm_cons, (decrypt_loop_step _ _ _ _ _ _ pt Hpt).
    apply IH. intros k'' Hk''. apply Hbefore. now right.
Qed.

(** C8 (as the code has it): for a threshold of at least 1 and at least
    [threshold] common keys, [eval] returns a result, the cardinality included, only when every
    common key has been recovered: the two [ct3] and the [ct4] under it
    have verified; an authenticated ciphertext under a common key that
    does not verify, whichever of the three, leaves the caller without a
    result; and the exception is [InvalidTag] when the keys that the
    loop meets before have been recovered. *)
Theorem eval_auth_failure_raises (self : scheme)
    (d0 d1 : gmap bytes ct_value) (t : Z) :
  threshold self = Some t ->
  1 <= t <= Z.of_nat (size (dom d0 ∩ dom d1)) ->
  (forall c I, eval self [d0; d1] = Ok (c, I) ->
     c = size (dom d0 ∩ dom d1) /\
     exists ae1_key,
       recover_ae1_key d0 d1 (take (Z.to_nat t) (iter (dom d0 ∩ dom d1)))
         = Ok ae1_key /\
       forall k, k ∈ dom d0 ∩ dom d1 ->
         exists pt, recovers d0 d1 ae1_key k pt /\ pt ∈ I) /\
  (forall k, k ∈ dom d0 ∩ dom d1 ->
     (forall ae1_key,
        recover_ae1_key d0 d1 (take (Z.to_nat t) (iter (dom d0 ∩ dom d1)))
          = Ok ae1_key ->
        auth_fails d0 d1 ae1_key k) ->
     exists e, eval self [d0; d1] = Raise e) /\
  (forall ae1_key keys1 k keys2,
     recover_ae1_key d0 d1 (take (Z.to_nat t) (iter (dom d0 ∩ dom d1)))
       = Ok ae1_key ->
     iter (dom d0 ∩ dom d1) = keys1 ++ k :: keys2 ->
     (forall k', k' ∈ keys1 -> exists pt, recovers d0 d1 ae1_key k' pt) ->
     auth_fails d0 d1 ae1_key k ->
     eval self [d0; d1] = Raise InvalidTag).
Proof.
  intros Ht Hcard. unfold eval.
  rewrite py_index_0, py_index_1. cbn [mbind result_bind].
  rewrite Ht. cbn [attr mbind result_bind].
  destruct (Z.geb_spec (Z.of_nat (size (dom d0 ∩ dom d1))) t) as [_|Hlt];
    [|lia].
  unfold islice. destruct (Z.ltb_spec t 0) as [Hneg|_]; [lia|].
  cbn [mbind result_bind].
  split; [|split].
  - intros c I.
    destruct (recover_ae1_key d0 d1 _) as [ae1_key|e]; [|done].
    cbn [mbind result_bind].
    destruct (decrypt_loop d0 d1 ae1_key _ ∅) as [res|e] eqn:Hrun; [|done].
    cbn [mbind result_bind mret result_ret]. intros [= <- <-].
    split; [done|]. exists ae1_key. split; [done|].
    intros k Hk. apply decrypt_loop_Ok_inv in Hrun as [_ Hall].
    apply Hall. now apply elem_of_iter.
  - intros k Hk Hfail.
    destruct (recover_ae1_key d0 d1 _) as [ae1_key|e]; [|eauto].
    cbn [mbind result_bind].
    destruct (decrypt_loop d0 d1 ae1_key _ ∅) as [res|e] eqn:Hrun; [|eauto].
    apply decrypt_loop_Ok_inv in Hrun as [_ Hall].
    destruct (Hall k) as (pt & Hpt & _); [now apply elem_of_iter|].
    destruct (recovers_not_fails _ _ _ _ _ Hpt (Hfail ae1_key eq_refl)).
  - intros ae1_key keys1 k keys2 -> -> Hbefore Hfail.
    cbn [mbind result_bind].
    now rewrite decrypt_loop_invalid_tag.
Qed.

End Proofs.
End TwoClientThresholdErrors.



Module TwoClientThresholdProofs.
Import TwoClientThreshold.
Section Proofs.
Context `{ECGroup} `{BlockCipher} `{Sha256} `{AESGCM} `{IterOrder}.

(** The dictionary key and the entry of a plaintext. *)
Definition key_of (key2 gid pt : bytes) : bytes :=
  serialize_ZR (_psi key2 gid pt).

Definition value_of (self : scheme) (u : usk) (gid : bytes) (cs : list ZR)
    (ae1_key ae1_nonce pt ae2_nonce : bytes) : ct_value :=
  let k1 := _phi self (sk1 u) gid pt in
  let k2 := _psi (sk2 u) gid pt in
  (serialize_ZR (Zmod.pow (f cs k2) (rho u)),
   (ae1_nonce, gcm_encrypt ae1_key ae1_nonce (serialize (pow k1 (sigma u)))),
   (ae2_nonce, gcm_encrypt (_H (serialize k1)) ae2_nonce pt)).

Lemma encrypt_loop_spec self u gid cs ae1_key ae1_nonce pts d r :
  let D := (encrypt_loop self u gid cs ae1_key ae1_nonce pts d r).1 in
  (forall k, k ∈ dom D <->
     k ∈ dom d \/ exists pt, pt ∈ pts /\ key_of (sk2 u) gid pt = k) /\
  (forall k v, D !! k = Some v ->
     d !! k = Some v \/
     exists pt n2, pt ∈ pts /\ key_of (sk2 u) gid pt = k /\
       v = value_of self u gid cs ae1_key ae1_nonce pt n2).
Proof.
  revert d r. induction pts as [|pt pts IH]; intros d r; cbn [encrypt_loop].
  - cbn [fst]. split.
    + intros k. split; [auto|]. intros [?|(pt & Hin & _)]; [done|].
      now apply elem_of_nil in Hin.
    + auto.
  - destruct (urandom 12 r) as [n2 r1].
    specialize (IH (<[serialize_ZR (_psi (sk2 u) gid pt) :=
                      value_of self u gid cs ae1_key ae1_nonce pt n2]> d) r1).
    cbv zeta in IH. destruct IH as [IHdom IHval].
    unfold value_of in IHdom, IHval at 1. cbv zeta in IHdom, IHval.
    split.
    + intros k. rewrite IHdom, dom_insert, elem_of_union, elem_of_singleton.
      split.
      * intros [[->|?]|(p & Hp & Hk)]; [right; exists pt; split; [left|done]
                                        |auto|].
        right. exists p. split; [now right|done].
      * intros [?|(p & Hp & Hk)]; [auto|].
        apply elem_of_cons in Hp as [->|Hp]; [left; left; now rewrite <- Hk|].
        right. eauto.
    + intros k v Hl. apply IHval in Hl as [Hl|(p & m & Hp & Hk & Hv)].
      * destruct (decide (serialize_ZR (_psi (sk2 u) gid pt) = k)) as [<-|Hne].
        -- rewrite lookup_insert_eq in Hl. injection Hl as <-.
           right. exists pt, n2. split; [left|done].
        -- rewrite lookup_insert_ne in Hl by done. now left.
      * right. exists p, m. split; [now right|done].
Qed.

Lemma deserialize_scalar_serialize (a : ZR) :
  deserialize_scalar (serialize_ZR a) = Ok a.
Proof. unfold deserialize_scalar. now rewrite deserialize_serialize_ZR. Qed.

Lemma deserialize_G_serialize (a : point) :
  deserialize_G (serialize a) = Ok a.
Proof. unfold deserialize_G. now rewrite deserialize_serialize. Qed.

Lemma serialize_ZR_inj (a b : ZR) : serialize_ZR a = serialize_ZR b -> a = b.
Proof.
  intros E. apply (f_equal deserialize_ZR) in E.
  rewrite !deserialize_serialize_ZR in E. congruence.
Qed.

Lemma NoDup_take_of {A} (n : nat) (l : list A) : NoDup l -> NoDup (take n l).
Proof.
  intros Hl. rewrite <- (take_drop n l) in Hl. apply NoDup_app in Hl. tauto.
Qed.

Lemma deserialize_key_of (key2 gid pt : bytes) :
  deserialize_scalar (key_of key2 gid pt) = Ok (_psi key2 gid pt).
Proof. apply deserialize_scalar_serialize. Qed.

(** The scalar a key stands for. *)
Definition x_of (k : bytes) : ZR := default Zmod.zero (deserialize_ZR k).

Lemma x_of_key_of (key2 gid pt : bytes) :
  x_of (key_of key2 gid pt) = _psi key2 gid pt.
Proof. unfold x_of, key_of. now rewrite deserialize_serialize_ZR. Qed.

(** What one [setup] and two [encrypt] fix: the shared keys, the two
    exponent shares, the coefficients, the two dictionaries. *)
Section Run.
Variables (self : scheme) (key1 key2 key3 gid : bytes) (sigma0 : ZR)
  (rho1 : Z) (cs : list ZR) (nonce0 nonce1 : bytes) (S0 S1 : list bytes)
  (D0 D1 : gmap bytes ct_value) (r0 r1 : rng).

Let u0 : usk :=
  {| sk1 := key1; sk2 := key2; sk3 := key3; sigma := sigma0; rho := rho1 |}.
Let u1 : usk :=
  {| sk1 := key1; sk2 := key2; sk3 := key3;
     sigma := Zmod.sub (init_ZR 1) sigma0;
     rho := (1 - rho1) mod (order - 1) |}.
Let ae1_key : bytes := _H (serialize_ZR (hd Zmod.zero cs)).

Hypothesis order_gt_2 : 2 < order.
Hypothesis rho1_nonneg : 0 <= rho1.
Hypothesis HD0 :
  D0 = (encrypt_loop self u0 gid cs ae1_key nonce0 S0 ∅ r0).1.
Hypothesis HD1 :
  D1 = (encrypt_loop self u1 gid cs ae1_key nonce1 S1 ∅ r1).1.
Hypothesis Hinj : forall x y, x ∈ S0 ++ S1 -> y ∈ S0 ++ S1 ->
  _psi key2 gid x = _psi key2 gid y -> x = y.

Lemma key_of_inj x y :
  x ∈ S0 ++ S1 -> y ∈ S0 ++ S1 ->
  key_of key2 gid x = key_of key2 gid y -> x = y.
Proof. intros Hx Hy E. apply Hinj; [done..|]. now apply serialize_ZR_inj. Qed.

Lemma lookup_D0 pt :
  pt ∈ S0 -> exists n2,
    D0 !! key_of key2 gid pt
      = Some (value_of self u0 gid cs ae1_key nonce0 pt n2).
Proof.
  intros Hpt.
  destruct (encrypt_loop_spec self u0 gid cs ae1_key nonce0 S0 ∅ r0)
    as [Hdom Hval]. rewrite <- HD0 in Hdom, Hval.
  assert (Hk : key_of key2 gid pt ∈ dom D0) by (apply Hdom; right; eauto).
  apply elem_of_dom in Hk as [v Hv].
  destruct (Hval _ _ Hv) as [Hl|(p & n2 & Hp & Hk & ->)].
  - now rewrite lookup_empty in Hl.
  - exists n2. rewrite Hv. cbn [sk2 u0] in Hk.
    assert (p = pt) as ->; [|done].
    apply key_of_inj; [apply elem_of_app; now left..|done].
Qed.

Lemma lookup_D1 pt :
  pt ∈ S1 -> exists n2,
    D1 !! key_of key2 gid pt
      = Some (value_of self u1 gid cs ae1_key nonce1 pt n2).
Proof.
  intros Hpt.
  destruct (encrypt_loop_spec self u1 gid cs ae1_key nonce1 S1 ∅ r1)
    as [Hdom Hval]. rewrite <- HD1 in Hdom, Hval.
  assert (Hk : key_of key2 gid pt ∈ dom D1) by (apply Hdom; right; eauto).
  apply elem_of_dom in Hk as [v Hv].
  destruct (Hval _ _ Hv) as [Hl|(p & n2 & Hp & Hk & ->)].
  - now rewrite lookup_empty in Hl.
  - exists n2. rewrite Hv. cbn [sk2 u1] in Hk.
    assert (p = pt) as ->; [|done].
    apply key_of_inj; [apply elem_of_app; now right..|done].
Qed.

(** The common keys are the keys of the common plaintexts. *)
Lemma common_keys k :
  k ∈ dom D0 ∩ dom D1 <->
  exists pt, pt ∈ S0 /\ pt ∈ S1 /\ key_of key2 gid pt = k.
Proof.
  destruct (encrypt_loop_spec self u0 gid cs ae1_key nonce0 S0 ∅ r0)
    as [Hdom0 _]. rewrite <- HD0 in Hdom0.
  destruct (encrypt_loop_spec self u1 gid cs ae1_key nonce1 S1 ∅ r1)
    as [Hdom1 _]. rewrite <- HD1 in Hdom1.
  rewrite elem_of_intersection, Hdom0, Hdom1. cbn [sk2 u0 u1]. split.
  - intros [[?|(p0 & Hp0 & Hk0)] [?|(p1 & Hp1 & Hk1)]];
      try (now apply elem_of_dom in H4 as [? H4]; rewrite lookup_empty in H4).
    assert (p0 = p1) as ->.
    { apply key_of_inj; [apply elem_of_app; now left
                        |apply elem_of_app; now right|congruence]. }
    eauto.
  - intros (pt & Hp0 & Hp1 & Hk). split; right; eauto.
Qed.

Lemma size_common_keys :
  size (dom D0 ∩ dom D1)
  = size (list_to_set S0 ∩ list_to_set S1 : gset bytes).
Proof.
  apply (size_image (key_of key2 gid)).
  - intros k. rewrite common_keys. split; intros (pt & Hp).
    + exists pt. rewrite elem_of_intersection, !elem_of_list_to_set. tauto.
    + exists pt. rewrite elem_of_intersection, !elem_of_list_to_set in Hp.
      tauto.
  - intros x y Hx Hy. apply elem_of_intersection in Hx as [Hx _].
    apply elem_of_intersection in Hy as [Hy _].
    rewrite elem_of_list_to_set in Hx, Hy.
    apply key_of_inj; apply elem_of_app; now left.
Qed.

Lemma points_loop_spec (keys : list bytes) :
  (forall k, k ∈ keys -> k ∈ dom D0 ∩ dom D1) ->
  points_loop D0 D1 keys = Ok (x_of <$> keys, f cs <$> (x_of <$> keys)).
Proof.
  induction keys as [|k keys IH]; intros Hkeys; [done|].
  cbn [points_loop].
  destruct (proj1 (common_keys k)) as (pt & Hp0 & Hp1 & <-);
    [apply Hkeys; left|].
  destruct (lookup_D0 pt Hp0) as [n2 L0].
  destruct (lookup_D1 pt Hp1) as [n2' L1].
  rewrite deserialize_key_of.
  cbn [mbind result_bind]. unfold py_getitem. rewrite L0, L1.
  cbn [mbind result_bind value_of fst snd].
  rewrite !deserialize_scalar_serialize. cbn [mbind result_bind].
  rewrite IH by (intros; apply Hkeys; now right).
  cbn [mbind result_bind mret result_ret rho sk2 u0 u1].
  rewrite !fmap_cons, x_of_key_of.
  now rewrite pow_rho_split.
Qed.

Lemma x_of_NoDup (keys : list bytes) :
  (forall k, k ∈ keys -> k ∈ dom D0 ∩ dom D1) ->
  NoDup keys -> NoDup (x_of <$> keys).
Proof.
  intros Hkeys. apply NoDup_fmap_2_strong. intros a b Ha Hb.
  destruct (proj1 (common_keys a) (Hkeys a Ha)) as (pa & _ & _ & <-).
  destruct (proj1 (common_keys b) (Hkeys b Hb)) as (pb & _ & _ & <-).
  rewrite !x_of_key_of. unfold key_of. now intros ->.
Qed.

Lemma recover_ae1_key_spec (n : nat) :
  length cs = n -> (n <= size (dom D0 ∩ dom D1))%nat ->
  recover_ae1_key D0 D1 (take n (iter (dom D0 ∩ dom D1))) = Ok ae1_key.
Proof.
  intros Hcs Hn. unfold recover_ae1_key.
  set (keys := take n (iter (dom D0 ∩ dom D1))).
  assert (Hkeys : forall k, k ∈ keys -> k ∈ dom D0 ∩ dom D1).
  { intros k Hk. apply elem_of_iter. unfold keys in Hk.
    now apply (subseteq_take n). }
  assert (Hlen : length keys = n).
  { unfold keys. rewrite length_take.
    assert (length (iter (dom D0 ∩ dom D1)) = size (dom D0 ∩ dom D1)).
    { now rewrite iter_perm. }
    lia. }
  rewrite points_loop_spec by done. cbn [mbind result_bind].
  rewrite c0_interpolate0, interpolate0_f.
  - reflexivity.
  - apply x_of_NoDup; [done|]. unfold keys. apply NoDup_take_of, NoDup_iter.
  - rewrite length_fmap. lia.
Qed.

Lemma decrypt_loop_spec (keys : list bytes) (acc : gset bytes) :
  (forall k, k ∈ keys -> k ∈ dom D0 ∩ dom D1) ->
  exists res,
    decrypt_loop D0 D1 ae1_key keys acc = Ok res /\
    forall x, x ∈ res <->
      x ∈ acc \/ (x ∈ S0 /\ x ∈ S1 /\ key_of key2 gid x ∈ keys).
Proof.
  revert acc. induction keys as [|k keys IH]; intros acc Hkeys.
  - exists acc. split; [done|]. intros x. split; [auto|].
    intros [?|(_ & _ & Hk)]; [done|]. now apply elem_of_nil in Hk.
  - destruct (proj1 (common_keys k)) as (pt & Hp0 & Hp1 & <-);
      [apply Hkeys; left|].
    destruct (lookup_D0 pt Hp0) as [n2 L0].
    destruct (lookup_D1 pt Hp1) as [n2' L1].
    cbn [decrypt_loop]. unfold py_getitem. rewrite L0, L1.
    cbn [mbind result_bind value_of]. unfold ae_decrypt.
    rewrite !gcm_decrypt_encrypt by apply H_length.
    cbn [mbind result_bind]. rewrite !deserialize_G_serialize.
    cbn [mbind result_bind sigma sk1 u0 u1]. rewrite pow_split.
    rewrite gcm_decrypt_encrypt by apply H_length.
    cbn [mbind result_bind].
    destruct (IH (acc ∪ {[pt]})) as (res & Hres & Hspec).
    { intros k' Hk'. apply Hkeys. now right. }
    exists res. split; [exact Hres|]. intros x. rewrite Hspec.
    rewrite elem_of_union, elem_of_singleton, elem_of_cons. split.
    + intros [[?| ->]|(?&?&?)]; auto.
    + intros [?|(Hx0 & Hx1 & [Hxk|?])]; auto.
      left. right. apply key_of_inj; [apply elem_of_app; now left..|done].
Qed.

Lemma eval_spec (t : Z) :
  threshold self = Some t -> 0 <= t -> length cs = Z.to_nat t ->
  let I : gset bytes := list_to_set S0 ∩ list_to_set S1 in
  eval self [D0; D1]
  = Ok (size I, if decide (t <= Z.of_nat (size I)) then I else ∅).
Proof.
  intros Ht Ht0 Hcs I. unfold eval. rewrite py_index_0, py_index_1.
  cbn [mbind result_bind]. rewrite Ht. cbn [attr mbind result_bind].
  rewrite size_common_keys. fold I.
  destruct (Z.geb_spec (Z.of_nat (size I)) t) as [Hge|Hlt].
  - rewrite decide_True by lia.
    unfold islice. destruct (Z.ltb_spec t 0) as [Hneg|_]; [lia|].
    cbn [mbind result_bind].
    rewrite recover_ae1_key_spec by (rewrite ?size_common_keys; fold I; lia).
    cbn [mbind result_bind].
    destruct (decrypt_loop_spec (iter (dom D0 ∩ dom D1)) ∅)
      as (res & Hres & Hspec).
    { intros k. apply elem_of_iter. }
    rewrite Hres. cbn [mbind result_bind mret result_ret]. do 2 f_equal.
    apply set_eq. intros x. rewrite Hspec. unfold I.
    rewrite elem_of_intersection, !elem_of_list_to_set, elem_of_iter.
    split.
    + intros [Hx|(?&?&?)]; [now apply elem_of_empty in Hx|done].
    + intros [Hx0 Hx1]. right. repeat split; [done..|].
      apply common_keys. eauto.
  - rewrite decide_False by lia. reflexivity.
Qed.

End Run.

Lemma coefficients_length (key3 gid : bytes) (t : Z) :
  length (coefficients key3 gid t) = Z.to_nat t.
Proof.
  unfold coefficients, py_range. rewrite !length_map, length_seq. f_equal. lia.
Qed.

(** C2 (as the code has it): for a [secpar] that gives AES keys and a
    16-byte gid, when no two distinct plaintexts of the two sets have the
    same key in the dictionaries (the same value of the PRF [_psi] under
    [sk2], modulo the group order), and the order of the group is above
    2, then for a threshold [t >= 1] the two encryptions under the keys
    of one [setup] succeed, and [eval] on them returns the size of the
    intersection of the two plaintext sets, with the intersection itself
    when that size is at least [t] and with the empty set when it is
    below. *)
Theorem eval_threshold_correct (self self' : scheme) (secpar0 t : Z)
    (gid : bytes) (S0 S1 : list bytes) (r r' ra rb : rng) (u0 u1 : usk) :
  2 < order ->
  1 <= t ->
  aes_secpar secpar0 ->
  length gid = 16%nat ->
  setup self secpar0 t r = Ok (self', (u0, u1), r') ->
  (forall x y, x ∈ S0 ++ S1 -> y ∈ S0 ++ S1 ->
     _psi (sk2 u0) gid x = _psi (sk2 u0) gid y -> x = y) ->
  exists D0 ra' D1 rb',
    encrypt self' u0 gid S0 ra = Ok (D0, ra') /\
    encrypt self' u1 gid S1 rb = Ok (D1, rb') /\
    let I : gset bytes := list_to_set S0 ∩ list_to_set S1 in
    eval self' [D0; D1]
    = Ok (size I, if decide (t <= Z.of_nat (size I)) then I else ∅).
Proof.
  intros Hq Ht Hsec Hgid. unfold setup.
  destruct (random_ZR r) as [sigma0 r1].
  destruct (random_ZR r1) as [rho1z r2].
  pose proof (aes_secpar_nonneg secpar0 Hsec) as Hnn.
  rewrite (os_urandom_Ok _ r2) by done.
  pose proof (aes_key_size_urandom secpar0 r2 Hsec) as Hk1.
  destruct (urandom _ r2) as [key1 r3]. cbn [mbind result_bind].
  rewrite (os_urandom_Ok _ r3) by done.
  pose proof (aes_key_size_urandom secpar0 r3 Hsec) as Hk2.
  destruct (urandom _ r3) as [key2 r4]. cbn [mbind result_bind].
  rewrite (os_urandom_Ok _ r4) by done.
  pose proof (aes_key_size_urandom secpar0 r4 Hsec) as Hk3.
  destruct (urandom _ r4) as [key3 r5]. cbn [mbind result_bind].
  cbn [fst] in Hk1, Hk2, Hk3. cbn [mret result_ret].
  intros [= <- <- <- <-]. cbn [sk2]. intros Hinj.
  set (self' := {| g := g self; secpar := Some secpar0;
                   threshold := Some t; ff_order := Some (order - 1) |}).
  unfold encrypt. cbv zeta. cbn [sk1 sk2 sk3].
  rewrite !Cipher_Ok by done.
  cbn [threshold self' attr mbind result_bind].
  pose proof (coefficients_length key3 gid t) as Hcs.
  destruct (coefficients key3 gid t) as [|c0 cs'] eqn:Ecs;
    [simpl in Hcs; lia|].
  rewrite py_index_0. cbn [mbind result_bind].
  destruct (urandom 12 ra) as [nonce0 ra1].
  destruct (urandom 12 rb) as [nonce1 rb1].
  cbn [mret result_ret].
  eexists _, _, _, _. split; [apply f_equal, surjective_pairing|].
  split; [apply f_equal, surjective_pairing|].
  apply (eval_spec self' key1 key2 key3 gid sigma0 (Zmod.to_Z rho1z)
           (c0 :: cs') nonce0 nonce1 S0 S1 _ _ ra1 rb1); try done; try lia.
  pose proof (Zmod.unsigned_pos_bound rho1z) as Hb.
  pose proof (Z.prime_ge_2 _ order_prime). lia.
Qed.

End Proofs.
End TwoClientThresholdProofs.

(** ** Determinism of [encrypt] *)

Lemma set_of_map_ext (fn : bytes -> bytes) (l1 l2 : list bytes) :
  (list_to_set l1 : gset bytes) = list_to_set l2 ->
  (list_to_set (map fn l1) : gset bytes) = list_to_set (map fn l2).
Proof.
  intros E. apply set_eq. intros y.
  assert (Hl : forall x, x ∈ l1 <-> x ∈ l2).
  { intros x. rewrite <- !(elem_of_list_to_set (C:=gset bytes)). now rewrite E. }
  rewrite !elem_of_list_to_set, !list_elem_of_In, !in_map_iff.
  split; intros (x & Hx & Hin); exists x; split; try done;
    apply list_elem_of_In; apply Hl; now apply list_elem_of_In.
Qed.

Lemma fill_ext {V} (kv : bytes -> bytes * V) (l1 l2 : list bytes) :
  (forall x, x ∈ l1 <-> x ∈ l2) ->
  (forall x y, x ∈ l1 -> y ∈ l1 -> (kv x).1 = (kv y).1 -> x = y) ->
  fill kv ∅ l1 = fill kv ∅ l2.
Proof.
  intros Hl Hinj. apply map_eq. intros k.
  destruct (fill kv ∅ l1 !! k) as [v|] eqn:E1.
  - apply fill_lookup_inv in E1 as (pt & Hin & Hkv).
    assert (Hinj2 : forall x y, x ∈ l2 -> y ∈ l2 ->
                      (kv x).1 = (kv y).1 -> x = y).
    { intros x y Hx Hy. apply Hinj; now apply Hl. }
    pose proof (fill_lookup kv l2 pt Hinj2 (proj1 (Hl pt) Hin)) as L2.
    now rewrite Hkv in L2.
  - symmetry. apply not_elem_of_dom. intros Hd.
    apply fill_dom in Hd as (pt & Hin & Hk).
    assert (Hd1 : k ∈ dom (fill kv ∅ l1)).
    { apply fill_dom. exists pt. split; [now apply Hl|done]. }
    apply elem_of_dom in Hd1 as [v Hv]. congruence.
Qed.

(** C7 (as the code has it): for schemes 1 and 4, two calls of [encrypt]
    with the same key and gid on the same plaintext set, met in whatever
    order, return the same set, or raise the same exception; so do they
    for scheme 2, with the same dictionary, when no two plaintexts of the
    set share a dictionary key.  Scheme 5 draws random group elements and
    is left out. *)
Theorem encrypt_deterministic `{ECGroup} `{BlockCipher} `{Sha256} `{AESGCM}
    (key1 : bytes)
    (self2 : TwoClientIntersection.scheme) (usk2 : bytes * ZR)
    (self4 : MultiClientCardinality.scheme) (usk4 : ZR)
    (gid : bytes) (l1 l2 : list bytes) :
  (list_to_set l1 : gset bytes) = list_to_set l2 ->
  TwoClientCardinality.encrypt key1 gid l1
    = TwoClientCardinality.encrypt key1 gid l2 /\
  MultiClientCardinality.encrypt self4 usk4 gid l1
    = MultiClientCardinality.encrypt self4 usk4 gid l2 /\
  ((forall x y, x ∈ l1 -> y ∈ l1 ->
      TwoClientIntersectionProofs.key_of self2 usk2.1 gid x
        = TwoClientIntersectionProofs.key_of self2 usk2.1 gid y -> x = y) ->
   TwoClientIntersection.encrypt self2 usk2 gid l1
     = TwoClientIntersection.encrypt self2 usk2 gid l2).
Proof.
  intros E. split; [|split].
  - unfold TwoClientCardinality.encrypt. cbv zeta.
    destruct (Cipher key1 gid) as [[key iv]|e]; [|done].
    cbn [mbind result_bind mret result_ret]. f_equal.
    now apply set_of_map_ext.
  - now apply set_of_map_ext.
  - intros Hinj. destruct usk2 as [msk sigma].
    unfold TwoClientIntersection.encrypt. cbv zeta.
    destruct (Cipher msk gid) as [c|e] eqn:Hc; [|done].
    apply Cipher_inv in Hc as [-> _].
    cbn [mbind result_bind mret result_ret]. f_equal.
    rewrite !TwoClientIntersectionProofs.encrypt_fill. apply fill_ext.
    + intros x.
      rewrite <- !(elem_of_list_to_set (C:=gset bytes)). now rewrite E.
    + intros x y Hx Hy.
      rewrite !TwoClientIntersectionProofs.encrypt_one_key. now apply Hinj.
Qed.

(** ** The multi-client cardinality scheme *)

(** [S_1 ∩ ... ∩ S_n] *)
Definition intersection_all (sets : list (gset bytes)) : gset bytes :=
  match sets with
  | [] => ∅
  | X :: rest => foldl (∩) X rest
  end.

Lemma elem_of_foldl_intersection (x : bytes) (rest : list (gset bytes))
    (X : gset bytes) :
  x ∈ foldl (∩) X rest <-> x ∈ X /\ Forall (fun Y => x ∈ Y) rest.
Proof.
  revert X. induction rest as [|Y rest IH]; intros X; cbn [foldl].
  - rewrite Forall_nil. tauto.
  - rewrite IH, elem_of_intersection, Forall_cons. tauto.
Qed.

Lemma elem_of_intersection_all (x : bytes) (sets : list (gset bytes)) :
  sets <> [] -> x ∈ intersection_all sets <-> Forall (fun Y => x ∈ Y) sets.
Proof.
  destruct sets as [|X rest]; [done|]. intros _. cbn [intersection_all].
  now rewrite elem_of_foldl_intersection, Forall_cons.
Qed.

Module MultiClientCardinalityProofs.
Import MultiClientCardinality.
Section Proofs.
Context `{ECGroup} `{IterOrder}.
Variable gid : bytes.

(** A client: its key and its plaintext set. *)
Abbreviation client := (ZR * list bytes)%type.

(** The group element behind the ciphertext of [x] under the key [u]. *)
Definition val (u : ZR) (x : bytes) : point :=
  pow (hash_to_point (gid ++ x)) u.

Definition enc (u : ZR) (x : bytes) : bytes := encrypt_one u gid x.

(** The product of the group elements of one plaintext per key. *)
Definition prodpt (us : list ZR) (xs : list bytes) : point :=
  foldr mul one (zip_with val us xs).

Lemma enc_val u x : deserialize (enc u x) = Some (val u x).
Proof. apply deserialize_serialize. Qed.

Lemma enc_inj_val u x y : enc u x = enc u y -> val u x = val u y.
Proof.
  intros E. apply (f_equal deserialize) in E. rewrite !enc_val in E.
  congruence.
Qed.

Lemma mul_one_r (a : point) : mul a one = a.
Proof. now rewrite mul_comm, mul_one_l. Qed.

Lemma prodpt_cons u us x xs :
  prodpt (u :: us) (x :: xs) = mul (val u x) (prodpt us xs).
Proof. reflexivity. Qed.

Lemma prodpt_app us1 us2 xs1 xs2 :
  length us1 = length xs1 ->
  prodpt (us1 ++ us2) (xs1 ++ xs2) = mul (prodpt us1 xs1) (prodpt us2 xs2).
Proof.
  revert xs1. induction us1 as [|u us1 IH]; intros [|x xs1] Hlen;
    try discriminate.
  - cbn [app]. unfold prodpt at 2. cbn [zip_with foldr].
    now rewrite mul_one_l.
  - cbn [app]. rewrite !prodpt_cons, IH by (simpl in Hlen; lia).
    apply mul_assoc.
Qed.

Lemma prodpt_replicate us x :
  prodpt us (replicate (length us) x)
  = pow (hash_to_point (gid ++ x)) (zr_sum us).
Proof.
  induction us as [|u us IH].
  - unfold prodpt, zr_sum. cbn. now rewrite pow_zero.
  - cbn [length replicate]. rewrite prodpt_cons, IH, zr_sum_cons.
    unfold val. apply pow_add.
Qed.

(** Plaintexts with the same ciphertexts give the same product. *)
Lemma prodpt_ext us xs ys :
  Forall3 (fun u x y => enc u x = enc u y) us xs ys ->
  prodpt us xs = prodpt us ys.
Proof.
  induction 1 as [|u x y us xs ys E _ IH]; [done|].
  rewrite !prodpt_cons, IH. f_equal. now apply enc_inj_val.
Qed.


(** The set of ciphertexts of a client, and of some of its plaintexts. *)
Definition C (cl : client) : gset bytes := list_to_set (map (enc cl.1) cl.2).

Definition Elt (cl : client) (R : gset bytes) : gset bytes :=
  set_map (enc cl.1) R.

Lemma encrypt_C self (cl : client) : encrypt self cl.1 gid cl.2 = C cl.
Proof. reflexivity. Qed.

Lemma elem_of_C (c : bytes) (cl : client) :
  c ∈ C cl <-> exists y, y ∈ cl.2 /\ c = enc cl.1 y.
Proof.
  unfold C. rewrite elem_of_list_to_set, list_elem_of_In, in_map_iff.
  split; intros (y & H1 & H2).
  - exists y. split; [now apply list_elem_of_In|done].
  - exists y. split; [done|now apply list_elem_of_In].
Qed.

Lemma elem_of_Elt (c : bytes) (cl : client) (R : gset bytes) :
  c ∈ Elt cl R <-> exists x, x ∈ R /\ c = enc cl.1 x.
Proof. unfold Elt. rewrite elem_of_map. split; intros (x & ? & ?); eauto. Qed.

(** The sets the search works on, once the plaintexts [R] were matched
    and removed. *)
Definition state (R : gset bytes) (pre : list client) : list (gset bytes) :=
  map (fun cl => C cl ∖ Elt cl R) pre.

Lemma state_snoc R pre cl :
  state R (pre ++ [cl]) = state R pre ++ [C cl ∖ Elt cl R].
Proof. unfold state. now rewrite map_app. Qed.

Lemma state_empty pre : state ∅ pre = map C pre.
Proof.
  unfold state. apply map_ext. intros cl. apply set_eq. intros c.
  rewrite elem_of_difference, elem_of_Elt. split; [tauto|].
  intros Hc. split; [done|]. intros (x & Hx & _). now apply elem_of_empty in Hx.
Qed.

(** [ys], one plaintext per client of [post], has the ciphertexts of
    [x]. *)
Definition matches (ys : list bytes) (post : list client) (x : bytes) : Prop :=
  Forall2 (fun y (cl : client) => enc cl.1 y = enc cl.1 x) ys post.

Lemma prodpt_matches ys post x :
  matches ys post x ->
  prodpt post.*1 ys = prodpt post.*1 (replicate (length post) x).
Proof.
  induction 1 as [|y cl ys post E _ IH]; [done|].
  cbn [fmap list_fmap length replicate]. rewrite !prodpt_cons.
  change (list_fmap _ _ fst post) with (post.*1).
  rewrite IH. f_equal. now apply enc_inj_val.
Qed.

Lemma matches_replicate post x : matches (replicate (length post) x) post x.
Proof. induction post; constructor; auto. Qed.

Lemma members_replicate (post : list client) x :
  Forall2 (fun y (cl : client) => y ∈ cl.2) (replicate (length post) x) post
  <-> Forall (fun cl : client => x ∈ cl.2) post.
Proof.
  induction post as [|cl post IH]; cbn [length replicate].
  - split; constructor.
  - rewrite Forall2_cons, Forall_cons, IH. tauto.
Qed.

Section Run.
Variable clients : list client.
Hypothesis Hsum : zr_sum clients.*1 = Zmod.zero.
Hypothesis Hgen : forall xs,
  Forall2 (fun x (cl : client) => x ∈ cl.2) xs clients ->
  prodpt clients.*1 xs = one ->
  exists x, xs = replicate (length clients) x.
Hypothesis Hn : (2 <= length clients)%nat.

(** [x] is in every plaintext set. *)
Definition common (x : bytes) : Prop :=
  Forall (fun cl : client => x ∈ cl.2) clients.

Lemma prodpt_common x :
  prodpt clients.*1 (replicate (length clients) x) = one.
Proof.
  rewrite <- (length_fmap fst clients), prodpt_replicate, Hsum.
  apply pow_zero.
Qed.

(** A common plaintext shares no ciphertext with another one. *)
Lemma enc_inj_common (cl : client) x y :
  cl ∈ clients -> common x -> common y ->
  enc cl.1 x = enc cl.1 y -> x = y.
Proof.
  intros Hcl Hx Hy E.
  apply list_elem_of_split in Hcl as (pre & post & Hsplit).
  set (xs := replicate (length pre) x ++ y :: replicate (length post) x).
  assert (Hmem : Forall2 (fun x (cl : client) => x ∈ cl.2) xs clients).
  { unfold common in Hx, Hy. rewrite Hsplit in Hx, Hy |- *.
    apply Forall_app in Hx as [Hx1 Hx2]. apply Forall_cons in Hx2 as [_ Hx2].
    apply Forall_app in Hy as [_ Hy2]. apply Forall_cons in Hy2 as [Hy2 _].
    apply Forall2_app; [now apply members_replicate|].
    constructor; [done|now apply members_replicate]. }
  assert (Hprod : prodpt clients.*1 xs = one).
  { rewrite <- (prodpt_common x). rewrite Hsplit, fmap_app, fmap_cons.
    rewrite length_app. cbn [length]. rewrite replicate_add.
    cbn [replicate]. unfold xs.
    rewrite !prodpt_app by now rewrite length_fmap, length_replicate.
    rewrite !prodpt_cons. do 2 f_equal. symmetry. now apply enc_inj_val. }
  destruct (Hgen xs Hmem Hprod) as [z Hz].
  rewrite Hsplit, length_app in Hz. cbn [length] in Hz.
  rewrite replicate_add in Hz. cbn [replicate] in Hz. unfold xs in Hz.
  apply app_inj_1 in Hz as [Hz1 Hz2]; [|now rewrite !length_replicate].
  injection Hz2 as -> Hz2.
  assert (Hlen : (1 <= length pre \/ 1 <= length post)%nat).
  { rewrite Hsplit, length_app in Hn. simpl in Hn. lia. }
  destruct Hlen as [Hl|Hl].
  - destruct (length pre); [lia|]. cbn [replicate] in Hz1. congruence.
  - destruct (length post); [lia|]. cbn [replicate] in Hz2. congruence.
Qed.

Lemma matches_unique ys (post : list client) x z :
  post <> [] -> (forall cl, cl ∈ post -> cl ∈ clients) ->
  common x -> common z -> matches ys post x -> matches ys post z -> x = z.
Proof.
  intros Hne Hsub Hx Hz Mx Mz.
  destruct Mx as [|y cl ys post Ex _]; [done|].
  apply Forall2_cons in Mz as [Ez _].
  apply (enc_inj_common cl); [apply Hsub; left|done..|congruence].
Qed.


(** *** The two loops, on what each candidate does *)

Lemma leaf_none (P : point) (cands : list bytes) (T : gset bytes) :
  (forall c, c ∈ cands ->
     exists v, deserialize c = Some v /\ mul P v <> one) ->
  leaf_loop P cands T = Ok (O, T).
Proof.
  induction cands as [|c cands IH]; intros Hc; [done|].
  cbn [leaf_loop]. destruct (Hc c) as (v & -> & Hv); [left|].
  rewrite decide_False by done. apply IH. intros c' Hc'. apply Hc. now right.
Qed.

Lemma leaf_found (P : point) (cands : list bytes) (T : gset bytes)
    (c0 : bytes) :
  c0 ∈ cands ->
  (forall c, c ∈ cands ->
     exists v, deserialize c = Some v /\ (mul P v = one -> c = c0)
               /\ (c = c0 -> mul P v = one)) ->
  leaf_loop P cands T = Ok (1%nat, T ∖ {[c0]}).
Proof.
  induction cands as [|c cands IH]; intros Hin Hc.
  - now apply elem_of_nil in Hin.
  - cbn [leaf_loop]. destruct (Hc c) as (v & -> & Hv1 & Hv2); [left|].
    destruct (decide (mul P v = one)) as [Hm|Hm].
    + now rewrite (Hv1 Hm).
    + apply IH.
      * apply elem_of_cons in Hin as [->|Hin]; [|done].
        exfalso. now apply Hm, Hv2.
      * intros c' Hc'. apply Hc. now right.
Qed.

Lemma node_none
    (rec : list (gset bytes) -> point -> result (nat * list (gset bytes)))
    (P : point) (cands : list bytes) (cnt : nat) (Ts : list (gset bytes))
    (T : gset bytes) :
  (forall c, c ∈ cands ->
     exists v, deserialize c = Some v /\ rec Ts (mul P v) = Ok (O, Ts)) ->
  node_loop rec P cands cnt Ts T = Ok (cnt, Ts, T).
Proof.
  induction cands as [|c cands IH]; intros Hc; [done|].
  cbn [node_loop]. destruct (Hc c) as (v & -> & ->); [left|].
  cbn [mbind result_bind]. rewrite decide_False by done.
  apply IH. intros c' Hc'. apply Hc. now right.
Qed.

Lemma node_found
    (rec : list (gset bytes) -> point -> result (nat * list (gset bytes)))
    (P : point) (cands : list bytes) (cnt : nat) (Ts Ts' : list (gset bytes))
    (T : gset bytes) (c0 : bytes) :
  NoDup cands -> c0 ∈ cands ->
  (forall c, c ∈ cands ->
     exists v, deserialize c = Some v /\
       (c = c0 -> rec Ts (mul P v) = Ok (1%nat, Ts')) /\
       (c <> c0 -> rec Ts (mul P v) = Ok (O, Ts)
                   /\ rec Ts' (mul P v) = Ok (O, Ts'))) ->
  node_loop rec P cands cnt Ts T = Ok (S cnt, Ts', T ∖ {[c0]}).
Proof.
  revert T. induction cands as [|c cands IH]; intros T Hnd Hin Hc.
  - now apply elem_of_nil in Hin.
  - apply NoDup_cons in Hnd as [Hnotin Hnd]. cbn [node_loop].
    destruct (Hc c) as (v & -> & Hv1 & Hv2); [left|].
    destruct (decide (c = c0)) as [->|Hne].
    + rewrite Hv1 by done. cbn [mbind result_bind].
      rewrite decide_True by done. apply node_none.
      intros c' Hc'. destruct (Hc c') as (v' & Hd & _ & Hv'); [now right|].
      exists v'. split; [done|]. apply Hv'. now intros ->.
    + destruct (Hv2 Hne) as [-> _]. cbn [mbind result_bind].
      rewrite decide_False by done. apply IH; [done| |].
      * apply elem_of_cons in Hin as [->|Hin]; [done|done].
      * intros c' Hc'. apply Hc. now right.
Qed.


(** *** The search below the top level *)

Lemma full_match (cl : client) (post : list client) (y : bytes)
    (ys : list bytes) :
  clients = cl :: post -> y ∈ cl.2 ->
  Forall2 (fun y (cl : client) => y ∈ cl.2) ys post ->
  mul (prodpt post.*1 ys) (val cl.1 y) = one ->
  common y /\ matches ys post y.
Proof.
  intros Hcl Hy Hys Hprod.
  destruct (Hgen (y :: ys)) as [z Hz].
  - rewrite Hcl. now constructor.
  - rewrite Hcl, fmap_cons, prodpt_cons, mul_comm. exact Hprod.
  - rewrite Hcl in Hz. cbn [length replicate] in Hz.
    injection Hz as -> ->. split; [|apply matches_replicate].
    unfold common. rewrite Hcl. constructor; [done|].
    now apply members_replicate.
Qed.

Lemma remove_matched (cl : client) (R : gset bytes) (x : bytes) :
  (C cl ∖ Elt cl R) ∖ {[enc cl.1 x]} = C cl ∖ Elt cl (R ∪ {[x]}).
Proof.
  apply set_eq. intros c.
  rewrite !elem_of_difference, !elem_of_Elt, elem_of_singleton. split.
  - intros [[Hc Hnot] Hne]. split; [done|]. intros (z & Hz & ->).
    apply elem_of_union in Hz as [Hz|Hz]; [apply Hnot; eauto|].
    apply elem_of_singleton in Hz as ->. done.
  - intros [Hc Hnot]. repeat split; [done| |].
    + intros (z & Hz & ->). apply Hnot. exists z. split; [|done].
      apply elem_of_union. now left.
    + intros ->. apply Hnot. exists x. split; [|done].
      apply elem_of_union. right. now apply elem_of_singleton.
Qed.

Lemma candidate (cl : client) (R : gset bytes) (c : bytes) :
  c ∈ iter (C cl ∖ Elt cl R) ->
  exists y, y ∈ cl.2 /\ c = enc cl.1 y /\ (y ∉ R)
            /\ deserialize c = Some (val cl.1 y).
Proof.
  intros Hc. apply elem_of_iter, elem_of_difference in Hc as [Hc Hnot].
  apply elem_of_C in Hc as (y & Hy & ->). exists y.
  repeat split; [done| |apply enc_val].
  intros HyR. apply Hnot, elem_of_Elt. eauto.
Qed.

Lemma candidate_of_common (cl : client) (R : gset bytes) (x : bytes) :
  cl ∈ clients -> (forall z, z ∈ R -> common z) -> common x -> x ∉ R ->
  enc cl.1 x ∈ iter (C cl ∖ Elt cl R).
Proof.
  intros Hcl HR Hx HxR. apply elem_of_iter, elem_of_difference. split.
  - apply elem_of_C. exists x. split; [|done].
    unfold common in Hx. rewrite Forall_forall in Hx. now apply Hx.
  - intros (z & Hz & E)%elem_of_Elt.
    assert (x = z) as -> by (apply (enc_inj_common cl); auto).
    done.
Qed.

Lemma intersection_count_snoc (d : nat) (Ts : list (gset bytes))
    (T : gset bytes) (P : point) :
  intersection_count (S d) (Ts ++ [T]) P
  = if decide (Ts = []) then
      '(count, ct_set) ← leaf_loop P (iter T) T;
      mret (count, Ts ++ [ct_set])
    else
      '(count, ct_sets, ct_set) ←
        node_loop (intersection_count d) P (iter T) O Ts T;
      mret (count, ct_sets ++ [ct_set]).
Proof.
  cbn [intersection_count]. now rewrite last_snoc, removelast_last.
Qed.

Lemma level (pre : list client) :
  forall (post : list client) (ys : list bytes) (R : gset bytes)
         (depth : nat),
    pre <> [] -> post <> [] -> clients = pre ++ post ->
    Forall2 (fun y (cl : client) => y ∈ cl.2) ys post ->
    (forall z, z ∈ R -> common z) ->
    (length pre <= depth)%nat ->
    (forall x, common x -> x ∉ R -> matches ys post x ->
       intersection_count depth (state R pre) (prodpt post.*1 ys)
       = Ok (1%nat, state (R ∪ {[x]}) pre)) /\
    ((forall x, common x -> x ∉ R -> ~ matches ys post x) ->
       intersection_count depth (state R pre) (prodpt post.*1 ys)
       = Ok (O, state R pre)).
Proof.
  induction pre as [|cl pre IH] using rev_ind; [done|].
  intros post ys R depth _ Hpost Hcl Hys HR Hdepth.
  rewrite length_app in Hdepth. cbn [length] in Hdepth.
  destruct depth as [|d]; [lia|].
  assert (Hcl_in : cl ∈ clients).
  { rewrite Hcl. apply elem_of_app. left. apply elem_of_app. right. left. }
  assert (Hpost_in : forall cl', cl' ∈ post -> cl' ∈ clients).
  { intros cl' Hin. rewrite Hcl. apply elem_of_app. now right. }
  rewrite !state_snoc, !intersection_count_snoc.
  set (P := prodpt post.*1 ys). set (T := C cl ∖ Elt cl R).
  assert (Hstep : forall y, mul P (val cl.1 y)
                            = prodpt (cl :: post).*1 (y :: ys)).
  { intros y. rewrite fmap_cons, prodpt_cons. apply mul_comm. }
  destruct pre as [|cl0 pre0].
  - (* the leaf *)
    cbn [state map app] in *. rewrite decide_True by done. split.
    + intros x Hx HxR Mx.
      rewrite (leaf_found P (iter T) T (enc cl.1 x)).
      * cbn [mbind result_bind mret result_ret app].
        unfold T. now rewrite remove_matched.
      * now apply candidate_of_common.
      * intros c Hc.
        destruct (candidate cl R c Hc) as (y & Hy & -> & HyR & Hd).
        exists (val cl.1 y). split; [done|]. split.
        -- intros Hprod.
           destruct (full_match cl post y ys Hcl Hy Hys Hprod) as [Cy My].
           f_equal. now apply (matches_unique ys post).
        -- intros E. apply enc_inj_val in E. rewrite E, Hstep.
           rewrite <- (prodpt_common x), Hcl. cbn [app length replicate].
           rewrite fmap_cons, !prodpt_cons. f_equal.
           now apply prodpt_matches.
    + intros Hnone. rewrite (leaf_none P (iter T) T); [done|].
      intros c Hc.
      destruct (candidate cl R c Hc) as (y & Hy & -> & HyR & Hd).
      exists (val cl.1 y). split; [done|]. intros Hprod.
      destruct (full_match cl post y ys Hcl Hy Hys Hprod) as [Cy My].
      now apply (Hnone y).
  - (* an inner node *)
    set (pre := cl0 :: pre0) in *.
    rewrite decide_False by done.
    assert (Hcl' : clients = pre ++ cl :: post).
    { rewrite Hcl, <- app_assoc. reflexivity. }
    assert (Hrec : forall y R', y ∈ cl.2 -> (forall z, z ∈ R' -> common z) ->
      (forall x, common x -> x ∉ R' -> matches (y :: ys) (cl :: post) x ->
         intersection_count d (state R' pre) (mul P (val cl.1 y))
         = Ok (1%nat, state (R' ∪ {[x]}) pre)) /\
      ((forall x, common x -> x ∉ R' -> ~ matches (y :: ys) (cl :: post) x) ->
         intersection_count d (state R' pre) (mul P (val cl.1 y))
         = Ok (O, state R' pre))).
    { intros y R' Hy HR'. rewrite Hstep.
      apply IH; [done|done|done| |done|lia]. now constructor. }
    split.
    + intros x Hx HxR Mx.
      assert (HRx : forall z, z ∈ R ∪ {[x]} -> common z).
      { intros z [Hz|Hz]%elem_of_union; [auto|].
        now apply elem_of_singleton in Hz as ->. }
      rewrite (node_found _ P (iter T) O (state R pre)
                 (state (R ∪ {[x]}) pre) T (enc cl.1 x)).
      * cbn [mbind result_bind mret result_ret].
        unfold T. now rewrite remove_matched, state_snoc.
      * apply NoDup_iter.
      * now apply candidate_of_common.
      * intros c Hc.
        destruct (candidate cl R c Hc) as (y & Hy & -> & HyR & Hd).
        exists (val cl.1 y). split; [done|]. split.
        -- intros E. apply (Hrec y R Hy HR); [done..|]. now constructor.
        -- intros Hne.
           assert (Hno : forall x', common x' ->
                           ~ matches (y :: ys) (cl :: post) x').
           { intros x' Hx' M. apply Forall2_cons in M as [E M].
             assert (x = x') as <- by now apply (matches_unique ys post).
             apply Hne. now rewrite E. }
           split.
           ++ apply (Hrec y R Hy HR). intros x' Hx' _. now apply Hno.
           ++ apply (Hrec y _ Hy HRx). intros x' Hx' _. now apply Hno.
    + intros Hnone.
      rewrite (node_none _ P (iter T) O (state R pre) T); [done|].
      intros c Hc.
      destruct (candidate cl R c Hc) as (y & Hy & -> & HyR & Hd).
      exists (val cl.1 y). split; [done|].
      apply (Hrec y R Hy HR). intros x' Hx' Hx'R M.
      apply Forall2_cons in M as [_ M]. now apply (Hnone x').
Qed.


(** *** The top level *)

(** The plaintexts common to all clients, as a set. *)
Definition common_set : gset bytes :=
  intersection_all ((fun cl : client => list_to_set cl.2) <$> clients).

Lemma elem_of_common_set x : x ∈ common_set <-> common x.
Proof.
  unfold common_set, common. rewrite elem_of_intersection_all.
  - rewrite Forall_fmap. apply Forall_proper; [|done].
    intros cl. cbn. apply elem_of_list_to_set.
  - destruct clients; [simpl in Hn; lia|done].
Qed.

Lemma top_loop (pre : list client) (cln : client) (d : nat)
    (cands : list bytes) :
  clients = pre ++ [cln] -> pre <> [] -> (length pre <= d)%nat ->
  forall (cnt : nat) (R T : gset bytes),
    NoDup cands -> (forall c, c ∈ cands -> c ∈ C cln) ->
    (forall z, z ∈ R -> common z /\ enc cln.1 z ∉ cands) ->
    exists R' T',
      node_loop (intersection_count d) one cands cnt (state R pre) T
      = Ok ((cnt + length (filter (.∈ Elt cln common_set) cands))%nat,
            state R' pre, T').
Proof.
  intros Hcl Hpre Hd.
  induction cands as [|c cands IH]; intros cnt R T Hnd HC HR.
  - exists R, T. cbn [node_loop filter list_filter length].
    now rewrite Nat.add_0_r.
  - apply NoDup_cons in Hnd as [Hnotin Hnd].
    destruct (proj1 (elem_of_C c cln)) as (y & Hy & ->); [apply HC; left|].
    cbn [node_loop]. rewrite enc_val.
    assert (HRc : forall z, z ∈ R -> common z) by (intros z Hz; now apply HR).
    destruct (level pre [cln] [y] R d) as [LA LB]; try done.
    { constructor; [done|constructor]. }
    assert (HP : mul one (val cln.1 y) = prodpt [cln].*1 [y]).
    { unfold prodpt. cbn. now rewrite mul_one_l, mul_one_r. }
    rewrite filter_cons.
    destruct (decide (enc cln.1 y ∈ Elt cln common_set)) as [Hin|Hout].
    + apply elem_of_Elt in Hin as (x & Hx & E).
      apply elem_of_common_set in Hx.
      assert (HxR : x ∉ R).
      { intros HxR. destruct (HR x HxR) as [_ Hno]. apply Hno.
        rewrite <- E. left. }
      rewrite HP, (LA x Hx HxR) by (constructor; [done|constructor]).
      cbn [mbind result_bind]. rewrite decide_True by done.
      destruct (IH (S cnt) (R ∪ {[x]}) (T ∖ {[enc cln.1 y]})) as (R' & T' & ->).
      * done.
      * intros c Hc. apply HC. now right.
      * intros z [Hz|Hz]%elem_of_union.
        -- destruct (HR z Hz) as [Hz1 Hz2]. split; [done|].
           intros Hzc. apply Hz2. now right.
        -- apply elem_of_singleton in Hz as ->. split; [done|].
           now rewrite <- E.
      * exists R', T'. cbn [length]. do 3 f_equal. lia.
    + rewrite HP, LB.
      * cbn [mbind result_bind]. rewrite decide_False by done.
        apply IH; [done| |].
        -- intros c Hc. apply HC. now right.
        -- intros z Hz. destruct (HR z Hz) as [Hz1 Hz2]. split; [done|].
           intros Hzc. apply Hz2. now right.
      * intros x Hx _ M. apply Forall2_cons in M as [E _].
        apply Hout, elem_of_Elt. exists x. split; [|done].
        now apply elem_of_common_set.
Qed.

Lemma count_common (cln : client) :
  cln ∈ clients ->
  length (filter (.∈ Elt cln common_set) (iter (C cln ∖ Elt cln ∅)))
  = size common_set.
Proof.
  intros Hcln.
  rewrite <- (size_image (enc cln.1) common_set (Elt cln common_set)).
  - rewrite <- (size_list_to_set (C:=gset bytes)).
    + f_equal. apply set_eq. intros c.
      rewrite elem_of_list_to_set, list_elem_of_filter, elem_of_iter.
      rewrite elem_of_difference. split; [tauto|]. intros Hc.
      split; [done|]. split.
      * apply elem_of_Elt in Hc as (x & Hx & ->). apply elem_of_C.
        exists x. split; [|done]. apply elem_of_common_set in Hx.
        unfold common in Hx. rewrite Forall_forall in Hx. now apply Hx.
      * intros (z & Hz & _)%elem_of_Elt. now apply elem_of_empty in Hz.
    + apply NoDup_filter, NoDup_iter.
  - intros c. rewrite elem_of_Elt. split; intros (x & ? & ?); eauto.
  - intros x y Hx Hy. apply (enc_inj_common cln); [done|..];
      now apply elem_of_common_set.
Qed.

(** The search on the ciphertext sets of all clients counts the common
    plaintexts. *)
Lemma intersection_count_top :
  exists Ts,
    intersection_count (length clients) (map C clients) one
    = Ok (size common_set, Ts).
Proof.
  assert (Hne : clients <> []) by (intros E; rewrite E in Hn; simpl in Hn; lia).
  destruct (exists_last Hne) as (pre & cln & Hcl).
  assert (Hpre : pre <> []).
  { intros ->. rewrite Hcl in Hn. simpl in Hn. lia. }
  rewrite <- state_empty, Hcl.
  rewrite length_app, Nat.add_1_r, state_snoc, intersection_count_snoc.
  rewrite decide_False by (destruct pre; done).
  destruct (top_loop pre cln (length pre) (iter (C cln ∖ Elt cln ∅))
              Hcl Hpre (le_n _) O ∅ (C cln ∖ Elt cln ∅)) as (R' & T' & ->).
  - apply NoDup_iter.
  - intros c Hc. apply elem_of_iter, elem_of_difference in Hc. tauto.
  - intros z Hz. now apply elem_of_empty in Hz.
  - cbn [mbind result_bind Nat.add]. rewrite count_common.
    + eexists. reflexivity.
    + rewrite Hcl. apply elem_of_app. right. left.
Qed.

End Run.

Lemma setup_keys (self : scheme) (secpar count : Z) (r : rng) :
  1 <= count ->
  length (setup self secpar count r).1.2 = Z.to_nat count /\
  zr_sum (setup self secpar count r).1.2 = Zmod.zero.
Proof.
  intros Hc. unfold setup.
  pose proof (random_ZRs_length (Z.to_nat (count - 1)) r) as Hlen.
  destruct (random_ZRs (Z.to_nat (count - 1)) r) as [usks r'].
  cbn [fst snd] in *. split.
  - rewrite length_app, Hlen. cbn [length]. lia.
  - rewrite zr_sum_app. unfold zr_sum at 2. cbn [fold_left].
    rewrite Zmod.add_0_l. apply Zmod.add_opp_same_r.
Qed.

(** C5: for [client_count >= 1], [setup] returns a list of [client_count]
    scalars whose sum is 0 in ZR. *)
Theorem setup_keys_sum_zero (self : scheme) (secpar count : Z) (r : rng) :
  1 <= count ->
  let usks := (setup self secpar count r).1.2 in
  length usks = Z.to_nat count /\ zr_sum usks = Zmod.zero.
Proof. intros Hc. cbv zeta. now apply setup_keys. Qed.

Lemma map_C_zip self (usks : list ZR) (sets : list (list bytes)) :
  zip_with (fun usk S => encrypt self usk gid S) usks sets
  = map C (zip usks sets).
Proof.
  revert sets. induction usks as [|u usks IH]; intros [|S sets]; try done.
  cbn [zip_with zip map]. f_equal. apply IH.
Qed.

(** C1 (as the code has it): for at least two clients, keys from [setup]
    and one plaintext set per client, when the only tuples of plaintexts,
    one of each set, whose ciphertexts multiply to the identity of the
    group are the tuples of one and the same plaintext, [eval] on the
    encrypted sets returns the size of the intersection of the plaintext
    sets. *)
Theorem eval_cardinality_correct (self self' : scheme) (secpar count : Z)
    (sets : list (list bytes)) (r r' : rng) (usks : list ZR) :
  2 <= count ->
  length sets = Z.to_nat count ->
  setup self secpar count r = (self', usks, r') ->
  (forall xs, Forall2 (fun x (S : list bytes) => x ∈ S) xs sets ->
     prodpt usks xs = one ->
     exists x, xs = replicate (length sets) x) ->
  eval self' (zip_with (fun usk S => encrypt self' usk gid S) usks sets)
  = Ok (size (intersection_all (list_to_set <$> sets))).
Proof.
  intros Hcount Hsets Hsetup Hgen.
  destruct (setup_keys self secpar count r) as [Hlen Hsum]; [lia|].
  rewrite Hsetup in Hlen, Hsum. cbn [fst snd] in Hlen, Hsum.
  set (clients := zip usks sets).
  assert (Hfst : clients.*1 = usks) by (apply fst_zip; lia).
  assert (Hsnd : clients.*2 = sets) by (apply snd_zip; lia).
  assert (Hlc : length clients = length sets).
  { unfold clients. rewrite length_zip. lia. }
  unfold eval. rewrite pow_zero, map_C_zip, length_map. fold clients.
  destruct (intersection_count_top clients) as [Ts ->].
  - now rewrite Hfst.
  - intros xs Hxs. rewrite Hfst, Hlc. apply Hgen.
    rewrite <- Hsnd. now apply Forall2_fmap_r.
  - lia.
  - cbn [mbind result_bind mret result_ret]. do 2 f_equal.
    unfold common_set. rewrite <- Hsnd.
    now rewrite <- list_fmap_compose.
Qed.

End Proofs.
End MultiClientCardinalityProofs.

(** ** The Bloom-filter scheme: [setup] *)

Module MultiClientCardinalityEfficientProofs.
Import MultiClientCardinalityEfficient.

(** C10 (as the code has it): [setup] does not read its parameter
    [client_count]: two calls that differ in it only return the same.  It
    first draws [phi_key] with [os.urandom(secpar // 8)], which raises
    [ValueError] for a negative [secpar], whatever the attribute and the
    parameter are.  For [secpar >= 0]: [__init__] leaves the attribute
    [self.client_count] unassigned and [setup] then raises
    [AttributeError]; otherwise it draws as many coefficients and returns
    as many keys as the attribute says, and leaves the attribute as it
    was. *)
Theorem setup_ignores_client_count `{ECGroup} (self : scheme)
    (secpar count count' m0 k0 : Z) (r : rng) :
  setup self secpar count m0 k0 r = setup self secpar count' m0 k0 r /\
  (forall r0, client_count (init r0).1 = None) /\
  (secpar < 0 -> setup self secpar count m0 k0 r = Raise ValueError) /\
  (0 <= secpar ->
   (client_count self = None ->
      setup self secpar count m0 k0 r = Raise AttributeError) /\
   (forall n, client_count self = Some n ->
      exists self' phi_key cs r1 r2,
        setup self secpar count m0 k0 r
          = Ok (self',
                map (fun i => (phi_key, f cs i, f cs (n + i)))
                  (py_range 1 (1 + n)),
                r2) /\
        coefficients n r1 = (cs, r2) /\
        length cs = S (Z.to_nat n) /\
        length (py_range 1 (1 + n)) = Z.to_nat n /\
        client_count self' = Some n)).
Proof.
  split; [reflexivity|]. split.
  { intros r0. unfold init. now destruct (random_G r0). }
  unfold setup. split.
  { intros Hneg. rewrite os_urandom_negative; [done|].
    apply Z.div_lt_upper_bound; lia. }
  intros Hsec. rewrite os_urandom_Ok by (apply Z.div_pos; lia).
  destruct (urandom (Z.to_nat (secpar / 8)) r) as [phi_key r1].
  cbn [client_count mbind result_bind]. split.
  - intros ->. reflexivity.
  - intros n ->. cbn [attr mbind result_bind].
    pose proof (random_ZRs_length (Z.to_nat n) r1) as Hlen.
    unfold coefficients.
    destruct (random_ZRs (Z.to_nat n) r1) as [rs r2] eqn:Hrs.
    eexists _, phi_key, (Zmod.zero :: rs), r1, r2.
    split; [reflexivity|]. rewrite Hrs. split; [reflexivity|].
    split; [simpl in *; lia|]. split; [|reflexivity].
    unfold py_range. rewrite length_map, length_seq. lia.
Qed.

End MultiClientCardinalityEfficientProofs.

(** ** The union of two Bloom filters *)

(** A filter of 4 bits with one hash function, whatever the hash. *)
Definition bf41 (f : bytes -> Z) : BloomFilter.t :=
  {| BloomFilter.m := 4; BloomFilter.k := 1; BloomFilter.bs := BitString.new 4;
     BloomFilter._h := [fun y => Ok (f y mod 4)] |}.

Lemma new_4_1 `{Murmur} :
  BloomFilter.new 4 1 = bf41 (fun y => mmh3_hash ([x00] ++ y)).
Proof. reflexivity. Qed.

Lemma union_drops_aux `{Murmur} (f : bytes -> Z) (x : bytes) :
  exists A U i,
    BloomFilter.add (bf41 f) x = Ok A /\
    BloomFilter.union A (bf41 f) = Ok U /\
    BloomFilter.contains A x = Ok true /\
    BloomFilter.contains U x = Ok false /\
    0 <= i < 4 /\
    BitString.getitem (BloomFilter.bs A) i = Ok 1 /\
    BitString.getitem (BloomFilter.bs U) i = Ok 0.
Proof.
  assert (Hi : 0 <= f x mod 4 < 4) by (apply Z.mod_pos_bound; lia).
  assert (Hc : f x mod 4 = 0 \/ f x mod 4 = 1 \/ f x mod 4 = 2
               \/ f x mod 4 = 3) by lia.
  unfold BloomFilter.add, BloomFilter.union, BloomFilter.contains, bf41.
  cbn [BloomFilter._h BloomFilter.bs BloomFilter.add_loop
       BloomFilter.contains_loop mbind result_bind BloomFilter.empty
       BloomFilter.m BloomFilter.k].
  destruct Hc as [E|[E|[E|E]]]; rewrite E;
    eexists; eexists; exists (f x mod 4); (split; [reflexivity|]);
    cbn [BloomFilter._h BloomFilter.bs BloomFilter.add_loop
         BloomFilter.contains_loop mbind result_bind BloomFilter.empty
         BloomFilter.m BloomFilter.k];
    (split; [reflexivity|]);
    cbn [BloomFilter._h BloomFilter.bs BloomFilter.add_loop
         BloomFilter.contains_loop mbind result_bind BloomFilter.empty
         BloomFilter.m BloomFilter.k];
    rewrite ?E; vm_compute; repeat split; congruence.
Qed.

(** C6 at [m = 4], [k = 1], for any hash and any element [x]: the filter
    [A] that [x] was added to contains [x] and has its bit [i = h(x)] set,
    while the union of [A] with the empty filter has that bit clear and does
    not contain [x]: [__or__] loops over [range(self.l // 8)], the whole
    bytes, and the filter's only byte is a partial one. *)
Theorem union_drops_partial_byte `{Murmur} (x : bytes) :
  exists A U i,
    BloomFilter.add (BloomFilter.new 4 1) x = Ok A /\
    BloomFilter.union A (BloomFilter.new 4 1) = Ok U /\
    BloomFilter.contains A x = Ok true /\
    BloomFilter.contains U x = Ok false /\
    0 <= i < 4 /\
    BitString.getitem (BloomFilter.bs A) i = Ok 1 /\
    BitString.getitem (BloomFilter.bs U) i = Ok 0.
Proof. rewrite new_4_1. apply union_drops_aux. Qed.

(** * Part III, continued: further properties of the code *)

(** ** Indexing, ranges *)

Ltac case_ltb :=
  cbv zeta;
  repeat match goal with
         | |- context [?a <? ?b] =>
             lazymatch a with
             | context [Z.ltb] => fail
             | _ => destruct (Z.ltb_spec a b); try lia
             end
         | |- context [(?a <? ?b)%nat] =>
             destruct (Nat.ltb_spec a b); try lia
         end.

Lemma py_index_nonneg {A} (xs : list A) (i : Z) (x : A) :
  0 <= i -> xs !! Z.to_nat i = Some x -> py_index xs i = Ok x.
Proof. intros Hi Hx. unfold py_index. case_ltb. now rewrite Hx. Qed.

Lemma py_index_negative {A} (xs : list A) (i : Z) :
  - Z.of_nat (length xs) <= i < 0 ->
  py_index xs i = py_index xs (i + Z.of_nat (length xs)).
Proof. intros Hi. unfold py_index. case_ltb. reflexivity. Qed.

Lemma py_index_out {A} (xs : list A) (i : Z) :
  Z.of_nat (length xs) <= i \/ i < - Z.of_nat (length xs) ->
  py_index xs i = Raise IndexError.
Proof.
  intros Hi. unfold py_index. case_ltb; try done.
  rewrite lookup_ge_None_2; [done|lia].
Qed.

Lemma py_index_Ok {A} (xs : list A) (i : Z) :
  0 <= i < Z.of_nat (length xs) ->
  exists x, xs !! Z.to_nat i = Some x /\ py_index xs i = Ok x.
Proof.
  intros Hi. destruct (lookup_lt_is_Some_2 xs (Z.to_nat i)) as [x Hx]; [lia|].
  exists x. split; [done|]. apply py_index_nonneg; [lia|done].
Qed.

Lemma py_store_Ok {A} (xs : list A) (i : Z) (v : A) :
  0 <= i < Z.of_nat (length xs) ->
  py_store xs i v = Ok (<[Z.to_nat i := v]> xs).
Proof. intros Hi. unfold py_store. case_ltb. reflexivity. Qed.

Lemma elem_of_py_range (a b i : Z) : i ∈ py_range a b <-> a <= i < b.
Proof.
  unfold py_range. rewrite list_elem_of_fmap. split.
  - intros (j & -> & Hj). apply elem_of_seq in Hj. lia.
  - intros Hi. exists (Z.to_nat (i - a)). split; [lia|].
    apply elem_of_seq. lia.
Qed.

Lemma py_range_app (a b c : Z) :
  a <= b <= c -> py_range a c = py_range a b ++ py_range b c.
Proof.
  intros Habc. unfold py_range.
  replace (Z.to_nat (c - a)) with (Z.to_nat (b - a) + Z.to_nat (c - b))%nat
    by lia.
  rewrite seq_app, map_app. f_equal.
  replace (0 + Z.to_nat (b - a))%nat with (Z.to_nat (b - a) + 0)%nat by lia.
  rewrite <- (fmap_add_seq (Z.to_nat (b - a)) 0), map_map.
  apply map_ext. intros j. lia.
Qed.

Lemma py_range_length (a b : Z) : length (py_range a b) = Z.to_nat (b - a).
Proof. unfold py_range. now rewrite length_map, length_seq. Qed.

Lemma NoDup_py_range (a b : Z) : NoDup (py_range a b).
Proof.
  unfold py_range. apply NoDup_fmap_2; [|apply NoDup_seq].
  intros i j Hij. lia.
Qed.

Lemma lookup_repeat {A} (x : A) (n i : nat) :
  repeat x n !! i = if decide (i < n)%nat then Some x else None.
Proof.
  revert i. induction n as [|n IH]; intros [|i]; simpl; try done.
  rewrite IH. destruct (decide (i < n)%nat).
  - now rewrite decide_True by lia.
  - now rewrite decide_False by lia.
Qed.

Lemma take_repeat_le {A} (x : A) (n m : nat) :
  (n <= m)%nat -> take n (repeat x m) = repeat x n.
Proof.
  intros Hle. replace m with (n + (m - n))%nat by lia.
  rewrite repeat_app. apply take_app_length'. now rewrite repeat_length.
Qed.

Lemma py_range_lookup (a b ell : Z) :
  a <= ell < b -> py_range a b !! Z.to_nat (ell - a) = Some ell.
Proof.
  intros Hl. unfold py_range.
  rewrite list_lookup_fmap, lookup_seq_lt by lia. cbn. f_equal. lia.
Qed.

Lemma py_range_cons (a b : Z) : a < b -> py_range a b = a :: py_range (a + 1) b.
Proof.
  intros Hab. rewrite (py_range_app a (a + 1) b) by lia. f_equal.
  unfold py_range. replace (Z.to_nat (a + 1 - a)) with 1%nat by lia.
  cbn. f_equal. lia.
Qed.

Lemma py_range_nil (a b : Z) : b <= a -> py_range a b = [].
Proof.
  intros Hab. unfold py_range. now replace (Z.to_nat (b - a)) with 0%nat by lia.
Qed.

(** ** Collisions of the PRF *)

Lemma byte_to_Z_range (b : byte) : 0 <= byte_to_Z b < 256.
Proof.
  unfold byte_to_Z. pose proof (Byte.to_N_bounded b) as Hb. lia.
Qed.

Lemma byte_to_Z_inj (a b : byte) : byte_to_Z a = byte_to_Z b -> a = b.
Proof.
  unfold byte_to_Z. intros Hab. apply N2Z.inj in Hab.
  pose proof (Byte.of_to_N a) as Ha. rewrite Hab, Byte.of_to_N in Ha.
  congruence.
Qed.

Lemma lxor_byte_range (a b : Z) :
  0 <= a < 256 -> 0 <= b < 256 -> 0 <= Z.lxor a b < 256.
Proof.
  intros Ha Hb.
  assert (Hnn : 0 <= Z.lxor a b) by (apply Z.lxor_nonneg; lia).
  split; [done|].
  destruct (Z.eq_dec (Z.lxor a b) 0) as [->|Hnz]; [lia|].
  apply (Z.log2_lt_pow2 _ 8); [lia|].
  eapply Z.le_lt_trans; [apply Z.log2_lxor; lia|].
  apply Z.max_lub_lt.
  - destruct (Z.eq_dec a 0) as [->|]; [done|]. apply Z.log2_lt_pow2; lia.
  - destruct (Z.eq_dec b 0) as [->|]; [done|]. apply Z.log2_lt_pow2; lia.
Qed.

Lemma byte_xor_to_Z (a b : byte) :
  byte_to_Z (byte_xor a b) = Z.lxor (byte_to_Z a) (byte_to_Z b).
Proof.
  unfold byte_xor. rewrite byte_to_of_Z. apply Z.mod_small.
  apply lxor_byte_range; apply byte_to_Z_range.
Qed.

Lemma byte_xor_inj_l (a b c : byte) : byte_xor a c = byte_xor b c -> a = b.
Proof.
  intros Heq. apply byte_to_Z_inj.
  apply (f_equal byte_to_Z) in Heq. rewrite !byte_xor_to_Z in Heq.
  apply (f_equal (fun z => Z.lxor z (byte_to_Z c))) in Heq.
  now rewrite !Z.lxor_assoc, Z.lxor_nilpotent, !Z.lxor_0_r in Heq.
Qed.

Lemma byte_xor_inj_r (a b c : byte) : byte_xor c a = byte_xor c b -> a = b.
Proof.
  intros Heq. apply byte_to_Z_inj.
  apply (f_equal byte_to_Z) in Heq. rewrite !byte_xor_to_Z in Heq.
  apply (f_equal (Z.lxor (byte_to_Z c))) in Heq.
  now rewrite <- !Z.lxor_assoc, Z.lxor_nilpotent, !Z.lxor_0_l in Heq.
Qed.

Lemma xor_bytes_length (a b : bytes) :
  length (xor_bytes a b) = (length a `min` length b)%nat.
Proof.
  revert b. induction a as [|x a IH]; intros [|y b]; simpl; auto.
Qed.

Lemma xor_bytes_inj (a b p : bytes) :
  length a = length b -> (length a <= length p)%nat ->
  xor_bytes a p = xor_bytes b p -> a = b.
Proof.
  revert b p. induction a as [|x a IH]; intros [|y b] [|z p]; simpl;
    intros Hl Hp Heq; try done; try lia.
  injection Heq as Hxy Hrest. f_equal.
  - now apply byte_xor_inj_l in Hxy.
  - apply (IH b p); [lia|lia|done].
Qed.

Section PrfCollisions.
Context `{BlockCipher}.

(** AES under a key is a permutation of the 16-byte blocks. *)
Definition E_injective : Prop :=
  forall key x y, length x = 16%nat -> length y = 16%nat ->
    E key x = E key y -> x = y.

Lemma cbc_blocks_inj (n : nat) (key prev p q : bytes) :
  E_injective -> length prev = 16%nat ->
  length p = (16 * n)%nat -> length q = (16 * n)%nat ->
  cbc_blocks n key prev p = cbc_blocks n key prev q -> p = q.
Proof.
  intros Hinj. revert prev p q.
  induction n as [|n IH]; intros prev p q Hprev Hp Hq Heq.
  - destruct p, q; simpl in *; done || lia.
  - cbn [cbc_blocks] in Heq.
    apply app_inj_1 in Heq as [Hc Hrest]; [|now rewrite !E_length].
    apply Hinj in Hc as Hx.
    + apply xor_bytes_inj in Hx;
        [|rewrite !length_take; lia|rewrite length_take; lia].
      rewrite <- (take_drop 16 p), <- (take_drop 16 q). f_equal; [done|].
      rewrite <- Hc in Hrest.
      apply (IH (E key (xor_bytes (take 16 p) prev))); [apply E_length| | |done];
        rewrite length_drop; lia.
    + rewrite xor_bytes_length, length_take. lia.
    + rewrite xor_bytes_length, length_take. lia.
Qed.

Lemma pad_eq_inv (a b : bytes) :
  pad a = pad b -> (length a <= length b)%nat ->
  b = a ++ repeat x00 (length b - length a).
Proof.
  unfold pad. intros Heq Hle.
  assert (Hlen : (length a + padding_len a = length b + padding_len b)%nat).
  { apply (f_equal length) in Heq.
    now rewrite !length_app, !repeat_length in Heq. }
  apply (f_equal (take (length b))) in Heq.
  rewrite (take_app_length b), take_app_ge in Heq by done.
  rewrite take_repeat_le in Heq by lia. now symmetry.
Qed.

End PrfCollisions.

(** X2: zero bytes appended to a plaintext without filling its last block
    are absorbed by the padding: the PRF, and with it the group element
    [_phi] and the scalar [_psi] of the two-client schemes, do not tell
    [pt] from [pt + b'\0' * n]. *)
Theorem prf_trailing_zeros `{ECGroup} `{BlockCipher}
    (key iv pt : bytes) (n : nat) :
  (length pt mod 16 + n < 16)%nat ->
  _prf key iv (pt ++ repeat x00 n) = _prf key iv pt /\
  (forall self, TwoClientIntersection._phi self key iv (pt ++ repeat x00 n)
                = TwoClientIntersection._phi self key iv pt) /\
  TwoClientThreshold._psi key iv (pt ++ repeat x00 n)
  = TwoClientThreshold._psi key iv pt.
Proof.
  intros Hn.
  assert (Hpad : pad (pt ++ repeat x00 n) = pad pt).
  { revert Hn. induction n as [|n IH]; intros Hn; [now rewrite app_nil_r|].
    cbn [repeat]. rewrite repeat_cons, app_assoc, pad_snoc_zero.
    - apply IH. lia.
    - rewrite length_app, repeat_length.
      pose proof (Nat.div_mod_eq (length pt) 16) as Hdm.
      rewrite <- (Nat.mod_unique (length pt + n) 16 (length pt / 16)
                 (length pt mod 16 + n)); lia. }
  assert (Hprf : _prf key iv (pt ++ repeat x00 n) = _prf key iv pt).
  { unfold _prf. now rewrite Hpad. }
  split; [exact Hprf|]. split.
  - intros self. unfold TwoClientIntersection._phi. now rewrite Hprf.
  - unfold TwoClientThreshold._psi. now rewrite Hprf.
Qed.

(** X3: when the block cipher is a permutation of the blocks under every
    key (as AES is) and the iv has 16 bytes, these are the only collisions
    of the PRF: two inputs with the same PRF value have the same number of
    whole blocks and the longer one is the shorter one followed by zero
    bytes. *)
Theorem prf_collision_trailing_zeros `{BlockCipher} (key iv a b : bytes) :
  E_injective -> length iv = 16%nat ->
  _prf key iv a = _prf key iv b -> (length a <= length b)%nat ->
  b = a ++ repeat x00 (length b - length a) /\
  (length a / 16 = length b / 16)%nat.
Proof.
  intros Hinj Hiv Heq Hle.
  assert (Hblocks : (length a / 16 = length b / 16)%nat).
  { apply (f_equal length) in Heq. unfold _prf, cbc_encrypt in Heq.
    rewrite !cbc_blocks_length, !pad_length in Heq.
    rewrite !(Nat.mul_comm 16 (_ + 1)), !Nat.div_mul in Heq by lia. lia. }
  split; [|exact Hblocks].
  apply pad_eq_inv; [|done].
  unfold _prf, cbc_encrypt in Heq.
  assert (Hn : forall x, (length (pad x) / 16 = length x / 16 + 1)%nat).
  { intros x. rewrite pad_length, (Nat.mul_comm 16 (_ + 1)), Nat.div_mul; lia. }
  rewrite !Hn, <- Hblocks in Heq.
  apply (cbc_blocks_inj _ _ _ _ _ Hinj Hiv) in Heq; [done| |].
  - rewrite pad_length. lia.
  - rewrite pad_length. lia.
Qed.

(** ** The two-client cardinality scheme *)

(** X1: end to end, for a [secpar] that gives an AES key, a 16-byte gid,
    the keys of [setup] and plaintext sets on which the PRF does not
    collide, the two encryptions return and [eval] returns the size of
    the intersection. *)
Theorem twoclient_cardinality_correct `{BlockCipher}
    (secpar : Z) (r r' : rng) (usk0 usk1 gid : bytes) (S0 S1 : list bytes) :
  aes_secpar secpar ->
  length gid = 16%nat ->
  TwoClientCardinality.setup secpar r = Ok ((usk0, usk1), r') ->
  (forall x y, x ∈ S0 ++ S1 -> y ∈ S0 ++ S1 ->
     _prf usk0 gid x = _prf usk0 gid y -> x = y) ->
  exists C0 C1,
    TwoClientCardinality.encrypt usk0 gid S0 = Ok C0 /\
    TwoClientCardinality.encrypt usk1 gid S1 = Ok C1 /\
    TwoClientCardinality.eval [C0; C1]
    = Ok (size (list_to_set S0 ∩ list_to_set S1 : gset bytes)).
Proof.
  intros Hsec Hgid Hsetup Hinj. unfold TwoClientCardinality.setup in Hsetup.
  rewrite os_urandom_Ok in Hsetup by now apply aes_secpar_nonneg.
  pose proof (aes_key_size_urandom secpar r Hsec) as Hkey.
  destruct (urandom _ r) as [key r0]. cbn [fst] in Hkey.
  cbn [mbind result_bind mret result_ret] in Hsetup.
  injection Hsetup as <- <- <-.
  unfold TwoClientCardinality.encrypt. cbv zeta.
  rewrite Cipher_Ok by done. cbn [mbind result_bind mret result_ret].
  eexists _, _. split; [reflexivity|]. split; [reflexivity|].
  unfold TwoClientCardinality.eval. rewrite py_index_0, py_index_1.
  cbn [mbind result_bind mret result_ret]. f_equal.
  apply (size_image (_prf key gid)).
  - intros y.
    rewrite elem_of_intersection, !elem_of_list_to_set, !list_elem_of_fmap.
    split.
    + intros [(x & -> & Hx) (x' & Heq & Hx')].
      assert (x = x') as <-.
      { apply Hinj; [| |done]; apply elem_of_app; auto. }
      exists x. rewrite elem_of_intersection, !elem_of_list_to_set. auto.
    + intros (x & Hx & <-).
      rewrite elem_of_intersection, !elem_of_list_to_set in Hx.
      destruct Hx as [Hx0 Hx1]. split; exists x; auto.
  - intros x x' Hx Hx'.
    rewrite elem_of_intersection, !elem_of_list_to_set in Hx, Hx'.
    apply Hinj; apply elem_of_app; tauto.
Qed.

(** ** Bit strings *)

Module BitStringProofs.
Import BitString.

(** The bit [s] of a byte, as [__getitem__] extracts it. *)
Lemma extract_bit (byte s : Z) :
  0 <= s ->
  Z.shiftr (Z.land byte (Z.shiftl 1 s)) s = Z.b2z (Z.testbit byte s).
Proof.
  intros Hs. apply Z.bits_inj'. intros n Hn.
  rewrite Z.shiftr_spec, Z.land_spec, Z.shiftl_spec by lia.
  replace (n + s - s) with n by lia.
  destruct (Z.eq_dec n 0) as [->|Hnz].
  - rewrite Z.add_0_l. change (Z.testbit 1 0) with true.
    rewrite andb_true_r. destruct (Z.testbit byte s); reflexivity.
  - assert (Z.testbit 1 n = false) as ->.
    { apply (Z.bits_above_log2 1 n); simpl; lia. }
    rewrite andb_false_r.
    destruct (Z.testbit byte s); simpl.
    + symmetry. apply (Z.bits_above_log2 1 n); simpl; lia.
    + symmetry. apply Z.bits_0.
Qed.

(** The bit at position [key], for [0 <= key]. *)
Definition bit (self : t) (key : Z) : bool :=
  Z.testbit (default 0 (_bs self !! Z.to_nat (key / 8))) (key mod 8).

Definition positions (self : t) : Z := 8 * Z.of_nat (length (_bs self)).

Lemma getitem_bit (self : t) (key : Z) :
  0 <= key < positions self -> getitem self key = Ok (Z.b2z (bit self key)).
Proof.
  unfold positions. intros Hk. unfold getitem, bit.
  assert (Hi : 0 <= key / 8 < Z.of_nat (length (_bs self))).
  { split; [apply Z.div_pos; lia|apply Z.div_lt_upper_bound; lia]. }
  destruct (py_index_Ok _ _ Hi) as (x & Hx & ->). rewrite Hx.
  cbn [mbind result_bind mret result_ret default]. f_equal.
  apply extract_bit. apply Z.mod_pos_bound. lia.
Qed.

Lemma setitem_Ok (self : t) (key value : Z) :
  0 <= key < positions self -> value = 0 \/ value = 1 ->
  setitem self key value
  = Ok {| l := l self;
          _bs := <[Z.to_nat (key / 8) :=
                    Z.lor (default 0 (_bs self !! Z.to_nat (key / 8)))
                          (Z.shiftl 1 (key mod 8))]> (_bs self) |}.
Proof.
  unfold positions. intros Hk Hv. unfold setitem.
  assert (Hi : 0 <= key / 8 < Z.of_nat (length (_bs self))).
  { split; [apply Z.div_pos; lia|apply Z.div_lt_upper_bound; lia]. }
  destruct Hv as [-> | ->]; cbn [Z.eqb orb negb];
    destruct (py_index_Ok _ _ Hi) as (x & Hx & ->); rewrite Hx;
    cbn [mbind result_bind mret result_ret default];
    now rewrite py_store_Ok.
Qed.

Lemma bit_set (self : t) (key j : Z) (bs' : list Z) :
  0 <= key < positions self -> 0 <= j ->
  bs' = <[Z.to_nat (key / 8) :=
           Z.lor (default 0 (_bs self !! Z.to_nat (key / 8)))
                 (Z.shiftl 1 (key mod 8))]> (_bs self) ->
  bit {| l := l self; _bs := bs' |} j
  = if decide (j = key) then true else bit self j.
Proof.
  unfold positions. intros Hk Hj ->. unfold bit. cbn [_bs].
  assert (Hi : (Z.to_nat (key / 8) < length (_bs self))%nat).
  { assert (key / 8 < Z.of_nat (length (_bs self)))
      by (apply Z.div_lt_upper_bound; lia).
    assert (0 <= key / 8) by (apply Z.div_pos; lia). lia. }
  pose proof (Z.mod_pos_bound key 8 eq_refl) as Hkm.
  pose proof (Z.mod_pos_bound j 8 eq_refl) as Hjm.
  destruct (decide (Z.to_nat (j / 8) = Z.to_nat (key / 8))) as [Heq|Hne].
  - rewrite Heq, list_lookup_insert_eq by done. cbn [default from_option id].
    rewrite Z.lor_spec, Z.shiftl_spec by lia.
    destruct (decide (j = key)) as [->|Hjk].
    + rewrite Z.sub_diag. change (Z.testbit 1 0) with true.
      apply orb_true_r.
    + assert (Hd : j / 8 = key / 8).
      { assert (0 <= j / 8) by (apply Z.div_pos; lia).
        assert (0 <= key / 8) by (apply Z.div_pos; lia). lia. }
      assert (Hm : j mod 8 <> key mod 8).
      { intros Hm. apply Hjk.
        rewrite (Z.div_mod j 8), (Z.div_mod key 8) by lia. lia. }
      assert (Z.testbit 1 (j mod 8 - key mod 8) = false) as ->.
      { destruct (Z.ltb_spec (j mod 8 - key mod 8) 0).
        - now apply Z.testbit_neg_r.
        - apply (Z.bits_above_log2 1); simpl; lia. }
      apply orb_false_r.
  - rewrite list_lookup_insert_ne by done.
    destruct (decide (j = key)) as [->|]; [done|reflexivity].
Qed.


(** X12: [bs[key] = value] followed by [bs[j]]: the bit at [key] reads 1
    afterwards, whatever [value] is (0 included), and no other bit
    changes. *)
Theorem setitem_getitem (self : t) (key value j : Z) :
  0 <= key < 8 * Z.of_nat (length (_bs self)) ->
  0 <= j < 8 * Z.of_nat (length (_bs self)) ->
  value = 0 \/ value = 1 ->
  exists self',
    setitem self key value = Ok self' /\
    l self' = l self /\
    length (_bs self') = length (_bs self) /\
    getitem self' j = if decide (j = key) then Ok 1 else getitem self j.
Proof.
  intros Hk Hj Hv. eexists. split; [now apply setitem_Ok|].
  split; [done|]. split; [cbn [_bs]; now rewrite length_insert|].
  rewrite getitem_bit
    by (unfold positions; cbn [_bs]; now rewrite length_insert).
  rewrite (bit_set self key j _ Hk) by (lia || done).
  destruct (decide (j = key)); [done|]. now rewrite getitem_bit.
Qed.

(** X13: the positions [bs[key]] accepts: a negative [key] down to
    [-8 * len(_bs)] reads from the end, as Python indexes the bytearray, and
    a [key] outside raises [IndexError]. *)
Theorem getitem_index_range (self : t) (key : Z) :
  (- (8 * Z.of_nat (length (_bs self))) <= key < 0 ->
     getitem self key
     = getitem self (key + 8 * Z.of_nat (length (_bs self)))) /\
  (8 * Z.of_nat (length (_bs self)) <= key \/
   key < - (8 * Z.of_nat (length (_bs self))) ->
     getitem self key = Raise IndexError).
Proof.
  set (len := Z.of_nat (length (_bs self))).
  split.
  - intros Hk. unfold getitem.
    replace (key + 8 * len) with (key + len * 8) by lia.
    rewrite Z.div_add, Z.mod_add by lia.
    rewrite (py_index_negative _ (key / 8)); [done|]. fold len.
    split; [apply Z.div_le_lower_bound; lia|apply Z.div_lt_upper_bound; lia].
  - intros Hk. unfold getitem. rewrite py_index_out; [done|]. fold len.
    destruct Hk as [Hk|Hk].
    + left. apply Z.div_le_lower_bound; lia.
    + right. apply Z.div_lt_upper_bound; lia.
Qed.

End BitStringProofs.

Module BitStringWeight.
Import BitString BitStringProofs.

(** The number of bits set in a byte. *)
Definition popcount8 (x : Z) : Z :=
  fold_right (fun s acc => Z.b2z (Z.testbit x s) + acc) 0 (py_range 0 8).

Lemma bit_weights_popcount (x : Z) :
  0 <= x < 256 -> py_index bit_weights x = Ok (popcount8 x).
Proof.
  intros Hx.
  assert (Hall : forallb (fun n => bool_decide
                   (py_index bit_weights (Z.of_nat n)
                    = Ok (popcount8 (Z.of_nat n)))) (seq 0 256) = true)
    by (vm_compute; reflexivity).
  rewrite forallb_forall in Hall.
  specialize (Hall (Z.to_nat x)). rewrite Z2Nat.id in Hall by lia.
  eapply bool_decide_eq_true_1, Hall, in_seq. lia.
Qed.

Lemma mapM_weights (bs : list Z) :
  Forall (fun x => 0 <= x < 256) bs ->
  mapM (fun byte => py_index bit_weights byte) bs = Ok (map popcount8 bs).
Proof.
  induction 1 as [|x bs Hx _ IH]; [done|].
  cbn [mapM]. rewrite bit_weights_popcount by done. rewrite IH. reflexivity.
Qed.

Lemma fold_add_from (ws : list Z) (a : Z) :
  fold_left Z.add ws a = a + fold_left Z.add ws 0.
Proof.
  revert a. induction ws as [|w ws IH]; intros a; simpl; [lia|].
  rewrite (IH (a + w)), (IH (0 + w)). lia.
Qed.

Lemma fold_add_app (ws vs : list Z) :
  fold_left Z.add (ws ++ vs) 0 = fold_left Z.add ws 0 + fold_left Z.add vs 0.
Proof. rewrite fold_left_app. apply fold_add_from. Qed.

(** How many positions of [idx] read 1. *)
Definition ones (self : t) (idx : list Z) : Z :=
  Z.of_nat (length (filter (fun i => getitem self i = Ok 1) idx)).

Lemma ones_app self idx1 idx2 :
  ones self (idx1 ++ idx2) = ones self idx1 + ones self idx2.
Proof. unfold ones. rewrite filter_app, length_app. lia. Qed.

Lemma ones_ext (a b : t) (idx : list Z) :
  (forall i, i ∈ idx -> getitem a i = getitem b i) ->
  ones a idx = ones b idx.
Proof.
  intros Hext. unfold ones. f_equal. f_equal.
  induction idx as [|i idx IH]; [done|].
  rewrite !filter_cons.
  rewrite (Hext i) by (left).
  rewrite IH; [done|]. intros j Hj. apply Hext. now right.
Qed.

Lemma ones_last_byte (bs : list Z) (x l0 l1 : Z) :
  ones {| l := l0; _bs := bs ++ [x] |}
    (py_range (8 * Z.of_nat (length bs)) (8 * Z.of_nat (length bs) + 8))
  = popcount8 x.
Proof.
  set (n := Z.of_nat (length bs)).
  assert (Hget : forall s, 0 <= s < 8 ->
            getitem {| l := l0; _bs := bs ++ [x] |} (8 * n + s)
            = Ok (Z.b2z (Z.testbit x s))).
  { intros s Hs. rewrite getitem_bit.
    - unfold bit. cbn [_bs].
      replace ((8 * n + s) / 8) with n
        by (apply (Z.div_unique _ _ _ s); lia).
      replace ((8 * n + s) mod 8) with s
        by (apply (Z.mod_unique _ _ n); lia).
      unfold n. rewrite Nat2Z.id, lookup_app_r, Nat.sub_diag by lia.
      reflexivity.
    - unfold positions. cbn [_bs]. rewrite length_app. simpl. lia. }
  unfold ones, popcount8.
  replace (py_range (8 * n) (8 * n + 8))
    with (map (fun s => 8 * n + s) (py_range 0 8)).
  2:{ unfold py_range. rewrite map_map.
      replace (Z.to_nat (8 * n + 8 - 8 * n)) with (Z.to_nat (8 - 0)) by lia.
      apply map_ext. intros; lia. }
  assert (Hin : forall s, s ∈ py_range 0 8 -> 0 <= s < 8)
    by (intros s; apply elem_of_py_range).
  induction (py_range 0 8) as [|s idx IH]; [done|].
  cbn [map fold_right]. rewrite filter_cons.
  rewrite (Hget s) by (apply Hin; left).
  specialize (IH (fun s' Hs' => Hin s' (list_elem_of_further _ _ _ Hs'))).
  destruct (Z.testbit x s); cbn [Z.b2z].
  - rewrite decide_True by done. cbn [length]. lia.
  - rewrite decide_False by done. lia.
Qed.

Lemma weight_ones (self : t) :
  Forall (fun x => 0 <= x < 256) (_bs self) ->
  weight self
  = Ok (Z.of_nat (length (filter (fun i => getitem self i = Ok 1)
                            (py_range 0 (8 * Z.of_nat (length (_bs self))))))).
Proof.
  intros Hb. unfold weight. rewrite mapM_weights by done.
  cbn [mbind result_bind mret result_ret]. f_equal.
  change (fold_left Z.add (map popcount8 (_bs self)) 0
          = ones self (py_range 0 (8 * Z.of_nat (length (_bs self))))).
  destruct self as [l0 bs]. cbn [_bs] in *. clear Hb.
  induction bs as [|x bs IH] using rev_ind; [done|].
  rewrite map_app, fold_add_app, IH. cbn [map fold_left].
  rewrite length_app. cbn [length].
  rewrite (py_range_app 0 (8 * Z.of_nat (length bs))
             (8 * Z.of_nat (length bs + 1))) by lia.
  rewrite ones_app. f_equal.
  - apply ones_ext. intros i Hi. apply elem_of_py_range in Hi.
    rewrite !getitem_bit
      by (unfold positions; cbn [_bs]; rewrite ?length_app; simpl; lia).
    unfold bit. cbn [_bs]. rewrite lookup_app_l; [done|].
    assert (i / 8 < Z.of_nat (length bs))
      by (apply Z.div_lt_upper_bound; lia).
    assert (0 <= i / 8) by (apply Z.div_pos; lia). lia.
  - replace (8 * Z.of_nat (length bs + 1)) with (8 * Z.of_nat (length bs) + 8)
      by lia.
    now rewrite (ones_last_byte bs x l0 l0).
Qed.

(** X14: on a bit string whose bytes are below 256, as those of a
    [bytearray] are, [weight] is the number of positions that read 1: the
    table [bit_weights] holds the bit counts of the 256 bytes. *)
Theorem weight_counts_ones (self : t) :
  Forall (fun x => 0 <= x < 256) (_bs self) ->
  weight self
  = Ok (Z.of_nat (length (filter (fun i => getitem self i = Ok 1)
                            (py_range 0 (8 * Z.of_nat (length (_bs self))))))).
Proof. apply weight_ones. Qed.

End BitStringWeight.

(** ** Bloom filters *)

Module BloomFilterProofs.
Import BitStringProofs BitStringWeight.

Lemma lor_bit_range (x s : Z) :
  0 <= x < 256 -> 0 <= s < 8 -> 0 <= Z.lor x (Z.shiftl 1 s) < 256.
Proof.
  intros Hx Hs. rewrite Z.shiftl_1_l.
  assert (H2 : 0 < 2 ^ s < 256).
  { split; [apply Z.pow_pos_nonneg; lia|].
    change 256 with (2 ^ 8). apply Z.pow_lt_mono_r; lia. }
  assert (Hnn : 0 <= Z.lor x (2 ^ s)) by (apply Z.lor_nonneg; lia).
  split; [done|].
  apply (Z.log2_lt_pow2 _ 8); [|rewrite Z.log2_lor by lia].
  - assert (Z.lor x (2 ^ s) <> 0); [|lia].
    intros H0. apply Z.lor_eq_0_iff in H0. lia.
  - apply Z.max_lub_lt.
    + destruct (Z.eq_dec x 0) as [->|]; [done|]. apply Z.log2_lt_pow2; lia.
    + apply Z.log2_lt_pow2; lia.
Qed.

Section WithHash.
Context `{Murmur}.

(** A hash function of the filter returns a position below [m]. *)
Definition hash_ok (m0 : Z) (h : bytes -> result Z) : Prop :=
  forall x, exists i, h x = Ok i /\ 0 <= i < m0.

(** What [BloomFilter(m, k)] and [add] keep of a filter, for [m >= 1]. *)
Record wf (bf : BloomFilter.t) : Prop := {
  wf_m : 1 <= BloomFilter.m bf;
  wf_l : BitString.l (BloomFilter.bs bf) = BloomFilter.m bf;
  wf_len : length (BitString._bs (BloomFilter.bs bf))
           = Z.to_nat ((BloomFilter.m bf + 7) / 8);
  wf_bytes : Forall (fun x => 0 <= x < 256)
               (BitString._bs (BloomFilter.bs bf));
  wf_h : Forall (hash_ok (BloomFilter.m bf)) (BloomFilter._h bf)
}.

Lemma bytes_for_bits (m0 : Z) : 0 <= m0 -> m0 <= 8 * ((m0 + 7) / 8).
Proof.
  intros Hm. pose proof (Z.div_mod (m0 + 7) 8 ltac:(lia)).
  pose proof (Z.mod_pos_bound (m0 + 7) 8 ltac:(lia)). lia.
Qed.

Lemma wf_positions (bf : BloomFilter.t) :
  wf bf -> BloomFilter.m bf <= positions (BloomFilter.bs bf).
Proof.
  intros [Hm _ Hlen _ _]. unfold positions. rewrite Hlen.
  pose proof (bytes_for_bits (BloomFilter.m bf)).
  assert (0 <= (BloomFilter.m bf + 7) / 8) by (apply Z.div_pos; lia). lia.
Qed.

Lemma new_hashes (m0 k0 : Z) :
  1 <= m0 -> Forall (hash_ok m0) (BloomFilter._h (BloomFilter.new m0 k0)).
Proof.
  intros Hm. unfold BloomFilter.new. cbn [BloomFilter._h].
  apply Forall_forall. intros h Hh.
  apply list_elem_of_fmap in Hh as (i & -> & _). intros x.
  destruct (Z.eqb_spec m0 0); [lia|].
  eexists. split; [reflexivity|]. apply Z.mod_pos_bound. lia.
Qed.

Lemma new_wf (m0 k0 : Z) : 1 <= m0 -> wf (BloomFilter.new m0 k0).
Proof.
  intros Hm. split; cbn.
  - done.
  - done.
  - now rewrite repeat_length.
  - apply Forall_forall. intros x Hx. apply list_elem_of_In in Hx.
    apply repeat_spec in Hx. lia.
  - now apply new_hashes.
Qed.

(** The bits after the loop of [add]. *)
Lemma add_loop_spec (m0 : Z) (hs : list (bytes -> result Z))
    (b : BitString.t) (elem : bytes) :
  Forall (hash_ok m0) hs -> m0 <= positions b ->
  Forall (fun x => 0 <= x < 256) (BitString._bs b) ->
  exists b',
    BloomFilter.add_loop b hs elem = Ok b' /\
    BitString.l b' = BitString.l b /\
    length (BitString._bs b') = length (BitString._bs b) /\
    Forall (fun x => 0 <= x < 256) (BitString._bs b') /\
    forall j, 0 <= j < positions b ->
      bit b' j = true <->
      (bit b j = true \/ exists h, h ∈ hs /\ h elem = Ok j).
Proof.
  intros Hhs. revert b. induction Hhs as [|h hs Hh _ IH]; intros b Hpos Hby.
  - exists b. repeat split; try done.
    + now left.
    + intros [Hb|(h & Hin & _)]; [done|]. now apply elem_of_nil in Hin.
  - destruct (Hh elem) as (i & Hi & Hrange).
    cbn [BloomFilter.add_loop]. rewrite Hi.
    cbn [mbind result_bind].
    rewrite setitem_Ok by (lia || auto).
    cbn [mbind result_bind].
    set (b1 := {| BitString.l := BitString.l b; BitString._bs := _ |}).
    assert (Hlen1 : length (BitString._bs b1) = length (BitString._bs b))
      by (unfold b1; cbn; now rewrite length_insert).
    assert (Hpos1 : positions b1 = positions b)
      by (unfold positions; now rewrite Hlen1).
    destruct (IH b1) as (b' & Hrun & Hl & Hlen & Hby' & Hbits).
    + lia.
    + unfold b1. cbn [BitString._bs].
      assert (Hidx : (Z.to_nat (i / 8) < length (BitString._bs b))%nat).
      { unfold positions in Hpos.
        assert (i / 8 < Z.of_nat (length (BitString._bs b)))
          by (apply Z.div_lt_upper_bound; lia).
        assert (0 <= i / 8) by (apply Z.div_pos; lia). lia. }
      destruct (lookup_lt_is_Some_2 _ _ Hidx) as [x Hx]. rewrite Hx.
      cbn [default from_option id].
      apply Forall_insert; [done|]. apply lor_bit_range.
      * eapply Forall_lookup_1 in Hby; [|exact Hx]. done.
      * apply Z.mod_pos_bound. lia.
    + exists b'. split; [exact Hrun|]. split; [now rewrite Hl|].
      split; [now rewrite Hlen|]. split; [done|].
      intros j Hj. rewrite Hbits by lia.
      unfold b1. rewrite (bit_set b i j _) by (lia || done).
      split.
      * intros [Hb|(h' & Hin & Hh')].
        -- destruct (decide (j = i)) as [->|]; [|now left].
           right. exists h. split; [left|done].
        -- right. exists h'. split; [now right|done].
      * intros [Hb|(h' & Hin & Hh')].
        -- left. destruct (decide (j = i)); [done|exact Hb].
        -- apply elem_of_cons in Hin as [->|Hin].
           ++ left. rewrite Hi in Hh'. injection Hh' as ->.
              now rewrite decide_True.
           ++ right. exists h'. split; done.
Qed.

Lemma add_wf (bf : BloomFilter.t) (elem : bytes) :
  wf bf ->
  exists bf',
    BloomFilter.add bf elem = Ok bf' /\ wf bf' /\
    BloomFilter.m bf' = BloomFilter.m bf /\
    BloomFilter.k bf' = BloomFilter.k bf /\
    BloomFilter._h bf' = BloomFilter._h bf /\
    forall j, 0 <= j < BloomFilter.m bf ->
      bit (BloomFilter.bs bf') j = true <->
      (bit (BloomFilter.bs bf) j = true \/
       exists h, h ∈ BloomFilter._h bf /\ h elem = Ok j).
Proof.
  intros Hwf. pose proof (wf_positions bf Hwf) as Hpos.
  destruct Hwf as [Hm Hl Hlen Hby Hh].
  destruct (add_loop_spec _ _ _ elem Hh Hpos Hby)
    as (b' & Hrun & Hl' & Hlen' & Hby' & Hbits).
  unfold BloomFilter.add. rewrite Hrun. cbn [mbind result_bind mret result_ret].
  eexists. split; [reflexivity|]. split.
  - split; cbn; try done; congruence.
  - cbn. repeat split; try done.
    + apply Hbits. lia.
    + apply Hbits. lia.
Qed.

(** The answer of [item in self]. *)
Lemma contains_loop_true (m0 : Z) (hs : list (bytes -> result Z))
    (b : BitString.t) (item : bytes) :
  Forall (hash_ok m0) hs -> m0 <= positions b ->
  exists c,
    BloomFilter.contains_loop b hs item = Ok c /\
    (c = true <-> forall h j, h ∈ hs -> h item = Ok j -> bit b j = true).
Proof.
  intros Hhs Hpos. induction Hhs as [|h hs Hh _ IH].
  - exists true. split; [done|]. split; [|done].
    intros _ h j Hin. now apply elem_of_nil in Hin.
  - destruct (Hh item) as (i & Hi & Hrange).
    cbn [BloomFilter.contains_loop]. rewrite Hi. cbn [mbind result_bind].
    rewrite getitem_bit by lia. cbn [mbind result_bind].
    destruct (bit b i) eqn:Hb; cbn [Z.b2z Z.eqb].
    + destruct IH as (c & Hc & Hiff). exists c. split; [done|].
      rewrite Hiff. split.
      * intros Hall h' j Hin Hj. apply elem_of_cons in Hin as [->|Hin].
        -- rewrite Hi in Hj. now injection Hj as <-.
        -- now apply (Hall h').
      * intros Hall h' j Hin. apply Hall. now right.
    + exists false. split; [done|]. split; [done|].
      intros Hall. rewrite (Hall h i) in Hb; [done|left|done].
Qed.

Lemma add_all_wf (bf : BloomFilter.t) (elems : list bytes) :
  wf bf ->
  exists bf',
    BloomFilter.add_all bf elems = Ok bf' /\ wf bf' /\
    BloomFilter.m bf' = BloomFilter.m bf /\
    BloomFilter.k bf' = BloomFilter.k bf /\
    BloomFilter._h bf' = BloomFilter._h bf /\
    forall j, 0 <= j < BloomFilter.m bf ->
      bit (BloomFilter.bs bf') j = true <->
      (bit (BloomFilter.bs bf) j = true \/
       exists h elem, h ∈ BloomFilter._h bf /\ elem ∈ elems /\ h elem = Ok j).
Proof.
  revert bf. induction elems as [|e elems IH]; intros bf Hwf.
  - exists bf. do 5 (split; [done|]). intros j Hj. split.
    + intros Hb. now left.
    + intros [Hb|(h & e & _ & Hin & _)]; [done|].
      now apply elem_of_nil in Hin.
  - destruct (add_wf bf e Hwf) as (bf1 & Hadd & Hwf1 & Hm1 & Hk1 & Hh1 & Hb1).
    destruct (IH bf1 Hwf1) as (bf' & Hrun & Hwf' & Hm' & Hk' & Hh' & Hb').
    exists bf'. cbn [BloomFilter.add_all]. rewrite Hadd.
    cbn [mbind result_bind]. split; [exact Hrun|]. split; [done|].
    split; [congruence|]. split; [congruence|]. split; [congruence|].
    intros j Hj. rewrite Hb', Hb1, Hh1 by lia. split.
    + intros [[Hb|(h & Hin & Hj')]|(h & e' & Hin & He & Hj')].
      * now left.
      * right. exists h, e. repeat split; [done|left|done].
      * right. exists h, e'. repeat split; [done|now right|done].
    + intros [Hb|(h & e' & Hin & He & Hj')]; [now left; left|].
      apply elem_of_cons in He as [->|He].
      * left. right. now exists h.
      * right. now exists h, e'.
Qed.


(** The bits of a last, partial byte, which no hash function reaches. *)
Lemma add_high_bits (bf bf' : BloomFilter.t) (elem : bytes) (j : Z) :
  wf bf -> BloomFilter.add bf elem = Ok bf' ->
  BloomFilter.m bf <= j < positions (BloomFilter.bs bf) ->
  bit (BloomFilter.bs bf') j = bit (BloomFilter.bs bf) j.
Proof.
  intros Hwf Hadd Hj. pose proof (wf_positions bf Hwf) as Hpos.
  destruct (add_loop_spec _ _ _ elem (wf_h bf Hwf) Hpos (wf_bytes bf Hwf))
    as (b' & Hrun & _ & _ & _ & Hbits).
  unfold BloomFilter.add in Hadd. rewrite Hrun in Hadd.
  cbn [mbind result_bind mret result_ret] in Hadd. injection Hadd as <-.
  cbn [BloomFilter.bs]. pose proof (wf_m bf Hwf).
  specialize (Hbits j ltac:(lia)).
  destruct (bit b' j) eqn:Hb'.
  - destruct (proj1 Hbits eq_refl) as [Hb|(h & Hin & Hh)]; [done|].
    pose proof (wf_h bf Hwf) as Hhs. rewrite Forall_forall in Hhs.
    destruct (Hhs h Hin elem) as (i & Hi & Hrange).
    rewrite Hi in Hh. injection Hh as ->. lia.
  - destruct (bit (BloomFilter.bs bf) j) eqn:Hb; [|done].
    pose proof (proj2 Hbits (or_introl eq_refl)). done.
Qed.

Lemma add_all_high_bits (bf bf' : BloomFilter.t) (elems : list bytes)
    (j : Z) :
  wf bf -> BloomFilter.add_all bf elems = Ok bf' ->
  BloomFilter.m bf <= j < positions (BloomFilter.bs bf) ->
  bit (BloomFilter.bs bf') j = bit (BloomFilter.bs bf) j.
Proof.
  revert bf. induction elems as [|e elems IH]; intros bf Hwf Hrun Hj.
  - cbn in Hrun. now injection Hrun as <-.
  - cbn [BloomFilter.add_all] in Hrun.
    destruct (add_wf bf e Hwf) as (bf1 & Hadd & Hwf1 & Hm1 & _).
    rewrite Hadd in Hrun. cbn [mbind result_bind] in Hrun.
    assert (Hpos1 : positions (BloomFilter.bs bf1)
                    = positions (BloomFilter.bs bf)).
    { unfold positions. now rewrite (wf_len bf1 Hwf1), (wf_len bf Hwf), Hm1. }
    rewrite (IH bf1 Hwf1 Hrun) by (rewrite Hm1, Hpos1; exact Hj).
    now apply (add_high_bits bf bf1 e).
Qed.

(** The loop of [__or__] and [__and__] over the bytes [s, s + n). *)
Lemma bytewise_spec (op : Z -> Z -> Z) (a b : list Z) (n s : nat)
    (acc : list Z) :
  (s + n <= length a)%nat -> (s + n <= length b)%nat ->
  (s + n <= length acc)%nat ->
  exists acc',
    BitString.bytewise op a b (seq s n) acc = Ok acc' /\
    length acc' = length acc /\
    forall i,
      acc' !! i = if decide (s <= i < s + n)%nat
                  then Some (op (default 0 (a !! i)) (default 0 (b !! i)))
                  else acc !! i.
Proof.
  revert s acc. induction n as [|n IH]; intros s acc Ha Hb Hacc.
  - exists acc. repeat split. intros i. rewrite decide_False by lia. done.
  - cbn [seq BitString.bytewise].
    destruct (py_index_Ok a (Z.of_nat s)) as (x & Hx & ->); [lia|].
    destruct (py_index_Ok b (Z.of_nat s)) as (y & Hy & ->); [lia|].
    cbn [mbind result_bind]. rewrite py_store_Ok by lia.
    cbn [mbind result_bind]. rewrite Nat2Z.id in *.
    destruct (IH (S s) (<[s := op x y]> acc)) as (acc' & Hrun & Hlen & Hl);
      rewrite ?length_insert; try lia.
    exists acc'. split; [exact Hrun|]. split.
    + now rewrite Hlen, length_insert.
    + intros i. rewrite Hl.
      destruct (decide (S s <= i < S s + n)%nat).
      * rewrite decide_True by lia. done.
      * destruct (decide (i = s)) as [->|Hne].
        -- rewrite decide_True by lia.
           rewrite list_lookup_insert_eq by lia. now rewrite Hx, Hy.
        -- rewrite decide_False by lia.
           now rewrite list_lookup_insert_ne by done.
Qed.

Lemma combine_spec (op : Z -> Z -> Z) (A B : BitString.t) :
  0 <= BitString.l A -> BitString.l B = BitString.l A ->
  length (BitString._bs A) = Z.to_nat ((BitString.l A + 7) / 8) ->
  length (BitString._bs B) = Z.to_nat ((BitString.l A + 7) / 8) ->
  exists bs',
    BitString.combine op A B
    = Ok {| BitString.l := BitString.l A; BitString._bs := bs' |} /\
    length bs' = Z.to_nat ((BitString.l A + 7) / 8) /\
    forall i,
      bs' !! i =
        if decide (i < Z.to_nat (BitString.l A / 8))%nat
        then Some (op (default 0 (BitString._bs A !! i))
                      (default 0 (BitString._bs B !! i)))
        else if decide (i < Z.to_nat ((BitString.l A + 7) / 8))%nat
             then Some 0 else None.
Proof.
  intros Hl HlB HlenA HlenB. unfold BitString.combine.
  rewrite HlB, Z.eqb_refl. cbn [negb].
  assert (Hle : BitString.l A / 8 <= (BitString.l A + 7) / 8)
    by (apply Z.div_le_mono; lia).
  assert (0 <= BitString.l A / 8) by (apply Z.div_pos; lia).
  cbn [BitString.new BitString._bs BitString.l].
  destruct (bytewise_spec op (BitString._bs A) (BitString._bs B)
              (Z.to_nat (BitString.l A / 8)) 0
              (repeat 0 (Z.to_nat ((BitString.l A + 7) / 8))))
    as (acc' & Hrun & Hlen & Hlook);
    rewrite ?HlenA, ?HlenB, ?repeat_length; try lia.
  rewrite Hrun. cbn [mbind result_bind mret result_ret].
  exists acc'. split; [done|]. rewrite repeat_length in Hlen.
  split; [done|].
  intros i. rewrite Hlook.
  rewrite lookup_repeat. repeat case_decide; done || lia.
Qed.

Lemma or_and_bits (A B : BitString.t) :
  0 <= BitString.l A -> BitString.l B = BitString.l A ->
  length (BitString._bs A) = Z.to_nat ((BitString.l A + 7) / 8) ->
  length (BitString._bs B) = Z.to_nat ((BitString.l A + 7) / 8) ->
  exists U V,
    BitString.or_ A B = Ok U /\ BitString.and_ A B = Ok V /\
    (forall j, 0 <= j < 8 * (BitString.l A / 8) ->
       exists a b,
         BitString.getitem A j = Ok a /\ BitString.getitem B j = Ok b /\
         BitString.getitem U j = Ok (Z.lor a b) /\
         BitString.getitem V j = Ok (Z.land a b)) /\
    (forall j, 8 * (BitString.l A / 8) <= j < 8 * ((BitString.l A + 7) / 8) ->
       BitString.getitem U j = Ok 0 /\ BitString.getitem V j = Ok 0).
Proof.
  intros Hl HlB HlenA HlenB.
  destruct (combine_spec Z.lor A B Hl HlB HlenA HlenB) as (u & HU & Hlu & Hu).
  destruct (combine_spec Z.land A B Hl HlB HlenA HlenB) as (v & HV & Hlv & Hv).
  assert (Hle : BitString.l A / 8 <= (BitString.l A + 7) / 8)
    by (apply Z.div_le_mono; lia).
  assert (H0 : 0 <= BitString.l A / 8) by (apply Z.div_pos; lia).
  eexists _, _. split; [exact HU|]. split; [exact HV|]. split.
  - intros j Hj.
    assert (Hj8 : 0 <= j / 8 < BitString.l A / 8).
    { split; [apply Z.div_pos; lia|apply Z.div_lt_upper_bound; lia]. }
    exists (Z.b2z (bit A j)), (Z.b2z (bit B j)).
    rewrite !getitem_bit
      by (unfold positions; cbn [BitString._bs]; rewrite ?HlenA, ?HlenB, ?Hlu, ?Hlv; lia).
    repeat split; f_equal; unfold bit; cbn [BitString._bs].
    + rewrite Hu, decide_True by lia. cbn [default from_option id].
      rewrite Z.lor_spec.
      destruct (Z.testbit _ _); destruct (Z.testbit _ _); done.
    + rewrite Hv, decide_True by lia. cbn [default from_option id].
      rewrite Z.land_spec.
      destruct (Z.testbit _ _); destruct (Z.testbit _ _); done.
  - intros j Hj.
    assert (Hj8 : BitString.l A / 8 <= j / 8 < (BitString.l A + 7) / 8).
    { split; [apply Z.div_le_lower_bound; lia
             |apply Z.div_lt_upper_bound; lia]. }
    rewrite !getitem_bit
      by (unfold positions; cbn [BitString._bs]; rewrite ?Hlu, ?Hlv; lia).
    unfold bit; cbn [BitString._bs].
    rewrite Hu, Hv. repeat case_decide; try lia.
    cbn [default from_option id]. now rewrite Z.testbit_0_l.
Qed.

(** X15: [a | b] and [a & b] combine the bits of the
    [l // 8] whole bytes; the bits of a last, partial byte are 0 in the
    result. *)
Theorem or_and_whole_bytes (A B : BitString.t) :
  0 <= BitString.l A -> BitString.l B = BitString.l A ->
  length (BitString._bs A) = Z.to_nat ((BitString.l A + 7) / 8) ->
  length (BitString._bs B) = Z.to_nat ((BitString.l A + 7) / 8) ->
  exists U V,
    BitString.or_ A B = Ok U /\ BitString.and_ A B = Ok V /\
    (forall j, 0 <= j < 8 * (BitString.l A / 8) ->
       exists a b,
         BitString.getitem A j = Ok a /\ BitString.getitem B j = Ok b /\
         BitString.getitem U j = Ok (Z.lor a b) /\
         BitString.getitem V j = Ok (Z.land a b)) /\
    (forall j, 8 * (BitString.l A / 8) <= j < 8 * ((BitString.l A + 7) / 8) ->
       BitString.getitem U j = Ok 0 /\ BitString.getitem V j = Ok 0).
Proof. apply or_and_bits. Qed.


(** X17: what a filter answers.  After [BloomFilter(m, k)] and [add] of
    [elems], for [m >= 1], every call returns, and [item in bf] is [True]
    exactly when each of the [k] positions of [item] is a position of some
    added element. *)
Theorem contains_after_add_all (m0 k0 : Z) (elems : list bytes)
    (item : bytes) :
  1 <= m0 ->
  exists bf c,
    BloomFilter.add_all (BloomFilter.new m0 k0) elems = Ok bf /\
    BloomFilter.contains bf item = Ok c /\
    (c = true <->
     forall h j, h ∈ BloomFilter._h (BloomFilter.new m0 k0) ->
       h item = Ok j ->
       exists h' elem, h' ∈ BloomFilter._h (BloomFilter.new m0 k0) /\
         elem ∈ elems /\ h' elem = Ok j).
Proof.
  intros Hm.
  destruct (add_all_wf _ elems (new_wf m0 k0 Hm))
    as (bf & Hrun & Hwf & Hm' & _ & Hh & Hbits).
  pose proof (wf_positions bf Hwf) as Hpos.
  destruct (contains_loop_true _ _ (BloomFilter.bs bf) item (wf_h bf Hwf) Hpos)
    as (c & Hc & Hiff).
  exists bf, c. split; [exact Hrun|]. split; [exact Hc|].
  rewrite Hiff, Hh. cbn [BloomFilter.m BloomFilter.new] in Hbits.
  assert (Hfresh : forall j, bit (BloomFilter.bs (BloomFilter.new m0 k0)) j
                             = false).
  { intros j. unfold bit. cbn. rewrite lookup_repeat.
    case_decide; cbn; apply Z.testbit_0_l. }
  assert (Hrange : forall h j, h ∈ BloomFilter._h (BloomFilter.new m0 k0) ->
                     h item = Ok j -> 0 <= j < m0).
  { intros h j Hin Hj. pose proof (new_hashes m0 k0 Hm) as Hall.
    rewrite Forall_forall in Hall. destruct (Hall h Hin item) as (i & Hi & ?).
    congruence. }
  split.
  - intros Hall h j Hin Hj. apply Hall in Hj as Hb; [|done].
    apply Hbits in Hb as [Hb|Hb]; [|done|now apply (Hrange h)].
    now rewrite Hfresh in Hb.
  - intros Hall h j Hin Hj. apply Hbits; [now apply (Hrange h)|].
    right. now apply (Hall h).
Qed.

(** X16: a Bloom filter has no false negatives: for every [m >= 1], every
    [k] and every list of elements, adding the elements to a fresh filter
    succeeds and each of them is then [in] the filter. *)
Theorem add_all_no_false_negative (m0 k0 : Z) (elems : list bytes) :
  1 <= m0 ->
  exists bf,
    BloomFilter.add_all (BloomFilter.new m0 k0) elems = Ok bf /\
    forall x, x ∈ elems -> BloomFilter.contains bf x = Ok true.
Proof.
  intros Hm.
  destruct (add_all_wf _ elems (new_wf m0 k0 Hm))
    as (bf & Hrun & Hwf & Hm' & _ & Hh & Hbits).
  exists bf. split; [exact Hrun|]. intros x Hx.
  pose proof (wf_positions bf Hwf) as Hpos.
  destruct (contains_loop_true _ _ (BloomFilter.bs bf) x (wf_h bf Hwf) Hpos)
    as (c & Hc & Hiff).
  unfold BloomFilter.contains. rewrite Hc. f_equal. apply Hiff.
  intros h j Hin Hj. rewrite Hh in Hin. apply Hbits.
  - pose proof (new_hashes m0 k0 Hm) as Hall.
    rewrite Forall_forall in Hall. destruct (Hall h Hin x) as (i & Hi & ?).
    cbn. congruence.
  - right. now exists h, x.
Qed.

(** X18: the two ends: a fresh filter with [k >= 1] hash functions contains
    nothing, and a filter with no hash function ([k <= 0]) contains every
    item. *)
Theorem fresh_filter_contains (m0 k0 : Z) (item : bytes) :
  1 <= m0 ->
  BloomFilter.contains (BloomFilter.new m0 k0) item
  = Ok (bool_decide (k0 <= 0)).
Proof.
  intros Hm.
  unfold BloomFilter.contains, BloomFilter.new.
  cbn [BloomFilter.bs BloomFilter._h].
  destruct (Z.to_nat k0) as [|n] eqn:Hk.
  - cbn. rewrite bool_decide_eq_true_2 by lia. done.
  - rewrite bool_decide_eq_false_2 by lia.
    cbn [seq map BloomFilter.contains_loop].
    destruct (Z.eqb_spec m0 0); [lia|]. cbn [mbind result_bind].
    rewrite getitem_bit.
    + unfold bit. cbn [BitString.new BitString._bs]. rewrite lookup_repeat.
      case_decide; cbn [default from_option id]; now rewrite Z.testbit_0_l.
    + unfold positions. cbn [BitString.new BitString._bs].
      rewrite repeat_length.
      pose proof (Z.mod_pos_bound
        ((if (32 <? bit_length m0)%nat then mmh3_hash128 else mmh3_hash)
           (int_to_bytes (bit_length k0) (Z.of_nat 0) ++ item)) m0 ltac:(lia)).
      pose proof (bytes_for_bits m0).
      assert (0 <= (m0 + 7) / 8) by (apply Z.div_pos; lia). lia.
Qed.

(** X19: for a filter length [m] that is a multiple of 8, union and
    intersection are as a Bloom filter has them: what is in [A] or in [B]
    is in [A | B], what is in both is in [A & B], and what is in [A & B]
    is in both. *)
Theorem union_intersection_aligned (m0 k0 : Z) (xs ys : list bytes) :
  1 <= m0 -> m0 mod 8 = 0 ->
  exists A B U I,
    BloomFilter.add_all (BloomFilter.new m0 k0) xs = Ok A /\
    BloomFilter.add_all (BloomFilter.new m0 k0) ys = Ok B /\
    BloomFilter.union A B = Ok U /\
    BloomFilter.intersection A B = Ok I /\
    (forall x, BloomFilter.contains A x = Ok true \/
               BloomFilter.contains B x = Ok true ->
               BloomFilter.contains U x = Ok true) /\
    (forall x, BloomFilter.contains I x = Ok true <->
               BloomFilter.contains A x = Ok true /\
               BloomFilter.contains B x = Ok true).
Proof.
  intros Hm Hal.
  destruct (add_all_wf _ xs (new_wf m0 k0 Hm))
    as (A & HA & HwfA & HmA & HkA & HhA & _).
  destruct (add_all_wf _ ys (new_wf m0 k0 Hm))
    as (B & HB & HwfB & HmB & HkB & HhB & _).
  cbn [BloomFilter.m BloomFilter.k BloomFilter.new] in HmA, HmB, HkA, HkB.
  assert (Hd : 8 * (m0 / 8) = m0)
    by (pose proof (Z.div_mod m0 8 ltac:(lia)); lia).
  assert (Hd7 : (m0 + 7) / 8 = m0 / 8).
  { symmetry. apply (Z.div_unique _ _ _ 7); lia. }
  destruct (or_and_bits (BloomFilter.bs A) (BloomFilter.bs B))
    as (u & v & Hu & Hv & Hbits & _).
  { rewrite (wf_l A HwfA). lia. }
  { rewrite (wf_l A HwfA), (wf_l B HwfB). lia. }
  { rewrite (wf_len A HwfA), (wf_l A HwfA). done. }
  { rewrite (wf_len B HwfB), (wf_l A HwfA). congruence. }
  rewrite (wf_l A HwfA), HmA, Hd in Hbits.
  exists A, B. eexists _, _. split; [exact HA|]. split; [exact HB|].
  unfold BloomFilter.union, BloomFilter.intersection. rewrite Hu, Hv.
  cbn [mbind result_bind mret result_ret].
  split; [reflexivity|]. split; [reflexivity|].
  unfold BloomFilter.contains.
  cbn [BloomFilter.bs BloomFilter._h BloomFilter.empty].
  assert (Hhs : Forall (hash_ok m0) (BloomFilter._h A)).
  { pose proof (wf_h A HwfA) as Hh. now rewrite HmA in Hh. }
  assert (Hanswers : forall x,
    exists ca cb cu ci,
      BloomFilter.contains_loop (BloomFilter.bs A) (BloomFilter._h A) x = Ok ca /\
      BloomFilter.contains_loop (BloomFilter.bs B) (BloomFilter._h B) x = Ok cb /\
      BloomFilter.contains_loop u (BloomFilter._h A) x = Ok cu /\
      BloomFilter.contains_loop v (BloomFilter._h A) x = Ok ci /\
      (ca = true \/ cb = true -> cu = true) /\
      (ci = true <-> ca = true /\ cb = true)).
  { intros x. rewrite HhB, <- HhA.
    revert Hhs. generalize (BloomFilter._h A). intros hs Hhs.
    induction Hhs as [|h hs Hh _ IH].
    - exists true, true, true, true. cbn. tauto.
    - destruct (Hh x) as (i & Hi & Hrange).
      destruct (Hbits i Hrange) as (a & b & Ha & Hb & Hor & Hand).
      destruct IH as (ca & cb & cu & ci & Hca & Hcb & Hcu & Hci & Himp & Hiff).
      cbn [BloomFilter.contains_loop]. rewrite Hi.
      cbn [mbind result_bind]. rewrite Ha, Hb, Hor, Hand.
      cbn [mbind result_bind]. rewrite Hca, Hcb, Hcu, Hci.
      assert (Hab : (a = 0 \/ a = 1) /\ (b = 0 \/ b = 1)).
      { pose proof (wf_positions A HwfA) as HpA.
        pose proof (wf_positions B HwfB) as HpB.
        rewrite getitem_bit in Ha, Hb by lia.
        injection Ha as <-. injection Hb as <-.
        split; [destruct (bit (BloomFilter.bs A) i)
               |destruct (bit (BloomFilter.bs B) i)]; cbn; auto. }
      destruct Hab as [[-> | ->] [-> | ->]]; cbn [Z.lor Z.land Z.eqb];
        eexists _, _, _, _; (do 4 (split; [reflexivity|])); 
        try tauto; split; intros; intuition congruence. }
  split.
  - intros x Hin.
    destruct (Hanswers x) as (ca & cb & cu & ci & Hca & Hcb & Hcu & _ & Himp & _).
    rewrite Hca, Hcb in Hin. rewrite Hcu. f_equal. apply Himp.
    destruct Hin as [Hin|Hin]; injection Hin; auto.
  - intros x.
    destruct (Hanswers x) as (ca & cb & cu & ci & Hca & Hcb & _ & Hci & _ & Hiff).
    rewrite Hca, Hcb, Hci. split.
    + intros Hin. injection Hin as Hin. apply Hiff in Hin as [-> ->]. done.
    + intros [Ha Hb]. injection Ha as Ha. injection Hb as Hb.
      f_equal. now apply Hiff.
Qed.


Lemma bit_length_bound (k0 : Z) : Z.abs k0 < 2 ^ Z.of_nat (bit_length k0).
Proof.
  destruct k0 as [|p|p]; cbn [bit_length Z.abs]; [done| |];
    rewrite positive_nat_Z;
    pose proof (Pos.size_gt p) as Hs;
    apply Pos2Z.pos_lt_pos in Hs; now rewrite Pos2Z.inj_pow in Hs.
Qed.

Lemma int_to_bytes_inj (len : nat) (i j : Z) :
  0 <= i < 256 ^ Z.of_nat len -> 0 <= j < 256 ^ Z.of_nat len ->
  int_to_bytes len i = int_to_bytes len j -> i = j.
Proof.
  intros Hi Hj Heq. apply (f_equal int_from_bytes) in Heq.
  now rewrite !int_from_to_bytes, !Z.mod_small in Heq by lia.
Qed.

(** X20: the [k] hash functions of a filter are [H] behind [k] prefixes,
    [i.to_bytes(k.bit_length(), 'big')] for [i] in [range(k)]: the
    conversion never overflows, and the prefixes, all of one length, are
    pairwise distinct, so that two hash functions never hash the same
    string. *)
Theorem hash_prefixes_distinct (k0 i j : Z) (y y' : bytes) :
  0 <= i < k0 -> 0 <= j < k0 ->
  to_bytes (bit_length k0) i = Ok (int_to_bytes (bit_length k0) i) /\
  (int_to_bytes (bit_length k0) i ++ y = int_to_bytes (bit_length k0) j ++ y'
   -> i = j /\ y = y').
Proof.
  intros Hi Hj. pose proof (bit_length_bound k0) as Hb.
  assert (Hpow : 2 ^ Z.of_nat (bit_length k0) <= 256 ^ Z.of_nat (bit_length k0))
    by (apply Z.pow_le_mono_l; lia).
  split.
  - unfold to_bytes.
    destruct (Z.leb_spec 0 i); [|lia].
    destruct (Z.ltb_spec i (256 ^ Z.of_nat (bit_length k0))); [done|lia].
  - intros Heq. apply app_inj_1 in Heq as [Hp Hy];
      [|now rewrite !int_to_bytes_length].
    split; [|done]. apply (int_to_bytes_inj (bit_length k0)); [lia|lia|done].
Qed.

End WithHash.
End BloomFilterProofs.

(** ** [CardinalityEfficient.encrypt]: when it returns, and what *)

Module MultiClientCardinalityEfficientEncrypt.
Import MultiClientCardinalityEfficient.
Import BitStringProofs BitStringWeight BloomFilterProofs.

Section Proofs.
Context `{ECGroup} `{BlockCipher} `{Murmur}.

Lemma to_bytes_Ok (len : nat) (i : Z) :
  0 <= i < 256 ^ Z.of_nat len -> to_bytes len i = Ok (int_to_bytes len i).
Proof.
  intros Hi. unfold to_bytes.
  destruct (Z.leb_spec 0 i); [|lia].
  destruct (Z.ltb_spec i (256 ^ Z.of_nat len)); [done|lia].
Qed.

Lemma to_bytes_overflow (len : nat) (i : Z) :
  256 ^ Z.of_nat len <= i -> to_bytes len i = Raise OverflowError.
Proof.
  intros Hi. unfold to_bytes.
  destruct (Z.ltb_spec i (256 ^ Z.of_nat len)); [lia|].
  now rewrite andb_false_r.
Qed.

Lemma weight_Ok (bf : BloomFilter.t) :
  wf bf -> exists t, BloomFilter.weight bf = Ok t.
Proof.
  intros Hwf. unfold BloomFilter.weight.
  rewrite weight_ones by apply (wf_bytes _ Hwf). eauto.
Qed.

(** The positions [idx] below [m] and below [256 ^ k.bit_length()]. *)
Definition encodable (bf : BloomFilter.t) (k0 : Z) (idx : list Z) : Prop :=
  Forall (fun i => 0 <= i < BloomFilter.m bf /\
                   i < 256 ^ Z.of_nat (bit_length k0)) idx.

Lemma element_loop_Ok (bf : BloomFilter.t) (k0 : Z) (gid : bytes) (fni : ZR)
    (t : Z) (idx : list Z) (r : rng) :
  wf bf -> encodable bf k0 idx ->
  exists ct_element r',
    element_loop bf k0 gid fni t idx r = Ok (ct_element, r') /\
    length ct_element = length idx.
Proof.
  intros Hwf Hidx. pose proof (wf_positions bf Hwf) as Hpos.
  revert r. induction Hidx as [|i idx [Hi Hb] _ IH]; intros r.
  - now exists [], r.
  - cbn [element_loop]. rewrite to_bytes_Ok by lia.
    cbn [mbind result_bind]. destruct (random_G r) as [gr r1].
    rewrite getitem_bit by lia. cbn [mbind result_bind].
    destruct (if Z.b2z (bit (BloomFilter.bs bf) i) =? 0
              then random_G r1 else (pow gr (init_ZR t), r1)) as [grho r2].
    destruct (IH r2) as (rest & r3 & -> & Hlen).
    cbn [mbind result_bind mret result_ret].
    eexists _, _. split; [reflexivity|]. cbn [length]. now rewrite Hlen.
Qed.

Lemma element_loop_overflow (bf : BloomFilter.t) (k0 : Z) (gid : bytes)
    (fni : ZR) (t : Z) (idx : list Z) (c : Z) (rest : list Z) (r : rng) :
  wf bf -> encodable bf k0 idx -> 256 ^ Z.of_nat (bit_length k0) <= c ->
  element_loop bf k0 gid fni t (idx ++ c :: rest) r = Raise OverflowError.
Proof.
  intros Hwf Hidx Hc. pose proof (wf_positions bf Hwf) as Hpos.
  revert r. induction Hidx as [|i idx [Hi Hb] _ IH]; intros r.
  - cbn [app element_loop]. now rewrite to_bytes_overflow.
  - cbn [app element_loop]. rewrite to_bytes_Ok by lia.
    cbn [mbind result_bind]. destruct (random_G r) as [gr r1].
    rewrite getitem_bit by lia. cbn [mbind result_bind].
    destruct (if Z.b2z (bit (BloomFilter.bs bf) i) =? 0
              then random_G r1 else (pow gr (init_ZR t), r1)) as [grho r2].
    now rewrite IH.
Qed.

Lemma bf_set_loop_Ok (bf : BloomFilter.t) (k0 : Z) (gid : bytes) (fi : ZR)
    (idx : list Z) (r : rng) :
  wf bf -> encodable bf k0 idx ->
  exists ct_bf_set r',
    bf_set_loop bf k0 gid fi idx r = Ok (ct_bf_set, r') /\
    length ct_bf_set = length idx.
Proof.
  intros Hwf Hidx. pose proof (wf_positions bf Hwf) as Hpos.
  revert r. induction Hidx as [|i idx [Hi Hb] _ IH]; intros r.
  - now exists [], r.
  - cbn [bf_set_loop]. rewrite to_bytes_Ok by lia.
    cbn [mbind result_bind].
    rewrite getitem_bit by lia. cbn [mbind result_bind].
    destruct (if Z.b2z (bit (BloomFilter.bs bf) i) =? 0
              then let (x, r1) := random_G r in
                   (mul (pow (hash_to_point
                          (int_to_bytes (bit_length k0) i ++ gid)) fi) x, r1)
              else (pow (hash_to_point
                      (int_to_bytes (bit_length k0) i ++ gid)) fi, r))
      as [ct' r1].
    destruct (IH r1) as (rest & r2 & -> & Hlen).
    cbn [mbind result_bind mret result_ret].
    eexists _, _. split; [reflexivity|]. cbn [length]. now rewrite Hlen.
Qed.

Lemma bf_set_loop_overflow (bf : BloomFilter.t) (k0 : Z) (gid : bytes)
    (fi : ZR) (idx : list Z) (c : Z) (rest : list Z) (r : rng) :
  wf bf -> encodable bf k0 idx -> 256 ^ Z.of_nat (bit_length k0) <= c ->
  bf_set_loop bf k0 gid fi (idx ++ c :: rest) r = Raise OverflowError.
Proof.
  intros Hwf Hidx Hc. pose proof (wf_positions bf Hwf) as Hpos.
  revert r. induction Hidx as [|i idx [Hi Hb] _ IH]; intros r.
  - cbn [app bf_set_loop]. now rewrite to_bytes_overflow.
  - cbn [app bf_set_loop]. rewrite to_bytes_Ok by lia.
    cbn [mbind result_bind].
    rewrite getitem_bit by lia. cbn [mbind result_bind].
    destruct (if Z.b2z (bit (BloomFilter.bs bf) i) =? 0
              then let (x, r1) := random_G r in
                   (mul (pow (hash_to_point
                          (int_to_bytes (bit_length k0) i ++ gid)) fi) x, r1)
              else (pow (hash_to_point
                      (int_to_bytes (bit_length k0) i ++ gid)) fi, r))
      as [ct' r1].
    now rewrite IH.
Qed.

Lemma encodable_all (bf : BloomFilter.t) (k0 : Z) :
  BloomFilter.m bf <= 256 ^ Z.of_nat (bit_length k0) ->
  encodable bf k0 (py_range 0 (BloomFilter.m bf)).
Proof.
  intros Hle. apply Forall_forall. intros i Hi.
  apply elem_of_py_range in Hi. lia.
Qed.

Lemma range_split (bf : BloomFilter.t) (k0 : Z) :
  256 ^ Z.of_nat (bit_length k0) < BloomFilter.m bf ->
  exists idx c rest,
    py_range 0 (BloomFilter.m bf) = idx ++ c :: rest /\
    encodable bf k0 idx /\ 256 ^ Z.of_nat (bit_length k0) <= c.
Proof.
  intros Hlt. set (B := 256 ^ Z.of_nat (bit_length k0)) in *.
  assert (HB : 0 < B) by (apply Z.pow_pos_nonneg; lia).
  exists (py_range 0 B), B, (py_range (B + 1) (BloomFilter.m bf)).
  split; [|split; [|lia]].
  - rewrite (py_range_app 0 B) by lia. f_equal.
    rewrite (py_range_app B (B + 1)) by lia. f_equal.
    unfold py_range. replace (Z.to_nat (B + 1 - B)) with 1%nat by lia.
    cbn. f_equal. lia.
  - apply Forall_forall. intros i Hi. apply elem_of_py_range in Hi.
    fold B. lia.
Qed.


Lemma elements_loop_Ok (m0 k0 : Z) (phi_key gid : bytes) (fni : ZR)
    (pts : list bytes) (bf_set : BloomFilter.t) (r : rng) :
  1 <= m0 <= 256 ^ Z.of_nat (bit_length k0) ->
  wf bf_set -> BloomFilter.m bf_set = m0 ->
  exists bf_set' ct_elements r',
    elements_loop m0 k0 phi_key gid fni pts bf_set r
    = Ok (bf_set', ct_elements, r') /\
    wf bf_set' /\ BloomFilter.m bf_set' = m0 /\
    length ct_elements = length pts /\
    Forall (fun e => length e = Z.to_nat m0) ct_elements.
Proof.
  intros Hm. revert bf_set r.
  induction pts as [|pt pts IH]; intros bf_set r Hwf Hmbf.
  - exists bf_set, [], r. split; [reflexivity|]. split; [done|].
    split; [done|]. split; [done|constructor].
  - cbn [elements_loop].
    destruct (add_wf bf_set (_prf phi_key gid pt) Hwf)
      as (bf_set1 & -> & Hwf1 & Hm1 & _).
    destruct (add_wf (BloomFilter.new m0 k0) (_prf phi_key gid pt)
                (new_wf m0 k0 ltac:(lia)))
      as (bf & -> & Hwfbf & Hmbf' & _).
    cbn [mbind result_bind].
    destruct (weight_Ok bf Hwfbf) as (t & ->). cbn [mbind result_bind].
    cbn [BloomFilter.m BloomFilter.new] in Hmbf'.
    destruct (element_loop_Ok bf k0 gid fni t (py_range 0 (BloomFilter.m bf)) r
                Hwfbf) as (ct_element & r1 & -> & Hlen).
    { apply encodable_all. lia. }
    cbn [mbind result_bind].
    destruct (IH bf_set1 r1 Hwf1 ltac:(congruence))
      as (bf_set2 & rest & r2 & -> & Hwf2 & Hm2 & Hlen2 & Hall).
    cbn [mbind result_bind mret result_ret].
    eexists _, _, _. split; [reflexivity|]. split; [done|]. split; [done|].
    split; [cbn [length]; now rewrite Hlen2|].
    constructor; [|done]. rewrite Hlen, py_range_length, Hmbf'. f_equal. lia.
Qed.

Lemma elements_loop_overflow (m0 k0 : Z) (phi_key gid : bytes) (fni : ZR)
    (pt : bytes) (pts : list bytes) (bf_set : BloomFilter.t) (r : rng) :
  256 ^ Z.of_nat (bit_length k0) < m0 ->
  wf bf_set -> BloomFilter.m bf_set = m0 ->
  elements_loop m0 k0 phi_key gid fni (pt :: pts) bf_set r
  = Raise OverflowError.
Proof.
  intros Hm Hwf Hmbf.
  assert (HB : 0 < 256 ^ Z.of_nat (bit_length k0))
    by (apply Z.pow_pos_nonneg; lia).
  cbn [elements_loop].
  destruct (add_wf bf_set (_prf phi_key gid pt) Hwf)
    as (bf_set1 & -> & Hwf1 & Hm1 & _).
  destruct (add_wf (BloomFilter.new m0 k0) (_prf phi_key gid pt)
              (new_wf m0 k0 ltac:(lia)))
    as (bf & -> & Hwfbf & Hmbf' & _).
  cbn [mbind result_bind].
  destruct (weight_Ok bf Hwfbf) as (t & ->). cbn [mbind result_bind].
  cbn [BloomFilter.m BloomFilter.new] in Hmbf'.
  destruct (range_split bf k0 ltac:(lia)) as (idx & c & rest & -> & Hidx & Hc).
  now rewrite element_loop_overflow.
Qed.

(** X21: with an AES key and a 16-byte gid, [encrypt] returns whenever the
    filter length fits the width of the position encoding,
    [1 <= m <= 256 ** k.bit_length()], whatever the plaintexts and the
    random draws; the ciphertext then has [m] entries for the filter of
    the set and, for every plaintext, [m] pairs. *)
Theorem encrypt_shape (self : scheme) (usk : bytes * ZR * ZR) (gid : bytes)
    (pt_set : list bytes) (r : rng) (m0 k0 : Z) :
  m self = Some m0 -> k self = Some k0 ->
  aes_key_size usk.1.1 = true -> length gid = 16%nat ->
  1 <= m0 <= 256 ^ Z.of_nat (bit_length k0) ->
  exists ct_bf_set ct_elements r',
    encrypt self usk gid pt_set r = Ok (ct_bf_set, ct_elements, r') /\
    length ct_bf_set = Z.to_nat m0 /\
    length ct_elements = length pt_set /\
    Forall (fun ct_element => length ct_element = Z.to_nat m0) ct_elements.
Proof.
  intros Hm0 Hk0 Hkey Hgid Hm. unfold encrypt.
  destruct usk as [[phi_key fi] fni]. cbn [fst] in Hkey.
  rewrite Hm0, Hk0. cbn [attr mbind result_bind]. cbv zeta.
  rewrite Cipher_Ok by done. cbn [mbind result_bind].
  destruct (elements_loop_Ok m0 k0 phi_key gid fni pt_set
              (BloomFilter.new m0 k0) r Hm (new_wf m0 k0 ltac:(lia)) eq_refl)
    as (bf_set' & ct_elements & r1 & -> & Hwf & Hmbf & Hlen & Hall).
  cbn [mbind result_bind].
  destruct (bf_set_loop_Ok bf_set' k0 gid fi (py_range 0 (BloomFilter.m bf_set'))
              r1 Hwf) as (ct_bf_set & r2 & -> & Hlen2).
  { apply encodable_all. lia. }
  cbn [mbind result_bind mret result_ret].
  eexists _, _, _. split; [reflexivity|].
  split; [|done]. rewrite Hlen2, py_range_length, Hmbf. f_equal. lia.
Qed.

(** X22: the position [i] of a bit is encoded on [k.bit_length()] bytes, the
    width of the hash-function index: with an AES key and a 16-byte gid,
    when [m > 256 ** k.bit_length()] (as for [k = 1] and [m > 256]),
    [encrypt] raises [OverflowError], whatever the plaintexts and the
    random draws. *)
Theorem encrypt_position_overflow (self : scheme) (usk : bytes * ZR * ZR)
    (gid : bytes) (pt_set : list bytes) (r : rng) (m0 k0 : Z) :
  m self = Some m0 -> k self = Some k0 ->
  aes_key_size usk.1.1 = true -> length gid = 16%nat ->
  256 ^ Z.of_nat (bit_length k0) < m0 ->
  encrypt self usk gid pt_set r = Raise OverflowError.
Proof.
  intros Hm0 Hk0 Hkey Hgid Hm. unfold encrypt.
  destruct usk as [[phi_key fi] fni]. cbn [fst] in Hkey.
  rewrite Hm0, Hk0. cbn [attr mbind result_bind]. cbv zeta.
  rewrite Cipher_Ok by done. cbn [mbind result_bind].
  assert (HB : 0 < 256 ^ Z.of_nat (bit_length k0))
    by (apply Z.pow_pos_nonneg; lia).
  destruct pt_set as [|pt pts].
  - cbn [elements_loop mbind result_bind].
    destruct (range_split (BloomFilter.new m0 k0) k0 ltac:(cbn; lia))
      as (idx & c & rest & -> & Hidx & Hc).
    rewrite bf_set_loop_overflow; [done|apply new_wf; lia|done|done].
  - rewrite elements_loop_overflow; [done|done|apply new_wf; lia|done].
Qed.

(** X26: what [encrypt] checks before its loops, in this order: the
    attributes [m] and [k], which [setup] assigns, with
    [AttributeError] before [setup]; then the cipher, with [ValueError]
    for a key that is not an AES key or a gid that has not 16 bytes,
    whatever the filter parameters, the plaintexts and the random draws. *)
Theorem encrypt_checks (self : scheme) (usk : bytes * ZR * ZR)
    (gid : bytes) (pt_set : list bytes) (r : rng) :
  (m self = None \/ k self = None ->
     encrypt self usk gid pt_set r = Raise AttributeError) /\
  (forall m0 k0, m self = Some m0 -> k self = Some k0 ->
     aes_key_size usk.1.1 = false \/ length gid <> 16%nat ->
     encrypt self usk gid pt_set r = Raise ValueError).
Proof.
  unfold encrypt. destruct usk as [[phi_key fi] fni]. cbn [fst]. split.
  - intros [->| ->]; [done|]. now destruct (m self).
  - intros m0 k0 -> -> Hbad. cbn [attr mbind result_bind]. cbv zeta.
    now rewrite Cipher_raise.
Qed.

End Proofs.
End MultiClientCardinalityEfficientEncrypt.

(** ** [CardinalityEfficient.eval] on arbitrary ciphertexts *)

Module MultiClientCardinalityEfficientEval.
Import MultiClientCardinalityEfficient.
Import BitStringWeight.

Section Proofs.
Context `{ECGroup}.

Lemma candidate_loop_elem (gr lhs : point) (Delta : ZR) (cands : list Z)
    (i : Z) :
  candidate_loop gr lhs Delta cands = Some i -> i ∈ cands.
Proof.
  induction cands as [|c cands IH]; cbn [candidate_loop]; [done|].
  case_decide.
  - intros [= ->]. left.
  - intros Hi. right. auto.
Qed.

Lemma elem_of_py_range_down (k0 i : Z) : i ∈ py_range_down k0 -> 1 <= i <= k0.
Proof.
  unfold py_range_down.
  rewrite list_elem_of_In, <- in_rev, <- list_elem_of_In, elem_of_py_range.
  lia.
Qed.

(** An element is counted when [identical_count] reaches [t] after an
    increment: never, when [t <= identical_count] already. *)
Lemma bits_loop_not_counted (self : scheme) (Delta : ZR)
    (a_list : list point) (ct_element : list (point * point))
    (ells : list Z) (t : option Z) (identical_count : Z) (c : bool) :
  (forall k0, k self = Some k0 -> k0 <= 1) ->
  (forall t0, t = Some t0 -> t0 <= identical_count) ->
  bits_loop self Delta a_list ct_element ells t identical_count = Ok c ->
  c = false.
Proof.
  intros Hk. revert t identical_count.
  induction ells as [|ell ells IH]; intros t ic Ht; cbn [bits_loop].
  - now intros [= <-].
  - destruct (py_index ct_element ell) as [e|]; [|done].
    cbn [mbind result_bind].
    destruct (py_index a_list ell) as [a|]; [|done].
    cbn [mbind result_bind].
    destruct t as [t0|].
    + specialize (Ht t0 eq_refl). case_decide.
      * destruct (Z.eqb_spec t0 (ic + 1)); [lia|].
        apply IH. intros ? [= <-]. lia.
      * apply IH. now intros ? [= <-].
    + destruct (k self) as [k0|] eqn:Hk0; [|done].
      cbn [attr mbind result_bind].
      destruct (candidate_loop _ _ _ _) as [i|] eqn:Hc.
      * apply candidate_loop_elem, elem_of_py_range_down in Hc.
        specialize (Hk k0 eq_refl).
        apply IH. intros ? [= <-]. lia.
      * apply IH. done.
Qed.

Lemma count_loop_zero (self : scheme) (Delta : ZR) (a_list : list point)
    (m0 : Z) (ct_elements : list (list (point * point))) (c0 c : Z) :
  (forall k0, k self = Some k0 -> k0 <= 1) ->
  count_loop self Delta a_list m0 ct_elements c0 = Ok c -> c = c0.
Proof.
  intros Hk. revert c0.
  induction ct_elements as [|e rest IH]; intros c0; cbn [count_loop].
  - now intros [= <-].
  - destruct (bits_loop _ _ _ _ _ _ _) as [b|] eqn:Hb; [|done].
    cbn [mbind result_bind].
    apply bits_loop_not_counted in Hb; [|done|done]. subst b. apply IH.
Qed.

Lemma count_loop_bound (self : scheme) (Delta : ZR) (a_list : list point)
    (m0 : Z) (ct_elements : list (list (point * point))) (c0 c : Z) :
  count_loop self Delta a_list m0 ct_elements c0 = Ok c ->
  c0 <= c <= c0 + Z.of_nat (length ct_elements).
Proof.
  revert c0.
  induction ct_elements as [|e rest IH]; intros c0; cbn [count_loop].
  - intros [= <-]. simpl. lia.
  - destruct (bits_loop _ _ _ _ _ _ _) as [b|]; [|done].
    cbn [mbind result_bind]. intros Hc. apply IH in Hc.
    cbn [length]. destruct b; lia.
Qed.

(** The first smallest set. *)
Lemma smallest_loop_spec (ct_sets : list ct_tuple) (idx : list Z)
    (i0 : Z) (s0 : nat) (i : Z) (s : nat) (seen : list Z) :
  smallest_loop ct_sets idx i0 s0 = Ok (i, s) ->
  (exists c0, py_index ct_sets i0 = Ok c0 /\ length c0.2 = s0) ->
  (forall j c, j ∈ seen -> py_index ct_sets j = Ok c -> (s0 <= length c.2)%nat) ->
  (exists c, py_index ct_sets i = Ok c /\ length c.2 = s) /\
  (forall j c, j ∈ seen ++ idx -> py_index ct_sets j = Ok c ->
     (s <= length c.2)%nat).
Proof.
  revert i0 s0 seen.
  induction idx as [|j idx IH]; intros i0 s0 seen; cbn [smallest_loop].
  - intros [= <- <-] Hc0 Hseen. rewrite app_nil_r. done.
  - destruct (py_index ct_sets j) as [cj|] eqn:Hj; [|done].
    cbn [mbind result_bind]. intros Hrun Hc0 Hseen.
    replace (seen ++ j :: idx) with ((seen ++ [j]) ++ idx)
      by now rewrite <- app_assoc.
    destruct (Nat.ltb_spec (length cj.2) s0).
    + apply (IH _ _ (seen ++ [j])) in Hrun; [done|eauto|].
      intros j' c' Hin Hc'. apply elem_of_app in Hin as [Hin|Hin].
      * specialize (Hseen _ _ Hin Hc'). lia.
      * apply list_elem_of_singleton in Hin as ->.
        rewrite Hj in Hc'. injection Hc' as <-. lia.
    + apply (IH _ _ (seen ++ [j])) in Hrun; [done|eauto|].
      intros j' c' Hin Hc'. apply elem_of_app in Hin as [Hin|Hin].
      * exact (Hseen _ _ Hin Hc').
      * apply list_elem_of_singleton in Hin as ->.
        rewrite Hj in Hc'. injection Hc' as <-. lia.
Qed.

(** X24: whatever the ciphertexts, [eval] counts each element of the
    smallest set at most once: a cardinality it returns lies between 0 and
    the number of element ciphertexts of every client. *)
Theorem eval_at_most_smallest_set (self : scheme)
    (ct_sets : list ct_tuple) (c : Z) :
  eval self ct_sets = Ok c ->
  0 <= c /\
  forall ct, ct ∈ ct_sets -> c <= Z.of_nat (length ct.2).
Proof.
  unfold eval. destruct (py_index ct_sets 0) as [first|] eqn:Hfirst; [|done].
  cbn [mbind result_bind].
  destruct (smallest_loop _ _ _ _) as [[i s]|] eqn:Hsm; [|done].
  cbn [mbind result_bind].
  destruct (client_count self) as [n|]; [|done].
  cbn [attr mbind result_bind].
  destruct (m self) as [m0|]; [|done]. cbn [attr mbind result_bind].
  destruct (mapM _ _) as [a_list|]; [|done]. cbn [mbind result_bind].
  destruct (py_index ct_sets i) as [smallest|] eqn:Hi; [|done].
  cbn [mbind result_bind]. intros Hc. apply count_loop_bound in Hc.
  split; [lia|].
  apply (smallest_loop_spec _ _ _ _ _ _ [0]) in Hsm as [(c' & Hc' & Hs) Hmin].
  - intros ct Hin. apply list_elem_of_lookup in Hin as [j Hj].
    assert (Hpj : py_index ct_sets (Z.of_nat j) = Ok ct)
      by (apply py_index_nonneg; [lia|now rewrite Nat2Z.id]).
    assert (Hlt : (j < length ct_sets)%nat) by (eapply lookup_lt_Some; eauto).
    specialize (Hmin (Z.of_nat j) ct). rewrite Hi in Hc'.
    injection Hc' as <-.
    assert ((s <= length ct.2)%nat); [|lia].
    apply Hmin; [|done]. destruct j as [|j].
    + apply elem_of_app. left. now left.
    + apply elem_of_app. right. apply elem_of_py_range. lia.
  - eauto.
  - intros j c0 Hin Hc0. apply list_elem_of_singleton in Hin as ->.
    rewrite Hfirst in Hc0. now injection Hc0 as <-.
Qed.

(** X25: an element is counted when [identical_count], which starts at 1
    with the candidate [t], reaches [t] after an increment, so no element
    with [t = 1] is counted: with [k <= 1] hash functions, [eval] returns 0
    whenever it returns. *)
Theorem eval_single_hash_zero (self : scheme) (ct_sets : list ct_tuple)
    (k0 c : Z) :
  k self = Some k0 -> k0 <= 1 ->
  eval self ct_sets = Ok c -> c = 0.
Proof.
  intros Hk0 Hle.
  unfold eval. destruct (py_index ct_sets 0) as [first|]; [|done].
  cbn [mbind result_bind].
  destruct (smallest_loop _ _ _ _) as [[i s]|]; [|done].
  cbn [mbind result_bind].
  destruct (client_count self) as [n|]; [|done].
  cbn [attr mbind result_bind].
  destruct (m self) as [m0|]; [|done]. cbn [attr mbind result_bind].
  destruct (mapM _ _) as [a_list|]; [|done]. cbn [mbind result_bind].
  destruct (py_index ct_sets i) as [smallest|]; [|done].
  cbn [mbind result_bind]. apply count_loop_zero.
  intros k1 Hk1. congruence.
Qed.

End Proofs.
End MultiClientCardinalityEfficientEval.

(** ** The keys of [CardinalityEfficient.setup] *)

Module MultiClientCardinalityEfficientKeys.
Import MultiClientCardinalityEfficient.
Import BitStringWeight.

Section Proofs.
Context `{ECGroup}.

(** The polynomial of [setup], on an [int], is the polynomial over ZR. *)
Lemma f_init_ZR (cs : list ZR) (x : Z) :
  f cs x = TwoClientThreshold.f cs (init_ZR x).
Proof.
  unfold f, TwoClientThreshold.f. f_equal. apply imap_ext.
  intros i c _. cbn. unfold init_ZR. now rewrite Zmod.of_Z_pow by lia.
Qed.

Lemma delta_eq (S : list ZR) (i : ZR) : delta S i = TwoClientThreshold.delta S i.
Proof. reflexivity. Qed.

Lemma init_ZR_inj (x y : Z) :
  0 <= x < order -> 0 <= y < order -> init_ZR x = init_ZR y -> x = y.
Proof.
  intros Hx Hy Heq. apply Zmod.of_Z_inj in Heq.
  now rewrite !Z.mod_small in Heq by lia.
Qed.

(** The points at which [eval] interpolates are distinct. *)
Lemma NoDup_points (n gamma : Z) :
  1 <= gamma -> 0 <= n -> n + gamma < order ->
  NoDup (map init_ZR (py_range 1 (1 + n)) ++ [init_ZR (n + gamma)]).
Proof.
  intros Hg Hn Hq. apply NoDup_app. split; [|split].
  - apply NoDup_fmap_2_strong; [|apply NoDup_py_range].
    intros x y Hx Hy. apply elem_of_py_range in Hx, Hy.
    apply init_ZR_inj; lia.
  - intros x Hx Hx'. apply list_elem_of_singleton in Hx' as ->.
    apply list_elem_of_fmap in Hx as (i & Heq & Hi).
    apply elem_of_py_range in Hi. apply init_ZR_inj in Heq; lia.
  - apply NoDup_singleton.
Qed.

(** X23: the keys of [setup]: [self.client_count] of them (the attribute,
    [n]), all with the same [phi_key]; client [i] holds the values [f(i)]
    and [f(n + i)] of a polynomial [f] of degree [n] with [f(0) = 0], so
    that, for every [gamma] among the clients, the [n + 1] shares that
    [eval] combines, [f(1), ..., f(n)] and [f(n + gamma)], interpolate at
    0, with [delta] over the points [1, ..., n, n + gamma], to 0. *)
Theorem setup_shares_interpolate_zero (self self' : scheme)
    (secpar count m0 k0 n : Z) (r r' : rng) (usks : list (bytes * ZR * ZR)) :
  client_count self = Some n -> 1 <= n -> 2 * n < order ->
  setup self secpar count m0 k0 r = Ok (self', usks, r') ->
  length usks = Z.to_nat n /\
  (forall u u', u ∈ usks -> u' ∈ usks -> u.1.1 = u'.1.1) /\
  forall gamma u, 1 <= gamma <= n ->
    usks !! Z.to_nat (gamma - 1) = Some u ->
    let S := map init_ZR (py_range 1 (1 + n)) ++ [init_ZR (n + gamma)] in
    zr_sum (zip_with (fun x y => Zmod.mul y (delta S x)) S
              (map (fun u => u.1.2) usks ++ [u.2]))
    = Zmod.zero.
Proof.
  intros Hn Hn1 Hq. unfold setup. cbn [client_count]. rewrite Hn.
  destruct (os_urandom _ r) as [[phi_key r1]|e]; [|done].
  cbn [attr mbind result_bind].
  unfold coefficients.
  pose proof (random_ZRs_length (Z.to_nat n) r1) as Hlen.
  destruct (random_ZRs (Z.to_nat n) r1) as [rs r2]. cbn [fst] in Hlen.
  cbn [mret result_ret]. intros [= <- <- <-].
  set (cs := Zmod.zero :: rs).
  split; [|split].
  - rewrite length_map, py_range_length. f_equal. lia.
  - intros u u' Hu Hu'.
    apply list_elem_of_fmap in Hu as (i & -> & _).
    apply list_elem_of_fmap in Hu' as (i' & -> & _). reflexivity.
  - intros gamma u Hg Hu. cbv zeta.
    set (S := map init_ZR (py_range 1 (1 + n)) ++ [init_ZR (n + gamma)]).
    rewrite list_lookup_fmap in Hu.
    assert (Hi : py_range 1 (1 + n) !! Z.to_nat (gamma - 1) = Some gamma).
    { unfold py_range. rewrite list_lookup_fmap, lookup_seq_lt by lia.
      cbn. f_equal. lia. }
    rewrite Hi in Hu. cbn [fmap option_fmap option_map] in Hu.
    injection Hu as <-. cbn [snd].
    assert (Hvals : map (fun u : bytes * ZR * ZR => u.1.2)
                      (map (fun i => (phi_key, f cs i, f cs (n + i)))
                         (py_range 1 (1 + n)))
                    ++ [f cs (n + gamma)]
                    = map (TwoClientThreshold.f cs) S).
    { unfold S. rewrite map_app, !map_map. cbn [map]. f_equal.
      - apply map_ext. intros i. cbn [fst snd]. apply f_init_ZR.
      - now rewrite f_init_ZR. }
    rewrite Hvals.
    transitivity (interpolate0 S (TwoClientThreshold.f cs)).
    { rewrite <- c0_interpolate0. reflexivity. }
    rewrite interpolate0_f; [done| |].
    + apply NoDup_points; lia.
    + unfold S. rewrite length_app, length_map, py_range_length.
      cbn [length cs]. lia.
Qed.

End Proofs.
End MultiClientCardinalityEfficientKeys.

(** ** [Cardinality] of multiclient.py on arbitrary inputs *)

Module MultiClientCardinalityBounds.
Import MultiClientCardinality.

Section Proofs.
Context `{ECGroup} `{IterOrder}.

Lemma random_ZRs_pos (n : nat) (r : rng) :
  pos (random_ZRs n r).2 = (pos r + n)%nat.
Proof.
  revert r. induction n as [|n IH]; intros r; cbn [random_ZRs].
  - simpl. lia.
  - unfold random_ZR, draw.
    specialize (IH {| tape := tape r; pos := S (pos r) |}).
    destruct (random_ZRs n _) as [xs r2].
    cbn [fst snd tape pos] in *. lia.
Qed.

(** X10: [setup] never returns an empty key list: [client_count] keys when
    [client_count >= 1], and the single key 0 when [client_count <= 1]; it
    stores [client_count] and draws [client_count - 1] random scalars. *)
Theorem setup_key_count (self self' : scheme) (secpar count : Z)
    (r r' : rng) (usks : list ZR) :
  setup self secpar count r = (self', usks, r') ->
  length usks = Z.to_nat (Z.max count 1) /\
  (count <= 1 -> usks = [Zmod.zero]) /\
  client_count self' = Some count /\ g self' = g self /\
  pos r' = (pos r + Z.to_nat (count - 1))%nat.
Proof.
  unfold setup. intros Hs.
  pose proof (random_ZRs_length (Z.to_nat (count - 1)) r) as Hlen.
  pose proof (random_ZRs_pos (Z.to_nat (count - 1)) r) as Hpos.
  destruct (random_ZRs _ r) as [xs r1]. injection Hs as <- <- <-.
  cbn [fst snd] in *. split; [rewrite length_app; simpl; lia|].
  split; [|done].
  intros Hc. replace (Z.to_nat (count - 1)) with 0%nat in Hlen by lia.
  destruct xs; [|done]. cbn. f_equal. apply Zmod.opp_0.
Qed.

(** What a call of [intersection_count] does to the sets: they shrink, each
    by at least the count returned. *)
Definition shrunk (n : nat) (X' X : gset bytes) : Prop :=
  X' ⊆ X /\ (size X' + n <= size X)%nat.

Lemma shrunk_trans (n n' : nat) (X'' X' X : gset bytes) :
  shrunk n' X'' X' -> shrunk n X' X -> shrunk (n + n') X'' X.
Proof. intros [Hs1 Hn1] [Hs2 Hn2]. split; [now transitivity X'|lia]. Qed.

Lemma shrunk_weaken (n n' : nat) (X' X : gset bytes) :
  shrunk n X' X -> (n' <= n)%nat -> shrunk n' X' X.
Proof. intros [Hs Hn] Hle. split; [done|lia]. Qed.

Lemma shrunk_remove (n : nat) (X' X : gset bytes) (c : bytes) :
  shrunk n X' X -> c ∈ X' -> shrunk (S n) (X' ∖ {[c]}) X.
Proof.
  intros [Hs Hn] Hc. split.
  - transitivity X'; [apply subseteq_difference_l; reflexivity|done].
  - assert (size X' = S (size (X' ∖ {[c]}))); [|lia].
    assert (Hsub : {[c]} ⊆ X') by now apply singleton_subseteq_l.
    rewrite (union_difference_L {[c]} X') at 1 by done.
    rewrite size_union by apply disjoint_difference_r1, reflexivity.
    now rewrite size_singleton.
Qed.

Lemma leaf_loop_shrunk (P : point) (cands : list bytes) (T T' : gset bytes)
    (n : nat) :
  (forall c, c ∈ cands -> c ∈ T) ->
  leaf_loop P cands T = Ok (n, T') -> shrunk n T' T.
Proof.
  intros Hin. induction cands as [|c cands IH]; cbn [leaf_loop].
  - intros [= <- <-]. split; [done|lia].
  - destruct (deserialize c) as [ct|]; [|done]. case_decide.
    + intros [= <- <-]. apply (shrunk_remove 0); [split; [done|lia]|].
      apply Hin. left.
    + apply IH. intros c' Hc'. apply Hin. now right.
Qed.

Lemma node_loop_shrunk
    (rec : list (gset bytes) -> point -> result (nat * list (gset bytes)))
    (P : point) (Ts0 : list (gset bytes)) (T0 : gset bytes) :
  (forall Ts Q n Ts', rec Ts Q = Ok (n, Ts') -> Forall2 (shrunk n) Ts' Ts) ->
  forall (cands : list bytes) (count : nat) (Ts : list (gset bytes))
         (T : gset bytes) (n : nat) (Ts' : list (gset bytes)) (T' : gset bytes),
    NoDup cands -> (forall c, c ∈ cands -> c ∈ T) ->
    Forall2 (shrunk count) Ts Ts0 -> shrunk count T T0 ->
    node_loop rec P cands count Ts T = Ok (n, Ts', T') ->
    Forall2 (shrunk n) Ts' Ts0 /\ shrunk n T' T0.
Proof.
  intros Hrec cands.
  induction cands as [|c cands IH]; intros count Ts T n Ts' T' Hnd Hin HTs HT;
    cbn [node_loop].
  - intros [= <- <- <-]. done.
  - destruct (deserialize c) as [ct|]; [|done].
    destruct (rec Ts (mul P ct)) as [[found Ts1]|] eqn:Hr; [|done].
    cbn [mbind result_bind]. apply Hrec in Hr.
    apply NoDup_cons in Hnd as [Hc Hnd].
    assert (HTs1 : forall k, (k <= count + found)%nat ->
                     Forall2 (shrunk k) Ts1 Ts0).
    { intros k Hk. clear -Hr HTs Hk. revert Ts0 HTs.
      induction Hr as [|X'' X' Ts1 Ts Hx _ IHf]; intros Ts0 HTs.
      - inversion HTs. constructor.
      - inversion HTs as [|? X ? Ts0' Hx' HTs']; subst. constructor.
        + eapply shrunk_weaken; [eapply shrunk_trans; eauto|lia].
        + now apply IHf. }
    case_decide.
    + subst found. apply IH; [done| | |].
      * intros c' Hc'. apply elem_of_difference. split.
        -- apply Hin. now right.
        -- intros Heq. apply elem_of_singleton in Heq as ->. done.
      * apply HTs1. lia.
      * apply shrunk_remove; [done|]. apply Hin. left.
    + apply IH; [done| | |done].
      * intros c' Hc'. apply Hin. now right.
      * apply HTs1. lia.
Qed.

Lemma last_removelast {A} (l : list A) (x : A) :
  last l = Some x -> l = removelast l ++ [x].
Proof.
  intros Hl. apply last_Some in Hl as [l' ->]. now rewrite removelast_last.
Qed.

Lemma intersection_count_shrunk (depth : nat) :
  forall (Ts : list (gset bytes)) (P : point) (n : nat)
         (Ts' : list (gset bytes)),
    intersection_count depth Ts P = Ok (n, Ts') -> Forall2 (shrunk n) Ts' Ts.
Proof.
  induction depth as [|depth IH]; intros Ts P n Ts'.
  - cbn [intersection_count]. destruct (last Ts); done.
  - destruct (last Ts) as [T|] eqn:Hlast.
    2:{ cbn [intersection_count]. now rewrite Hlast. }
    rewrite (last_removelast _ _ Hlast) at 1 2.
    rewrite MultiClientCardinalityProofs.intersection_count_snoc.
    destruct (decide (removelast Ts = [])) as [Hnil|Hne].
    + destruct (leaf_loop P (iter T) T) as [[cnt T']|] eqn:Hleaf; [|done].
      cbn [mbind result_bind mret result_ret]. intros [= <- <-].
      apply leaf_loop_shrunk in Hleaf.
      * rewrite Hnil. cbn [app]. constructor; [done|constructor].
      * intros c. now rewrite elem_of_iter.
    + destruct (node_loop _ _ _ _ _ _) as [[[cnt Ts1] T']|] eqn:Hnode; [|done].
      cbn [mbind result_bind mret result_ret]. intros [= <- <-].
      eapply (node_loop_shrunk _ _ (removelast Ts) T) in Hnode as [HTs HT].
      * apply Forall2_app; [done|]. constructor; [done|constructor].
      * exact IH.
      * apply NoDup_iter.
      * intros c. now rewrite elem_of_iter.
      * apply Forall_Forall2_diag, Forall_forall. intros X _.
        split; [done|lia].
      * split; [done|lia].
Qed.

(** X11: whatever the ciphertext sets, a cardinality that [eval] returns is
    at most the size of each of them: every match that is counted removes
    one ciphertext from every set. *)
Theorem eval_at_most_every_set (self : scheme) (ct_sets : list (gset bytes))
    (c : nat) :
  eval self ct_sets = Ok c ->
  forall X, X ∈ ct_sets -> (c <= size X)%nat.
Proof.
  unfold eval.
  destruct (intersection_count _ _ _) as [[n Ts']|] eqn:Hrun; [|done].
  cbn [mbind result_bind mret result_ret]. intros [= <-] X HX.
  apply intersection_count_shrunk in Hrun.
  apply list_elem_of_lookup in HX as [i Hi].
  destruct (Forall2_lookup_r _ _ _ _ _ Hrun Hi) as (X' & _ & [_ Hle]). lia.
Qed.

End Proofs.
End MultiClientCardinalityBounds.

(** ** The keys of the two-client schemes *)

Lemma add_sub_one `{ECGroup} (sigma : ZR) :
  Zmod.add sigma (Zmod.sub (init_ZR 1) sigma) = Zmod.one.
Proof.
  unfold init_ZR. change (Zmod.of_Z order 1) with (@Zmod.one order).
  rewrite <- Zmod.add_opp_r, (Zmod.add_comm Zmod.one), Zmod.add_assoc.
  now rewrite Zmod.add_opp_same_r, Zmod.add_0_l.
Qed.

(** X4: the keys of [Intersection.setup]: both clients hold the same
    [msk], of [secpar // 8] bytes, and shares [sigma] and [1 - sigma] that
    add up to 1, so that the two powers of a group element under them
    multiply back to it. *)
Theorem intersection_setup_shares `{ECGroup}
    (self self' : TwoClientIntersection.scheme) (secpar : Z) (r r' : rng)
    (msk0 msk1 : bytes) (sigma0 sigma1 : ZR) :
  0 <= secpar ->
  TwoClientIntersection.setup self secpar r
  = Ok (self', ((msk0, sigma0), (msk1, sigma1)), r') ->
  msk0 = msk1 /\ length msk0 = Z.to_nat (secpar / 8) /\
  Zmod.add sigma0 sigma1 = Zmod.one /\
  (forall a : point, mul (pow a sigma0) (pow a sigma1) = a) /\
  TwoClientIntersection.secpar self' = Some secpar.
Proof.
  intros Hsec. unfold TwoClientIntersection.setup.
  destruct (random_ZR r) as [sigma r1].
  rewrite os_urandom_Ok by (apply Z.div_pos; lia).
  pose proof (urandom_length (Z.to_nat (secpar / 8)) r1) as Hlen.
  destruct (urandom _ r1) as [msk r2].
  cbn [mbind result_bind mret result_ret]. intros [= <- <- <- <- <- <-].
  split; [done|]. split; [done|]. split; [apply add_sub_one|].
  split; [|done]. intros a. apply pow_split.
Qed.

(** X6: the keys of [Threshold.setup]: the clients share the three
    symmetric keys, of [secpar // 8] bytes each; the shares [sigma] add up
    to 1; the exponents [rho] add up to 1 modulo [order - 1], so that, for
    a group order above 2, the two powers of a scalar under them multiply
    back to it; and [threshold] and [ff_order = order - 1] are stored. *)
Theorem threshold_setup_shares `{ECGroup}
    (self self' : TwoClientThreshold.scheme) (secpar t : Z) (r r' : rng)
    (u0 u1 : TwoClientThreshold.usk) :
  0 <= secpar -> 2 < order ->
  TwoClientThreshold.setup self secpar t r = Ok (self', (u0, u1), r') ->
  (TwoClientThreshold.sk1 u0 = TwoClientThreshold.sk1 u1 /\
   TwoClientThreshold.sk2 u0 = TwoClientThreshold.sk2 u1 /\
   TwoClientThreshold.sk3 u0 = TwoClientThreshold.sk3 u1) /\
  (length (TwoClientThreshold.sk1 u0) = Z.to_nat (secpar / 8) /\
   length (TwoClientThreshold.sk2 u0) = Z.to_nat (secpar / 8) /\
   length (TwoClientThreshold.sk3 u0) = Z.to_nat (secpar / 8)) /\
  Zmod.add (TwoClientThreshold.sigma u0) (TwoClientThreshold.sigma u1)
  = Zmod.one /\
  (0 <= TwoClientThreshold.rho u0 < order /\
   0 <= TwoClientThreshold.rho u1 < order - 1 /\
   (TwoClientThreshold.rho u0 + TwoClientThreshold.rho u1) mod (order - 1)
   = 1) /\
  (forall a : ZR,
     Zmod.mul (Zmod.pow a (TwoClientThreshold.rho u0))
              (Zmod.pow a (TwoClientThreshold.rho u1)) = a) /\
  TwoClientThreshold.threshold self' = Some t /\
  TwoClientThreshold.ff_order self' = Some (order - 1).
Proof.
  intros Hsec Hq. unfold TwoClientThreshold.setup.
  destruct (random_ZR r) as [sigma r1]. destruct (random_ZR r1) as [rho1 r2].
  assert (Hnn : 0 <= secpar / 8) by (apply Z.div_pos; lia).
  rewrite (os_urandom_Ok _ r2) by done.
  pose proof (urandom_length (Z.to_nat (secpar / 8)) r2) as Hl1.
  destruct (urandom _ r2) as [k1 r3]. cbn [mbind result_bind].
  rewrite (os_urandom_Ok _ r3) by done.
  pose proof (urandom_length (Z.to_nat (secpar / 8)) r3) as Hl2.
  destruct (urandom _ r3) as [k2 r4]. cbn [mbind result_bind].
  rewrite (os_urandom_Ok _ r4) by done.
  pose proof (urandom_length (Z.to_nat (secpar / 8)) r4) as Hl3.
  destruct (urandom _ r4) as [k3 r5].
  cbn [mbind result_bind mret result_ret]. intros [= <- <- <- <-].
  cbn [TwoClientThreshold.sk1 TwoClientThreshold.sk2 TwoClientThreshold.sk3
       TwoClientThreshold.sigma TwoClientThreshold.rho
       TwoClientThreshold.threshold TwoClientThreshold.ff_order fst] in *.
  pose proof (Zmod.unsigned_pos_bound rho1 ltac:(lia)) as Hrho.
  assert (Hb : 0 <= (1 - Zmod.to_Z rho1) mod (order - 1) < order - 1)
    by (apply Z.mod_pos_bound; lia).
  split; [done|]. split; [done|]. split; [apply add_sub_one|].
  split; [|split; [|done]].
  - split; [done|]. split; [done|].
    rewrite Zplus_mod_idemp_r.
    replace (Zmod.to_Z rho1 + (1 - Zmod.to_Z rho1)) with 1 by lia.
    apply Z.mod_small. lia.
  - intros a. apply pow_rho_split; lia.
Qed.

(** ** [delta]: interpolation at 0 *)

(** X9: interpolating at 0, as [eval] does with [delta], the values of the
    polynomial [f] of coefficients [cs] at distinct points [xs], at least
    as many as there are coefficients, gives the constant coefficient
    [cs[0]], the secret shared. *)
Theorem shamir_recovery `{ECGroup} (cs xs : list ZR) :
  NoDup xs -> (length cs <= length xs)%nat ->
  zr_sum (zip_with (fun x y => Zmod.mul y (TwoClientThreshold.delta xs x))
            xs (map (TwoClientThreshold.f cs) xs))
  = hd Zmod.zero cs.
Proof.
  intros Hnd Hlen. rewrite c0_interpolate0. now apply interpolate0_f.
Qed.

(** ** [Threshold.encrypt] and [Threshold.eval] at the edges *)

Module TwoClientThresholdEdges.
Import TwoClientThreshold.
Section Proofs.
Context `{ECGroup} `{BlockCipher} `{Sha256} `{AESGCM} `{IterOrder}.

Lemma encrypt_loop_size self u gid cs ae1_key ae1_nonce pts d r :
  (size (dom (encrypt_loop self u gid cs ae1_key ae1_nonce pts d r).1)
   <= size (dom d) + length pts)%nat.
Proof.
  revert d r. induction pts as [|pt pts IH]; intros d r; cbn [encrypt_loop].
  - cbn. lia.
  - destruct (urandom 12 r) as [n2 r1].
    etransitivity; [apply IH|]. rewrite dom_insert.
    pose proof (size_union_alt
                  ({[serialize_ZR (_psi (sk2 u) gid pt)]} : gset bytes)
                  (dom d)) as Hsz.
    pose proof (subseteq_size
                  (dom d ∖ {[serialize_ZR (_psi (sk2 u) gid pt)]}) (dom d)
                  ltac:(apply subseteq_difference_l; reflexivity)).
    rewrite size_singleton in Hsz. cbn [length]. lia.
Qed.

(** Whether the three ciphers of [encrypt] can be built: three AES keys
    and a 16-byte gid. *)
Definition ciphers_ok (u : usk) (gid : bytes) : bool :=
  aes_key_size (sk1 u) && aes_key_size (sk2 u) && aes_key_size (sk3 u)
  && (length gid =? 16)%nat.

(** X7: the checks of [encrypt], in their order.  It first builds the
    three ciphers, and raises [ValueError] unless [sk1], [sk2] and [sk3]
    are AES keys and the gid has 16 bytes, whatever the threshold.  With
    such keys and gid: before [setup], there is no attribute [threshold];
    [setup] takes any threshold, but [encrypt] reads the coefficient
    [cs[0]] of a polynomial with [threshold] coefficients: it raises
    [IndexError] for a threshold of 0 or below, and for a threshold of at
    least 1 it returns a dictionary with at most one entry per
    plaintext. *)
Theorem encrypt_threshold_edge (self : scheme) (u : usk) (gid : bytes)
    (pt_set : list bytes) (r : rng) :
  (ciphers_ok u gid = false ->
     encrypt self u gid pt_set r = Raise ValueError) /\
  (ciphers_ok u gid = true ->
   (threshold self = None ->
      encrypt self u gid pt_set r = Raise AttributeError) /\
   (forall t, threshold self = Some t -> t <= 0 ->
      encrypt self u gid pt_set r = Raise IndexError) /\
   (forall t, threshold self = Some t -> 1 <= t ->
      exists D r', encrypt self u gid pt_set r = Ok (D, r') /\
        (size (dom D) <= length pt_set)%nat)).
Proof.
  unfold encrypt, ciphers_ok. cbv zeta. split.
  - unfold Cipher.
    destruct (aes_key_size (sk1 u)), (aes_key_size (sk2 u)),
      (aes_key_size (sk3 u)), (length gid =? 16)%nat;
      cbn [andb mbind result_bind]; done.
  - intros Hok. apply andb_true_iff in Hok as [Hok Hgid].
    apply andb_true_iff in Hok as [Hok Hk3].
    apply andb_true_iff in Hok as [Hk1 Hk2].
    apply Nat.eqb_eq in Hgid.
    rewrite !Cipher_Ok by done. cbn [mbind result_bind].
    split; [|split].
    + intros ->. reflexivity.
    + intros t -> Ht. cbn [attr mbind result_bind].
      unfold coefficients, py_range.
      replace (Z.to_nat (t - 0)) with 0%nat by lia. reflexivity.
    + intros t -> Ht. cbn [attr mbind result_bind].
      pose proof (TwoClientThresholdProofs.coefficients_length (sk3 u) gid t)
        as Hlen.
      destruct (coefficients (sk3 u) gid t) as [|c0 cs];
        [simpl in Hlen; lia|].
      rewrite py_index_0. cbn [mbind result_bind].
      destruct (urandom 12 r) as [n1 r1]. cbn [mret result_ret].
      pose proof (encrypt_loop_size self u gid (c0 :: cs)
                    (_H (serialize_ZR c0)) n1 pt_set ∅ r1) as Hsz.
      destruct (encrypt_loop _ _ _ _ _ _ _ _ _) as [D r'].
      exists D, r'. split; [done|]. rewrite dom_empty_L, size_empty in Hsz.
      cbn [fst] in Hsz. lia.
Qed.

Lemma decrypt_loop_size (d0 d1 : gmap bytes ct_value) (ae1_key : bytes)
    (keys : list bytes) (acc I : gset bytes) :
  decrypt_loop d0 d1 ae1_key keys acc = Ok I ->
  (size I <= size acc + length keys)%nat.
Proof.
  revert acc. induction keys as [|k keys IH]; intros acc; cbn [decrypt_loop].
  - intros [= <-]. simpl. lia.
  - destruct (py_getitem d0 k) as [[[c2 [n3 c3]] [n4 c4]]|]; [|done].
    cbn [mbind result_bind].
    destruct (py_getitem d1 k) as [[[c2' [n3' c3']] c4']|]; [|done].
    cbn [mbind result_bind].
    repeat match goal with
    | |- context [mbind _ ?r] =>
        destruct r; cbn [mbind result_bind]; [|done]
    end.
    intros Hrun. apply IH in Hrun.
    match type of Hrun with
    | context [acc ∪ {[?pt]}] =>
        pose proof (size_union_alt acc {[pt]}) as Hsz;
        pose proof (subseteq_size ({[pt]} ∖ acc) {[pt]}
                      ltac:(apply subseteq_difference_l; reflexivity)) as Hle
    end.
    rewrite size_singleton in Hle. cbn [length]. lia.
Qed.

(** X8: on any two dictionaries, well formed or not, the cardinality that
    [eval] returns is the number of keys they share and the set it returns
    has at most that many plaintexts; and with fewer shared keys than the
    threshold, [eval] returns that number and the empty set without
    reading a single value of the dictionaries. *)
Theorem eval_key_overlap (self : scheme) (d0 d1 : gmap bytes ct_value)
    (t : Z) :
  threshold self = Some t -> 1 <= t ->
  (Z.of_nat (size (dom d0 ∩ dom d1)) < t ->
     eval self [d0; d1] = Ok (size (dom d0 ∩ dom d1), ∅)) /\
  (forall c I, eval self [d0; d1] = Ok (c, I) ->
     c = size (dom d0 ∩ dom d1) /\ (size I <= c)%nat).
Proof.
  intros Ht _. unfold eval. rewrite py_index_0, py_index_1.
  cbn [mbind result_bind]. rewrite Ht. cbn [attr mbind result_bind].
  split.
  - intros Hlt. destruct (Z.geb_spec (Z.of_nat (size (dom d0 ∩ dom d1))) t);
      [lia|done].
  - intros c I.
    destruct (Z.of_nat (size (dom d0 ∩ dom d1)) >=? t).
    + destruct (islice _ _) as [keys|]; [|done].
      cbn [mbind result_bind].
      destruct (recover_ae1_key _ _ _) as [ae1_key|]; [|done].
      cbn [mbind result_bind].
      destruct (decrypt_loop _ _ _ _ _) as [I'|] eqn:Hrun; [|done].
      cbn [mbind result_bind mret result_ret]. intros [= <- <-].
      split; [done|]. apply decrypt_loop_size in Hrun.
      rewrite size_empty in Hrun.
      assert (length (iter (dom d0 ∩ dom d1)) = size (dom d0 ∩ dom d1)).
      { now rewrite iter_perm. }
      lia.
    + intros [= <- <-]. split; [done|]. rewrite size_empty. lia.
Qed.

End Proofs.
End TwoClientThresholdEdges.

(** ** [Intersection.eval] on arbitrary dictionaries *)

Module TwoClientIntersectionEval.
Import TwoClientIntersection.
Section Proofs.
Context `{ECGroup} `{BlockCipher} `{Sha256} `{AESGCM} `{IterOrder}.

(** The plaintext that [eval] recovers under the key [k]: the two group
    elements deserialize, and the ciphertext of [d0] verifies under the
    key derived from their product. *)
Definition opens (d0 d1 : gmap bytes (bytes * (bytes * bytes)))
    (k pt : bytes) : Prop :=
  exists ct1 nonce ct v1 g1 g2,
    d0 !! k = Some (ct1, (nonce, ct)) /\ d1 !! k = Some v1 /\
    deserialize ct1 = Some g1 /\ deserialize v1.1 = Some g2 /\
    gcm_decrypt (_H (serialize (mul g1 g2))) nonce ct = Some pt.

Lemma eval_loop_opens (d0 d1 : gmap bytes (bytes * (bytes * bytes)))
    (keys : list bytes) (acc I : gset bytes) :
  eval_loop d0 d1 keys acc = Ok I ->
  (forall k, k ∈ keys -> exists pt, opens d0 d1 k pt /\ pt ∈ I) /\
  (forall pt, pt ∈ I ->
     pt ∈ acc \/ exists k, k ∈ keys /\ opens d0 d1 k pt) /\
  acc ⊆ I.
Proof.
  revert acc. induction keys as [|k keys IH]; intros acc; cbn [eval_loop].
  - intros [= <-]. split; [|split; [auto|done]].
    intros k Hk. now apply elem_of_nil in Hk.
  - unfold py_getitem, deserialize_G, ae_decrypt.
    destruct (d0 !! k) as [[ct1 [nonce ct]]|] eqn:Hd0; [|done].
    cbn [mbind result_bind fst snd].
    destruct (deserialize ct1) as [g1|] eqn:Hg1; [|done].
    cbn [mbind result_bind].
    destruct (d1 !! k) as [v1|] eqn:Hd1; [|done].
    cbn [mbind result_bind].
    destruct (deserialize v1.1) as [g2|] eqn:Hg2; [|done].
    cbn [mbind result_bind].
    destruct (gcm_decrypt _ nonce ct) as [pt|] eqn:Hdec; [|done].
    cbn [mbind result_bind]. intros Hrun.
    destruct (IH _ Hrun) as (Hall & Honly & Hsub).
    assert (Hopen : opens d0 d1 k pt).
    { exists ct1, nonce, ct, v1, g1, g2. done. }
    split; [|split].
    + intros k' Hk'. apply elem_of_cons in Hk' as [->|Hk']; [|auto].
      exists pt. split; [done|]. apply Hsub, elem_of_union. right.
      now apply elem_of_singleton.
    + intros pt' Hpt'. apply Honly in Hpt' as [Hpt'|(k' & Hk' & Ho)].
      * apply elem_of_union in Hpt' as [Hpt'|Hpt']; [now left|].
        apply elem_of_singleton in Hpt' as ->. right. exists k.
        split; [left|done].
      * right. exists k'. split; [now right|done].
    + etransitivity; [|exact Hsub]. apply union_subseteq_l.
Qed.

(** X5: [eval] is all or nothing, on any two dictionaries: when it returns,
    every key the dictionaries share has opened (both group elements
    deserialized and the ciphertext of the first dictionary verified under
    the key derived from their product), and the set returned holds
    exactly the plaintexts so recovered. *)
Theorem eval_all_or_nothing (self : scheme)
    (d0 d1 : gmap bytes (bytes * (bytes * bytes))) (I : gset bytes) :
  eval self [d0; d1] = Ok I ->
  (forall k, k ∈ dom d0 ∩ dom d1 -> exists pt, opens d0 d1 k pt /\ pt ∈ I) /\
  (forall pt, pt ∈ I -> exists k, k ∈ dom d0 ∩ dom d1 /\ opens d0 d1 k pt).
Proof.
  unfold eval. rewrite py_index_0, py_index_1. cbn [mbind result_bind].
  intros Hrun. apply eval_loop_opens in Hrun as (Hall & Honly & _). split.
  - intros k Hk. apply Hall. now apply elem_of_iter.
  - intros pt Hpt. apply Honly in Hpt as [Hpt|(k & Hk & Ho)].
    + now apply elem_of_empty in Hpt.
    + exists k. split; [now apply elem_of_iter|done].
Qed.

End Proofs.
End TwoClientIntersectionEval.

(** ** [setup] does not check [secpar] *)

Module KeySizes.
Section Proofs.
Context `{ECGroup} `{BlockCipher} `{Sha256} `{AESGCM} `{Murmur}.

Lemma aes_key_size_urandom_false (secpar : Z) (r : rng) :
  0 <= secpar -> ~ aes_secpar secpar ->
  aes_key_size (urandom (Z.to_nat (secpar / 8)) r).1 = false.
Proof.
  intros Hs Hno. unfold aes_key_size. rewrite urandom_length.
  assert (0 <= secpar / 8) by (apply Z.div_pos; lia).
  unfold aes_secpar in Hno.
  destruct (Nat.eqb_spec (Z.to_nat (secpar / 8)) 16); [lia|].
  destruct (Nat.eqb_spec (Z.to_nat (secpar / 8)) 24); [lia|].
  destruct (Nat.eqb_spec (Z.to_nat (secpar / 8)) 32); [lia|].
  reflexivity.
Qed.

(** X27: the four [setup] that draw symmetric keys take any [secpar >= 0]
    and return keys of [secpar // 8] bytes; unless that is 16, 24 or 32,
    every [encrypt] under a key so returned raises [ValueError], whatever
    the gid, the plaintext set and the random draws are (for the scheme
    with Bloom filters, whose [setup] returns [self.client_count] keys,
    this is under each of them). *)
Theorem setup_unusable_keys (secpar : Z) (r : rng) :
  0 <= secpar -> ~ aes_secpar secpar ->
  (exists key r',
     TwoClientCardinality.setup secpar r = Ok ((key, key), r') /\
     forall gid S, TwoClientCardinality.encrypt key gid S = Raise ValueError) /\
  (forall self, exists self' usk0 usk1 r',
     TwoClientIntersection.setup self secpar r = Ok (self', (usk0, usk1), r') /\
     forall gid S,
       TwoClientIntersection.encrypt self' usk0 gid S = Raise ValueError /\
       TwoClientIntersection.encrypt self' usk1 gid S = Raise ValueError) /\
  (forall self t, exists self' u0 u1 r',
     TwoClientThreshold.setup self secpar t r = Ok (self', (u0, u1), r') /\
     forall gid S ra,
       TwoClientThreshold.encrypt self' u0 gid S ra = Raise ValueError /\
       TwoClientThreshold.encrypt self' u1 gid S ra = Raise ValueError) /\
  (forall self count m0 k0 n,
     MultiClientCardinalityEfficient.client_count self = Some n ->
     exists self' usks r',
       MultiClientCardinalityEfficient.setup self secpar count m0 k0 r
         = Ok (self', usks, r') /\
       length usks = Z.to_nat n /\
       forall u gid S ra, u ∈ usks ->
         MultiClientCardinalityEfficient.encrypt self' u gid S ra
           = Raise ValueError).
Proof.
  intros Hs Hno.
  assert (Hnn : 0 <= secpar / 8) by (apply Z.div_pos; lia).
  split; [|split; [|split]].
  - unfold TwoClientCardinality.setup. rewrite os_urandom_Ok by done.
    pose proof (aes_key_size_urandom_false secpar r Hs Hno) as Hkey.
    destruct (urandom _ r) as [key r']. cbn [fst] in Hkey.
    exists key, r'. split; [done|]. intros gid S.
    unfold TwoClientCardinality.encrypt. cbv zeta.
    rewrite Cipher_raise by now left. reflexivity.
  - intros self. unfold TwoClientIntersection.setup.
    destruct (random_ZR r) as [sigma r1].
    rewrite os_urandom_Ok by done.
    pose proof (aes_key_size_urandom_false secpar r1 Hs Hno) as Hkey.
    destruct (urandom _ r1) as [msk r2]. cbn [fst] in Hkey.
    eexists _, _, _, _. split; [reflexivity|]. intros gid S.
    unfold TwoClientIntersection.encrypt. cbv zeta.
    rewrite Cipher_raise by now left. done.
  - intros self t. unfold TwoClientThreshold.setup.
    destruct (random_ZR r) as [sigma r1].
    destruct (random_ZR r1) as [rho1 r2].
    rewrite (os_urandom_Ok _ r2) by done.
    pose proof (aes_key_size_urandom_false secpar r2 Hs Hno) as Hkey.
    destruct (urandom _ r2) as [k1 r3]. cbn [fst] in Hkey.
    cbn [mbind result_bind].
    rewrite (os_urandom_Ok _ r3) by done.
    destruct (urandom _ r3) as [k2 r4]. cbn [mbind result_bind].
    rewrite (os_urandom_Ok _ r4) by done.
    destruct (urandom _ r4) as [k3 r5]. cbn [mbind result_bind].
    eexists _, _, _, _. split; [reflexivity|]. intros gid S ra.
    unfold TwoClientThreshold.encrypt. cbv zeta.
    cbn [TwoClientThreshold.sk1].
    rewrite (Cipher_raise k1) by now left. done.
  - intros self count m0 k0 n Hn.
    unfold MultiClientCardinalityEfficient.setup.
    rewrite os_urandom_Ok by done.
    pose proof (aes_key_size_urandom_false secpar r Hs Hno) as Hkey.
    destruct (urandom _ r) as [phi_key r1]. cbn [fst] in Hkey.
    cbn [MultiClientCardinalityEfficient.client_count mbind result_bind].
    rewrite Hn. cbn [attr mbind result_bind].
    destruct (MultiClientCardinalityEfficient.coefficients n r1) as [cs r2].
    cbn [mret result_ret].
    eexists _, _, _. split; [reflexivity|]. split.
    { rewrite length_map, py_range_length. f_equal. lia. }
    intros u gid S ra Hu. apply list_elem_of_fmap in Hu as (i & -> & _).
    unfold MultiClientCardinalityEfficient.encrypt.
    cbn [MultiClientCardinalityEfficient.m MultiClientCardinalityEfficient.k
         attr mbind result_bind]. cbv zeta.
    rewrite Cipher_raise by now left. reflexivity.
Qed.

End Proofs.
End KeySizes.

(** ** [CardinalityEfficient]: what [eval] counts on honest ciphertexts *)

Module MultiClientCardinalityEfficientCorrect.
Import MultiClientCardinalityEfficient.
Import BitStringProofs BitStringWeight BloomFilterProofs.
Import MultiClientCardinalityEfficientEncrypt.
Import MultiClientCardinalityEfficientEval.
Import MultiClientCardinalityEfficientKeys.

(** ** Lists *)

Lemma mapM_Forall2 {A B} (fn : A -> result B) (l : list A) :
  (forall x, x ∈ l -> exists y, fn x = Ok y) ->
  exists ys, mapM fn l = Ok ys /\ Forall2 (fun x y => fn x = Ok y) l ys.
Proof.
  induction l as [|x l IH]; intros Hall.
  - exists []. split; [done|constructor].
  - destruct (Hall x ltac:(left)) as [y Hy].
    destruct IH as (ys & Hys & Hall2). { intros z Hz. apply Hall. now right. }
    exists (y :: ys). cbn [mapM]. rewrite Hy. cbn [mbind result_bind].
    rewrite Hys. split; [done|]. now constructor.
Qed.

Lemma Forall3_Forall2_13 {A B C} (P : A -> B -> C -> Prop)
    (Q : A -> C -> Prop) (l1 : list A) (l2 : list B) (l3 : list C) :
  Forall3 P l1 l2 l3 ->
  (forall a b c, b ∈ l2 -> P a b c -> Q a c) ->
  Forall2 Q l1 l3.
Proof.
  induction 1 as [|a b c l1 l2 l3 HP _ IH]; intros Himp; constructor.
  - apply (Himp a b c); [left|done].
  - apply IH. intros a' b' c' Hb'. apply Himp. now right.
Qed.

Lemma py_range0_lookup (b ell : Z) :
  0 <= ell < b -> py_range 0 b !! Z.to_nat ell = Some ell.
Proof.
  intros Hl. rewrite <- (py_range_lookup 0 b ell Hl). f_equal. lia.
Qed.

Lemma Forall2_py_range {A} (P : Z -> A -> Prop) (b : Z) (l : list A)
    (ell : Z) :
  Forall2 P (py_range 0 b) l -> 0 <= ell < b ->
  exists x, l !! Z.to_nat ell = Some x /\ py_index l ell = Ok x /\ P ell x.
Proof.
  intros Hall Hl.
  destruct (Forall2_lookup_l _ _ _ _ _ Hall (py_range0_lookup b ell Hl))
    as (x & Hx & HP).
  exists x. split; [done|]. split; [|done]. apply py_index_nonneg; [lia|done].
Qed.

(** How many elements of [ells] are set in [set]. *)
Definition count_set {A} (set : A -> bool) (ells : list A) : Z :=
  Z.of_nat (length (filter (fun ell => set ell = true) ells)).

Lemma count_set_cons {A} (set : A -> bool) (ell : A) (ells : list A) :
  count_set set (ell :: ells)
  = (if set ell then 1 else 0) + count_set set ells.
Proof.
  unfold count_set. rewrite filter_cons. destruct (set ell).
  - rewrite decide_True by done. cbn [length]. lia.
  - rewrite decide_False by done. lia.
Qed.

Lemma count_set_nonneg {A} (set : A -> bool) (ells : list A) :
  0 <= count_set set ells.
Proof. unfold count_set. lia. Qed.

Lemma count_set_and (p q : Z -> bool) (l : list Z) :
  count_set (fun ell => p ell && q ell) l <= count_set p l /\
  (count_set (fun ell => p ell && q ell) l = count_set p l <->
   forall ell, ell ∈ l -> p ell = true -> q ell = true).
Proof.
  induction l as [|x l [IHle IHeq]].
  - split; [done|]. split; [|done]. intros _ ell Hell.
    now apply elem_of_nil in Hell.
  - rewrite !count_set_cons. split.
    + destruct (p x), (q x); cbn; lia.
    + split.
      * intros Heq ell Hell.
        assert (Hx : p x = true -> q x = true)
          by (destruct (p x), (q x); cbn in Heq; done || lia).
        assert (Hrest : count_set (fun ell => p ell && q ell) l
                        = count_set p l)
          by (destruct (p x), (q x); cbn in Heq; lia).
        apply elem_of_cons in Hell as [->|Hell]; [done|].
        now apply IHeq.
      * intros Hall.
        assert (Hrest : count_set (fun ell => p ell && q ell) l
                        = count_set p l).
        { apply IHeq. intros ell Hell. apply Hall. now right. }
        rewrite Hrest. specialize (Hall x ltac:(left)).
        destruct (p x); [rewrite Hall by done|]; reflexivity.
Qed.


Lemma count_set_ext {A} (p q : A -> bool) (l : list A) :
  (forall x, x ∈ l -> p x = q x) -> count_set p l = count_set q l.
Proof.
  induction l as [|x l IH]; intros Hall; [done|].
  rewrite !count_set_cons, (Hall x) by left.
  rewrite IH; [done|]. intros y Hy. apply Hall. now right.
Qed.

Lemma Forall3_fmap_1 {A A' B C} (g : A' -> A) (P : A -> B -> C -> Prop)
    (l1 : list A') (l2 : list B) (l3 : list C) :
  Forall3 P (map g l1) l2 l3 -> Forall3 (fun a => P (g a)) l1 l2 l3.
Proof.
  revert l2 l3. induction l1 as [|a l1 IH]; intros l2 l3 Hall;
    inversion Hall; subst; constructor; auto.
Qed.

Lemma Forall2_zip_impl {A B} (P Q : A -> B -> Prop) (l : list A)
    (k : list B) :
  Forall2 P l k ->
  (forall x y, (x, y) ∈ zip l k -> P x y -> Q x y) ->
  Forall2 Q l k.
Proof.
  induction 1 as [|x y l k HP _ IH]; intros Himp; constructor.
  - apply Himp; [left|done].
  - apply IH. intros x' y' Hin. apply Himp. now right.
Qed.
Section Ciphertexts.
Context `{ECGroup} `{BlockCipher} `{Murmur}.
Variables (m0 k0 : Z) (phi_key gid : bytes).
Hypothesis m0_range : 1 <= m0 <= 256 ^ Z.of_nat (bit_length k0).

(** The group element of the bit [ell]:
    [H(ell.to_bytes(self.k.bit_length(), 'big') + gid, G)]. *)
Definition bit_point (ell : Z) : point :=
  hash_to_point (int_to_bytes (bit_length k0) ell ++ gid).

(** The Bloom filter of a list of plaintexts, as [encrypt] fills it with
    the PRF values, and the weight [t] of the filter of one plaintext. *)
Definition filter_of (pts : list bytes) : BloomFilter.t :=
  match BloomFilter.add_all (BloomFilter.new m0 k0)
          (map (_prf phi_key gid) pts) with
  | Ok bf => bf
  | Raise _ => BloomFilter.new m0 k0
  end.

Definition weight_of (x : bytes) : Z :=
  match BloomFilter.weight (filter_of [x]) with
  | Ok t => t
  | Raise _ => 0
  end.

(** Whether the bit [ell] of the filter of [pts] is set. *)
Definition filter_bit (pts : list bytes) (ell : Z) : bool :=
  bit (BloomFilter.bs (filter_of pts)) ell.

Lemma filter_of_Ok (pts : list bytes) :
  BloomFilter.add_all (BloomFilter.new m0 k0) (map (_prf phi_key gid) pts)
  = Ok (filter_of pts) /\
  wf (filter_of pts) /\ BloomFilter.m (filter_of pts) = m0 /\
  BloomFilter._h (filter_of pts) = BloomFilter._h (BloomFilter.new m0 k0).
Proof.
  destruct (add_all_wf (BloomFilter.new m0 k0) (map (_prf phi_key gid) pts)
              (new_wf m0 k0 ltac:(lia)))
    as (bf & Hrun & Hwf & Hm & _ & Hh & _).
  unfold filter_of. rewrite Hrun. done.
Qed.

Lemma filter_of_single (x : bytes) :
  BloomFilter.add (BloomFilter.new m0 k0) (_prf phi_key gid x)
  = Ok (filter_of [x]).
Proof.
  destruct (filter_of_Ok [x]) as (Hrun & _). cbn [map BloomFilter.add_all] in Hrun.
  destruct (BloomFilter.add _ _) as [bf|]; [|done].
  now cbn [mbind result_bind] in Hrun.
Qed.

Lemma weight_of_Ok (x : bytes) :
  BloomFilter.weight (filter_of [x]) = Ok (weight_of x).
Proof.
  destruct (filter_of_Ok [x]) as (_ & Hwf & _).
  destruct (weight_Ok _ Hwf) as [t Ht]. unfold weight_of. now rewrite Ht.
Qed.

(** An entry of [ct_bf_set], and an entry of a [ct_element]. *)
Definition set_entry (fi : ZR) (bf : BloomFilter.t) (ell : Z) (c : point)
    : Prop :=
  bit (BloomFilter.bs bf) ell = true -> c = pow (bit_point ell) fi.

Definition element_entry (fni : ZR) (bf : BloomFilter.t) (t : Z) (ell : Z)
    (entry : point * point) : Prop :=
  exists grho,
    entry.1 = mul (pow (bit_point ell) fni) grho /\
    (bit (BloomFilter.bs bf) ell = true ->
     grho = pow entry.2 (init_ZR t)).

Lemma element_loop_spec (bf : BloomFilter.t) (fni : ZR) (t : Z)
    (idx : list Z) (r : rng) :
  wf bf -> encodable bf k0 idx ->
  exists ct_element r',
    element_loop bf k0 gid fni t idx r = Ok (ct_element, r') /\
    Forall2 (element_entry fni bf t) idx ct_element.
Proof.
  intros Hwf Hidx. pose proof (wf_positions bf Hwf) as Hpos.
  revert r. induction Hidx as [|i idx [Hi Hb] _ IH]; intros r.
  - exists [], r. split; [done|constructor].
  - cbn [element_loop]. rewrite to_bytes_Ok by lia.
    cbn [mbind result_bind]. destruct (random_G r) as [gr r1].
    rewrite getitem_bit by lia. cbn [mbind result_bind].
    destruct (bit (BloomFilter.bs bf) i) eqn:Hbit; cbn [Z.b2z Z.eqb].
    + destruct (IH r1) as (rest & r3 & -> & Hall).
      cbn [mbind result_bind mret result_ret].
      eexists _, _. split; [reflexivity|]. constructor; [|done].
      exists (pow gr (init_ZR t)). split; [done|]. done.
    + destruct (random_G r1) as [grho r2].
      destruct (IH r2) as (rest & r3 & -> & Hall).
      cbn [mbind result_bind mret result_ret].
      eexists _, _. split; [reflexivity|]. constructor; [|done].
      exists grho. split; [done|]. rewrite Hbit. done.
Qed.

Lemma bf_set_loop_spec (bf : BloomFilter.t) (fi : ZR) (idx : list Z)
    (r : rng) :
  wf bf -> encodable bf k0 idx ->
  exists ct_bf_set r',
    bf_set_loop bf k0 gid fi idx r = Ok (ct_bf_set, r') /\
    Forall2 (set_entry fi bf) idx ct_bf_set.
Proof.
  intros Hwf Hidx. pose proof (wf_positions bf Hwf) as Hpos.
  revert r. induction Hidx as [|i idx [Hi Hb] _ IH]; intros r.
  - exists [], r. split; [done|constructor].
  - cbn [bf_set_loop]. rewrite to_bytes_Ok by lia.
    cbn [mbind result_bind].
    rewrite getitem_bit by lia. cbn [mbind result_bind].
    unfold set_entry at 1.
    destruct (bit (BloomFilter.bs bf) i) eqn:Hbit; cbn [Z.b2z Z.eqb].
    + destruct (IH r) as (rest & r2 & -> & Hall).
      cbn [mbind result_bind mret result_ret].
      eexists _, _. split; [reflexivity|]. constructor; [|done].
      intros _. reflexivity.
    + destruct (random_G r) as [x r1].
      destruct (IH r1) as (rest & r2 & -> & Hall).
      cbn [mbind result_bind mret result_ret].
      eexists _, _. split; [reflexivity|]. constructor; [|done].
      unfold set_entry. rewrite Hbit. done.
Qed.

Lemma elements_loop_spec (fni : ZR) (pts : list bytes)
    (bf_set : BloomFilter.t) (r : rng) :
  wf bf_set -> BloomFilter.m bf_set = m0 ->
  exists bf_set' ct_elements r',
    elements_loop m0 k0 phi_key gid fni pts bf_set r
    = Ok (bf_set', ct_elements, r') /\
    BloomFilter.add_all bf_set (map (_prf phi_key gid) pts) = Ok bf_set' /\
    Forall2 (fun x ct_element =>
               Forall2 (element_entry fni (filter_of [x]) (weight_of x))
                 (py_range 0 m0) ct_element)
      pts ct_elements.
Proof.
  revert bf_set r. induction pts as [|pt pts IH]; intros bf_set r Hwf Hmbf.
  - exists bf_set, [], r. split; [done|]. split; [done|constructor].
  - cbn [elements_loop map BloomFilter.add_all].
    destruct (add_wf bf_set (_prf phi_key gid pt) Hwf)
      as (bf_set1 & -> & Hwf1 & Hm1 & _).
    rewrite filter_of_single. cbn [mbind result_bind].
    rewrite weight_of_Ok. cbn [mbind result_bind].
    destruct (filter_of_Ok [pt]) as (_ & Hwfpt & Hmpt & _).
    rewrite Hmpt.
    destruct (element_loop_spec (filter_of [pt]) fni (weight_of pt)
                (py_range 0 m0) r Hwfpt) as (ct_element & r1 & -> & Hentries).
    { rewrite <- Hmpt at 1. apply encodable_all. lia. }
    cbn [mbind result_bind].
    destruct (IH bf_set1 r1 Hwf1 ltac:(congruence))
      as (bf_set2 & rest & r2 & -> & Hadd & Hall).
    cbn [mbind result_bind mret result_ret].
    eexists _, _, _. split; [reflexivity|]. split; [done|].
    constructor; done.
Qed.

(** What [encrypt] returns, for a key [(phi_key, fi, fni)]. *)
Lemma encrypt_spec (self : scheme) (fi fni : ZR) (pt_set : list bytes)
    (r : rng) :
  m self = Some m0 -> k self = Some k0 ->
  aes_key_size phi_key = true -> length gid = 16%nat ->
  exists ct_bf_set ct_elements r',
    encrypt self (phi_key, fi, fni) gid pt_set r
    = Ok (ct_bf_set, ct_elements, r') /\
    Forall2 (set_entry fi (filter_of pt_set)) (py_range 0 m0) ct_bf_set /\
    Forall2 (fun x ct_element =>
               Forall2 (element_entry fni (filter_of [x]) (weight_of x))
                 (py_range 0 m0) ct_element)
      pt_set ct_elements.
Proof.
  intros Hm0 Hk0 Hkey Hgid. unfold encrypt. rewrite Hm0, Hk0.
  cbn [attr mbind result_bind]. cbv zeta.
  rewrite Cipher_Ok by done. cbn [mbind result_bind].
  destruct (elements_loop_spec fni pt_set (BloomFilter.new m0 k0) r
              (new_wf m0 k0 ltac:(lia)) eq_refl)
    as (bf_set' & ct_elements & r1 & -> & Hadd & Hall).
  cbn [mbind result_bind].
  destruct (filter_of_Ok pt_set) as (Hrun & Hwf & Hmf & _).
  rewrite Hrun in Hadd. injection Hadd as <-. rewrite Hmf.
  destruct (bf_set_loop_spec (filter_of pt_set) fi (py_range 0 m0) r1 Hwf)
    as (ct_bf_set & r2 & -> & Hset).
  { rewrite <- Hmf at 1. apply encodable_all. lia. }
  cbn [mbind result_bind mret result_ret].
  eexists _, _, _. split; [reflexivity|]. done.
Qed.

(** *** The bits of the filters *)

(** The hash functions of all the filters. *)
Definition hashes : list (bytes -> result Z) :=
  BloomFilter._h (BloomFilter.new m0 k0).

Lemma hashes_length : length hashes = Z.to_nat k0.
Proof.
  unfold hashes, BloomFilter.new. cbn [BloomFilter._h].
  now rewrite length_map, length_seq.
Qed.

Lemma hashes_ok : Forall (hash_ok m0) hashes.
Proof. apply new_hashes. lia. Qed.

Lemma fresh_bit (j : Z) :
  bit (BloomFilter.bs (BloomFilter.new m0 k0)) j = false.
Proof.
  unfold bit. cbn. rewrite lookup_repeat.
  case_decide; cbn; apply Z.testbit_0_l.
Qed.

Lemma filter_bit_iff (pts : list bytes) (ell : Z) :
  0 <= ell < m0 ->
  filter_bit pts ell = true <->
  exists h x, h ∈ hashes /\ x ∈ pts /\ h (_prf phi_key gid x) = Ok ell.
Proof.
  intros Hl.
  destruct (add_all_wf (BloomFilter.new m0 k0) (map (_prf phi_key gid) pts)
              (new_wf m0 k0 ltac:(lia)))
    as (bf & Hrun & _ & _ & _ & _ & Hbits).
  unfold filter_bit, filter_of. rewrite Hrun.
  rewrite (Hbits ell) by (cbn; lia). rewrite fresh_bit. split.
  - intros [Hf|(h & y & Hh & Hy & Hj)]; [done|].
    apply list_elem_of_fmap in Hy as (x & -> & Hx). now exists h, x.
  - intros (h & x & Hh & Hx & Hj). right. exists h, (_prf phi_key gid x).
    split; [done|]. split; [|done]. apply list_elem_of_fmap. now exists x.
Qed.

Lemma filter_positions (pts : list bytes) :
  positions (BloomFilter.bs (filter_of pts))
  = 8 * Z.of_nat (Z.to_nat ((m0 + 7) / 8)) /\
  m0 <= positions (BloomFilter.bs (filter_of pts)).
Proof.
  destruct (filter_of_Ok pts) as (_ & Hwf & Hm & _).
  pose proof (wf_positions _ Hwf) as Hpos. rewrite Hm in Hpos.
  split; [|done]. unfold positions. now rewrite (wf_len _ Hwf), Hm.
Qed.

Lemma filter_bit_high (pts : list bytes) (j : Z) :
  m0 <= j < positions (BloomFilter.bs (filter_of pts)) ->
  filter_bit pts j = false.
Proof.
  intros Hj. destruct (filter_of_Ok pts) as (Hrun & Hwf & _).
  destruct (filter_positions pts) as [Hpos _].
  unfold filter_bit.
  rewrite (add_all_high_bits _ _ _ j (new_wf m0 k0 ltac:(lia)) Hrun).
  - apply fresh_bit.
  - cbn [BloomFilter.m BloomFilter.new]. split; [lia|].
    unfold positions. cbn. rewrite repeat_length. lia.
Qed.

Lemma filter_length_ext {A} (P Q : A -> Prop) `{forall x, Decision (P x)}
    `{forall x, Decision (Q x)} (l : list A) :
  (forall x, x ∈ l -> P x <-> Q x) ->
  length (filter P l) = length (filter Q l).
Proof.
  induction l as [|x l IH]; intros Hext; [done|].
  rewrite !filter_cons.
  specialize (IH (fun y Hy => Hext y (list_elem_of_further _ _ _ Hy))).
  pose proof (Hext x ltac:(left)) as Hx.
  destruct (decide (P x)), (decide (Q x)); cbn [length]; tauto || lia.
Qed.

Lemma count_set_zero (set : Z -> bool) (l : list Z) :
  (forall ell, ell ∈ l -> set ell = false) -> count_set set l = 0.
Proof.
  induction l as [|x l IH]; intros Hall; [done|].
  rewrite count_set_cons, (Hall x) by left.
  rewrite IH; [done|]. intros ell Hell. apply Hall. now right.
Qed.

Lemma count_set_app (set : Z -> bool) (l1 l2 : list Z) :
  count_set set (l1 ++ l2) = count_set set l1 + count_set set l2.
Proof. unfold count_set. rewrite filter_app, length_app. lia. Qed.

(** The weight [t] of the filter of one element is the number of its
    positions. *)
Lemma weight_of_count (x : bytes) :
  weight_of x = count_set (filter_bit [x]) (py_range 0 m0).
Proof.
  pose proof (weight_of_Ok x) as Hw.
  destruct (filter_of_Ok [x]) as (_ & Hwf & _).
  destruct (filter_positions [x]) as [Hpos Hle].
  unfold BloomFilter.weight in Hw.
  rewrite weight_ones in Hw by apply (wf_bytes _ Hwf).
  injection Hw as <-.
  change (8 * Z.of_nat (length (BitString._bs (BloomFilter.bs (filter_of [x])))))
    with (positions (BloomFilter.bs (filter_of [x]))).
  transitivity (count_set (filter_bit [x])
                  (py_range 0 (positions (BloomFilter.bs (filter_of [x]))))).
  - unfold count_set. f_equal. apply filter_length_ext.
    intros i Hi. apply elem_of_py_range in Hi.
    rewrite getitem_bit by lia. unfold filter_bit.
    destruct (bit _ i); cbn; split; congruence.
  - rewrite (py_range_app 0 m0) by lia. rewrite count_set_app.
    rewrite (count_set_zero _ (py_range m0 _)); [lia|].
    intros ell Hell. apply elem_of_py_range in Hell.
    now apply filter_bit_high.
Qed.

(** It is at most the number [k] of hash functions. *)
Lemma weight_of_le (x : bytes) : weight_of x <= Z.of_nat (length hashes).
Proof.
  rewrite weight_of_count. unfold count_set. apply inj_le.
  set (values := map (fun h : bytes -> result Z =>
                        match h (_prf phi_key gid x) with
                        | Ok j => j
                        | Raise _ => -1
                        end) hashes).
  replace (length hashes) with (length values)
    by (unfold values; apply length_map).
  apply submseteq_length, NoDup_submseteq.
  - apply NoDup_filter, NoDup_py_range.
  - intros ell Hell. apply list_elem_of_filter in Hell as [Hbit Hell].
    apply elem_of_py_range in Hell.
    apply filter_bit_iff in Hbit as (h & y & Hh & Hy & Hj); [|done].
    apply list_elem_of_singleton in Hy as ->.
    unfold values. apply list_elem_of_fmap. exists h. now rewrite Hj.
Qed.

Lemma weight_of_pos (x : bytes) (ell : Z) :
  0 <= ell < m0 -> filter_bit [x] ell = true -> 1 <= weight_of x <= k0.
Proof.
  intros Hl Hbit. pose proof (weight_of_le x) as Hle.
  rewrite hashes_length in Hle.
  assert (1 <= weight_of x); [|lia].
  rewrite weight_of_count.
  rewrite <- (take_drop (Z.to_nat ell) (py_range 0 m0)).
  rewrite (drop_S _ ell) by (now apply py_range0_lookup).
  rewrite count_set_app, count_set_cons, Hbit.
  pose proof (count_set_nonneg (filter_bit [x])
                (take (Z.to_nat ell) (py_range 0 m0))).
  pose proof (count_set_nonneg (filter_bit [x])
                (drop (S (Z.to_nat ell)) (py_range 0 m0))).
  lia.
Qed.

(** Whether the filter of the set [pts] contains the element [x]:
    [prf(x) in bf_set]. *)
Definition in_filter (pts : list bytes) (x : bytes) : bool :=
  match BloomFilter.contains (filter_of pts) (_prf phi_key gid x) with
  | Ok c => c
  | Raise _ => false
  end.

Lemma in_filter_iff (pts : list bytes) (x : bytes) :
  in_filter pts x = true <->
  forall ell, 0 <= ell < m0 ->
    filter_bit [x] ell = true -> filter_bit pts ell = true.
Proof.
  destruct (filter_of_Ok pts) as (_ & Hwf & Hm & Hh).
  pose proof (wf_positions _ Hwf) as Hpos.
  destruct (contains_loop_true _ _ (BloomFilter.bs (filter_of pts))
              (_prf phi_key gid x) (wf_h _ Hwf) Hpos) as (c & Hc & Hiff).
  unfold in_filter, BloomFilter.contains. rewrite Hc, Hiff, Hh.
  fold hashes. split.
  - intros Hall ell Hl Hbit.
    apply filter_bit_iff in Hbit as (h & y & Hin & Hy & Hj); [|done].
    apply list_elem_of_singleton in Hy as ->. now apply (Hall h).
  - intros Hall h j Hin Hj.
    pose proof hashes_ok as Hok. rewrite Forall_forall in Hok.
    destruct (Hok h Hin (_prf phi_key gid x)) as (i & Hi & Hrange).
    rewrite Hi in Hj. injection Hj as <-.
    apply Hall; [done|]. apply filter_bit_iff; [done|].
    exists h, x. split; [done|]. split; [left|done].
Qed.

End Ciphertexts.

Section Aggregation.
Context `{ECGroup}.

(** Two laws of the group that the interface does not list. *)
Hypothesis pow_pow : forall (a : point) (s t : ZR),
  pow (pow a s) t = pow a (Zmod.mul s t).
Hypothesis pow_mul : forall (a b : point) (s : ZR),
  pow (mul a b) s = mul (pow a s) (pow b s).

Variables (n gamma : Z) (cs : list ZR).
Hypothesis n_pos : 1 <= n.
Hypothesis gamma_range : 1 <= gamma <= n.
Hypothesis order_large : 2 * n < order.
Hypothesis cs_length : length cs = S (Z.to_nat n).
Hypothesis cs_zero : hd Zmod.zero cs = Zmod.zero.

(** The points of the interpolation in [eval], and the two kinds of
    Lagrange coefficients. *)
Definition points : list ZR :=
  map init_ZR (py_range 1 (1 + n)) ++ [init_ZR (n + gamma)].

Definition Delta : ZR := delta points (init_ZR (n + gamma)).

(** [f(1) * delta(S, 1) + ... + f(n) * delta(S, n)] *)
Definition share_sum (i0 : Z) : ZR :=
  zr_sum (map (fun i => Zmod.mul (f cs i) (delta points (init_ZR i)))
            (py_range i0 (1 + n))).

Lemma zr_sum_snoc (xs : list ZR) (x : ZR) :
  zr_sum (xs ++ [x]) = Zmod.add (zr_sum xs) x.
Proof.
  rewrite zr_sum_app. f_equal. unfold zr_sum. cbn. apply Zmod.add_0_l.
Qed.

Lemma shares_zero :
  Zmod.add (share_sum 1) (Zmod.mul (f cs (n + gamma)) Delta) = Zmod.zero.
Proof.
  pose proof (interpolate0_f cs points) as Hint.
  rewrite cs_zero in Hint. rewrite <- Hint.
  - assert (Hsplit : forall g : ZR -> ZR,
              zr_sum (map g points)
              = Zmod.add
                  (zr_sum (map (fun i => g (init_ZR i)) (py_range 1 (1 + n))))
                  (g (init_ZR (n + gamma)))).
    { intros g. unfold points. rewrite map_app. cbn [map].
      now rewrite zr_sum_snoc, map_map. }
    unfold interpolate0. rewrite Hsplit. f_equal.
    + unfold share_sum. f_equal. apply map_ext. intros i.
      now rewrite f_init_ZR.
    + now rewrite f_init_ZR.
  - apply NoDup_points; lia.
  - unfold points. rewrite length_app, length_map, py_range_length.
    cbn [length]. lia.
Qed.

Lemma mul_one_right (a : point) : mul a one = a.
Proof. now rewrite mul_comm, mul_one_l. Qed.

(** The product [a] of [eval] at a bit that is set in the filter of every
    client: the masks are absent, and the exponents add up. *)
Lemma a_loop_set (ell : Z) (ct_sets : list ct_tuple) (i0 : Z) (a : point)
    (bp : point) :
  Forall2 (fun i (C : ct_tuple) => py_index C.1 ell = Ok (pow bp (f cs i)))
    (py_range (i0 + 1) (1 + n)) ct_sets ->
  a_loop points ell ct_sets i0 a
  = Ok (mul a (pow bp (share_sum (i0 + 1)))).
Proof.
  revert i0 a. induction ct_sets as [|C rest IH]; intros i0 a Hall.
  - cbn [a_loop]. apply Forall2_nil_inv_r in Hall.
    unfold share_sum. rewrite Hall. cbn [map]. unfold zr_sum. cbn [fold_left].
    now rewrite pow_zero, mul_one_right.
  - destruct (Z.lt_ge_cases (i0 + 1) (1 + n)) as [Hlt|Hge].
    2:{ rewrite py_range_nil in Hall by lia. inversion Hall. }
    rewrite py_range_cons in Hall by lia.
    apply Forall2_cons in Hall as [HC Hrest].
    cbn [a_loop]. rewrite HC. cbn [mbind result_bind].
    rewrite (IH (i0 + 1)) by exact Hrest. f_equal.
    unfold share_sum at 2. rewrite py_range_cons by lia. cbn [map].
    rewrite zr_sum_cons. fold (share_sum (i0 + 1 + 1)).
    rewrite pow_pow, <- mul_assoc, pow_add. reflexivity.
Qed.

(** In any case the product is computed, when every client has all the
    entries of its filter. *)
Lemma a_loop_Ok (S : list ZR) (ell : Z) (ct_sets : list ct_tuple) (i0 : Z)
    (a : point) :
  Forall (fun C : ct_tuple => 0 <= ell < Z.of_nat (length C.1)) ct_sets ->
  exists a', a_loop S ell ct_sets i0 a = Ok a'.
Proof.
  intros Hall. revert i0 a. induction Hall as [|C rest HC _ IH]; intros i0 a.
  - now exists a.
  - cbn [a_loop]. destruct (py_index_Ok _ _ HC) as (c & _ & ->).
    cbn [mbind result_bind]. apply IH.
Qed.

(** The test of [eval], [lhs == rhs] for the candidate [i = t], passes at
    a bit that is set in the filter of the element and of every client. *)
Lemma cancellation (bp a : point) (entry : point * point) (t : Z) :
  entry.1 = mul (pow bp (f cs (n + gamma))) (pow entry.2 (init_ZR t)) ->
  a = mul one (pow bp (share_sum 1)) ->
  mul (pow entry.1 Delta) a = pow entry.2 (Zmod.mul Delta (init_ZR t)).
Proof.
  intros -> ->. rewrite mul_one_l, pow_mul, !pow_pow.
  rewrite (mul_comm (pow bp _)), <- mul_assoc, pow_add.
  rewrite (Zmod.add_comm _ (share_sum 1)), shares_zero, pow_zero, mul_one_right.
  f_equal. apply Zmod.mul_comm.
Qed.

End Aggregation.

Section Counting.
Context `{ECGroup}.

(** The two sides of the test of [eval] at one bit. *)
Definition lhs_of (D : ZR) (entry : point * point) (a : point) : point :=
  mul (pow entry.1 D) a.

Definition rhs_of (D : ZR) (entry : point * point) (i : Z) : point :=
  pow entry.2 (Zmod.mul D (init_ZR i)).

(** The random masks are generic at one bit: where some filter has the
    bit unset, the test fails for every candidate; where all have it set,
    no other candidate than [t] gives the same right-hand side as [t]. *)
Definition generic_at (D : ZR) (k0 t : Z) (set : bool)
    (entry : point * point) (a : point) : bool :=
  forallb (fun i =>
             if set
             then bool_decide (i = t)
                  || negb (bool_decide (rhs_of D entry i = rhs_of D entry t))
             else negb (bool_decide (lhs_of D entry a = rhs_of D entry i)))
          (py_range 1 (k0 + 1)).

Lemma generic_at_unset (D : ZR) (k0 t : Z) (entry : point * point)
    (a : point) (i : Z) :
  generic_at D k0 t false entry a = true -> 1 <= i <= k0 ->
  lhs_of D entry a <> rhs_of D entry i.
Proof.
  unfold generic_at. rewrite forallb_forall. intros Hall Hi.
  specialize (Hall i). rewrite <- list_elem_of_In, elem_of_py_range in Hall.
  specialize (Hall ltac:(lia)). apply negb_true_iff in Hall.
  now apply bool_decide_eq_false in Hall.
Qed.

Lemma generic_at_set (D : ZR) (k0 t : Z) (entry : point * point)
    (a : point) (i : Z) :
  generic_at D k0 t true entry a = true -> 1 <= i <= k0 -> i <> t ->
  rhs_of D entry i <> rhs_of D entry t.
Proof.
  unfold generic_at. rewrite forallb_forall. intros Hall Hi Hne.
  specialize (Hall i). rewrite <- list_elem_of_In, elem_of_py_range in Hall.
  specialize (Hall ltac:(lia)). apply orb_true_iff in Hall as [Hall|Hall].
  - now apply bool_decide_eq_true in Hall.
  - apply negb_true_iff in Hall. now apply bool_decide_eq_false in Hall.
Qed.

Lemma candidate_loop_none (gr lhs : point) (D : ZR) (cands : list Z) :
  (forall i, i ∈ cands -> lhs <> pow gr (Zmod.mul D (init_ZR i))) ->
  candidate_loop gr lhs D cands = None.
Proof.
  induction cands as [|c cands IH]; intros Hall; cbn [candidate_loop]; [done|].
  rewrite decide_False by (apply Hall; left).
  apply IH. intros i Hi. apply Hall. now right.
Qed.

Lemma candidate_loop_finds (gr lhs : point) (D : ZR) (cands : list Z)
    (t : Z) :
  t ∈ cands -> lhs = pow gr (Zmod.mul D (init_ZR t)) ->
  (forall i, i ∈ cands -> i <> t ->
     pow gr (Zmod.mul D (init_ZR i)) <> pow gr (Zmod.mul D (init_ZR t))) ->
  candidate_loop gr lhs D cands = Some t.
Proof.
  intros Hin Hlhs Hother.
  induction cands as [|c cands IH]; cbn [candidate_loop].
  - now apply elem_of_nil in Hin.
  - destruct (decide (c = t)) as [->|Hne].
    + now rewrite decide_True.
    + rewrite decide_False.
      * apply IH.
        -- apply elem_of_cons in Hin as [->|Hin]; [done|exact Hin].
        -- intros i Hi. apply Hother. now right.
      * rewrite Hlhs. intros Heq. symmetry in Heq. revert Heq.
        apply Hother; [left|done].
Qed.

Lemma elem_of_py_range_down_iff (k0 i : Z) :
  i ∈ py_range_down k0 <-> 1 <= i <= k0.
Proof.
  unfold py_range_down.
  rewrite list_elem_of_In, <- in_rev, <- list_elem_of_In, elem_of_py_range.
  lia.
Qed.

Variables (self : scheme) (k0 : Z) (D : ZR) (a_list : list point)
  (ct_element : list (point * point)) (t : Z) (set : Z -> bool).
Hypothesis k_self : k self = Some k0.

(** What is known at the bit [ell]: the entries are there; where the bit
    is set everywhere the test passes for [t], which is a candidate; and
    the masks are generic. *)
Definition bit_facts (ell : Z) : Prop :=
  exists entry a,
    py_index ct_element ell = Ok entry /\ py_index a_list ell = Ok a /\
    generic_at D k0 t (set ell) entry a = true /\
    (set ell = true ->
       lhs_of D entry a = rhs_of D entry t /\ 1 <= t <= k0).

Lemma bits_loop_counts (ells : list Z) :
  (forall ell, ell ∈ ells -> bit_facts ell) ->
  bits_loop self D a_list ct_element ells None 0
  = Ok (bool_decide (1 < t <= count_set set ells)) /\
  forall ic, 1 <= ic -> 1 <= t <= k0 ->
    bits_loop self D a_list ct_element ells (Some t) ic
    = Ok (bool_decide (ic < t <= ic + count_set set ells)).
Proof.
  induction ells as [|ell ells IH]; intros Hfacts.
  - cbn [bits_loop]. split.
    + rewrite bool_decide_eq_false_2; [done|]. unfold count_set. cbn. lia.
    + intros ic Hic Ht. rewrite bool_decide_eq_false_2; [done|].
      unfold count_set. cbn. lia.
  - destruct (Hfacts ell ltac:(left)) as (entry & a & He & Ha & Hgen & Hset).
    destruct IH as [IHnone IHsome].
    { intros l Hl. apply Hfacts. now right. }
    pose proof (count_set_nonneg set ells) as Hnn.
    cbn [bits_loop]. rewrite He, Ha, k_self.
    cbn [attr mbind result_bind]. rewrite count_set_cons.
    fold (lhs_of D entry a). split.
    + destruct (set ell) eqn:Hbit.
      * destruct (Hset eq_refl) as [Hpass Ht].
        rewrite (candidate_loop_finds _ _ _ _ t).
        -- rewrite IHsome by lia.
           apply f_equal, bool_decide_ext. lia.
        -- apply elem_of_py_range_down_iff. lia.
        -- exact Hpass.
        -- intros i Hi Hne. apply elem_of_py_range_down_iff in Hi.
           apply (generic_at_set D k0 t entry a i Hgen Hi Hne).
      * rewrite candidate_loop_none.
        -- rewrite IHnone. apply f_equal, bool_decide_ext. lia.
        -- intros i Hi. apply elem_of_py_range_down_iff in Hi.
           apply (generic_at_unset D k0 t entry a i Hgen Hi).
    + intros ic Hic Ht. fold (rhs_of D entry t).
      destruct (set ell) eqn:Hbit.
      * destruct (Hset eq_refl) as [Hpass _].
        rewrite decide_True by exact Hpass.
        destruct (Z.eqb_spec t (ic + 1)) as [Heq|Hne].
        -- rewrite bool_decide_eq_true_2; [done|lia].
        -- rewrite IHsome by lia. apply f_equal, bool_decide_ext. lia.
      * rewrite decide_False
          by (apply (generic_at_unset D k0 t entry a t Hgen Ht)).
        rewrite IHsome by lia. apply f_equal, bool_decide_ext. lia.
Qed.

End Counting.

(** *** The smallest set *)

(** The search of [eval] returns the first of the sets of the least
    size. *)
Lemma smallest_loop_first `{ECGroup} (ct_sets : list ct_tuple) (b : Z)
    (k : nat) :
  forall (a i0 : Z) (s0 : nat),
    a = b - Z.of_nat k -> 0 <= i0 < a -> b <= Z.of_nat (length ct_sets) ->
    (exists c0, py_index ct_sets i0 = Ok c0 /\ length c0.2 = s0) ->
    (forall j c, 0 <= j < a -> py_index ct_sets j = Ok c ->
       (s0 <= length c.2)%nat) ->
    (forall j c, 0 <= j < i0 -> py_index ct_sets j = Ok c ->
       (s0 < length c.2)%nat) ->
    exists i s,
      smallest_loop ct_sets (py_range a b) i0 s0 = Ok (i, s) /\
      0 <= i < b /\
      (exists c, py_index ct_sets i = Ok c /\ length c.2 = s) /\
      (forall j c, 0 <= j < b -> py_index ct_sets j = Ok c ->
         (s <= length c.2)%nat) /\
      (forall j c, 0 <= j < i -> py_index ct_sets j = Ok c ->
         (s < length c.2)%nat).
Proof.
  induction k as [|k IH]; intros a i0 s0 Ha Hi0 Hb Hc0 Hmin Hfirst.
  - rewrite py_range_nil by lia. cbn [smallest_loop].
    exists i0, s0. split; [done|]. split; [lia|]. split; [done|].
    split; [|done]. intros j c Hj. apply Hmin. lia.
  - rewrite py_range_cons by lia. cbn [smallest_loop].
    destruct (py_index_Ok ct_sets a ltac:(lia)) as (ca & _ & Hca).
    rewrite Hca. cbn [mbind result_bind].
    destruct (Nat.ltb_spec (length ca.2) s0) as [Hlt|Hge].
    + destruct (IH (a + 1) a (length ca.2)) as (i & s & Hrun & Hi & Hrest);
        [lia|lia|lia|eauto| | |].
      * intros j c Hj Hc. destruct (Z.eq_dec j a) as [->|Hne].
        -- rewrite Hca in Hc. now injection Hc as <-.
        -- specialize (Hmin j c ltac:(lia) Hc). lia.
      * intros j c Hj Hc. specialize (Hmin j c ltac:(lia) Hc). lia.
      * exists i, s. split; [done|]. split; [lia|done].
    + destruct (IH (a + 1) i0 s0) as (i & s & Hrun & Hi & Hrest);
        [lia|lia|lia|done| |done|].
      * intros j c Hj Hc. destruct (Z.eq_dec j a) as [->|Hne].
        -- rewrite Hca in Hc. now injection Hc as <-.
        -- apply (Hmin j c); [lia|done].
      * exists i, s. split; [done|]. split; [lia|done].
Qed.

(** *** The count *)

Lemma count_loop_counts `{ECGroup} (self : scheme) (D : ZR)
    (a_list : list point) (m0 : Z) (p : bytes -> bool) (pts : list bytes)
    (ces : list (list (point * point))) :
  Forall2 (fun x ce =>
             bits_loop self D a_list ce (py_range 0 m0) None 0 = Ok (p x))
    pts ces ->
  forall c, count_loop self D a_list m0 ces c = Ok (c + count_set p pts).
Proof.
  induction 1 as [|x ce pts ces Hx _ IH]; intros c; cbn [count_loop].
  - unfold count_set. cbn. f_equal. lia.
  - rewrite Hx. cbn [mbind result_bind]. rewrite IH, count_set_cons.
    f_equal. destruct (p x); lia.
Qed.

Section Correct.
Context `{ECGroup} `{BlockCipher} `{Murmur}.

Hypothesis pow_pow : forall (a : point) (s t : ZR),
  pow (pow a s) t = pow a (Zmod.mul s t).
Hypothesis pow_mul : forall (a b : point) (s : ZR),
  pow (mul a b) s = mul (pow a s) (pow b s).

Variables (self : scheme) (n m0 k0 : Z) (phi_key gid : bytes).
Hypothesis n_self : client_count self = Some n.
Hypothesis m_self : m self = Some m0.
Hypothesis k_self : k self = Some k0.
Hypothesis n_pos : 1 <= n.
Hypothesis order_large : 2 * n < order.
Hypothesis m0_range : 1 <= m0 <= 256 ^ Z.of_nat (bit_length k0).

(** The bit [ell] is set in the filter of the element [x] and in the
    filter of every set. *)
Definition all_set (sets : list (list bytes)) (x : bytes) (ell : Z) : bool :=
  filter_bit m0 k0 phi_key gid [x] ell
  && forallb (fun pts => filter_bit m0 k0 phi_key gid pts ell) sets.

(** The random masks of the ciphertexts are generic, for the elements of
    the set [sigma]: at every bit of every element, [generic_at] holds of
    the entry of the element and of the product [a] that [eval] computes
    from the filters. *)
Definition masks_generic (sets : list (list bytes)) (cts : list ct_tuple)
    (sigma : nat) : bool :=
  match sets !! sigma, cts !! sigma with
  | Some smallest, Some C =>
      forallb
        (fun xe : bytes * list (point * point) =>
           forallb
             (fun ell =>
                match py_index xe.2 ell,
                      a_loop (points n (Z.of_nat sigma + 1)) ell cts 0 one
                with
                | Ok entry, Ok a =>
                    generic_at (Delta n (Z.of_nat sigma + 1)) k0
                      (weight_of m0 k0 phi_key gid xe.1)
                      (all_set sets xe.1 ell) entry a
                | _, _ => false
                end)
             (py_range 0 m0))
        (zip smallest C.2)
  | _, _ => false
  end.

(** The element [x] is counted: its filter has at least two bits, and
    the filter of every set contains it. *)
Definition counted (sets : list (list bytes)) (x : bytes) : bool :=
  (2 <=? weight_of m0 k0 phi_key gid x)
  && forallb (fun pts => in_filter m0 k0 phi_key gid pts x) sets.

Lemma counted_iff (sets : list (list bytes)) (x : bytes) :
  bool_decide (1 < weight_of m0 k0 phi_key gid x
               <= count_set (all_set sets x) (py_range 0 m0))
  = counted sets x.
Proof.
  unfold counted.
  set (p := filter_bit m0 k0 phi_key gid [x]).
  set (q := fun ell =>
              forallb (fun pts => filter_bit m0 k0 phi_key gid pts ell) sets).
  change (all_set sets x) with (fun ell => p ell && q ell).
  rewrite (weight_of_count m0 k0 phi_key gid m0_range x). fold p.
  destruct (count_set_and p q (py_range 0 m0)) as [Hle Heq].
  destruct (forallb _ sets) eqn:Hall.
  - rewrite (proj2 Heq).
    + rewrite andb_true_r.
      destruct (Z.leb_spec 2 (count_set p (py_range 0 m0)));
        [apply bool_decide_eq_true_2|apply bool_decide_eq_false_2]; lia.
    + intros ell Hell Hp. apply elem_of_py_range in Hell.
      unfold q. apply forallb_forall. intros pts Hpts.
      rewrite forallb_forall in Hall. specialize (Hall pts Hpts).
      now apply (in_filter_iff m0 k0 phi_key gid m0_range pts x).
  - rewrite andb_false_r. apply bool_decide_eq_false_2.
    intros [_ Hge]. assert (Heq' : count_set (fun ell => p ell && q ell)
                                     (py_range 0 m0)
                                   = count_set p (py_range 0 m0)) by lia.
    rewrite Heq in Heq'.
    assert (Htrue : forallb (fun pts => in_filter m0 k0 phi_key gid pts x)
                      sets = true); [|congruence].
    apply forallb_forall. intros pts Hpts.
    apply (in_filter_iff m0 k0 phi_key gid m0_range pts x).
    intros ell Hell Hp.
    specialize (Heq' ell ltac:(apply elem_of_py_range; lia) Hp).
    unfold q in Heq'. rewrite forallb_forall in Heq'. now apply Heq'.
Qed.

Variable cs : list ZR.
Hypothesis cs_length : length cs = S (Z.to_nat n).
Hypothesis cs_zero : hd Zmod.zero cs = Zmod.zero.

(** Client [i], from 1, has encrypted [pts] to [C]. *)
Definition honest (i : Z) (pts : list bytes) (C : ct_tuple) : Prop :=
  exists r r',
    encrypt self (phi_key, f cs i, f cs (n + i)) gid pts r
    = Ok (C.1, C.2, r').

Definition honest_spec (i : Z) (pts : list bytes) (C : ct_tuple) : Prop :=
  Forall2 (set_entry k0 gid (f cs i) (filter_of m0 k0 phi_key gid pts))
    (py_range 0 m0) C.1 /\
  Forall2 (fun x ct_element =>
             Forall2 (element_entry k0 gid (f cs (n + i))
                        (filter_of m0 k0 phi_key gid [x])
                        (weight_of m0 k0 phi_key gid x))
               (py_range 0 m0) ct_element)
    pts C.2.

Lemma honest_honest_spec (i : Z) (pts : list bytes) (C : ct_tuple) :
  honest i pts C -> honest_spec i pts C.
Proof.
  intros (r & r' & Hrun).
  assert (Hcipher : aes_key_size phi_key = true /\ length gid = 16%nat).
  { unfold encrypt in Hrun. rewrite m_self, k_self in Hrun.
    cbn [attr mbind result_bind] in Hrun. cbv zeta in Hrun.
    destruct (Cipher phi_key gid) as [c|e] eqn:Hc; [|done].
    now apply Cipher_inv in Hc. }
  destruct Hcipher as [Hkey Hgid].
  destruct (encrypt_spec m0 k0 phi_key gid m0_range self (f cs i)
              (f cs (n + i)) pts r m_self k_self Hkey Hgid)
    as (bf & ces & r'' & Hrun' & Hbf & Hces).
  rewrite Hrun in Hrun'. injection Hrun' as <- <- _. done.
Qed.

Variables (sets : list (list bytes)) (cts : list ct_tuple).
Hypothesis all_honest : Forall3 honest (py_range 1 (1 + n)) sets cts.

Variables (sigma : nat) (smallest : list bytes).
Hypothesis sigma_set : sets !! sigma = Some smallest.
Hypothesis sigma_least : forall pts,
  pts ∈ sets -> (length smallest <= length pts)%nat.
Hypothesis sigma_first : forall j pts,
  (j < sigma)%nat -> sets !! j = Some pts ->
  (length smallest < length pts)%nat.
Hypothesis generic : masks_generic sets cts sigma = true.

Lemma all_spec : Forall3 honest_spec (py_range 1 (1 + n)) sets cts.
Proof.
  eapply Forall3_impl; [exact all_honest|].
  intros i pts C. apply honest_honest_spec.
Qed.

Lemma sets_length : length sets = Z.to_nat n.
Proof.
  rewrite <- (Forall3_length_lm _ _ _ _ all_honest), py_range_length.
  f_equal. lia.
Qed.

Lemma cts_length : length cts = Z.to_nat n.
Proof.
  rewrite <- (Forall3_length_lr _ _ _ _ all_honest), py_range_length.
  f_equal. lia.
Qed.

Lemma client_lookup (j : Z) (C : ct_tuple) :
  py_index cts j = Ok C -> 0 <= j < n ->
  exists pts, sets !! Z.to_nat j = Some pts /\ honest_spec (j + 1) pts C.
Proof.
  intros HC Hj.
  assert (Hi : py_range 1 (1 + n) !! Z.to_nat j = Some (j + 1)).
  { rewrite <- (py_range_lookup 1 (1 + n) (j + 1)) by lia. f_equal. lia. }
  destruct (Forall3_lookup_l _ _ _ _ _ _ all_spec Hi)
    as (pts & C' & Hpts & HC' & Hspec).
  rewrite (py_index_nonneg cts j C' ltac:(lia) HC') in HC.
  injection HC as <-. eauto.
Qed.

Lemma client_size (j : Z) (C : ct_tuple) :
  py_index cts j = Ok C -> 0 <= j < n ->
  exists pts, sets !! Z.to_nat j = Some pts /\ length C.2 = length pts.
Proof.
  intros HC Hj. destruct (client_lookup j C HC Hj) as (pts & Hpts & _ & Hces).
  exists pts. split; [done|]. symmetry. exact (Forall2_length _ _ _ Hces).
Qed.

Lemma sigma_lt : 0 <= Z.of_nat sigma < n.
Proof.
  apply lookup_lt_Some in sigma_set. rewrite sets_length in sigma_set. lia.
Qed.

Lemma sigma_ct :
  exists C, cts !! sigma = Some C /\
            py_index cts (Z.of_nat sigma) = Ok C /\
            honest_spec (Z.of_nat sigma + 1) smallest C.
Proof.
  pose proof sigma_lt as Hlt.
  destruct (py_index_Ok cts (Z.of_nat sigma)) as (C & HC & HiC).
  { rewrite cts_length. lia. }
  rewrite Nat2Z.id in HC.
  destruct (client_lookup _ C HiC Hlt) as (pts & Hpts & Hspec).
  rewrite Nat2Z.id, sigma_set in Hpts. injection Hpts as <-.
  eauto.
Qed.

(** The search of [eval] finds [sigma]. *)
Lemma smallest_is_sigma :
  exists first s,
    py_index cts 0 = Ok first /\
    smallest_loop cts (py_range 1 (Z.of_nat (length cts))) 0
      (length first.2)
    = Ok (Z.of_nat sigma, s).
Proof.
  pose proof sigma_lt as Hlt. pose proof cts_length as Hlen.
  destruct (py_index_Ok cts 0 ltac:(lia)) as (first & _ & Hfirst).
  destruct (smallest_loop_first cts (Z.of_nat (length cts))
              (length cts - 1) 1 0 (length first.2))
    as (i & s & Hrun & Hi & (c & Hc & Hs) & Hmin & Hfst).
  - lia.
  - lia.
  - lia.
  - eauto.
  - intros j c Hj Hc. assert (j = 0) as -> by lia.
    rewrite Hfirst in Hc. now injection Hc as <-.
  - intros j c Hj. lia.
  - exists first, s. split; [done|]. rewrite Hrun. do 2 f_equal.
    destruct sigma_ct as (C & _ & HiC & _ & Hces).
    apply Forall2_length in Hces.
    destruct (client_size i c Hc ltac:(lia)) as (pts & Hpts & Hsize).
    destruct (Z.lt_trichotomy i (Z.of_nat sigma)) as [Hlt'|[Heq|Hgt]].
    + specialize (sigma_first (Z.to_nat i) pts ltac:(lia) Hpts).
      specialize (Hmin (Z.of_nat sigma) C ltac:(lia) HiC). lia.
    + done.
    + specialize (Hfst (Z.of_nat sigma) C ltac:(lia) HiC).
      assert (Hin : pts ∈ sets) by (eapply list_elem_of_lookup_2; eauto).
      specialize (sigma_least pts Hin). lia.
Qed.

(** The products [a] of [eval]. *)
Lemma a_list_spec (gamma : Z) :
  exists a_list,
    mapM (fun ell => a_loop (points n gamma) ell cts 0 one) (py_range 0 m0)
    = Ok a_list /\
    Forall2 (fun ell a => a_loop (points n gamma) ell cts 0 one = Ok a)
      (py_range 0 m0) a_list.
Proof.
  apply mapM_Forall2. intros ell Hell. apply elem_of_py_range in Hell.
  apply a_loop_Ok. apply Forall_forall. intros C HC.
  apply list_elem_of_lookup in HC as [j HC].
  assert (Hj : (j < length cts)%nat) by (eapply lookup_lt_Some; eauto).
  rewrite cts_length in Hj.
  destruct (client_lookup (Z.of_nat j) C) as (pts & _ & Hbf & _).
  { apply py_index_nonneg; [lia|]. now rewrite Nat2Z.id. }
  { lia. }
  apply Forall2_length in Hbf. rewrite py_range_length in Hbf. lia.
Qed.

(** At a bit that every filter has set, the product is the one of the
    shares. *)
Lemma a_at_set_bit (gamma ell : Z) (a : point) :
  0 <= ell < m0 ->
  (forall pts, pts ∈ sets -> filter_bit m0 k0 phi_key gid pts ell = true) ->
  a_loop (points n gamma) ell cts 0 one = Ok a ->
  a = mul one (pow (bit_point k0 gid ell) (share_sum n gamma cs 1)).
Proof.
  intros Hell Hset Ha.
  rewrite (a_loop_set pow_pow n gamma cs cs_length ell cts 0 one
             (bit_point k0 gid ell)) in Ha.
  - now injection Ha as <-.
  - eapply Forall3_Forall2_13; [exact all_spec|].
    intros i pts C Hpts [Hbf _]. cbn beta.
    destruct (Forall2_py_range _ _ _ ell Hbf Hell) as (c & _ & -> & Hc).
    f_equal. apply Hc. now apply Hset.
Qed.

(** One element of the smallest set: the loop over the bits counts it
    when [counted] says so. *)
Lemma element_counted (a_list : list point) (x : bytes)
    (ce : list (point * point)) :
  let gamma := Z.of_nat sigma + 1 in
  Forall2 (fun ell a => a_loop (points n gamma) ell cts 0 one = Ok a)
    (py_range 0 m0) a_list ->
  Forall2 (element_entry k0 gid (f cs (n + gamma))
             (filter_of m0 k0 phi_key gid [x])
             (weight_of m0 k0 phi_key gid x))
    (py_range 0 m0) ce ->
  forallb
    (fun ell =>
       match py_index ce ell, a_loop (points n gamma) ell cts 0 one with
       | Ok entry, Ok a =>
           generic_at (Delta n gamma) k0 (weight_of m0 k0 phi_key gid x)
             (all_set sets x ell) entry a
       | _, _ => false
       end)
    (py_range 0 m0) = true ->
  bits_loop self (Delta n gamma) a_list ce (py_range 0 m0) None 0
  = Ok (counted sets x).
Proof.
  intros gamma Ha Hce Hgen. rewrite <- counted_iff.
  apply (bits_loop_counts self k0 (Delta n gamma) a_list ce
           (weight_of m0 k0 phi_key gid x) (all_set sets x) k_self
           (py_range 0 m0)).
  intros ell Hin. pose proof Hin as Hell. apply elem_of_py_range in Hell.
  destruct (Forall2_py_range _ _ _ ell Hce Hell)
    as (entry & _ & He & (grho & He1 & Hgrho)).
  destruct (Forall2_py_range _ _ _ ell Ha Hell) as (a & _ & Hia & Hloop).
  rewrite forallb_forall in Hgen. specialize (Hgen ell).
  rewrite <- list_elem_of_In in Hgen. specialize (Hgen Hin).
  rewrite He, Hloop in Hgen.
  exists entry, a. split; [done|]. split; [done|]. split; [done|].
  intros Hset. unfold all_set in Hset.
  apply andb_true_iff in Hset as [Hx Hall].
  pose proof sigma_lt as Hlt.
  split.
  - unfold lhs_of, rhs_of.
    apply (cancellation pow_pow pow_mul n gamma cs n_pos ltac:(unfold gamma; lia)
             order_large cs_length cs_zero (bit_point k0 gid ell)).
    + rewrite He1. f_equal. apply Hgrho. exact Hx.
    + apply a_at_set_bit; [done| |done]. intros pts Hpts.
      rewrite forallb_forall in Hall. apply Hall.
      now apply list_elem_of_In.
  - apply (weight_of_pos m0 k0 phi_key gid m0_range x ell Hell Hx).
Qed.

(** What [eval] returns on the ciphertexts of the [n] clients. *)
Lemma eval_honest : eval self cts = Ok (count_set (counted sets) smallest).
Proof.
  unfold eval.
  destruct smallest_is_sigma as (first & s & -> & Hsm).
  cbn [mbind result_bind]. rewrite Hsm. cbn [mbind result_bind].
  rewrite n_self, m_self. cbn [attr mbind result_bind].
  rewrite pow_zero.
  set (gamma := Z.of_nat sigma + 1).
  fold (points n gamma). fold (Delta n gamma).
  destruct (a_list_spec gamma) as (a_list & -> & Ha).
  cbn [mbind result_bind].
  destruct sigma_ct as (C & HC & -> & _ & Hces).
  cbn [mbind result_bind].
  rewrite (count_loop_counts self (Delta n gamma) a_list m0 (counted sets)
             smallest C.2).
  - f_equal.
  - eapply Forall2_zip_impl; [exact Hces|].
    intros x ce Hin Hentries. cbn beta.
    apply element_counted; [done|done|].
    pose proof generic as Hg. unfold masks_generic in Hg.
    rewrite sigma_set in Hg.
    lazymatch type of Hg with
    | match ?o with Some _ => _ | None => _ end = true =>
        destruct o as [C'|] eqn:HC'; [|discriminate]
    end.
    pose proof (eq_trans (eq_sym HC') HC) as HCC. injection HCC as ->.
    rewrite forallb_forall in Hg.
    apply (Hg (x, ce)). now apply list_elem_of_In.
Qed.

End Correct.

(** X28: [eval] on the ciphertexts of all the clients.  The group satisfies,
    beside the laws of the interface, [(a ** s) ** t = a ** (s * t)] and
    [(a * b) ** s = a ** s * b ** s]; [setup] has run for [n >= 1]
    clients ([self.client_count]) in a group of order above [2 * n], with
    [m] filter bits whose positions fit into [k.bit_length()] bytes;
    client [i] has encrypted the list [sets[i]] under its key and the
    common [gid]; [sigma] is the first of the sets of least size; and the
    random masks are generic ([masks_generic]: a masked entry passes the
    test of [eval] for no candidate, and an unmasked one for no other
    candidate than the weight).  Then [eval] returns the number of
    elements [x] of [sets[sigma]], counted with repetition, such that the
    Bloom filter of [x] alone has at least two bits set and the filter of
    every client contains the PRF value of [x]. *)
Theorem eval_counts_common_elements `{ECGroup} `{BlockCipher} `{Murmur}
    (self0 self : scheme) (secpar count m0 k0 n : Z) (r0 r1 : rng)
    (usks : list (bytes * ZR * ZR)) (phi_key gid : bytes)
    (sets : list (list bytes)) (cts : list ct_tuple) (sigma : nat)
    (smallest : list bytes) :
  (forall (a : point) (s t : ZR), pow (pow a s) t = pow a (Zmod.mul s t)) ->
  (forall (a b : point) (s : ZR),
     pow (mul a b) s = mul (pow a s) (pow b s)) ->
  client_count self0 = Some n -> 1 <= n -> 2 * n < order ->
  1 <= m0 <= 256 ^ Z.of_nat (bit_length k0) ->
  setup self0 secpar count m0 k0 r0 = Ok (self, usks, r1) ->
  (forall u, u ∈ usks -> u.1.1 = phi_key) ->
  Forall3 (fun usk pts (C : ct_tuple) =>
             exists r r', encrypt self usk gid pts r = Ok (C.1, C.2, r'))
    usks sets cts ->
  sets !! sigma = Some smallest ->
  (forall pts, pts ∈ sets -> (length smallest <= length pts)%nat) ->
  (forall j pts, (j < sigma)%nat -> sets !! j = Some pts ->
     (length smallest < length pts)%nat) ->
  masks_generic n m0 k0 phi_key gid sets cts sigma = true ->
  eval self cts = Ok (count_set (counted m0 k0 phi_key gid sets) smallest).
Proof.
  intros Hpp Hpm Hn Hn1 Hq Hm0 Hsetup Hkey Hall Hsig Hleast Hfirst Hgen.
  unfold setup in Hsetup. cbn [client_count] in Hsetup.
  rewrite Hn in Hsetup.
  destruct (os_urandom _ r0) as [[phi_key' r']|e]; [|done].
  cbn [attr mbind result_bind] in Hsetup.
  unfold coefficients in Hsetup.
  pose proof (random_ZRs_length (Z.to_nat n) r') as Hlen.
  destruct (random_ZRs (Z.to_nat n) r') as [rs r2]. cbn [fst] in Hlen.
  cbn [mret result_ret] in Hsetup. injection Hsetup as <- <- <-.
  set (cs := Zmod.zero :: rs) in *.
  assert (phi_key' = phi_key) as ->.
  { apply (Hkey (phi_key', f cs 1, f cs (n + 1))).
    apply list_elem_of_fmap. exists 1. split; [done|].
    apply elem_of_py_range. lia. }
  apply Forall3_fmap_1 in Hall.
  apply (eval_honest Hpp Hpm _ n m0 k0 phi_key gid) with (cs := cs)
                                                          (sigma := sigma);
    try done.
  unfold cs. cbn [length]. now rewrite Hlen.
Qed.
End MultiClientCardinalityEfficientCorrect.


(** * Part IV: the properties on concrete inputs *)

(** A closed goal that is decidable, by computation. *)
Ltac run_decide := apply (bool_decide_unpack _); vm_compute; exact I.

#[local] Existing Instance ToyGroup.
#[local] Existing Instance ElementsOrder.
#[local] Existing Instance ToyCipher.
#[local] Existing Instance ToySha256.
#[local] Existing Instance ToyGCM.
#[local] Existing Instance ToyMurmur.

(** Whether a call returns, and what it returns ([d] when it raises). *)
Definition is_Ok {A} (r : result A) : bool :=
  match r with
  | Ok _ => true
  | Raise _ => false
  end.

Definition get_Ok {A} (d : A) (r : result A) : A :=
  match r with
  | Ok a => a
  | Raise _ => d
  end.

Lemma get_Ok_eq {A} (d : A) (r : result A) :
  is_Ok r = true -> r = Ok (get_Ok d r).
Proof. destruct r; [done|discriminate]. Qed.

(** C4 as stated fails on a 16-byte input: the value has 32 bytes, not
    [16 * ceil(16 / 16) = 16 = len(pt)]. *)
Lemma prf_length_aligned_counterexample :
  length pt16 = 16%nat /\
  ceil16 (length pt16) = 16%nat /\
  length (_prf key0 gid1 pt16) = 32%nat /\
  length (_prf key0 gid1 pt16) <> ceil16 (length pt16) /\
  length (_prf key0 gid1 pt16) <> length pt16.
Proof. run_decide. Qed.

Lemma setup_keys_sum_zero_witness :
  1 <= 3 /\
  let usks :=
    (MultiClientCardinality.setup
       (MultiClientCardinality.init toy_rng).1 128 3 toy_rng).1.2 in
  length usks = Z.to_nat 3 /\ zr_sum usks = Zmod.zero.
Proof.
  split; [lia|].
  apply (MultiClientCardinalityProofs.setup_keys_sum_zero
           (MultiClientCardinality.init toy_rng).1 128 3 toy_rng).
  lia.
Defined.

Module Scenario2.
Import TwoClientIntersection TwoClientIntersectionProofs.

Definition fresh : scheme * rng := init toy_rng.
Definition ran (secpar0 : Z) := setup fresh.1 secpar0 fresh.2.
Definition keys (secpar0 : Z) :=
  get_Ok (fresh.1, (([], Zmod.zero), ([], Zmod.zero)), fresh.2) (ran secpar0).
Definition self : scheme := (keys 128).1.1.
Definition usk0 : bytes * ZR := (keys 128).1.2.1.
Definition usk1 : bytes * ZR := (keys 128).1.2.2.

Lemma intersection_ran_Ok : ran 128 = Ok (self, (usk0, usk1), (keys 128).2).
Proof.
  unfold self, usk0, usk1, keys.
  assert (Hok : is_Ok (ran 128) = true) by (vm_compute; reflexivity).
  destruct (ran 128) as [[[s [u0 u1]] r]|]; [reflexivity|discriminate].
Qed.

(** The dictionary of a call that returns. *)
Definition dict (usk : bytes * ZR) (gid : bytes) (S : list bytes) :=
  get_Ok ∅ (encrypt self usk gid S).
End Scenario2.

(** C3 as stated fails on [S0 = {b"a"}], [S1 = {b"a\x00"}]: both
    plaintexts pad to the same block, so they share their dictionary key,
    and [eval] returns [{b"a"}], while the two sets are disjoint.  And
    not every [secpar] or gid will do: the 8-byte key of [setup(64)] and
    a gid of 1 byte make [encrypt] raise [ValueError], and [setup(-8)]
    raises it itself. *)
Lemma eval_intersection_counterexample :
  let S0 : list bytes := [[x61]] in
  let S1 : list bytes := [[x61; x00]] in
  (TwoClientIntersection.encrypt Scenario2.self Scenario2.usk0 gid1 S0
     = Ok (Scenario2.dict Scenario2.usk0 gid1 S0) /\
   TwoClientIntersection.encrypt Scenario2.self Scenario2.usk1 gid1 S1
     = Ok (Scenario2.dict Scenario2.usk1 gid1 S1) /\
   TwoClientIntersection.eval Scenario2.self
     [Scenario2.dict Scenario2.usk0 gid1 S0;
      Scenario2.dict Scenario2.usk1 gid1 S1]
     = Ok {[ [x61] ]} /\
   (list_to_set S0 ∩ list_to_set S1 : gset bytes) = ∅) /\
  (is_Ok (Scenario2.ran 64) = true /\
   TwoClientIntersection.encrypt (Scenario2.keys 64).1.1
     (Scenario2.keys 64).1.2.1 gid1 S0 = Raise ValueError) /\
  TwoClientIntersection.encrypt Scenario2.self Scenario2.usk0 [x01] S0
    = Raise ValueError /\
  is_Ok (Scenario2.ran (-8)) = false.
Proof. intros S0 S1. run_decide. Qed.

Lemma eval_returns_intersection_witness :
  let S0 : list bytes := [[x61]; [x62]; [x63]] in
  let S1 : list bytes := [[x62]; [x63]; [x64]] in
  exists D0 D1,
    TwoClientIntersection.encrypt Scenario2.self Scenario2.usk0 gid1 S0
      = Ok D0 /\
    TwoClientIntersection.encrypt Scenario2.self Scenario2.usk1 gid1 S1
      = Ok D1 /\
    TwoClientIntersection.eval Scenario2.self [D0; D1]
      = Ok (list_to_set S0 ∩ list_to_set S1).
Proof.
  apply (TwoClientIntersectionProofs.eval_returns_intersection
           Scenario2.fresh.1 Scenario2.self 128 gid1 _ _
           Scenario2.fresh.2 (Scenario2.keys 128).2
           Scenario2.usk0 Scenario2.usk1).
  - left. reflexivity.
  - reflexivity.
  - exact Scenario2.intersection_ran_Ok.
  - intros x y Hx Hy.
    repeat (apply elem_of_cons in Hx as [->|Hx]);
      try (now apply elem_of_nil in Hx);
      repeat (apply elem_of_cons in Hy as [->|Hy]);
      try (now apply elem_of_nil in Hy);
      intros E; first [reflexivity | vm_compute in E; discriminate E].
Defined.

(** Two clients of the threshold scheme, threshold 2, on the small
    instances. *)
Module Scenario3.
Import TwoClientThreshold.

Definition no_usk : usk :=
  {| sk1 := []; sk2 := []; sk3 := []; sigma := Zmod.zero; rho := 0 |}.

Definition fresh : scheme * rng := init toy_rng.
Definition ran (secpar0 t : Z) := setup fresh.1 secpar0 t fresh.2.
Definition keys_of (secpar0 t : Z) :=
  get_Ok (fresh.1, (no_usk, no_usk), fresh.2) (ran secpar0 t).
Definition keys := keys_of 128 2.
Definition self : scheme := keys.1.1.
Definition usk0 : usk := keys.1.2.1.
Definition usk1 : usk := keys.1.2.2.

Lemma threshold_ran_Ok (secpar0 t : Z) :
  is_Ok (ran secpar0 t) = true ->
  ran secpar0 t
  = Ok ((keys_of secpar0 t).1.1,
        ((keys_of secpar0 t).1.2.1, (keys_of secpar0 t).1.2.2),
        (keys_of secpar0 t).2).
Proof.
  unfold keys_of.
  destruct (ran secpar0 t) as [[[s [u0 u1]] r]|]; [reflexivity|discriminate].
Qed.

Definition dict_of (r : result (gmap bytes ct_value * rng))
    : gmap bytes ct_value :=
  match r with
  | Ok (d, _) => d
  | Raise _ => ∅
  end.

Lemma dict_of_Ok (r : result (gmap bytes ct_value * rng)) :
  is_Ok r = true -> exists r', r = Ok (dict_of r, r').
Proof. destruct r as [[d r']|e]; [eauto|discriminate]. Qed.

Definition S0 : list bytes := [[x78]; [x79]; [x7a]].
Definition S1 : list bytes := [[x7a]; [x78]; [x79]].
Definition D0 := dict_of (encrypt self usk0 gid1 S0 keys.2).
Definition D1 := dict_of (encrypt self usk1 gid1 S1 toy_rng).

(** [D0] with the ciphertext of every [ct3] changed in its first byte. *)
Definition tamper (v : ct_value) : ct_value :=
  let '(c2, (n, c), c4) := v in (c2, (n, x00 :: tail c), c4).
Definition D0_tampered : gmap bytes ct_value := tamper <$> D0.

(** [D1] with the ciphertext of every [ct3] changed, and [D0] with the
    ciphertext of every [ct4] changed. *)
Definition D1_tampered : gmap bytes ct_value := tamper <$> D1.

Definition tamper4 (v : ct_value) : ct_value :=
  let '(c2, c3, (n, c)) := v in (c2, c3, (n, x00 :: tail c)).
Definition D0_tampered4 : gmap bytes ct_value := tamper4 <$> D0.

Definition k0 : bytes := hd [] (elements (dom D0_tampered ∩ dom D1)).
Definition v0 : ct_value :=
  default ([], ([], []), ([], [])) (D0_tampered !! k0).
Definition v1 : ct_value :=
  default ([], ([], []), ([], [])) (D1 !! k0).
End Scenario3.

(** C8 as stated fails: three common keys with threshold 2, a ciphertext
    that does not verify ([ct3] of client 0, [ct3] of client 1 or [ct4]
    of client 0), and [eval] raises [InvalidTag]; no cardinality is
    returned. *)
Lemma eval_auth_failure_counterexample :
  TwoClientThreshold.eval Scenario3.self [Scenario3.D0; Scenario3.D1]
    = Ok (3%nat, list_to_set Scenario3.S0) /\
  TwoClientThreshold.threshold Scenario3.self = Some 2 /\
  size (dom Scenario3.D0_tampered ∩ dom Scenario3.D1) = 3%nat /\
  TwoClientThreshold.eval Scenario3.self
    [Scenario3.D0_tampered; Scenario3.D1] = Raise InvalidTag /\
  TwoClientThreshold.eval Scenario3.self
    [Scenario3.D0; Scenario3.D1_tampered] = Raise InvalidTag /\
  TwoClientThreshold.eval Scenario3.self
    [Scenario3.D0_tampered4; Scenario3.D1] = Raise InvalidTag.
Proof. run_decide. Qed.

Lemma eval_auth_failure_raises_witness :
  TwoClientThreshold.eval Scenario3.self
    [Scenario3.D0_tampered; Scenario3.D1] = Raise InvalidTag.
Proof.
  assert (Hiter : exists keys2,
            iter (dom Scenario3.D0_tampered ∩ dom Scenario3.D1)
            = [] ++ Scenario3.k0 :: keys2).
  { exists (tail (elements (dom Scenario3.D0_tampered ∩ dom Scenario3.D1))).
    run_decide. }
  destruct Hiter as [keys2 Hiter].
  assert (Hrec : is_Ok (TwoClientThreshold.recover_ae1_key
                          Scenario3.D0_tampered Scenario3.D1
                          (take (Z.to_nat 2)
                             (iter (dom Scenario3.D0_tampered
                                    ∩ dom Scenario3.D1)))) = true)
    by (vm_compute; reflexivity).
  apply (get_Ok_eq []) in Hrec.
  apply (proj2 (proj2 (TwoClientThresholdErrors.eval_auth_failure_raises
                         Scenario3.self Scenario3.D0_tampered Scenario3.D1 2
                         eq_refl ltac:(run_decide)))
           _ [] Scenario3.k0 keys2 Hrec Hiter).
  - intros k' Hk'. now apply elem_of_nil in Hk'.
  - exists Scenario3.v0, Scenario3.v1.
    split; [run_decide|]. split; [run_decide|]. left. run_decide.
Defined.

(** The threshold scheme with threshold 1, on two plaintexts that differ
    by a trailing zero byte. *)
Module Scenario3b.
Import TwoClientThreshold.

Definition keys := Scenario3.keys_of 128 1.
Definition self : scheme := keys.1.1.
Definition usk0 : usk := keys.1.2.1.
Definition usk1 : usk := keys.1.2.2.
Definition S0 : list bytes := [[x61]].
Definition S1 : list bytes := [[x61; x00]].
Definition D0 := Scenario3.dict_of (encrypt self usk0 gid1 S0 keys.2).
Definition D1 := Scenario3.dict_of (encrypt self usk1 gid1 S1 toy_rng).

(** The keys of [setup(64, 1)], of 8 bytes. *)
Definition keys64 := Scenario3.keys_of 64 1.
End Scenario3b.

(** C2 as stated fails on [S0 = {b"a"}], [S1 = {b"a\x00"}] with threshold
    1: the two plaintexts pad to the same block and share their key, and
    [eval] returns [(1, {b"a"})], while the sets are disjoint.  And not
    every [secpar] will do: the 8-byte keys of [setup(64, 1)] make
    [encrypt] raise [ValueError], as a gid of 1 byte does, and
    [setup(-8, 1)] raises it itself. *)
Lemma eval_threshold_counterexample :
  (TwoClientThreshold.threshold Scenario3b.self = Some 1 /\
   (exists r, TwoClientThreshold.encrypt Scenario3b.self Scenario3b.usk0 gid1
                Scenario3b.S0 Scenario3b.keys.2 = Ok (Scenario3b.D0, r)) /\
   (exists r, TwoClientThreshold.encrypt Scenario3b.self Scenario3b.usk1 gid1
                Scenario3b.S1 toy_rng = Ok (Scenario3b.D1, r)) /\
   TwoClientThreshold.eval Scenario3b.self [Scenario3b.D0; Scenario3b.D1]
     = Ok (1%nat, {[ [x61] ]}) /\
   (list_to_set Scenario3b.S0 ∩ list_to_set Scenario3b.S1 : gset bytes) = ∅) /\
  (is_Ok (Scenario3.ran 64 1) = true /\
   is_Ok (TwoClientThreshold.encrypt Scenario3b.keys64.1.1
            Scenario3b.keys64.1.2.1 gid1 Scenario3b.S0 toy_rng) = false) /\
  is_Ok (TwoClientThreshold.encrypt Scenario3b.self Scenario3b.usk0 [x01]
           Scenario3b.S0 toy_rng) = false /\
  is_Ok (Scenario3.ran (-8) 1) = false.
Proof.
  split; [|run_decide].
  split; [reflexivity|].
  split; [apply Scenario3.dict_of_Ok; vm_compute; reflexivity|].
  split; [apply Scenario3.dict_of_Ok; vm_compute; reflexivity|]. run_decide.
Qed.

Lemma eval_threshold_correct_witness :
  exists D0 ra' D1 rb',
    TwoClientThreshold.encrypt Scenario3.self Scenario3.usk0 gid1
      Scenario3.S0 Scenario3.keys.2 = Ok (D0, ra') /\
    TwoClientThreshold.encrypt Scenario3.self Scenario3.usk1 gid1
      Scenario3.S1 toy_rng = Ok (D1, rb') /\
    let I : gset bytes :=
      list_to_set Scenario3.S0 ∩ list_to_set Scenario3.S1 in
    TwoClientThreshold.eval Scenario3.self [D0; D1]
    = Ok (size I, if decide (2 <= Z.of_nat (size I)) then I else ∅).
Proof.
  apply (TwoClientThresholdProofs.eval_threshold_correct
           Scenario3.fresh.1 Scenario3.self 128 2 gid1
           Scenario3.S0 Scenario3.S1
           Scenario3.fresh.2 Scenario3.keys.2 Scenario3.keys.2 toy_rng
           Scenario3.usk0 Scenario3.usk1).
  - reflexivity.
  - lia.
  - left. reflexivity.
  - reflexivity.
  - apply (Scenario3.threshold_ran_Ok 128 2). vm_compute. reflexivity.
  - intros x y Hx Hy.
    repeat (apply elem_of_cons in Hx as [->|Hx]);
      try (now apply elem_of_nil in Hx);
      repeat (apply elem_of_cons in Hy as [->|Hy]);
      try (now apply elem_of_nil in Hy);
      intros E; first [reflexivity | vm_compute in E; discriminate E].
Defined.

(** The Bloom-filter scheme for two clients, with 8 bits and one hash. *)
Module Scenario5.
Import MultiClientCardinalityEfficient.

Definition fresh : scheme * rng := init toy_rng.
(** [scheme.client_count = 2], as the callers assign it. *)
Definition assigned : scheme :=
  {| g := g fresh.1; client_count := Some 2; m := None; k := None |}.
Definition ran := setup assigned 128 2 8 1 fresh.2.
Definition self : scheme :=
  match ran with Ok (s, _, _) => s | Raise _ => assigned end.
Definition usk0 : bytes * ZR * ZR :=
  match ran with
  | Ok (_, u :: _, _) => u
  | _ => ([], Zmod.zero, Zmod.zero)
  end.
Definition other_rng : rng := {| tape := fun i => 5 + Z.of_nat i; pos := 0 |}.

(** The ciphertext of a call, without the state of the tape. *)
Definition ciphertext (r : rng)
    : option (list point * list (list (point * point))) :=
  match encrypt self usk0 gid1 [[x61]] r with
  | Ok (c, _) => Some c
  | Raise _ => None
  end.
End Scenario5.

(** C7 as stated fails for scheme 5: two calls of [encrypt] with the same
    key, gid and plaintext set return different ciphertexts when the
    random group elements they draw differ. *)
Lemma encrypt_efficient_not_deterministic :
  MultiClientCardinalityEfficient.m Scenario5.self = Some 8 /\
  is_Some (Scenario5.ciphertext toy_rng) /\
  is_Some (Scenario5.ciphertext Scenario5.other_rng) /\
  Scenario5.ciphertext toy_rng <> Scenario5.ciphertext Scenario5.other_rng.
Proof. run_decide. Qed.

(** Scheme 2 needs its side condition: on a set with two plaintexts of
    one dictionary key, the dictionary depends on the order in which the
    loop meets them. *)
Lemma encrypt_intersection_order_matters :
  (list_to_set [[x61]; [x61; x00]] : gset bytes)
    = list_to_set [[x61; x00]; [x61]] /\
  TwoClientIntersection.encrypt Scenario2.self Scenario2.usk0 gid1
    [[x61]; [x61; x00]]
  <> TwoClientIntersection.encrypt Scenario2.self Scenario2.usk0 gid1
    [[x61; x00]; [x61]].
Proof. run_decide. Qed.

Lemma encrypt_deterministic_witness :
  let l1 : list bytes := [[x61]; [x62]; [x63]] in
  let l2 : list bytes := [[x63]; [x61]; [x62]; [x61]] in
  TwoClientCardinality.encrypt key0 gid1 l1
    = TwoClientCardinality.encrypt key0 gid1 l2 /\
  MultiClientCardinality.encrypt
    (MultiClientCardinality.init toy_rng).1 (init_ZR 1234) gid1 l1
    = MultiClientCardinality.encrypt
        (MultiClientCardinality.init toy_rng).1 (init_ZR 1234) gid1 l2 /\
  TwoClientIntersection.encrypt Scenario2.self Scenario2.usk0 gid1 l1
    = TwoClientIntersection.encrypt Scenario2.self Scenario2.usk0 gid1 l2.
Proof.
  intros l1 l2.
  destruct (encrypt_deterministic key0 Scenario2.self Scenario2.usk0
              (MultiClientCardinality.init toy_rng).1 (init_ZR 1234) gid1
              l1 l2) as (E1 & E4 & E2).
  { run_decide. }
  split; [exact E1|]. split; [exact E4|]. apply E2.
  intros x y Hx Hy.
  repeat (apply elem_of_cons in Hx as [->|Hx]);
    try (now apply elem_of_nil in Hx);
    repeat (apply elem_of_cons in Hy as [->|Hy]);
    try (now apply elem_of_nil in Hy);
    intros E; first [reflexivity | vm_compute in E; discriminate E].
Defined.

(** C10 as stated fails for a negative [secpar]: the attribute says 2,
    the parameter 3, and [setup] returns no key: [os.urandom] raises
    [ValueError]. *)
Lemma setup_ignores_client_count_counterexample :
  MultiClientCardinalityEfficient.client_count Scenario5.assigned = Some 2 /\
  MultiClientCardinalityEfficient.setup Scenario5.assigned (-8) 3 8 1 toy_rng
    = Raise ValueError.
Proof. split; reflexivity. Qed.

(** The multi-client scheme, for one client and for three. *)
Module Scenario4.
Import MultiClientCardinality.

Definition fresh : scheme * rng := init toy_rng.
Definition keys (n : Z) := setup fresh.1 128 n fresh.2.
Definition self (n : Z) : scheme := (keys n).1.1.
Definition usks (n : Z) : list ZR := (keys n).1.2.
Definition ct_sets (n : Z) (sets : list (list bytes)) : list (gset bytes) :=
  zip_with (fun usk S => encrypt (self n) usk gid1 S) (usks n) sets.

Definition one_set : list (list bytes) := [[[x61]; [x62]]].
Definition three_sets : list (list bytes) :=
  [[[x70]; [x71]]; [[x70]; [x71]; [x72]]; [[x75]; [x70]; [x71]]].
End Scenario4.

(** C1 as stated fails for one client: [setup] returns the key 0, both
    plaintexts encrypt to the identity of the group, and [eval] returns
    1 for a set of two. *)
Lemma eval_cardinality_counterexample :
  Scenario4.usks 1 = [Zmod.zero] /\
  MultiClientCardinality.eval (Scenario4.self 1)
    (Scenario4.ct_sets 1 Scenario4.one_set) = Ok 1%nat /\
  size (intersection_all (list_to_set <$> Scenario4.one_set)) = 2%nat.
Proof. run_decide. Qed.

Lemma eval_cardinality_correct_witness :
  MultiClientCardinality.eval (Scenario4.self 3)
    (Scenario4.ct_sets 3 Scenario4.three_sets)
  = Ok (size (intersection_all (list_to_set <$> Scenario4.three_sets))).
Proof.
  apply (MultiClientCardinalityProofs.eval_cardinality_correct gid1
           Scenario4.fresh.1 (Scenario4.self 3) 128 3 Scenario4.three_sets
           Scenario4.fresh.2 (Scenario4.keys 3).2 (Scenario4.usks 3)).
  - lia.
  - reflexivity.
  - reflexivity.
  - intros xs HF.
    apply Forall2_cons_inv_r in HF as (a & xs1 & Ha & HF & ->).
    apply Forall2_cons_inv_r in HF as (b & xs2 & Hb & HF & ->).
    apply Forall2_cons_inv_r in HF as (c & xs3 & Hc & HF & ->).
    apply Forall2_nil_inv_r in HF as ->.
    repeat (apply elem_of_cons in Ha as [->|Ha]);
      try (now apply elem_of_nil in Ha);
      repeat (apply elem_of_cons in Hb as [->|Hb]);
      try (now apply elem_of_nil in Hb);
      repeat (apply elem_of_cons in Hc as [->|Hc]);
      try (now apply elem_of_nil in Hc);
      intros E;
      first [ eexists; reflexivity
            | apply (f_equal Zmod.to_Z) in E; vm_compute in E;
              discriminate E ].
Defined.

(** ** The further properties on concrete inputs *)

(** Membership in a list that is written out. *)
Ltac list_cases H :=
  repeat (apply elem_of_cons in H as [->|H]);
  try (now apply elem_of_nil in H).

Lemma prf_trailing_zeros_witness :
  _prf key0 gid1 ([x61] ++ repeat x00 14) = _prf key0 gid1 [x61] /\
  (forall self, TwoClientIntersection._phi self key0 gid1
                  ([x61] ++ repeat x00 14)
                = TwoClientIntersection._phi self key0 gid1 [x61]) /\
  TwoClientThreshold._psi key0 gid1 ([x61] ++ repeat x00 14)
  = TwoClientThreshold._psi key0 gid1 [x61].
Proof. apply (prf_trailing_zeros key0 gid1 [x61] 14). vm_compute. lia. Defined.

(** The small block cipher is a permutation of the blocks. *)
Lemma toy_E_injective : @E_injective ToyCipher.
Proof.
  intros key x y Hx Hy. cbn [E ToyCipher]. unfold toy_E.
  rewrite !take_app_length' by (now rewrite length_map).
  revert y Hx Hy. generalize 16%nat.
  induction x as [|a x IH]; intros n [|b y] Hx Hy Heq; simpl in *;
    try done; try lia.
  injection Heq as Hab Hrest. f_equal.
  - now apply byte_xor_inj_r in Hab.
  - apply (IH (pred n)); [lia|lia|done].
Qed.

Lemma prf_collision_trailing_zeros_witness :
  [x61; x00; x00] = [x61] ++ repeat x00 (3 - 1) /\ (1 / 16 = 3 / 16)%nat.
Proof.
  apply (prf_collision_trailing_zeros key0 gid1 [x61] [x61; x00; x00]).
  - exact toy_E_injective.
  - reflexivity.
  - vm_compute. reflexivity.
  - vm_compute. lia.
Defined.

(** The keys of [setup(128)] of the two-client cardinality scheme. *)
Definition cardinality_keys : bytes * bytes * rng :=
  get_Ok ([], [], toy_rng) (TwoClientCardinality.setup 128 toy_rng).

Lemma twoclient_cardinality_correct_witness :
  let S0 : list bytes := [[x61]; [x62]; [x63]] in
  let S1 : list bytes := [[x62]; [x63]; [x64]] in
  exists C0 C1,
    TwoClientCardinality.encrypt cardinality_keys.1.1 gid1 S0 = Ok C0 /\
    TwoClientCardinality.encrypt cardinality_keys.1.2 gid1 S1 = Ok C1 /\
    TwoClientCardinality.eval [C0; C1]
    = Ok (size (list_to_set S0 ∩ list_to_set S1 : gset bytes)).
Proof.
  apply (twoclient_cardinality_correct 128 toy_rng cardinality_keys.2).
  - left. reflexivity.
  - reflexivity.
  - reflexivity.
  - intros x y Hx Hy. list_cases Hx; list_cases Hy;
      intros Heq; first [reflexivity | vm_compute in Heq; discriminate Heq].
Defined.

Lemma setitem_getitem_witness :
  exists self',
    BitString.setitem (BitString.new 12) 9 0 = Ok self' /\
    BitString.l self' = 12 /\
    length (BitString._bs self') = 2%nat /\
    BitString.getitem self' 9 = Ok 1.
Proof.
  apply (BitStringProofs.setitem_getitem (BitString.new 12) 9 0 9);
    [vm_compute; split; congruence ..|now left].
Defined.

Lemma weight_counts_ones_witness :
  BitString.weight {| BitString.l := 12; BitString._bs := [5; 9] |}
  = Ok (Z.of_nat (length
      (filter (fun i => BitString.getitem
                          {| BitString.l := 12; BitString._bs := [5; 9] |} i
                        = Ok 1)
         (py_range 0 (8 * Z.of_nat 2))))).
Proof.
  apply (BitStringWeight.weight_counts_ones
           {| BitString.l := 12; BitString._bs := [5; 9] |}).
  repeat constructor; lia.
Defined.

Lemma or_and_whole_bytes_witness :
  exists U V,
    BitString.or_ {| BitString.l := 12; BitString._bs := [5; 9] |}
                  {| BitString.l := 12; BitString._bs := [3; 2] |} = Ok U /\
    BitString.and_ {| BitString.l := 12; BitString._bs := [5; 9] |}
                   {| BitString.l := 12; BitString._bs := [3; 2] |} = Ok V /\
    (forall j, 0 <= j < 8 * (12 / 8) ->
       exists a b,
         BitString.getitem
           {| BitString.l := 12; BitString._bs := [5; 9] |} j = Ok a /\
         BitString.getitem
           {| BitString.l := 12; BitString._bs := [3; 2] |} j = Ok b /\
         BitString.getitem U j = Ok (Z.lor a b) /\
         BitString.getitem V j = Ok (Z.land a b)) /\
    (forall j, 8 * (12 / 8) <= j < 8 * ((12 + 7) / 8) ->
       BitString.getitem U j = Ok 0 /\ BitString.getitem V j = Ok 0).
Proof.
  apply (BloomFilterProofs.or_and_whole_bytes
           {| BitString.l := 12; BitString._bs := [5; 9] |}
           {| BitString.l := 12; BitString._bs := [3; 2] |});
    vm_compute; congruence.
Defined.

Lemma contains_after_add_all_witness :
  exists bf c,
    BloomFilter.add_all (BloomFilter.new 64 8) [[x61]; [x62]] = Ok bf /\
    BloomFilter.contains bf [x63] = Ok c /\
    (c = true <->
     forall h j, h ∈ BloomFilter._h (BloomFilter.new 64 8) ->
       h [x63] = Ok j ->
       exists h' elem, h' ∈ BloomFilter._h (BloomFilter.new 64 8) /\
         elem ∈ [[x61]; [x62]] /\ h' elem = Ok j).
Proof.
  apply (BloomFilterProofs.contains_after_add_all 64 8 [[x61]; [x62]] [x63]).
  lia.
Defined.

Lemma add_all_no_false_negative_witness :
  exists bf,
    BloomFilter.add_all (BloomFilter.new 64 8) [[x61]; [x62]; [x63]] = Ok bf /\
    forall x, x ∈ [[x61]; [x62]; [x63]] -> BloomFilter.contains bf x = Ok true.
Proof.
  apply (BloomFilterProofs.add_all_no_false_negative 64 8
           [[x61]; [x62]; [x63]]).
  lia.
Defined.

Lemma fresh_filter_contains_witness :
  BloomFilter.contains (BloomFilter.new 64 0) [x61] = Ok true /\
  BloomFilter.contains (BloomFilter.new 64 8) [x61] = Ok false.
Proof.
  split.
  - apply (BloomFilterProofs.fresh_filter_contains 64 0 [x61]). lia.
  - apply (BloomFilterProofs.fresh_filter_contains 64 8 [x61]). lia.
Defined.

Lemma union_intersection_aligned_witness :
  exists A B U I,
    BloomFilter.add_all (BloomFilter.new 64 8) [[x61]; [x62]] = Ok A /\
    BloomFilter.add_all (BloomFilter.new 64 8) [[x62]; [x63]] = Ok B /\
    BloomFilter.union A B = Ok U /\
    BloomFilter.intersection A B = Ok I /\
    (forall x, BloomFilter.contains A x = Ok true \/
               BloomFilter.contains B x = Ok true ->
               BloomFilter.contains U x = Ok true) /\
    (forall x, BloomFilter.contains I x = Ok true <->
               BloomFilter.contains A x = Ok true /\
               BloomFilter.contains B x = Ok true).
Proof.
  apply (BloomFilterProofs.union_intersection_aligned 64 8
           [[x61]; [x62]] [[x62]; [x63]]); [lia|reflexivity].
Defined.

Lemma hash_prefixes_distinct_witness :
  to_bytes (bit_length 8) 3 = Ok (int_to_bytes (bit_length 8) 3) /\
  (int_to_bytes (bit_length 8) 3 ++ [x61]
   = int_to_bytes (bit_length 8) 5 ++ [x62] -> 3 = 5 /\ [x61] = [x62]).
Proof.
  apply (BloomFilterProofs.hash_prefixes_distinct 8 3 5 [x61] [x62]); lia.
Defined.

(** Two clients of the efficient multi-client scheme, on the small
    instances and the second hash: [scheme.client_count = 2], as the
    callers assign it, then [setup(128, 2, m, k)] and the two
    encryptions. *)
Module Scenario6.
Import MultiClientCardinalityEfficient.

Definition fresh : scheme * rng := @init ToyGroup toy_rng.
Definition assigned : scheme :=
  {| g := g fresh.1; client_count := Some 2; m := None; k := None |}.
Definition ran (m0 k0 : Z) := @setup ToyGroup assigned 128 2 m0 k0 fresh.2.
Definition self (m0 k0 : Z) : scheme :=
  match ran m0 k0 with Ok (s, _, _) => s | Raise _ => assigned end.
Definition usks (m0 k0 : Z) : list (bytes * ZR * ZR) :=
  match ran m0 k0 with Ok (_, us, _) => us | Raise _ => [] end.
Definition usk (m0 k0 : Z) (i : nat) : bytes * ZR * ZR :=
  default ([], Zmod.zero, Zmod.zero) (usks m0 k0 !! i).
Definition rng_after (m0 k0 : Z) : rng :=
  match ran m0 k0 with Ok (_, _, r) => r | Raise _ => toy_rng end.

Lemma ran_Ok (m0 k0 : Z) :
  is_Ok (ran m0 k0) = true ->
  ran m0 k0 = Ok (self m0 k0, usks m0 k0, rng_after m0 k0).
Proof.
  unfold self, usks, rng_after.
  destruct (ran m0 k0) as [[[s us] r]|]; [done|discriminate].
Qed.

Abbreviation encrypted m0 k0 i pt_set r :=
  (@encrypt ToyGroup ToyCipher RollingMurmur (self m0 k0) (usk m0 k0 i)
     gid1 pt_set r).

Definition ct_of
    (c : result (list point * list (list (point * point)) * rng))
    : ct_tuple :=
  match c with Ok (c, e, _) => (c, e) | Raise _ => ([], []) end.

Definition S0 : list bytes := [[x61]; [x62]].
Definition S1 : list bytes := [[x61]; [x62]; [x63]].
Definition ct_sets (m0 k0 : Z) : list ct_tuple :=
  [ct_of (encrypted m0 k0 0 S0 (rng_after m0 k0));
   ct_of (encrypted m0 k0 1 S1 toy_rng)].
End Scenario6.

Lemma encrypt_shape_witness :
  exists ct_bf_set ct_elements r',
    Scenario6.encrypted 16 2 0 Scenario6.S0 toy_rng
    = Ok (ct_bf_set, ct_elements, r') /\
    length ct_bf_set = Z.to_nat 16 /\
    length ct_elements = length Scenario6.S0 /\
    Forall (fun ct_element => length ct_element = Z.to_nat 16) ct_elements.
Proof.
  apply (MultiClientCardinalityEfficientEncrypt.encrypt_shape
           (Scenario6.self 16 2) (Scenario6.usk 16 2 0) gid1 Scenario6.S0
           toy_rng 16 2).
  - reflexivity.
  - reflexivity.
  - vm_compute. reflexivity.
  - reflexivity.
  - vm_compute. split; congruence.
Defined.

(** With [k = 1] the positions are encoded on one byte: no filter of more
    than 256 bits can be encrypted. *)
Lemma encrypt_position_overflow_witness :
  Scenario6.encrypted 257 1 0 Scenario6.S0 toy_rng = Raise OverflowError.
Proof.
  apply (MultiClientCardinalityEfficientEncrypt.encrypt_position_overflow
           (Scenario6.self 257 1) (Scenario6.usk 257 1 0) gid1 Scenario6.S0
           toy_rng 257 1).
  - reflexivity.
  - reflexivity.
  - vm_compute. reflexivity.
  - reflexivity.
  - vm_compute. reflexivity.
Defined.

(** The key of 8 bytes of [setup(64, ...)], and a gid of 1 byte. *)
Lemma encrypt_checks_witness :
  MultiClientCardinalityEfficient.encrypt Scenario6.assigned
    (Scenario6.usk 16 2 0) gid1 Scenario6.S0 toy_rng = Raise AttributeError /\
  MultiClientCardinalityEfficient.encrypt (Scenario6.self 16 2)
    (repeat x2a 8, Zmod.zero, Zmod.zero) gid1 Scenario6.S0 toy_rng
    = Raise ValueError /\
  MultiClientCardinalityEfficient.encrypt (Scenario6.self 16 2)
    (Scenario6.usk 16 2 0) [x01] Scenario6.S0 toy_rng = Raise ValueError.
Proof.
  split; [|split].
  - apply (MultiClientCardinalityEfficientEncrypt.encrypt_checks
             Scenario6.assigned (Scenario6.usk 16 2 0) gid1 Scenario6.S0
             toy_rng).
    left. reflexivity.
  - apply (proj2 (MultiClientCardinalityEfficientEncrypt.encrypt_checks
                    (Scenario6.self 16 2)
                    (repeat x2a 8, Zmod.zero, Zmod.zero) gid1 Scenario6.S0
                    toy_rng) 16 2); [reflexivity|reflexivity|].
    left. reflexivity.
  - apply (proj2 (MultiClientCardinalityEfficientEncrypt.encrypt_checks
                    (Scenario6.self 16 2) (Scenario6.usk 16 2 0) [x01]
                    Scenario6.S0 toy_rng) 16 2); [reflexivity|reflexivity|].
    right. vm_compute. lia.
Defined.

Lemma eval_at_most_smallest_set_witness :
  0 <= 2 /\
  forall ct, ct ∈ Scenario6.ct_sets 16 2 -> 2 <= Z.of_nat (length ct.2).
Proof.
  apply (MultiClientCardinalityEfficientEval.eval_at_most_smallest_set
           (Scenario6.self 16 2) (Scenario6.ct_sets 16 2) 2).
  vm_compute. reflexivity.
Defined.

(** With one hash function, the two common elements are not counted. *)
Lemma eval_single_hash_zero_witness :
  MultiClientCardinalityEfficient.eval (Scenario6.self 16 1)
    (Scenario6.ct_sets 16 1) = Ok 0 /\ 0 = 0.
Proof.
  assert (Hrun : MultiClientCardinalityEfficient.eval (Scenario6.self 16 1)
                   (Scenario6.ct_sets 16 1) = Ok 0)
    by (vm_compute; reflexivity).
  split; [exact Hrun|].
  apply (MultiClientCardinalityEfficientEval.eval_single_hash_zero
           (Scenario6.self 16 1) (Scenario6.ct_sets 16 1) 1 0);
    [reflexivity|lia|exact Hrun].
Defined.

Lemma setup_shares_interpolate_zero_witness :
  length (Scenario6.usks 16 2) = Z.to_nat 2 /\
  (forall u u', u ∈ Scenario6.usks 16 2 -> u' ∈ Scenario6.usks 16 2 ->
     u.1.1 = u'.1.1) /\
  forall gamma u, 1 <= gamma <= 2 ->
    Scenario6.usks 16 2 !! Z.to_nat (gamma - 1) = Some u ->
    let S := map init_ZR (py_range 1 (1 + 2)) ++ [init_ZR (2 + gamma)] in
    zr_sum (zip_with
              (fun x y => Zmod.mul y (MultiClientCardinalityEfficient.delta S x))
              S (map (fun u => u.1.2) (Scenario6.usks 16 2) ++ [u.2]))
    = Zmod.zero.
Proof.
  apply (MultiClientCardinalityEfficientKeys.setup_shares_interpolate_zero
           Scenario6.assigned (Scenario6.self 16 2) 128 2 16 2 2
           Scenario6.fresh.2 (Scenario6.rng_after 16 2)).
  - reflexivity.
  - lia.
  - vm_compute. reflexivity.
  - apply Scenario6.ran_Ok. vm_compute. reflexivity.
Defined.

Lemma setup_key_count_witness :
  length (Scenario4.usks 3) = Z.to_nat (Z.max 3 1) /\
  (3 <= 1 -> Scenario4.usks 3 = [Zmod.zero]) /\
  MultiClientCardinality.client_count (Scenario4.self 3) = Some 3 /\
  MultiClientCardinality.g (Scenario4.self 3)
  = MultiClientCardinality.g Scenario4.fresh.1 /\
  pos (Scenario4.keys 3).2 = (pos Scenario4.fresh.2 + Z.to_nat (3 - 1))%nat.
Proof.
  apply (MultiClientCardinalityBounds.setup_key_count
           Scenario4.fresh.1 (Scenario4.self 3) 128 3 Scenario4.fresh.2).
  reflexivity.
Defined.

Lemma eval_at_most_every_set_witness :
  MultiClientCardinality.eval (Scenario4.self 3)
    (Scenario4.ct_sets 3 Scenario4.three_sets) = Ok 2%nat /\
  forall X, X ∈ Scenario4.ct_sets 3 Scenario4.three_sets -> (2 <= size X)%nat.
Proof.
  assert (Hrun : MultiClientCardinality.eval (Scenario4.self 3)
                   (Scenario4.ct_sets 3 Scenario4.three_sets) = Ok 2%nat)
    by run_decide.
  split; [exact Hrun|].
  apply (MultiClientCardinalityBounds.eval_at_most_every_set
           (Scenario4.self 3) (Scenario4.ct_sets 3 Scenario4.three_sets) 2).
  exact Hrun.
Defined.

Lemma intersection_setup_shares_witness :
  Scenario2.usk0.1 = Scenario2.usk1.1 /\
  length Scenario2.usk0.1 = Z.to_nat (128 / 8) /\
  Zmod.add Scenario2.usk0.2 Scenario2.usk1.2 = Zmod.one /\
  (forall a : point, mul (pow a Scenario2.usk0.2) (pow a Scenario2.usk1.2) = a) /\
  TwoClientIntersection.secpar Scenario2.self = Some 128.
Proof.
  apply (intersection_setup_shares Scenario2.fresh.1 Scenario2.self 128
           Scenario2.fresh.2 (Scenario2.keys 128).2).
  - lia.
  - exact Scenario2.intersection_ran_Ok.
Defined.

Lemma threshold_setup_shares_witness :
  Zmod.add (TwoClientThreshold.sigma Scenario3.usk0)
           (TwoClientThreshold.sigma Scenario3.usk1) = Zmod.one /\
  (TwoClientThreshold.rho Scenario3.usk0
   + TwoClientThreshold.rho Scenario3.usk1) mod (order - 1) = 1.
Proof.
  destruct (threshold_setup_shares Scenario3.fresh.1 Scenario3.self 128 2
              Scenario3.fresh.2 Scenario3.keys.2 Scenario3.usk0 Scenario3.usk1)
    as (_ & _ & Hsigma & (_ & _ & Hrho) & _).
  - lia.
  - vm_compute. reflexivity.
  - apply (Scenario3.threshold_ran_Ok 128 2). vm_compute. reflexivity.
  - split; [exact Hsigma|exact Hrho].
Defined.

Lemma shamir_recovery_witness :
  let cs : list ZR := [init_ZR 5; init_ZR 7] in
  let xs : list ZR := [init_ZR 1; init_ZR 2; init_ZR 3] in
  zr_sum (zip_with (fun x y => Zmod.mul y (TwoClientThreshold.delta xs x))
            xs (map (TwoClientThreshold.f cs) xs))
  = init_ZR 5.
Proof.
  intros cs xs. apply (shamir_recovery cs xs).
  - run_decide.
  - simpl. lia.
Defined.

Lemma eval_key_overlap_witness :
  (Z.of_nat (size (dom Scenario3b.D0 ∩ dom Scenario3.D1)) < 2 ->
     TwoClientThreshold.eval Scenario3.self [Scenario3b.D0; Scenario3.D1]
     = Ok (size (dom Scenario3b.D0 ∩ dom Scenario3.D1), ∅)) /\
  (forall c I, TwoClientThreshold.eval Scenario3.self
                 [Scenario3b.D0; Scenario3.D1] = Ok (c, I) ->
     c = size (dom Scenario3b.D0 ∩ dom Scenario3.D1) /\
     (size I <= c)%nat).
Proof.
  apply (TwoClientThresholdEdges.eval_key_overlap Scenario3.self
           Scenario3b.D0 Scenario3.D1 2).
  - reflexivity.
  - lia.
Defined.

Lemma eval_all_or_nothing_witness :
  let d0 := Scenario2.dict Scenario2.usk0 gid1 [[x61]; [x62]] in
  let d1 := Scenario2.dict Scenario2.usk1 gid1 [[x62]; [x63]] in
  (forall k, k ∈ dom d0 ∩ dom d1 ->
     exists pt, TwoClientIntersectionEval.opens d0 d1 k pt /\ pt ∈ ({[ [x62] ]} : gset bytes)) /\
  (forall pt, pt ∈ ({[ [x62] ]} : gset bytes) ->
     exists k, k ∈ dom d0 ∩ dom d1 /\ TwoClientIntersectionEval.opens d0 d1 k pt).
Proof.
  intros d0 d1.
  apply (TwoClientIntersectionEval.eval_all_or_nothing Scenario2.self d0 d1).
  run_decide.
Defined.

Lemma Scenario6_ct_of_Ok
    (c : result (list point * list (list (point * point)) * rng)) :
  is_Ok c = true ->
  exists r', c = Ok ((Scenario6.ct_of c).1, (Scenario6.ct_of c).2, r').
Proof. destruct c as [[[bf ces] r']|e]; [eauto|discriminate]. Qed.

Lemma list_of_two {A} (d : A) (l : list A) :
  length l = 2%nat -> l = [default d (l !! 0%nat); default d (l !! 1%nat)].
Proof. destruct l as [|x [|y [|z l]]]; done. Qed.

(** Two clients with 16 filter bits and 2 hash functions: the two
    elements of the smaller set are in both sets, and both are counted. *)
Lemma eval_counts_common_elements_witness :
  MultiClientCardinalityEfficient.eval (Scenario6.self 16 2)
    (Scenario6.ct_sets 16 2)
  = Ok (MultiClientCardinalityEfficientCorrect.count_set
          (MultiClientCardinalityEfficientCorrect.counted
             (H0 := ToyCipher) (H1 := RollingMurmur) 16 2
             (Scenario6.usk 16 2 0).1.1 gid1 [Scenario6.S0; Scenario6.S1])
          Scenario6.S0) /\
  MultiClientCardinalityEfficientCorrect.count_set
    (MultiClientCardinalityEfficientCorrect.counted
       (H0 := ToyCipher) (H1 := RollingMurmur) 16 2
       (Scenario6.usk 16 2 0).1.1 gid1 [Scenario6.S0; Scenario6.S1])
    Scenario6.S0 = 2.
Proof.
  split; [|vm_compute; reflexivity].
  apply (MultiClientCardinalityEfficientCorrect.eval_counts_common_elements
           (H0 := ToyCipher) (H1 := RollingMurmur)
           Scenario6.assigned (Scenario6.self 16 2) 128 2 16 2 2
           (Scenario6.fresh).2 (Scenario6.rng_after 16 2)
           (Scenario6.usks 16 2) (Scenario6.usk 16 2 0).1.1 gid1
           [Scenario6.S0; Scenario6.S1] (Scenario6.ct_sets 16 2) 0
           Scenario6.S0).
  - intros a s t. symmetry. apply Zmod.mul_assoc.
  - intros a b s. apply Zmod.mul_add_l.
  - reflexivity.
  - lia.
  - vm_compute. reflexivity.
  - vm_compute. split; congruence.
  - apply Scenario6.ran_Ok. vm_compute. reflexivity.
  - intros u Hu. revert u Hu. apply Forall_forall. run_decide.
  - assert (Husks : Scenario6.usks 16 2
                    = [Scenario6.usk 16 2 0; Scenario6.usk 16 2 1]).
    { unfold Scenario6.usk. apply list_of_two. vm_compute. reflexivity. }
    rewrite Husks. unfold Scenario6.ct_sets.
    apply Forall3_cons; [|apply Forall3_cons; [|apply Forall3_nil]].
    + destruct (Scenario6_ct_of_Ok
                  (Scenario6.encrypted 16 2 0 Scenario6.S0
                     (Scenario6.rng_after 16 2))) as [r' Hr'].
      { vm_compute. reflexivity. }
      exists (Scenario6.rng_after 16 2), r'.
      exact Hr'.
    + destruct (Scenario6_ct_of_Ok
                  (Scenario6.encrypted 16 2 1 Scenario6.S1 toy_rng))
        as [r' Hr'].
      { vm_compute. reflexivity. }
      exists toy_rng, r'.
      exact Hr'.
  - reflexivity.
  - intros pts Hpts. list_cases Hpts; cbn; lia.
  - intros j pts Hj. lia.
  - vm_compute. reflexivity.
Defined.

(** [setup(64)] returns a key of 8 bytes, which no [encrypt] takes. *)
Lemma setup_unusable_keys_witness :
  exists key r',
    TwoClientCardinality.setup 64 toy_rng = Ok ((key, key), r') /\
    forall gid S, TwoClientCardinality.encrypt key gid S = Raise ValueError.
Proof.
  apply (KeySizes.setup_unusable_keys (H3 := ToyMurmur) 64 toy_rng).
  - lia.
  - vm_compute. intros [E|[E|E]]; discriminate E.
Defined.
